(** * languageModel.ts: the numerical learning engine

    A shallow embedding of [services/languageModel.ts]: the matrix
    utilities, the activations, the four training steps (FFNN, RNN, GRU,
    LSTM) and the four generators, followed by the properties of the
    engine that the specification states.

    Numbers.  A JavaScript [number] holding a matrix element, a loss, a
    learning rate or a probability is a real number [R]; sizes, cursors
    and token ids are naturals, and the one place where the source
    computes a possibly negative integer ([encodedText.length - 1]) is
    computed in [Z].  Rounding, [NaN] and the infinities are outside this
    model.

    Reads.  [mget m i j] is the read [m.data[i][j]].  In the source a read
    past the end of a row gives [undefined]; here it gives [0].  Every loop
    of the source runs over [rows] and [cols], so on a matrix whose [data]
    agrees with its [rows] and [cols] (the predicate [shape]) no such read
    happens.

    Errors.  [dot], [subtract] and [multiply] throw on a dimension
    mismatch: they return [option Matrix], and [None] is the throw.

    Randomness.  [Math.random] is a stream [rand : nat -> R] read at an
    explicit position that each draw advances by one; the recurrent
    training steps and the generators return the position they reach.

    Maps.  [tokenToIndex] is a finite map from token strings to ids: the
    entries of the object itself.  Where the source reads it with a key
    that can be any text (the seed of a generator), the read is
    [read_index], which also finds the names that a plain object inherits
    from [Object.prototype].

    Loss.  The loss of a pair whose target id is not a valid index is
    [NaN] in the source; [row0_at] reads 0 there.  Nothing below depends
    on the value of a loss other than that of the empty window. *)

From Stdlib Require Import Reals Lra Lia ZArith.
From stdpp Require Import base option list strings gmap.

Local Open Scope R_scope.

(* ===================================================================== *)
(** ** Matrices *)
(* ===================================================================== *)

Record Matrix : Type := mkMatrix {
  rows : nat;
  cols : nat;
  data : list (list R)
}.

(** [m.data[i][j]] *)
Definition mget (m : Matrix) (i j : nat) : R :=
  nth j (nth i (data m) []) 0.

(** A [rows] by [cols] array whose cell (i,j) holds [f i j]: the result of
    [createMatrix(rows, cols)] after the two nested loops of the source
    have assigned [result.data[i][j] = f i j]. *)
Definition tabulate (r c : nat) (f : nat -> nat -> R) : list (list R) :=
  map (fun i => map (fun j => f i j) (seq 0 c)) (seq 0 r).

Definition build (r c : nat) (f : nat -> nat -> R) : Matrix :=
  mkMatrix r c (tabulate r c f).

(** [createMatrix(rows, cols, fill)] with a constant [fill]. *)
Definition createMatrix (r c : nat) (fill : R) : Matrix :=
  mkMatrix r c (repeat (repeat fill c) r).

(** [createMatrix(1, cols, () => g(Math.random()))]: the fill function is
    called once per cell, left to right, so cell j reads draw [pos + j]. *)
Definition createMatrixRandomRow (c : nat) (rand : nat -> R) (pos : nat)
    (g : R -> R) : Matrix :=
  mkMatrix 1 c [map (fun j => g (rand (pos + j)%nat)) (seq 0 c)].

(** The inner loop of [dot]: [sum += a.data[i][k] * b.data[k][j]] for k
    from 0, starting at 0. *)
Definition dot_cell (a b : Matrix) (i j : nat) : R :=
  fold_left (fun s k => s + mget a i k * mget b k j) (seq 0 (cols a)) 0.

Definition dot (a b : Matrix) : option Matrix :=
  if negb (cols a =? rows b)%nat then None
  else Some (build (rows a) (cols b) (dot_cell a b)).

Definition add (a b : Matrix) : Matrix :=
  if negb (rows a =? rows b)%nat || negb (cols a =? cols b)%nat then
    if (1 <? rows a)%nat && (rows b =? 1)%nat then
      build (rows a) (cols a) (fun i j => mget a i j + mget b 0 j)
    else a
  else build (rows a) (cols a) (fun i j => mget a i j + mget b i j).

Definition subtract (a b : Matrix) : option Matrix :=
  if negb (rows a =? rows b)%nat || negb (cols a =? cols b)%nat then None
  else Some (build (rows a) (cols a) (fun i j => mget a i j - mget b i j)).

Definition multiply (a b : Matrix) : option Matrix :=
  if negb (rows a =? rows b)%nat || negb (cols a =? cols b)%nat then None
  else Some (build (rows a) (cols a) (fun i j => mget a i j * mget b i j)).

Definition scale (m : Matrix) (s : R) : Matrix :=
  build (rows m) (cols m) (fun i j => mget m i j * s).

Definition transpose (m : Matrix) : Matrix :=
  build (cols m) (rows m) (fun j i => mget m i j).

Definition map_matrix (m : Matrix) (fn : R -> R) : Matrix :=
  build (rows m) (cols m) (fun i j => fn (mget m i j)).

Definition ones (r c : nat) : Matrix := createMatrix r c 1.

(** [Math.max(-5, Math.min(5, v))] mapped over a matrix: the [clip] that
    each training step declares locally. *)
Definition clip_value (v : R) : R := Rmax (-5) (Rmin 5 v).
Definition clip (m : Matrix) : Matrix := map_matrix m clip_value.

(* ===================================================================== *)
(** ** Activations *)
(* ===================================================================== *)

Definition dtanh (y : R) : R := 1 - y * y.
Definition sigmoid (x : R) : R := 1 / (1 + exp (- x)).
Definition dsigmoid (y : R) : R := y * (1 - y).

(** [Math.max(...l)] on a row that is not empty. *)
Definition Rlist_max (l : list R) : R :=
  match l with
  | [] => 0
  | x :: xs => fold_left Rmax xs x
  end.

Definition Rsum (l : list R) : R := fold_left Rplus l 0.

(** [sumExps || 1] *)
Definition or_one (s : R) : R := if Req_dec_T s 0 then 1 else s.

Definition softmax (m : Matrix) : Matrix :=
  match data m with
  | [] => createMatrix 1 (cols m) 0
  | [] :: _ => createMatrix 1 (cols m) 0
  | row :: _ =>
      let maxVal := Rlist_max row in
      let exps := map (fun x => exp (x - maxVal)) row in
      let sumExps := Rsum exps in
      mkMatrix 1 (cols m) [map (fun e => e / or_one sumExps) exps]
  end.

(* ===================================================================== *)
(** ** Model state (types.ts) *)
(* ===================================================================== *)

Record Layer : Type := mkLayer {
  weights : Matrix;
  biases : Matrix
}.

(** The four model records share field names ([vocab], [tokenToIndex],
    [Why], [h]); each lives in a module of its own. *)
Module FFNN.
Record FFNNModel : Type := mk {
  vocab : list string;
  tokenToIndex : gmap string nat;
  hiddenLayer : Layer;
  outputLayer : Layer
}.
End FFNN.

Module RNN.
Record RNNModel : Type := mk {
  vocab : list string;
  tokenToIndex : gmap string nat;
  Wxh : Layer;
  Whh : Layer;
  Why : Layer;
  h : Matrix
}.
End RNN.

Module GRU.
Record GRULanguageModel : Type := mk {
  vocab : list string;
  tokenToIndex : gmap string nat;
  Wz : Layer; Uz : Layer;
  Wr : Layer; Ur : Layer;
  Wh : Layer; Uh : Layer;
  Why : Layer;
  h : Matrix
}.
End GRU.

Module LSTM.
Record LSTMLanguageModel : Type := mk {
  vocab : list string;
  tokenToIndex : gmap string nat;
  Wf : Layer; Uf : Layer;
  Wi : Layer; Ui : Layer;
  Wo : Layer; Uo : Layer;
  Wc : Layer; Uc : Layer;
  Why : Layer;
  h : Matrix;
  c : Matrix
}.
End LSTM.

(** One entry of [predictionResults].  A token is [None] where the source
    holds [undefined] ([model.vocab[i]] with [i] out of range). *)
Record Prediction : Type := mkPrediction {
  p_inputToken : option string;
  p_targetToken : option string;
  p_predictedToken : option string
}.

(** [TrainStepResult], for a model type [M].  [gradients] is the pair
    [(hiddenLayer, outputLayer)] that only the FFNN step fills in;
    [gateActivations] lists the gates of the last step ([z; r] for the GRU,
    [f; i; o] for the LSTM). *)
Record TrainStepResult (M : Type) : Type := mkResult {
  updatedModel : M;
  loss : R;
  inputToken : option string;
  targetToken : option string;
  predictedToken : option string;
  predictionResults : list Prediction;
  act_hidden : option Matrix;
  act_output : option Matrix;
  act_outputRaw : option Matrix;
  gradients : option (Layer * Layer);
  gateActivations : list Matrix
}.
Arguments mkResult {M}.
Arguments updatedModel {M}.
Arguments loss {M}.
Arguments inputToken {M}.
Arguments targetToken {M}.
Arguments predictedToken {M}.
Arguments predictionResults {M}.
Arguments act_hidden {M}.
Arguments act_output {M}.
Arguments act_outputRaw {M}.
Arguments gradients {M}.
Arguments gateActivations {M}.

(* ===================================================================== *)
(** ** Helpers shared by the training steps *)
(* ===================================================================== *)

(** [m.data[0][idx] = f(m.data[0][idx])] on a copy of [m].  An [idx] that
    is [undefined] or past the row adds a property that no loop of the
    source reads (they all stop at [cols]): the matrix is unchanged. *)
Definition update_row0 (m : Matrix) (idx : option nat) (f : R -> R) : Matrix :=
  match idx, data m with
  | Some j, row :: rest => mkMatrix (rows m) (cols m) (alter f j row :: rest)
  | _, _ => m
  end.

(** [createMatrix(1, vocabSize)] followed by [data[0][idx] = 1]. *)
Definition one_hot (vocabSize : nat) (idx : option nat) : Matrix :=
  update_row0 (createMatrix 1 vocabSize 0) idx (fun _ => 1).

(** The deep copy of [prob] with 1 subtracted at the target. *)
Definition softmax_grad (prob : Matrix) (target : option nat) : Matrix :=
  update_row0 prob target (fun v => v - 1).

(** [m.data[0][idx]] for a token id read from the corpus. *)
Definition row0_at (m : Matrix) (idx : option nat) : R :=
  match idx with
  | Some j => mget m 0 j
  | None => 0
  end.

Definition epsilon : R := 1 / 1000000000.

(** [-Math.log(probs.data[0][target] + 1e-9)] *)
Definition crossEntropy (prob : Matrix) (target : option nat) : R :=
  - ln (row0_at prob target + epsilon).

(** [row.indexOf(v)]: the first position holding [v]. *)
Fixpoint indexOf (v : R) (row : list R) : option nat :=
  match row with
  | [] => None
  | x :: xs => if Req_dec_T x v then Some 0%nat else S <$> indexOf v xs
  end.

(** [prob.data[0].indexOf(Math.max(...prob.data[0]))]; [None] is the -1
    that [indexOf] returns on an empty row. *)
Definition argmax_row0 (prob : Matrix) : option nat :=
  match data prob with
  | (x :: xs) :: _ => indexOf (Rlist_max (x :: xs)) (x :: xs)
  | _ => None
  end.

(** [model.vocab[idx]] *)
Definition token_at (vocab : list string) (idx : option nat) : option string :=
  idx ≫= fun i => vocab !! i.

(** [encodedText[z]] for an integer position that may be negative. *)
Definition text_at (encodedText : list nat) (z : Z) : option nat :=
  if (z <? 0)%Z then None else encodedText !! Z.to_nat z.

(** [Math.min(step + length, encodedText.length - 1)] *)
Definition window_end (encodedText : list nat) (step len : nat) : Z :=
  Z.min (Z.of_nat step + Z.of_nat len) (Z.of_nat (length encodedText) - 1).

(** The inverted-dropout mask:
    [createMatrix(1, hiddenSize, () => Math.random() < dropoutRate ? 0 : scaleFactor)]. *)
Definition dropout_mask (hiddenSize : nat) (dropoutRate : R)
    (rand : nat -> R) (pos : nat) : Matrix :=
  let scaleFactor := 1 / (1 - dropoutRate) in
  createMatrixRandomRow hiddenSize rand pos
    (fun u => if Rlt_dec u dropoutRate then 0 else scaleFactor).

(** The dropout block of the three recurrent steps: the mask (if any), the
    dropped state and the next position in the random stream. *)
Definition apply_dropout (hiddenSize : nat) (dropoutRate : R)
    (rand : nat -> R) (pos : nat) (h_t : Matrix)
    : option (option Matrix * Matrix * nat) :=
  if Rlt_dec 0 dropoutRate then
    let mask := dropout_mask hiddenSize dropoutRate rand pos in
    dropped ← multiply h_t mask;
    Some (Some mask, dropped, (pos + hiddenSize)%nat)
  else Some (None, h_t, pos).

(** [if (mask) { dh = multiply(dh, mask); }] *)
Definition mask_grad (dh : Matrix) (mask : option Matrix) : option Matrix :=
  match mask with
  | Some mk => multiply dh mk
  | None => Some dh
  end.

(** [add(w, scale(clip(grad), lr))] *)
Definition descend (w grad : Matrix) (lr : R) : Matrix :=
  add w (scale (clip grad) lr).

(* ===================================================================== *)
(** ** FFNN *)
(* ===================================================================== *)

Record FFNNVis : Type := mkVis {
  v_inputToken : option string;
  v_targetToken : option string;
  v_predictedToken : option string;
  v_hidden : Matrix;
  v_output : Matrix;
  v_outputRaw : Matrix
}.

(** The variables that the batch loop of [trainStepFFNN] updates. *)
Record FFNNAcc : Type := mkAcc {
  hiddenGrad : Layer;
  outputGrad : Layer;
  totalLoss : R;
  lastResultForVis : option FFNNVis;
  predictions : list Prediction
}.

(** The four gradients of one (input, target) pair:
    [(dHiddenWeights, dHiddenBiases, dOutputWeights, dOutputBiases)],
    with the forward values they come from. *)
Record FFNNExample : Type := mkExample {
  hiddenActivated : Matrix;
  outputRaw : Matrix;
  outputProbs : Matrix;
  dHiddenWeights : Matrix;
  dHiddenBiases : Matrix;
  dOutputWeights : Matrix;
  dOutputBiases : Matrix
}.

(** Forward and backward pass of the loop body for the pair at [i]. *)
Definition ffnn_example (model : FFNN.FFNNModel) (encodedText : list nat)
    (i : nat) : option FFNNExample :=
  let vocabSize := length (FFNN.vocab model) in
  let inputIndex := encodedText !! i in
  let targetIndex := encodedText !! S i in
  let inputVector := one_hot vocabSize inputIndex in
  xw ← dot inputVector (weights (FFNN.hiddenLayer model));
  let hiddenRaw := add xw (biases (FFNN.hiddenLayer model)) in
  let hiddenActivated := map_matrix hiddenRaw tanh in
  hw ← dot hiddenActivated (weights (FFNN.outputLayer model));
  let outputRaw := add hw (biases (FFNN.outputLayer model)) in
  let outputProbs := softmax outputRaw in
  let dOutput := softmax_grad outputProbs targetIndex in
  dOutputWeights ← dot (transpose hiddenActivated) dOutput;
  let dOutputBiases := dOutput in
  dHiddenActivated ← dot dOutput (transpose (weights (FFNN.outputLayer model)));
  dHiddenRaw ← multiply dHiddenActivated (map_matrix hiddenActivated dtanh);
  dHiddenWeights ← dot (transpose inputVector) dHiddenRaw;
  let dHiddenBiases := dHiddenRaw in
  Some (mkExample hiddenActivated outputRaw outputProbs
          dHiddenWeights dHiddenBiases dOutputWeights dOutputBiases).

(** One iteration of [for (let i = step; i < batchEnd; i++)]. *)
Definition ffnn_batch_step (model : FFNN.FFNNModel) (encodedText : list nat)
    (batchEnd : Z) (i : nat) (acc : FFNNAcc) : option FFNNAcc :=
  let inputIndex := encodedText !! i in
  let targetIndex := encodedText !! S i in
  ex ← ffnn_example model encodedText i;
  let loss := crossEntropy (outputProbs ex) targetIndex in
  let predictedIndex := argmax_row0 (outputProbs ex) in
  let entry := mkPrediction (token_at (FFNN.vocab model) inputIndex)
                            (token_at (FFNN.vocab model) targetIndex)
                            (token_at (FFNN.vocab model) predictedIndex) in
  Some (mkAcc
    (mkLayer (add (weights (hiddenGrad acc)) (dHiddenWeights ex))
             (add (biases (hiddenGrad acc)) (dHiddenBiases ex)))
    (mkLayer (add (weights (outputGrad acc)) (dOutputWeights ex))
             (add (biases (outputGrad acc)) (dOutputBiases ex)))
    (totalLoss acc + loss)
    (if (Z.of_nat i =? batchEnd - 1)%Z then
       Some (mkVis (p_inputToken entry) (p_targetToken entry)
                   (p_predictedToken entry)
                   (hiddenActivated ex) (outputProbs ex) (outputRaw ex))
     else lastResultForVis acc)
    (predictions acc ++ [entry])).

(** The batch loop, [n] iterations from position [i]. *)
Fixpoint ffnn_batch_loop (model : FFNN.FFNNModel) (encodedText : list nat)
    (batchEnd : Z) (n : nat) (i : nat) (acc : FFNNAcc) : option FFNNAcc :=
  match n with
  | O => Some acc
  | S n' =>
      acc' ← ffnn_batch_step model encodedText batchEnd i acc;
      ffnn_batch_loop model encodedText batchEnd n' (S i) acc'
  end.

Definition ffnn_result (model : FFNN.FFNNModel) (l : R) (acc : FFNNAcc)
    (preds : list Prediction) : TrainStepResult FFNN.FFNNModel :=
  let vis := lastResultForVis acc in
  mkResult model l
    (vis ≫= v_inputToken) (vis ≫= v_targetToken) (vis ≫= v_predictedToken)
    preds
    (v_hidden <$> vis) (v_output <$> vis) (v_outputRaw <$> vis)
    (Some (hiddenGrad acc, outputGrad acc))
    [].

Definition trainStepFFNN (model : FFNN.FFNNModel) (encodedText : list nat)
    (step batchSize : nat) (learningRate : R)
    : option (TrainStepResult FFNN.FFNNModel) :=
  let vocabSize := length (FFNN.vocab model) in
  let hiddenSize := cols (weights (FFNN.hiddenLayer model)) in
  let acc0 :=
    mkAcc (mkLayer (createMatrix vocabSize hiddenSize 0) (createMatrix 1 hiddenSize 0))
          (mkLayer (createMatrix hiddenSize vocabSize 0) (createMatrix 1 vocabSize 0))
          0 None [] in
  let batchEnd := window_end encodedText step batchSize in
  acc ← ffnn_batch_loop model encodedText batchEnd
           (Z.to_nat (batchEnd - Z.of_nat step)) step acc0;
  let batchActualSize := (batchEnd - Z.of_nat step)%Z in
  if (batchActualSize =? 0)%Z then
    Some (ffnn_result model 0 acc [])
  else
    let lr := - learningRate / IZR batchActualSize in
    let updatedModel :=
      FFNN.mk (FFNN.vocab model) (FFNN.tokenToIndex model)
        (mkLayer (descend (weights (FFNN.hiddenLayer model)) (weights (hiddenGrad acc)) lr)
                 (descend (biases (FFNN.hiddenLayer model)) (biases (hiddenGrad acc)) lr))
        (mkLayer (descend (weights (FFNN.outputLayer model)) (weights (outputGrad acc)) lr)
                 (descend (biases (FFNN.outputLayer model)) (biases (outputGrad acc)) lr)) in
    Some (ffnn_result updatedModel (totalLoss acc / IZR batchActualSize)
            acc (predictions acc)).

(* ===================================================================== *)
(** ** RNN *)
(* ===================================================================== *)

(** What the forward pass pushes on [cache] at each step. *)
Record RNNCache : Type := mkRNNCache {
  rc_inputVector : Matrix;
  rc_h_prev : Matrix;
  rc_h_next : Matrix;
  rc_mask : option Matrix;
  rc_prob : Matrix;
  rc_h_next_dropped : Matrix
}.

(** The variables of the forward loop, shared by the three recurrent
    steps, for a cache entry type [C]: [hiddenStates], [cellStates] (the
    LSTM only; empty otherwise), [cache], [totalLoss], [predictionResults]
    and the position in the random stream. *)
Record Forward (C : Type) : Type := mkForward {
  hiddenStates : list Matrix;
  cellStates : list Matrix;
  cache : list C;
  fw_totalLoss : R;
  fw_predictions : list Prediction;
  fw_pos : nat
}.
Arguments mkForward {C}.
Arguments hiddenStates {C}.
Arguments cellStates {C}.
Arguments cache {C}.
Arguments fw_totalLoss {C}.
Arguments fw_predictions {C}.
Arguments fw_pos {C}.

(** [l[l.length - 1]] for a list that is never empty. *)
Definition last_state (l : list Matrix) : Matrix :=
  List.last l (createMatrix 0 0 0).

(** The entry pushed on [predictionResults] at step [t]. *)
Definition prediction_at (vocab : list string) (encodedText : list nat)
    (t : nat) (prob : Matrix) : Prediction :=
  mkPrediction (token_at vocab (encodedText !! t))
               (token_at vocab (encodedText !! S t))
               (token_at vocab (argmax_row0 prob)).

(** The body of the forward loop at time [t]. *)
Definition rnn_forward_step (model : RNN.RNNModel) (encodedText : list nat)
    (dropoutRate : R) (rand : nat -> R) (t : nat) (st : Forward RNNCache)
    : option (Forward RNNCache) :=
  let vocabSize := length (RNN.vocab model) in
  let hiddenSize := cols (weights (RNN.Wxh model)) in
  let inputVector := one_hot vocabSize (encodedText !! t) in
  let h_prev := last_state (hiddenStates st) in
  xw ← dot inputVector (weights (RNN.Wxh model));
  hw ← dot h_prev (weights (RNN.Whh model));
  let h_next_raw := add (add xw (biases (RNN.Wxh model))) hw in
  let h_next := map_matrix h_next_raw tanh in
  '(mask, h_next_dropped, pos') ←
     apply_dropout hiddenSize dropoutRate rand (fw_pos st) h_next;
  hy ← dot h_next_dropped (weights (RNN.Why model));
  let outputRaw := add hy (biases (RNN.Why model)) in
  let prob := softmax outputRaw in
  let targetIndex := encodedText !! S t in
  Some (mkForward
    (hiddenStates st ++ [h_next_dropped])
    []
    (cache st ++ [mkRNNCache inputVector h_prev h_next mask prob h_next_dropped])
    (fw_totalLoss st + crossEntropy prob targetIndex)
    (fw_predictions st ++ [prediction_at (RNN.vocab model) encodedText t prob])
    pos').

(** [for (let t = step; t < seqEnd; t++)]: [n] iterations of [body]
    from time [t].  The three recurrent steps share this loop. *)
Fixpoint forward_loop {C : Type}
    (body : nat -> Forward C -> option (Forward C))
    (n : nat) (t : nat) (st : Forward C) : option (Forward C) :=
  match n with
  | O => Some st
  | S n' => st' ← body t st; forward_loop body n' (S t) st'
  end.

(** [for (let t = cache.length - 1; t >= 0; t--)], entered with
    [n = cache.length]; [G] holds the gradients.  [cache[t]] is
    destructured: a missing entry throws. *)
Fixpoint backward_loop {C G : Type} (body : nat -> C -> G -> option G)
    (cache : list C) (n : nat) (g : G) : option G :=
  match n with
  | O => Some g
  | S t => e ← cache !! t; g' ← body t e g; backward_loop body cache t g'
  end.

(** The accumulated gradients and the gradient handed to the earlier
    step. *)
Record RNNGrads : Type := mkRNNGrads {
  dWxh : Matrix;
  dWhh : Matrix;
  dWhy : Matrix;
  dbxh : Matrix;
  dbhy : Matrix;
  rg_dh_next_grad : Matrix
}.

(** The body of the backward loop at index [t] of the cache. *)
Definition rnn_backward_step (model : RNN.RNNModel) (encodedText : list nat)
    (step : nat) (t : nat) (e : RNNCache) (g : RNNGrads) : option RNNGrads :=
  let dy := softmax_grad (rc_prob e) (encodedText !! (step + t + 1)%nat) in
  hy ← dot (transpose (rc_h_next_dropped e)) dy;
  let dWhy' := add (dWhy g) hy in
  let dbhy' := add (dbhy g) dy in
  dhy ← dot dy (transpose (weights (RNN.Why model)));
  let dh0 := add dhy (rg_dh_next_grad g) in
  dh ← mask_grad dh0 (rc_mask e);
  dh_raw ← multiply dh (map_matrix (rc_h_next e) dtanh);
  let dbxh' := add (dbxh g) dh_raw in
  xg ← dot (transpose (rc_inputVector e)) dh_raw;
  let dWxh' := add (dWxh g) xg in
  hg ← dot (transpose (rc_h_prev e)) dh_raw;
  let dWhh' := add (dWhh g) hg in
  dh_next ← dot dh_raw (transpose (weights (RNN.Whh model)));
  Some (mkRNNGrads dWxh' dWhh' dWhy' dbxh' dbhy' dh_next).

(** [totalLoss / (seqEnd - step || 1)] *)
Definition window_loss (totalLoss : R) (seqEnd : Z) (step : nat) : R :=
  let d := (seqEnd - Z.of_nat step)%Z in
  totalLoss / IZR (if (d =? 0)%Z then 1%Z else d).

(** [cache.length > 0 ? cache[cache.length-1] : null] *)
Definition last_entry {C : Type} (cache : list C) : option C :=
  match cache with
  | [] => None
  | _ => cache !! (length cache - 1)%nat
  end.

(** [lastProb ? lastProb.data[0].indexOf(Math.max(...)) : 0] *)
Definition last_predicted (lastProb : option Matrix) : option nat :=
  match lastProb with
  | Some p => argmax_row0 p
  | None => Some 0%nat
  end.

Definition rnn_forward (model : RNN.RNNModel) (encodedText : list nat)
    (step sequenceLength : nat) (dropoutRate : R) (rand : nat -> R) (pos : nat)
    : option (Forward RNNCache) :=
  let seqEnd := window_end encodedText step sequenceLength in
  forward_loop (rnn_forward_step model encodedText dropoutRate rand)
    (Z.to_nat (seqEnd - Z.of_nat step)) step
    (mkForward [RNN.h model] [] [] 0 [] pos).

Definition rnn_backward (model : RNN.RNNModel) (encodedText : list nat)
    (step : nat) (cache : list RNNCache) : option RNNGrads :=
  let vocabSize := length (RNN.vocab model) in
  let hiddenSize := cols (weights (RNN.Wxh model)) in
  backward_loop (rnn_backward_step model encodedText step) cache (length cache)
    (mkRNNGrads (createMatrix vocabSize hiddenSize 0)
                (createMatrix hiddenSize hiddenSize 0)
                (createMatrix hiddenSize vocabSize 0)
                (createMatrix 1 hiddenSize 0)
                (createMatrix 1 vocabSize 0)
                (createMatrix 1 hiddenSize 0)).

(** The training step returns its result with the position reached in the
    random stream. *)
Definition trainStepRNN (model : RNN.RNNModel) (encodedText : list nat)
    (step sequenceLength : nat) (learningRate dropoutRate : R)
    (rand : nat -> R) (pos : nat)
    : option (TrainStepResult RNN.RNNModel * nat) :=
  let seqEnd := window_end encodedText step sequenceLength in
  fw ← rnn_forward model encodedText step sequenceLength dropoutRate rand pos;
  g ← rnn_backward model encodedText step (cache fw);
  let lr := - learningRate in
  let updatedModel :=
    RNN.mk (RNN.vocab model) (RNN.tokenToIndex model)
      (mkLayer (descend (weights (RNN.Wxh model)) (dWxh g) lr)
               (descend (biases (RNN.Wxh model)) (dbxh g) lr))
      (mkLayer (descend (weights (RNN.Whh model)) (dWhh g) lr)
               (biases (RNN.Whh model)))
      (mkLayer (descend (weights (RNN.Why model)) (dWhy g) lr)
               (descend (biases (RNN.Why model)) (dbhy g) lr))
      (last_state (hiddenStates fw)) in
  let lastProb := rc_prob <$> last_entry (cache fw) in
  let predictedIndex := last_predicted lastProb in
  Some (mkResult updatedModel
          (window_loss (fw_totalLoss fw) seqEnd step)
          (token_at (RNN.vocab model) (text_at encodedText (seqEnd - 1)))
          (token_at (RNN.vocab model) (text_at encodedText seqEnd))
          (token_at (RNN.vocab model) predictedIndex)
          (fw_predictions fw)
          (Some (last_state (hiddenStates fw)))
          lastProb
          None None [],
        fw_pos fw).

(* ===================================================================== *)
(** ** GRU *)
(* ===================================================================== *)

(** [add(add(dot(x, W.weights), W.biases), dot(hp, U.weights))]: the
    pre-activation that every gate of the GRU and of the LSTM computes. *)
Definition gate_raw (x : Matrix) (W : Layer) (hp : Matrix) (U : Layer)
    : option Matrix :=
  xw ← dot x (weights W);
  hu ← dot hp (weights U);
  Some (add (add xw (biases W)) hu).

Record GRUCache : Type := mkGRUCache {
  gc_inputVector : Matrix;
  gc_h_prev : Matrix;
  gc_z_t : Matrix;
  gc_r_t : Matrix;
  gc_h_hat_t : Matrix;
  gc_h_t : Matrix;
  gc_mask : option Matrix;
  gc_prob : Matrix;
  gc_h_t_dropped : Matrix
}.

(** The gates and the new hidden state of one GRU step:
    [(z_t, r_t, h_hat_t, h_t)]. *)
Definition gru_cell (model : GRU.GRULanguageModel) (hiddenSize : nat)
    (inputVector h_prev : Matrix)
    : option (Matrix * Matrix * Matrix * Matrix) :=
  z_raw ← gate_raw inputVector (GRU.Wz model) h_prev (GRU.Uz model);
  let z_t := map_matrix z_raw sigmoid in
  r_raw ← gate_raw inputVector (GRU.Wr model) h_prev (GRU.Ur model);
  let r_t := map_matrix r_raw sigmoid in
  rh ← multiply r_t h_prev;
  h_hat_raw ← gate_raw inputVector (GRU.Wh model) rh (GRU.Uh model);
  let h_hat_t := map_matrix h_hat_raw tanh in
  one_minus_z ← subtract (ones 1 hiddenSize) z_t;
  keep ← multiply one_minus_z h_prev;
  new ← multiply z_t h_hat_t;
  Some (z_t, r_t, h_hat_t, add keep new).

Definition gru_forward_step (model : GRU.GRULanguageModel)
    (encodedText : list nat) (dropoutRate : R) (rand : nat -> R) (t : nat)
    (st : Forward GRUCache) : option (Forward GRUCache) :=
  let vocabSize := length (GRU.vocab model) in
  let hiddenSize := rows (weights (GRU.Why model)) in
  let inputVector := one_hot vocabSize (encodedText !! t) in
  let h_prev := last_state (hiddenStates st) in
  '(z_t, r_t, h_hat_t, h_t) ← gru_cell model hiddenSize inputVector h_prev;
  '(mask, h_t_dropped, pos') ←
     apply_dropout hiddenSize dropoutRate rand (fw_pos st) h_t;
  hy ← dot h_t_dropped (weights (GRU.Why model));
  let outputRaw := add hy (biases (GRU.Why model)) in
  let prob := softmax outputRaw in
  let targetIndex := encodedText !! S t in
  Some (mkForward
    (hiddenStates st ++ [h_t_dropped])
    []
    (cache st ++ [mkGRUCache inputVector h_prev z_t r_t h_hat_t h_t mask prob
                    h_t_dropped])
    (fw_totalLoss st + crossEntropy prob targetIndex)
    (fw_predictions st ++ [prediction_at (GRU.vocab model) encodedText t prob])
    pos').

(** The object [grads] of [trainStepGRU] and [dh_next_grad]. *)
Record GRUGrads : Type := mkGRUGrads {
  gg_Wz : Matrix; gg_Uz : Matrix; gg_bz : Matrix;
  gg_Wr : Matrix; gg_Ur : Matrix; gg_br : Matrix;
  gg_Wh : Matrix; gg_Uh : Matrix; gg_bh : Matrix;
  gg_Why : Matrix; gg_by : Matrix;
  gg_dh_next_grad : Matrix
}.

Definition gru_backward_step (model : GRU.GRULanguageModel)
    (encodedText : list nat) (step : nat) (hiddenStates : list Matrix)
    (t : nat) (e : GRUCache) (g : GRUGrads) : option GRUGrads :=
  let hiddenSize := rows (weights (GRU.Why model)) in
  let inputVector := gc_inputVector e in
  let h_prev := gc_h_prev e in
  let z_t := gc_z_t e in
  let r_t := gc_r_t e in
  let h_hat_t := gc_h_hat_t e in
  let dy := softmax_grad (gc_prob e) (encodedText !! (step + t + 1)%nat) in
  (* Gradients for output layer *)
  hs ← hiddenStates !! S t;
  hy ← dot (transpose hs) dy;
  let gWhy := add (gg_Why g) hy in
  let gby := add (gg_by g) dy in
  (* Backpropagate to hidden state *)
  dhy ← dot dy (transpose (weights (GRU.Why model)));
  dh ← mask_grad (add dhy (gg_dh_next_grad g)) (gc_mask e);
  (* Backpropagate through the final hidden state equation *)
  one_minus_z ← subtract (ones 1 hiddenSize) z_t;
  dh_prev_from_h ← multiply dh one_minus_z;
  diff ← subtract h_hat_t h_prev;
  dz ← multiply dh diff;
  dh_hat ← multiply dh z_t;
  (* Backpropagate through candidate state *)
  dh_hat_raw ← multiply dh_hat (map_matrix h_hat_t dtanh);
  xh ← dot (transpose inputVector) dh_hat_raw;
  let gWh := add (gg_Wh g) xh in
  let gbh := add (gg_bh g) dh_hat_raw in
  rh ← multiply r_t h_prev;
  uh ← dot (transpose rh) dh_hat_raw;
  let gUh := add (gg_Uh g) uh in
  (* Backpropagate through reset gate *)
  dr_h_prev ← dot dh_hat_raw (transpose (weights (GRU.Uh model)));
  dr ← multiply dr_h_prev h_prev;
  dr_raw ← multiply dr (map_matrix r_t dsigmoid);
  xr ← dot (transpose inputVector) dr_raw;
  let gWr := add (gg_Wr g) xr in
  let gbr := add (gg_br g) dr_raw in
  ur ← dot (transpose h_prev) dr_raw;
  let gUr := add (gg_Ur g) ur in
  (* Backpropagate through update gate *)
  dz_raw ← multiply dz (map_matrix z_t dsigmoid);
  xz ← dot (transpose inputVector) dz_raw;
  let gWz := add (gg_Wz g) xz in
  let gbz := add (gg_bz g) dz_raw in
  uz ← dot (transpose h_prev) dz_raw;
  let gUz := add (gg_Uz g) uz in
  (* Accumulate gradient for the next dh_next_grad *)
  dh_prev_from_r ← multiply dr_h_prev r_t;
  dh_prev_from_z ← dot dz_raw (transpose (weights (GRU.Uz model)));
  dh_prev_from_r_gate ← dot dr_raw (transpose (weights (GRU.Ur model)));
  let dh_next :=
    add (add (add dh_prev_from_h dh_prev_from_r) dh_prev_from_z)
        dh_prev_from_r_gate in
  Some (mkGRUGrads gWz gUz gbz gWr gUr gbr gWh gUh gbh gWhy gby dh_next).

Definition gru_forward (model : GRU.GRULanguageModel) (encodedText : list nat)
    (step sequenceLength : nat) (dropoutRate : R) (rand : nat -> R) (pos : nat)
    : option (Forward GRUCache) :=
  let seqEnd := window_end encodedText step sequenceLength in
  forward_loop (gru_forward_step model encodedText dropoutRate rand)
    (Z.to_nat (seqEnd - Z.of_nat step)) step
    (mkForward [GRU.h model] [] [] 0 [] pos).

Definition gru_backward (model : GRU.GRULanguageModel) (encodedText : list nat)
    (step : nat) (fw : Forward GRUCache) : option GRUGrads :=
  let vocabSize := length (GRU.vocab model) in
  let hiddenSize := rows (weights (GRU.Why model)) in
  let VH := createMatrix vocabSize hiddenSize 0 in
  let HH := createMatrix hiddenSize hiddenSize 0 in
  let b := createMatrix 1 hiddenSize 0 in
  backward_loop (gru_backward_step model encodedText step (hiddenStates fw))
    (cache fw) (length (cache fw))
    (mkGRUGrads VH HH b VH HH b VH HH b
       (createMatrix hiddenSize vocabSize 0) (createMatrix 1 vocabSize 0)
       (createMatrix 1 hiddenSize 0)).

Definition trainStepGRU (model : GRU.GRULanguageModel) (encodedText : list nat)
    (step sequenceLength : nat) (learningRate dropoutRate : R)
    (rand : nat -> R) (pos : nat)
    : option (TrainStepResult GRU.GRULanguageModel * nat) :=
  let hiddenSize := rows (weights (GRU.Why model)) in
  let seqEnd := window_end encodedText step sequenceLength in
  fw ← gru_forward model encodedText step sequenceLength dropoutRate rand pos;
  g ← gru_backward model encodedText step fw;
  let lr := - learningRate in
  let updatedModel :=
    GRU.mk (GRU.vocab model) (GRU.tokenToIndex model)
      (mkLayer (descend (weights (GRU.Wz model)) (gg_Wz g) lr)
               (descend (biases (GRU.Wz model)) (gg_bz g) lr))
      (mkLayer (descend (weights (GRU.Uz model)) (gg_Uz g) lr)
               (biases (GRU.Uz model)))
      (mkLayer (descend (weights (GRU.Wr model)) (gg_Wr g) lr)
               (descend (biases (GRU.Wr model)) (gg_br g) lr))
      (mkLayer (descend (weights (GRU.Ur model)) (gg_Ur g) lr)
               (biases (GRU.Ur model)))
      (mkLayer (descend (weights (GRU.Wh model)) (gg_Wh g) lr)
               (descend (biases (GRU.Wh model)) (gg_bh g) lr))
      (mkLayer (descend (weights (GRU.Uh model)) (gg_Uh g) lr)
               (biases (GRU.Uh model)))
      (mkLayer (descend (weights (GRU.Why model)) (gg_Why g) lr)
               (descend (biases (GRU.Why model)) (gg_by g) lr))
      (last_state (hiddenStates fw)) in
  let lastCacheEntry := last_entry (cache fw) in
  let lastProb := gc_prob <$> lastCacheEntry in
  let predictedIndex := last_predicted lastProb in
  Some (mkResult updatedModel
          (window_loss (fw_totalLoss fw) seqEnd step)
          (token_at (GRU.vocab model) (text_at encodedText (seqEnd - 1)))
          (token_at (GRU.vocab model) (text_at encodedText seqEnd))
          (token_at (GRU.vocab model) predictedIndex)
          (fw_predictions fw)
          (Some (last_state (hiddenStates fw)))
          lastProb
          None None
          (match lastCacheEntry with
           | Some e => [gc_z_t e; gc_r_t e]
           | None => [createMatrix 1 hiddenSize 0; createMatrix 1 hiddenSize 0]
           end),
        fw_pos fw).

(* ===================================================================== *)
(** ** LSTM *)
(* ===================================================================== *)

Record LSTMCache : Type := mkLSTMCache {
  lc_inputVector : Matrix;
  lc_h_prev : Matrix;
  lc_c_prev : Matrix;
  lc_f_t : Matrix;
  lc_i_t : Matrix;
  lc_o_t : Matrix;
  lc_c_hat_t : Matrix;
  lc_c_t : Matrix;
  lc_h_t : Matrix;
  lc_mask : option Matrix;
  lc_prob : Matrix
}.

(** The gates and the new states of one LSTM step:
    [(f_t, i_t, o_t, c_hat_t, c_t, h_t)]. *)
Definition lstm_cell (model : LSTM.LSTMLanguageModel)
    (inputVector h_prev c_prev : Matrix)
    : option (Matrix * Matrix * Matrix * Matrix * Matrix * Matrix) :=
  f_raw ← gate_raw inputVector (LSTM.Wf model) h_prev (LSTM.Uf model);
  let f_t := map_matrix f_raw sigmoid in
  i_raw ← gate_raw inputVector (LSTM.Wi model) h_prev (LSTM.Ui model);
  let i_t := map_matrix i_raw sigmoid in
  o_raw ← gate_raw inputVector (LSTM.Wo model) h_prev (LSTM.Uo model);
  let o_t := map_matrix o_raw sigmoid in
  c_hat_raw ← gate_raw inputVector (LSTM.Wc model) h_prev (LSTM.Uc model);
  let c_hat_t := map_matrix c_hat_raw tanh in
  fc ← multiply f_t c_prev;
  ic ← multiply i_t c_hat_t;
  let c_t := add fc ic in
  h_t ← multiply o_t (map_matrix c_t tanh);
  Some (f_t, i_t, o_t, c_hat_t, c_t, h_t).

Definition lstm_forward_step (model : LSTM.LSTMLanguageModel)
    (encodedText : list nat) (dropoutRate : R) (rand : nat -> R) (t : nat)
    (st : Forward LSTMCache) : option (Forward LSTMCache) :=
  let vocabSize := length (LSTM.vocab model) in
  let hiddenSize := rows (weights (LSTM.Why model)) in
  let inputVector := one_hot vocabSize (encodedText !! t) in
  let h_prev := last_state (hiddenStates st) in
  let c_prev := last_state (cellStates st) in
  '(f_t, i_t, o_t, c_hat_t, c_t, h_t) ←
     lstm_cell model inputVector h_prev c_prev;
  '(mask, h_t_dropped, pos') ←
     apply_dropout hiddenSize dropoutRate rand (fw_pos st) h_t;
  hy ← dot h_t_dropped (weights (LSTM.Why model));
  let outputRaw := add hy (biases (LSTM.Why model)) in
  let prob := softmax outputRaw in
  let targetIndex := encodedText !! S t in
  Some (mkForward
    (hiddenStates st ++ [h_t_dropped])
    (cellStates st ++ [c_t])
    (cache st ++ [mkLSTMCache inputVector h_prev c_prev f_t i_t o_t c_hat_t
                    c_t h_t mask prob])
    (fw_totalLoss st + crossEntropy prob targetIndex)
    (fw_predictions st ++ [prediction_at (LSTM.vocab model) encodedText t prob])
    pos').

(** The object [grads] of [trainStepLSTM], [dh_next_grad] and
    [dc_next_grad]. *)
Record LSTMGrads : Type := mkLSTMGrads {
  lg_Wf : Matrix; lg_Uf : Matrix; lg_bf : Matrix;
  lg_Wi : Matrix; lg_Ui : Matrix; lg_bi : Matrix;
  lg_Wo : Matrix; lg_Uo : Matrix; lg_bo : Matrix;
  lg_Wc : Matrix; lg_Uc : Matrix; lg_bc : Matrix;
  lg_Why : Matrix; lg_by : Matrix;
  lg_dh_next_grad : Matrix;
  lg_dc_next_grad : Matrix
}.

Definition lstm_backward_step (model : LSTM.LSTMLanguageModel)
    (encodedText : list nat) (step : nat) (hiddenStates : list Matrix)
    (t : nat) (e : LSTMCache) (g : LSTMGrads) : option LSTMGrads :=
  let inputVector := lc_inputVector e in
  let h_prev := lc_h_prev e in
  let c_prev := lc_c_prev e in
  let f_t := lc_f_t e in
  let i_t := lc_i_t e in
  let o_t := lc_o_t e in
  let c_hat_t := lc_c_hat_t e in
  let c_t := lc_c_t e in
  let dy := softmax_grad (lc_prob e) (encodedText !! (step + t + 1)%nat) in
  (* Gradients for output layer *)
  hs ← hiddenStates !! S t;
  hy ← dot (transpose hs) dy;
  let gWhy := add (lg_Why g) hy in
  let gby := add (lg_by g) dy in
  (* Backpropagate to hidden state *)
  dhy ← dot dy (transpose (weights (LSTM.Why model)));
  dh ← mask_grad (add dhy (lg_dh_next_grad g)) (lc_mask e);
  (* Backpropagate through output gate *)
  do_raw ← multiply dh (map_matrix c_t tanh);
  do_t ← multiply do_raw (map_matrix o_t dsigmoid);
  xo ← dot (transpose inputVector) do_t;
  let gWo := add (lg_Wo g) xo in
  uo ← dot (transpose h_prev) do_t;
  let gUo := add (lg_Uo g) uo in
  let gbo := add (lg_bo g) do_t in
  (* Backpropagate to cell state *)
  odt ← multiply o_t (map_matrix (map_matrix c_t tanh) dtanh);
  dh_odt ← multiply dh odt;
  let dc_t := add (lg_dc_next_grad g) dh_odt in
  (* Backpropagate through candidate cell state *)
  dc_hat_t ← multiply dc_t i_t;
  dc_hat_raw ← multiply dc_hat_t (map_matrix c_hat_t dtanh);
  xc ← dot (transpose inputVector) dc_hat_raw;
  let gWc := add (lg_Wc g) xc in
  uc ← dot (transpose h_prev) dc_hat_raw;
  let gUc := add (lg_Uc g) uc in
  let gbc := add (lg_bc g) dc_hat_raw in
  (* Backpropagate through input gate *)
  di_t ← multiply dc_t c_hat_t;
  di_raw ← multiply di_t (map_matrix i_t dsigmoid);
  xi ← dot (transpose inputVector) di_raw;
  let gWi := add (lg_Wi g) xi in
  ui ← dot (transpose h_prev) di_raw;
  let gUi := add (lg_Ui g) ui in
  let gbi := add (lg_bi g) di_raw in
  (* Backpropagate through forget gate *)
  df_t ← multiply dc_t c_prev;
  df_raw ← multiply df_t (map_matrix f_t dsigmoid);
  xf ← dot (transpose inputVector) df_raw;
  let gWf := add (lg_Wf g) xf in
  uf ← dot (transpose h_prev) df_raw;
  let gUf := add (lg_Uf g) uf in
  let gbf := add (lg_bf g) df_raw in
  (* Pass gradients to the next (previous in time) step *)
  dc_next ← multiply dc_t f_t;
  pf ← dot df_raw (transpose (weights (LSTM.Uf model)));
  pi ← dot di_raw (transpose (weights (LSTM.Ui model)));
  po ← dot do_raw (transpose (weights (LSTM.Uo model)));
  pc ← dot dc_hat_raw (transpose (weights (LSTM.Uc model)));
  let dh_next := add (add (add pf pi) po) pc in
  Some (mkLSTMGrads gWf gUf gbf gWi gUi gbi gWo gUo gbo gWc gUc gbc gWhy gby
          dh_next dc_next).

Definition lstm_forward (model : LSTM.LSTMLanguageModel)
    (encodedText : list nat) (step sequenceLength : nat) (dropoutRate : R)
    (rand : nat -> R) (pos : nat) : option (Forward LSTMCache) :=
  let seqEnd := window_end encodedText step sequenceLength in
  forward_loop (lstm_forward_step model encodedText dropoutRate rand)
    (Z.to_nat (seqEnd - Z.of_nat step)) step
    (mkForward [LSTM.h model] [LSTM.c model] [] 0 [] pos).

Definition lstm_backward (model : LSTM.LSTMLanguageModel)
    (encodedText : list nat) (step : nat) (fw : Forward LSTMCache)
    : option LSTMGrads :=
  let vocabSize := length (LSTM.vocab model) in
  let hiddenSize := rows (weights (LSTM.Why model)) in
  let VH := createMatrix vocabSize hiddenSize 0 in
  let HH := createMatrix hiddenSize hiddenSize 0 in
  let b := createMatrix 1 hiddenSize 0 in
  backward_loop (lstm_backward_step model encodedText step (hiddenStates fw))
    (cache fw) (length (cache fw))
    (mkLSTMGrads VH HH b VH HH b VH HH b VH HH b
       (createMatrix hiddenSize vocabSize 0) (createMatrix 1 vocabSize 0)
       (createMatrix 1 hiddenSize 0) (createMatrix 1 hiddenSize 0)).

(** [applyGrads(gateChar)]: the update of one gate's [W.weights],
    [U.weights] and [W.biases]; it returns the updated pair [(W, U)]. *)
Definition applyGrads (W U : Layer) (gW gU gb : Matrix) (lr : R)
    : Layer * Layer :=
  (mkLayer (descend (weights W) gW lr) (descend (biases W) gb lr),
   mkLayer (descend (weights U) gU lr) (biases U)).

Definition trainStepLSTM (model : LSTM.LSTMLanguageModel)
    (encodedText : list nat) (step sequenceLength : nat)
    (learningRate dropoutRate : R) (rand : nat -> R) (pos : nat)
    : option (TrainStepResult LSTM.LSTMLanguageModel * nat) :=
  let hiddenSize := rows (weights (LSTM.Why model)) in
  let seqEnd := window_end encodedText step sequenceLength in
  fw ← lstm_forward model encodedText step sequenceLength dropoutRate rand pos;
  g ← lstm_backward model encodedText step fw;
  let lr := - learningRate in
  let gf := applyGrads (LSTM.Wf model) (LSTM.Uf model) (lg_Wf g) (lg_Uf g) (lg_bf g) lr in
  let gi := applyGrads (LSTM.Wi model) (LSTM.Ui model) (lg_Wi g) (lg_Ui g) (lg_bi g) lr in
  let go := applyGrads (LSTM.Wo model) (LSTM.Uo model) (lg_Wo g) (lg_Uo g) (lg_bo g) lr in
  let gc := applyGrads (LSTM.Wc model) (LSTM.Uc model) (lg_Wc g) (lg_Uc g) (lg_bc g) lr in
  let updatedModel :=
    LSTM.mk (LSTM.vocab model) (LSTM.tokenToIndex model)
      gf.1 gf.2 gi.1 gi.2 go.1 go.2 gc.1 gc.2
      (mkLayer (descend (weights (LSTM.Why model)) (lg_Why g) lr)
               (descend (biases (LSTM.Why model)) (lg_by g) lr))
      (last_state (hiddenStates fw))
      (last_state (cellStates fw)) in
  let lastCacheEntry := last_entry (cache fw) in
  let lastProb := lc_prob <$> lastCacheEntry in
  let predictedIndex := last_predicted lastProb in
  Some (mkResult updatedModel
          (window_loss (fw_totalLoss fw) seqEnd step)
          (token_at (LSTM.vocab model) (text_at encodedText (seqEnd - 1)))
          (token_at (LSTM.vocab model) (text_at encodedText seqEnd))
          (token_at (LSTM.vocab model) predictedIndex)
          (fw_predictions fw)
          (Some (last_state (hiddenStates fw)))
          lastProb
          None None
          (match lastCacheEntry with
           | Some e => [lc_f_t e; lc_i_t e; lc_o_t e]
           | None => [createMatrix 1 hiddenSize 0; createMatrix 1 hiddenSize 0;
                      createMatrix 1 hiddenSize 0]
           end),
        fw_pos fw).

(* ===================================================================== *)
(** ** Generators *)
(* ===================================================================== *)

Definition MIN_WORD_LENGTH : nat := 2.

(** A token that is [undefined] takes part in the source only as a
    property key and as the right operand of [+=] on a string; both turn
    it into the text "undefined". *)
Definition undefined_text : string := "undefined".

Definition or_undefined (s : option string) : string :=
  match s with
  | Some x => x
  | None => undefined_text
  end.

(** [s[s.length - 1]] as a property key. *)
Definition last_char_key (s : string) : string :=
  match String.length s with
  | O => undefined_text
  | S n => String.substring n 1 s
  end.

(** [tokenToIndex] is a plain object ([Object.fromEntries]): reading
    [tokenToIndex[key]] finds the entry of [key] when the object has one of
    its own, and otherwise what every object inherits from
    [Object.prototype] under that name, a function or an object; it is
    [undefined] only when neither is there. *)
Definition Object_prototype_names : list string :=
  ["constructor"; "hasOwnProperty"; "isPrototypeOf"; "propertyIsEnumerable";
   "toLocaleString"; "toString"; "valueOf"; "__proto__"; "__defineGetter__";
   "__defineSetter__"; "__lookupGetter__"; "__lookupSetter__"]%string.

Definition inherited (key : string) : bool :=
  existsb (String.eqb key) Object_prototype_names.

Inductive Property : Type :=
| Own (index : nat)
| Inherited
| Undefined.

Definition read_index (tokenToIndex : gmap string nat) (key : string)
    : Property :=
  match tokenToIndex !! key with
  | Some index => Own index
  | None => if inherited key then Inherited else Undefined
  end.

(** [inputVector.data[0][inputIndex] = 1] writes the cell [inputIndex] of
    the row when [inputIndex] is a number; with an inherited function or
    object it writes a property of the array that is no cell, and the row
    stays as it was. *)
Definition cell_of (inputIndex : Property) : option nat :=
  match inputIndex with
  | Own index => Some index
  | Inherited | Undefined => None
  end.

(** The block guarded by [if (i < MIN_WORD_LENGTH)], on the row
    [outputProbs.data[0]]; each generator repeats it verbatim.  The key
    [' '] is no name of [Object.prototype], so [tokenToIndex[' ']] is the
    entry of the object itself or [undefined]. *)
Definition suppress_space (tokenToIndex : gmap string nat) (i : nat)
    (row : list R) : list R :=
  if (i <? MIN_WORD_LENGTH)%nat then
    match tokenToIndex !! " "%string with
    | Some spaceIndex =>
        if (spaceIndex <? length row)%nat then
          let spaceProb := nth spaceIndex row 0 in
          if Rlt_dec 0 spaceProb then
            if Rlt_dec spaceProb 1 then
              let remainingProbSum := 1 - spaceProb in
              imap (fun k v => if (k =? spaceIndex)%nat then 0
                               else v / remainingProbSum) row
            else row
          else row
        else row
    | None => row
    end
  else row.

(** The sampling loop: the first [j] whose cumulative probability exceeds
    [rand]. *)
Fixpoint sample_walk (rand : R) (row : list R) (j : nat) (cumulativeProb : R)
    : option nat :=
  match row with
  | [] => None
  | p :: rest =>
      let cumulativeProb' := cumulativeProb + p in
      if Rlt_dec rand cumulativeProb' then Some j
      else sample_walk rand rest (S j) cumulativeProb'
  end.

(** [nextIndex], which starts at [vocab.length - 1]; [None] is the index
    -1 of an empty vocabulary. *)
Definition sample_index (vocabLength : nat) (rand : R) (row : list R)
    : option nat :=
  match sample_walk rand row 0 0 with
  | Some j => Some j
  | None => match vocabLength with O => None | S n => Some n end
  end.

(** From the logits to the sampled token: temperature, softmax, the space
    heuristic and the draw.  It is the tail of the loop body of each
    generator. *)
Definition sample_token (vocab : list string) (tokenToIndex : gmap string nat)
    (i : nat) (temperature : R) (outputRaw : Matrix) (rand : R)
    : option string :=
  let scaledOutput := map_matrix outputRaw (fun val => val / temperature) in
  let outputProbs := softmax scaledOutput in
  let row := suppress_space tokenToIndex i (nth 0 (data outputProbs) []) in
  token_at vocab (sample_index (length vocab) rand row).

(** The loop state of a generator: the carried matrices ([current_h], or
    [h_prev] and [c_prev]), [result], the current input text and the
    position in the random stream. *)
Record GenState : Type := mkGen {
  gen_h : Matrix;
  gen_c : Matrix;
  gen_result : string;
  gen_input : string;
  gen_pos : nat
}.

(** One pass through a loop body ends the loop ([break]) or goes on. *)
Inductive Flow : Type :=
| Break (st : GenState)
| Continue (st : GenState).

(** The loop [for (let i = 0; i < length; i++)] around a body. *)
Fixpoint generate_loop (body : nat -> GenState -> option Flow) (n : nat)
    (i : nat) (st : GenState) : option GenState :=
  match n with
  | O => Some st
  | S n' =>
      fl ← body i st;
      match fl with
      | Break st' => Some st'
      | Continue st' => generate_loop body n' (S i) st'
      end
  end.

(** The end of each loop body, after one draw from the random stream:
    stop on a space, else append the token. *)
Definition emit (st : GenState) (h' c' : Matrix) (nextChar : option string)
    (next_input : string -> string -> string) : Flow :=
  if decide (nextChar = Some " "%string) then
    Break (mkGen (gen_h st) (gen_c st) (gen_result st) (gen_input st)
             (S (gen_pos st)))
  else
    let s := or_undefined nextChar in
    Continue (mkGen h' c' (gen_result st +:+ s) (next_input (gen_input st) s)
                (S (gen_pos st))).

Definition no_state : Matrix := createMatrix 0 0 0.

Definition ffnn_generate_body (model : FFNN.FFNNModel) (temperature : R)
    (rand : nat -> R) (i : nat) (st : GenState) : option Flow :=
  match read_index (FFNN.tokenToIndex model) (last_char_key (gen_input st)) with
  | Undefined => Some (Break st)
  | inputIndex =>
      let inputVector := one_hot (length (FFNN.vocab model)) (cell_of inputIndex) in
      xw ← dot inputVector (weights (FFNN.hiddenLayer model));
      let hiddenActivated :=
        map_matrix (add xw (biases (FFNN.hiddenLayer model))) tanh in
      hw ← dot hiddenActivated (weights (FFNN.outputLayer model));
      let outputRaw := add hw (biases (FFNN.outputLayer model)) in
      let nextChar :=
        sample_token (FFNN.vocab model) (FFNN.tokenToIndex model) i temperature
          outputRaw (rand (gen_pos st)) in
      Some (emit st no_state no_state nextChar (fun cur s => cur +:+ s))
  end.

Definition generateFFNN (model : FFNN.FFNNModel) (seed : string) (length : nat)
    (temperature : R) (rand : nat -> R) (pos : nat) : option (string * nat) :=
  st ← generate_loop (ffnn_generate_body model temperature rand) length 0
         (mkGen no_state no_state "" seed pos);
  Some (seed +:+ gen_result st, gen_pos st).

Definition rnn_generate_body (model : RNN.RNNModel) (temperature : R)
    (rand : nat -> R) (i : nat) (st : GenState) : option Flow :=
  match read_index (RNN.tokenToIndex model) (gen_input st) with
  | Undefined => Some (Break st)
  | inputIndex =>
      let inputVector := one_hot (length (RNN.vocab model)) (cell_of inputIndex) in
      xw ← dot inputVector (weights (RNN.Wxh model));
      hw ← dot (gen_h st) (weights (RNN.Whh model));
      let current_h :=
        map_matrix (add (add xw (biases (RNN.Wxh model))) hw) tanh in
      hy ← dot current_h (weights (RNN.Why model));
      let outputRaw := add hy (biases (RNN.Why model)) in
      let nextChar :=
        sample_token (RNN.vocab model) (RNN.tokenToIndex model) i temperature
          outputRaw (rand (gen_pos st)) in
      Some (emit st current_h no_state nextChar (fun _ s => s))
  end.

Definition generateRNN (model : RNN.RNNModel) (seed : string) (length : nat)
    (temperature : R) (rand : nat -> R) (pos : nat) : option (string * nat) :=
  st ← generate_loop (rnn_generate_body model temperature rand) length 0
         (mkGen (RNN.h model) no_state "" seed pos);
  Some (seed +:+ gen_result st, gen_pos st).

Definition gru_generate_body (model : GRU.GRULanguageModel) (temperature : R)
    (rand : nat -> R) (i : nat) (st : GenState) : option Flow :=
  match read_index (GRU.tokenToIndex model) (gen_input st) with
  | Undefined => Some (Break st)
  | inputIndex =>
      let inputVector := one_hot (length (GRU.vocab model)) (cell_of inputIndex) in
      let h_prev := gen_h st in
      '(_, _, _, h_t) ← gru_cell model (cols h_prev) inputVector h_prev;
      hy ← dot h_t (weights (GRU.Why model));
      let outputRaw := add hy (biases (GRU.Why model)) in
      let nextChar :=
        sample_token (GRU.vocab model) (GRU.tokenToIndex model) i temperature
          outputRaw (rand (gen_pos st)) in
      Some (emit st h_t no_state nextChar (fun _ s => s))
  end.

Definition generateGRU (model : GRU.GRULanguageModel) (seed : string)
    (length : nat) (temperature : R) (rand : nat -> R) (pos : nat)
    : option (string * nat) :=
  st ← generate_loop (gru_generate_body model temperature rand) length 0
         (mkGen (GRU.h model) no_state "" seed pos);
  Some (seed +:+ gen_result st, gen_pos st).

Definition lstm_generate_body (model : LSTM.LSTMLanguageModel) (temperature : R)
    (rand : nat -> R) (i : nat) (st : GenState) : option Flow :=
  match read_index (LSTM.tokenToIndex model) (gen_input st) with
  | Undefined => Some (Break st)
  | inputIndex =>
      let inputVector := one_hot (length (LSTM.vocab model)) (cell_of inputIndex) in
      '(_, _, _, _, c_t, h_t) ←
         lstm_cell model inputVector (gen_h st) (gen_c st);
      hy ← dot h_t (weights (LSTM.Why model));
      let outputRaw := add hy (biases (LSTM.Why model)) in
      let nextChar :=
        sample_token (LSTM.vocab model) (LSTM.tokenToIndex model) i temperature
          outputRaw (rand (gen_pos st)) in
      Some (emit st h_t c_t nextChar (fun _ s => s))
  end.

Definition generateLSTM (model : LSTM.LSTMLanguageModel) (seed : string)
    (length : nat) (temperature : R) (rand : nat -> R) (pos : nat)
    : option (string * nat) :=
  st ← generate_loop (lstm_generate_body model temperature rand) length 0
         (mkGen (LSTM.h model) (LSTM.c model) "" seed pos);
  Some (seed +:+ gen_result st, gen_pos st).
(* ===================================================================== *)
(** ** Initialisation *)
(* ===================================================================== *)

(** [createMatrix(rows, cols, () => g(Math.random()))]: the fill function
    is called once per cell, row by row and left to right within a row, so
    cell (i,j) reads draw [pos + i * cols + j]. *)
Definition createMatrixRandom (r c : nat) (rand : nat -> R) (pos : nat)
    (g : R -> R) : Matrix :=
  build r c (fun i j => g (rand (pos + i * c + j)%nat)).

(** [(Math.random() - 0.5) * 0.1] *)
Definition init_weight (u : R) : R := (u - 5 / 10) * (1 / 10).

(** [createLayer(inputSize, outputSize)], with the position that the
    random stream reaches. *)
Definition createLayer (inputSize outputSize : nat) (rand : nat -> R)
    (pos : nat) : Layer * nat :=
  (mkLayer (createMatrixRandom inputSize outputSize rand pos init_weight)
           (createMatrix 1 outputSize 0),
   (pos + inputSize * outputSize)%nat).

(** [Object.fromEntries(vocab.map((char, i) => [char, i]))]: the entries
    are written in order, so of two equal tokens the later one keeps its
    index. *)
Definition index_entries (vocab : list string) : list (string * nat) :=
  imap (fun i char => (char, i)) vocab.

Definition fromEntries (entries : list (string * nat)) : gmap string nat :=
  fold_left (fun m e => <[e.1 := e.2]> m) entries ∅.

Definition index_of_vocab (vocab : list string) : gmap string nat :=
  fromEntries (index_entries vocab).

Definition initializeFFNNModel (vocab : list string) (hiddenSize : nat)
    (rand : nat -> R) (pos : nat) : FFNN.FFNNModel * nat :=
  let vocabSize := length vocab in
  let tokenToIndex := index_of_vocab vocab in
  let '(hiddenLayer, p1) := createLayer vocabSize hiddenSize rand pos in
  let '(outputLayer, p2) := createLayer hiddenSize vocabSize rand p1 in
  (FFNN.mk vocab tokenToIndex hiddenLayer outputLayer, p2).

Definition initializeRNNModel (vocab : list string) (hiddenSize : nat)
    (rand : nat -> R) (pos : nat) : RNN.RNNModel * nat :=
  let vocabSize := length vocab in
  let tokenToIndex := index_of_vocab vocab in
  let '(Wxh, p1) := createLayer vocabSize hiddenSize rand pos in
  let '(Whh, p2) := createLayer hiddenSize hiddenSize rand p1 in
  let '(Why, p3) := createLayer hiddenSize vocabSize rand p2 in
  (RNN.mk vocab tokenToIndex Wxh Whh Why (createMatrix 1 hiddenSize 0), p3).

Definition initializeGRUModel (vocab : list string) (hiddenSize : nat)
    (rand : nat -> R) (pos : nat) : GRU.GRULanguageModel * nat :=
  let vocabSize := length vocab in
  let tokenToIndex := index_of_vocab vocab in
  let '(Wz, p1) := createLayer vocabSize hiddenSize rand pos in
  let '(Uz, p2) := createLayer hiddenSize hiddenSize rand p1 in
  let '(Wr, p3) := createLayer vocabSize hiddenSize rand p2 in
  let '(Ur, p4) := createLayer hiddenSize hiddenSize rand p3 in
  let '(Wh, p5) := createLayer vocabSize hiddenSize rand p4 in
  let '(Uh, p6) := createLayer hiddenSize hiddenSize rand p5 in
  let '(Why, p7) := createLayer hiddenSize vocabSize rand p6 in
  (GRU.mk vocab tokenToIndex Wz Uz Wr Ur Wh Uh Why
     (createMatrix 1 hiddenSize 0), p7).

Definition initializeLSTMModel (vocab : list string) (hiddenSize : nat)
    (rand : nat -> R) (pos : nat) : LSTM.LSTMLanguageModel * nat :=
  let vocabSize := length vocab in
  let tokenToIndex := index_of_vocab vocab in
  let '(Wf, p1) := createLayer vocabSize hiddenSize rand pos in
  let '(Uf, p2) := createLayer hiddenSize hiddenSize rand p1 in
  let '(Wi, p3) := createLayer vocabSize hiddenSize rand p2 in
  let '(Ui, p4) := createLayer hiddenSize hiddenSize rand p3 in
  let '(Wo, p5) := createLayer vocabSize hiddenSize rand p4 in
  let '(Uo, p6) := createLayer hiddenSize hiddenSize rand p5 in
  let '(Wc, p7) := createLayer vocabSize hiddenSize rand p6 in
  let '(Uc, p8) := createLayer hiddenSize hiddenSize rand p7 in
  let '(Why, p9) := createLayer hiddenSize vocabSize rand p8 in
  (LSTM.mk vocab tokenToIndex Wf Uf Wi Ui Wo Uo Wc Uc Why
     (createMatrix 1 hiddenSize 0) (createMatrix 1 hiddenSize 0), p9).
(* ===================================================================== *)
(** * customTokenizer.ts: greedy encoding over a custom vocabulary *)
(* ===================================================================== *)

(** Text.  A JavaScript string is a [string]; one character of it stands
    for one UTF-16 code unit (of the 256 that [ascii] has).  [String.length]
    is [s.length]. *)

(** [l.join('')] *)
Definition join (l : list string) : string := fold_right String.append ""%string l.

(** The part of [text] from position [i] on. *)
Fixpoint string_drop (i : nat) (text : string) : string :=
  match i, text with
  | O, _ => text
  | S i', String _ rest => string_drop i' rest
  | S _, EmptyString => EmptyString
  end.

(** [text.startsWith(token, i)] *)
Definition startsWith (text token : string) (i : nat) : bool :=
  String.prefix token (string_drop i text).

(** [for (const token of vocab) { if (text.startsWith(token, i)) { ...
    break; } }]: the first token of [vocab], in its order, that [text]
    holds at position [i]; [None] when the loop ends with [matchFound]
    still false. *)
Fixpoint find_token (vocab : list string) (text : string) (i : nat)
    : option string :=
  match vocab with
  | [] => None
  | token :: rest =>
      if startsWith text token i then Some token else find_token rest text i
  end.

(** The loop [while (i < text.length)] of [encodeCustom], at most [fuel]
    passes of it: [None] when the loop has not ended by then.  An entry of
    [encoded] is [None] where the source pushes no id:
    [tokenToIndex[token]] for a token that is not a key is [undefined], or
    what the object inherits under that name. *)
Fixpoint encodeCustom_loop (fuel : nat) (text : string) (vocab : list string)
    (tokenToIndex : gmap string nat) (i : nat) (encoded : list (option nat))
    : option (list (option nat)) :=
  match fuel with
  | O => None
  | S fuel' =>
      if (i <? String.length text)%nat then
        match find_token vocab text i with
        | Some token =>
            encodeCustom_loop fuel' text vocab tokenToIndex
              (i + String.length token)%nat (encoded ++ [tokenToIndex !! token])
        | None =>
            encodeCustom_loop fuel' text vocab tokenToIndex (i + 1)%nat encoded
        end
      else Some encoded
  end.

Definition encodeCustom (fuel : nat) (text : string) (vocab : list string)
    (tokenToIndex : gmap string nat) : option (list (option nat)) :=
  encodeCustom_loop fuel text vocab tokenToIndex 0 [].
(* ===================================================================== *)
(** * bpe.ts: byte-pair encoding *)
(* ===================================================================== *)

(** Bytes and token ids are naturals.  A key of the two [Map]s of this
    file is the text [`${a},${b}`] of two ids, which the source only ever
    splits back into the two numbers: here it is the pair [(a, b)].  A
    [Map] keeps its keys in the order of their first insertion, and both
    [reduce] and [entries()] go through them in that order: a [Map] is a
    list of entries, and [map_set] writes a key where it already is, or at
    the end. *)
Definition Pair : Type := (nat * nat)%type.
Definition PairMap : Type := list (Pair * nat).

Fixpoint map_get (m : PairMap) (k : Pair) : option nat :=
  match m with
  | [] => None
  | (k', v) :: rest => if decide (k' = k) then Some v else map_get rest k
  end.

Fixpoint map_set (m : PairMap) (k : Pair) (v : nat) : PairMap :=
  match m with
  | [] => [(k, v)]
  | (k', v') :: rest =>
      if decide (k' = k) then (k, v) :: rest else (k', v') :: map_set rest k v
  end.

(** [new TextEncoder().encode(text)]: the UTF-8 bytes of the code units
    of [text], one byte below 128 and two from 128 on. *)
Definition utf8_unit (c : Ascii.ascii) : list nat :=
  let n := Ascii.nat_of_ascii c in
  if (n <? 128)%nat then [n] else [(192 + n / 64)%nat; (128 + n mod 64)%nat].

Definition textEncode (text : string) : list nat :=
  flat_map utf8_unit (String.list_ascii_of_string text).

(** The loop of [getStats] from the pair at the head of [ids] on. *)
Fixpoint getStats_loop (ids : list nat) (counts : PairMap) : PairMap :=
  match ids with
  | a :: rest =>
      match rest with
      | b :: _ =>
          getStats_loop rest
            (map_set counts (a, b) (default 0%nat (map_get counts (a, b)) + 1)%nat)
      | [] => counts
      end
  | [] => counts
  end.

Definition getStats (ids : list nat) : PairMap := getStats_loop ids [].

(** [merge(ids, pair, idx)]: the loop looks at position [i] and the one
    after it, and goes on two positions further after a replacement. *)
Fixpoint merge (ids : list nat) (pair : Pair) (idx : nat) : list nat :=
  match ids with
  | a :: rest =>
      match rest with
      | b :: rest' =>
          if (a =? pair.1)%nat && (b =? pair.2)%nat then idx :: merge rest' pair idx
          else a :: merge rest pair idx
      | [] => [a]
      end
  | [] => []
  end.

(** [Array.from(stats.entries()).reduce((a, b) => a[1] > b[1] ? a : b)[0]]
    on a [Map] that is not empty. *)
Definition top_entry (stats : PairMap) : option (Pair * nat) :=
  match stats with
  | [] => None
  | e :: es => Some (fold_left (fun a b => if (b.2 <? a.2)%nat then a else b) es e)
  end.

(** [byteVocab[p] || [p]] *)
Definition bytes_of (byteVocab : gmap nat (list nat)) (p : nat) : list nat :=
  default [p] (byteVocab !! p).

(** The variables of the training loop. *)
Record BPE : Type := mkBPE {
  bpe_ids : list nat;
  bpe_merges : PairMap;
  bpe_byteVocab : gmap nat (list nat)
}.

(** [for (let i = 0; i < 256; i++) byteVocab[i] = [i]] *)
Definition initial_byteVocab : gmap nat (list nat) :=
  fold_left (fun m i => <[i := [i]]> m) (seq 0 256) ∅.

(** [n] passes of the loop [for (let i = 0; i < numMerges; i++)] from
    [i]; it stops early when [stats] is empty. *)
Fixpoint trainBPE_loop (n : nat) (i : nat) (st : BPE) : BPE :=
  match n with
  | O => st
  | S n' =>
      let stats := getStats (bpe_ids st) in
      match top_entry stats with
      | None => st
      | Some (topPair, _) =>
          let idx := (256 + i)%nat in
          let ids := merge (bpe_ids st) topPair idx in
          let merges := map_set (bpe_merges st) topPair idx in
          let bytes :=
            bytes_of (bpe_byteVocab st) topPair.1 ++
            bytes_of (bpe_byteVocab st) topPair.2 in
          trainBPE_loop n' (S i) (mkBPE ids merges (<[idx := bytes]> (bpe_byteVocab st)))
      end
  end.

(** [trainBPE(text, vocabSize)] up to the decoding of the vocabulary: the
    learned [merges] and, for each id, the bytes of its token (the source
    returns these bytes decoded as UTF-8 text).  [vocabSize - 256] below 0
    counts as 0. *)
Definition trainBPE (text : string) (vocabSize : nat) : BPE :=
  let numMerges := (vocabSize - 256)%nat in
  trainBPE_loop numMerges 0 (mkBPE (textEncode text) [] initial_byteVocab).

(** [encodeBPE(text, merges)] *)
Definition encodeBPE (text : string) (merges : PairMap) : list nat :=
  fold_left (fun ids e => merge ids e.1 e.2) merges (textEncode text).

(** [decodeBPE(ids, vocab)]: [ids.map(id => vocab[id] || '').join('')] *)
Definition decodeBPE (ids : list nat) (vocab : gmap nat string) : string :=
  join (map (fun id => default ""%string (vocab !! id)) ids).
(* ===================================================================== *)
(** * Playground.tsx: the tokenization of [initialize] *)
(* ===================================================================== *)

(** A [Set] of strings is the list of its values in the order of their
    first insertion, which is the order of [Array.from] and [forEach]. *)
Definition set_has (s : list string) (x : string) : bool :=
  existsb (String.eqb x) s.

Definition set_add (s : list string) (x : string) : list string :=
  if set_has s x then s else s ++ [x].

(** [new Set(l)] *)
Definition new_Set (l : list string) : list string := fold_left set_add l [].

(** [text.split('')], also the values that iterating over [text] gives:
    its characters, each a text of its own. *)
Definition split_chars (text : string) : list string :=
  map (fun c => String c EmptyString) (String.list_ascii_of_string text).

(** [l.sort(cmp)].  The sort of an array is stable, and with a comparison
    that orders the values consistently its result is the one of every
    stable sort: here the values are put one by one, in the order of the
    array, before the first value that has to come after them.
    [before x y] stands for [cmp(x, y) < 0]. *)
Fixpoint sort_insert (before : string -> string -> bool) (x : string)
    (sorted : list string) : list string :=
  match sorted with
  | [] => [x]
  | y :: rest =>
      if before x y then x :: y :: rest else y :: sort_insert before x rest
  end.

Definition sort_with (before : string -> string -> bool) (l : list string)
    : list string :=
  fold_left (fun sorted x => sort_insert before x sorted) l [].

(** The order of [sort()] without a comparison: by code units. *)
Definition code_unit_before (x y : string) : bool := String.ltb x y.

(** [(a, b) => b.length - a.length || a.localeCompare(b)].  The order of
    [localeCompare] is the one of the locale: it is an argument here. *)
Definition by_length_then_locale (localeCompare : string -> string -> Z)
    (a b : string) : Z :=
  let d := (Z.of_nat (String.length b) - Z.of_nat (String.length a))%Z in
  if (d =? 0)%Z then localeCompare a b else d.

(** What [initialize] hands to the model: [vocab], [tokenToIndex] and
    [encoded]. *)
Record Tokenized : Type := mkTokenized {
  tk_vocab : list string;
  tk_tokenToIndex : gmap string nat;
  tk_encoded : list (option nat)
}.

(** [case 'character'] *)
Definition character_tokenizer (textToTrain : string) : Tokenized :=
  let vocab := sort_with code_unit_before (new_Set (split_chars textToTrain)) in
  let tokenToIndex := index_of_vocab vocab in
  let encoded := map (fun char => tokenToIndex !! char) (split_chars textToTrain) in
  mkTokenized vocab tokenToIndex encoded.

(** [case 'custom'], from [.filter(Boolean)] on: [trimmed] is
    [customTokenizerSet.split(',').map(t => t.trim())]. *)
Definition custom_vocab (localeCompare : string -> string -> Z)
    (trimmed : list string) (textToTrain : string) : list string :=
  let customTokens := List.filter (fun t => negb (String.eqb t "")) trimmed in
  let coveredChars := new_Set (split_chars (join customTokens)) in
  let uniqueCharsInText := new_Set (split_chars textToTrain) in
  let customTokens :=
    fold_left
      (fun tokens char =>
         if negb (set_has coveredChars char) then tokens ++ [char] else tokens)
      uniqueCharsInText customTokens in
  sort_with (fun a b => (by_length_then_locale localeCompare a b <? 0)%Z)
    (new_Set customTokens).

(** At most [fuel] passes of the loop of [encodeCustom]. *)
Definition custom_tokenizer (localeCompare : string -> string -> Z)
    (fuel : nat) (trimmed : list string) (textToTrain : string)
    : option Tokenized :=
  let vocab := custom_vocab localeCompare trimmed textToTrain in
  let tokenToIndex := index_of_vocab vocab in
  encoded ← encodeCustom fuel textToTrain vocab tokenToIndex;
  Some (mkTokenized vocab tokenToIndex encoded).
(* ===================================================================== *)
(** * phonotactics.ts and wordValidator.ts: the "good word" check *)
(* ===================================================================== *)

Definition SIMPLE_ONSETS : list string :=
  ["b"; "c"; "d"; "f"; "g"; "k"; "l"; "m"; "n"; "p"; "r"; "s"; "t"; "v"]%string.

Definition CLUSTER_ONSETS : list string :=
  ["br"; "pr"; "dr"; "gr"; "fr"; "cr"; "cl"; "pl"; "gl"; "fl"; "sl"; "sm";
   "sn"; "sp"; "st"; "tr"; "spr"; "str"; "scr"; "sk"; "spl"]%string.

Definition ONSETS : list string := new_Set (SIMPLE_ONSETS ++ CLUSTER_ONSETS).

Definition VOWELS : list string := new_Set ["a"; "e"; "i"; "o"; "u"]%string.

Definition SIMPLE_CODAS : list string :=
  ["m"; "n"; "t"; "k"; "p"; "g"; "l"; "r"]%string.

Definition CLUSTER_CODAS : list string :=
  ["mp"; "nd"; "nt"; "nk"; "st"; "sk"; "sp"; "rm"; "rn"; "rl"; "rp"; "rt";
   "rk"; "sm"; "sh"]%string.

Definition CODAS : list string := new_Set (SIMPLE_CODAS ++ CLUSTER_CODAS).

Definition EXTENSIONS : list string :=
  new_Set ["set"; "ish"; "let"; "der"; "kin"; "ling"; "ster"; "mer"; "ner";
           "ler"; "gen"; "gle"; "ple"; "ble"; "dle"]%string.

Definition allTokensSet : list string :=
  new_Set (SIMPLE_ONSETS ++ CLUSTER_ONSETS ++ VOWELS ++
           SIMPLE_CODAS ++ CLUSTER_CODAS ++ EXTENSIONS).

(** [Array.from(allTokensSet).sort((a, b) =>
      b.length - a.length || a.localeCompare(b))] *)
Definition ALL_TOKENS (localeCompare : string -> string -> Z) : list string :=
  sort_with (fun a b => (by_length_then_locale localeCompare a b <? 0)%Z)
    allTokensSet.

(** [[...new Set([...ONSETS, ...CODAS])].sort((a,b) => b.length - a.length)] *)
Definition CONSONANT_CLUSTERS : list string :=
  sort_with
    (fun a b => (Z.of_nat (String.length b) - Z.of_nat (String.length a) <? 0)%Z)
    (new_Set (ONSETS ++ CODAS)).

(** The loop of [tokenizeWord], at most [fuel] passes of it ([None] when
    it has not ended by then); the result [None] is [null]. *)
Fixpoint tokenizeWord_loop (fuel : nat) (allTokens : list string) (word : string)
    (i : nat) (tokens : list string) : option (option (list string)) :=
  match fuel with
  | O => None
  | S fuel' =>
      if (i <? String.length word)%nat then
        match find_token allTokens word i with
        | Some token =>
            tokenizeWord_loop fuel' allTokens word
              (i + String.length token)%nat (tokens ++ [token])
        | None => Some None
        end
      else Some (Some tokens)
  end.

Definition tokenizeWord (localeCompare : string -> string -> Z) (fuel : nat)
    (word : string) : option (option (list string)) :=
  tokenizeWord_loop fuel (ALL_TOKENS localeCompare) word 0 [].

(** The loop of [isValidConsonantCluster]. *)
Fixpoint isValidConsonantCluster_loop (fuel : nat) (cluster : string) (i : nat)
    : option bool :=
  match fuel with
  | O => None
  | S fuel' =>
      if (i <? String.length cluster)%nat then
        match find_token CONSONANT_CLUSTERS cluster i with
        | Some token =>
            isValidConsonantCluster_loop fuel' cluster (i + String.length token)%nat
        | None => Some false
        end
      else Some true
  end.

Definition isValidConsonantCluster (fuel : nat) (cluster : string) : option bool :=
  isValidConsonantCluster_loop fuel cluster 0.

Inductive SyllableState : Type := START | ONSET | VOWEL | CODA | EXTENSION.

(** One pass of the [switch] of the state machine: the next state, or
    [None] where the source returns [false]. *)
Definition syllable_step (state : SyllableState) (token : string)
    : option SyllableState :=
  match state with
  | START =>
      if set_has ONSETS token then Some ONSET
      else if set_has VOWELS token then Some VOWEL
      else None
  | ONSET =>
      if set_has VOWELS token then Some VOWEL
      else if set_has ONSETS token then Some ONSET
      else None
  | VOWEL =>
      if set_has CODAS token then Some CODA
      else if set_has EXTENSIONS token then Some EXTENSION
      else if set_has ONSETS token then Some ONSET
      else if set_has VOWELS token then Some VOWEL
      else None
  | CODA =>
      if set_has EXTENSIONS token then Some EXTENSION
      else if set_has CODAS token then Some CODA
      else if set_has ONSETS token then Some ONSET
      else if set_has VOWELS token then Some VOWEL
      else None
  | EXTENSION => None
  end.

Fixpoint syllable_run (state : SyllableState) (tokens : list string)
    : option SyllableState :=
  match tokens with
  | [] => Some state
  | token :: rest =>
      match syllable_step state token with
      | Some state' => syllable_run state' rest
      | None => None
      end
  end.

(** [word[i] === word[j]] *)
Definition same_char (word : string) (i j : nat) : bool :=
  bool_decide (String.get i word = String.get j word).

(** Pattern xyxyx at [i] *)
Definition xyxyx (word : string) (i : nat) : bool :=
  same_char word i (i + 2)%nat && same_char word i (i + 4)%nat &&
  same_char word (i + 1)%nat (i + 3)%nat.

(** Pattern xyzxyz at [i] *)
Definition xyzxyz (word : string) (i : nat) : bool :=
  same_char word i (i + 3)%nat && same_char word (i + 1)%nat (i + 4)%nat &&
  same_char word (i + 2)%nat (i + 5)%nat.

(** [const isConsonant = (char) => !VOWELS.has(char)] *)
Definition isConsonant (char : string) : bool := negb (set_has VOWELS char).

(** The loop [for (const char of word + 'a')] of rule 2, from the
    characters that are left and the run so far: [Some false] where the
    source returns [false], [Some true] where the loop ends. *)
Fixpoint consonant_runs (fuel : nat) (chars : list string) (consonantRun : string)
    : option bool :=
  match chars with
  | [] => Some true
  | char :: rest =>
      if isConsonant char then consonant_runs fuel rest (consonantRun +:+ char)
      else if (3 <=? String.length consonantRun)%nat then
        match isValidConsonantCluster fuel consonantRun with
        | None => None
        | Some false => Some false
        | Some true => consonant_runs fuel rest ""%string
        end
      else consonant_runs fuel rest ""%string
  end.

(** [isGoodWord(word)], with at most [fuel] passes of each of the loops
    of [tokenizeWord] and [isValidConsonantCluster]. *)
Definition isGoodWord (localeCompare : string -> string -> Z) (fuel : nat)
    (word : string) : option bool :=
  let n := String.length word in
  if (n <? 2)%nat || (12 <? n)%nat then Some false
  else if (5 <=? n)%nat && existsb (xyxyx word) (seq 0 (n - 4)) then Some false
  else if (6 <=? n)%nat && existsb (xyzxyz word) (seq 0 (n - 5)) then Some false
  else if negb (existsb (set_has VOWELS) (split_chars word)) then Some false
  else
    match consonant_runs fuel (split_chars (word +:+ "a")) ""%string with
    | None => None
    | Some false => Some false
    | Some true =>
        match tokenizeWord localeCompare fuel word with
        | None => None
        | Some None => Some false
        | Some (Some tokens) =>
            if (length tokens =? 0)%nat then Some false
            else
              match syllable_run START tokens with
              | None => Some false
              | Some state =>
                  Some (match state with
                        | VOWEL | CODA | EXTENSION => true
                        | _ => false
                        end)
              end
        end
    end.

(* ===================================================================== *)
(** ** Well-formed values *)
(* ===================================================================== *)

(** The invariant of the data model: [data] has [rows] rows of [cols]
    elements each. *)
Definition shape (m : Matrix) (r c : nat) : Prop :=
  rows m = r /\ cols m = c /\ length (data m) = r /\
  Forall (fun row => length row = c) (data m).

(** Elementwise equality of two matrices of the same dimensions. *)
Definition meq (a b : Matrix) : Prop :=
  rows a = rows b /\ cols a = cols b /\
  forall i j, (i < rows a)%nat -> (j < cols a)%nat -> mget a i j = mget b i j.

(** A layer from [in_] inputs to [out] outputs: [weights] is [in_] by
    [out], [biases] is 1 by [out]. *)
Definition layer_shape (l : Layer) (in_ out : nat) : Prop :=
  shape (weights l) in_ out /\ shape (biases l) 1 out.

(** The parameter layout of each architecture, for hidden size [H]; the
    vocabulary size is the length of [vocab]. *)
Definition wf_ffnn (m : FFNN.FFNNModel) (H : nat) : Prop :=
  layer_shape (FFNN.hiddenLayer m) (length (FFNN.vocab m)) H /\
  layer_shape (FFNN.outputLayer m) H (length (FFNN.vocab m)).

Definition wf_rnn (m : RNN.RNNModel) (H : nat) : Prop :=
  layer_shape (RNN.Wxh m) (length (RNN.vocab m)) H /\
  layer_shape (RNN.Whh m) H H /\
  layer_shape (RNN.Why m) H (length (RNN.vocab m)) /\
  shape (RNN.h m) 1 H.

Definition wf_gru (m : GRU.GRULanguageModel) (H : nat) : Prop :=
  let V := length (GRU.vocab m) in
  layer_shape (GRU.Wz m) V H /\ layer_shape (GRU.Uz m) H H /\
  layer_shape (GRU.Wr m) V H /\ layer_shape (GRU.Ur m) H H /\
  layer_shape (GRU.Wh m) V H /\ layer_shape (GRU.Uh m) H H /\
  layer_shape (GRU.Why m) H V /\
  shape (GRU.h m) 1 H.

Definition wf_lstm (m : LSTM.LSTMLanguageModel) (H : nat) : Prop :=
  let V := length (LSTM.vocab m) in
  layer_shape (LSTM.Wf m) V H /\ layer_shape (LSTM.Uf m) H H /\
  layer_shape (LSTM.Wi m) V H /\ layer_shape (LSTM.Ui m) H H /\
  layer_shape (LSTM.Wo m) V H /\ layer_shape (LSTM.Uo m) H H /\
  layer_shape (LSTM.Wc m) V H /\ layer_shape (LSTM.Uc m) H H /\
  layer_shape (LSTM.Why m) H V /\
  shape (LSTM.h m) 1 H /\ shape (LSTM.c m) 1 H.

(** A computation that may throw returns a value that satisfies [Q]. *)
Definition returns {A : Type} (o : option A) (Q : A -> Prop) : Prop :=
  exists a, o = Some a /\ Q a.

(** A dropout mask, when there is one, is a 1 by [H] row. *)
Definition mask_shape (mask : option Matrix) (H : nat) : Prop :=
  match mask with
  | Some mk => shape mk 1 H
  | None => True
  end.

(* ===================================================================== *)
(** ** Statements compared with the code *)
(* ===================================================================== *)

(** The two shape combinations on which [add] computes a sum. *)
Definition same_shape (a b : Matrix) : Prop :=
  rows a = rows b /\ cols a = cols b.

Definition row_broadcast (a b : Matrix) : Prop :=
  (1 < rows a)%nat /\ rows b = 1%nat /\ cols a = cols b.

(** The third part of the description of [add], as written: on every
    other shape combination [add] returns its first operand. *)
Definition add_returns_first_otherwise (a b : Matrix) : Prop :=
  ~ same_shape a b -> ~ row_broadcast a b -> add a b = a.

Definition add_cex_a : Matrix := mkMatrix 2 2 [[1; 2]; [3; 4]].
Definition add_cex_b : Matrix := mkMatrix 1 3 [[10; 20; 30]].

(** The row of a 1 by n matrix. *)
Definition row0 (m : Matrix) : list R := nth 0 (data m) [].

(** [x + c] on every element. *)
Definition shift (m : Matrix) (c : R) : Matrix :=
  map_matrix m (fun v => v + c).

Definition logits_1000 : Matrix := mkMatrix 1 3 [[1000; 1000; 1000]].
Definition thirds : Matrix := mkMatrix 1 3 [[1 / 3; 1 / 3; 1 / 3]].

(* ===================================================================== *)
(** ** Invariants of the recurrent training steps *)
(* ===================================================================== *)

(** The input and target tokens of a prediction entry, and the pair that
    the window holds at position [t]. *)
Definition pred_pair (p : Prediction) : option string * option string :=
  (p_inputToken p, p_targetToken p).

Definition pair_at (vocab : list string) (encodedText : list nat) (t : nat)
    : option string * option string :=
  (token_at vocab (encodedText !! t), token_at vocab (encodedText !! S t)).

Definition rnn_cache_shape (V H : nat) (e : RNNCache) : Prop :=
  shape (rc_inputVector e) 1 V /\ shape (rc_h_prev e) 1 H /\
  shape (rc_h_next e) 1 H /\ mask_shape (rc_mask e) H /\
  shape (rc_prob e) 1 V /\ shape (rc_h_next_dropped e) 1 H.

Definition gru_cache_shape (V H : nat) (e : GRUCache) : Prop :=
  shape (gc_inputVector e) 1 V /\ shape (gc_h_prev e) 1 H /\
  shape (gc_z_t e) 1 H /\ shape (gc_r_t e) 1 H /\ shape (gc_h_hat_t e) 1 H /\
  shape (gc_h_t e) 1 H /\ mask_shape (gc_mask e) H /\
  shape (gc_prob e) 1 V /\ shape (gc_h_t_dropped e) 1 H.

Definition lstm_cache_shape (V H : nat) (e : LSTMCache) : Prop :=
  shape (lc_inputVector e) 1 V /\ shape (lc_h_prev e) 1 H /\
  shape (lc_c_prev e) 1 H /\
  shape (lc_f_t e) 1 H /\ shape (lc_i_t e) 1 H /\ shape (lc_o_t e) 1 H /\
  shape (lc_c_hat_t e) 1 H /\ shape (lc_c_t e) 1 H /\ shape (lc_h_t e) 1 H /\
  mask_shape (lc_mask e) H /\ shape (lc_prob e) 1 V.

Definition rnn_grads_shape (V H : nat) (g : RNNGrads) : Prop :=
  shape (dWxh g) V H /\ shape (dWhh g) H H /\ shape (dWhy g) H V /\
  shape (dbxh g) 1 H /\ shape (dbhy g) 1 V /\ shape (rg_dh_next_grad g) 1 H.

Definition gru_grads_shape (V H : nat) (g : GRUGrads) : Prop :=
  shape (gg_Wz g) V H /\ shape (gg_Uz g) H H /\ shape (gg_bz g) 1 H /\
  shape (gg_Wr g) V H /\ shape (gg_Ur g) H H /\ shape (gg_br g) 1 H /\
  shape (gg_Wh g) V H /\ shape (gg_Uh g) H H /\ shape (gg_bh g) 1 H /\
  shape (gg_Why g) H V /\ shape (gg_by g) 1 V /\
  shape (gg_dh_next_grad g) 1 H.

Definition lstm_grads_shape (V H : nat) (g : LSTMGrads) : Prop :=
  shape (lg_Wf g) V H /\ shape (lg_Uf g) H H /\ shape (lg_bf g) 1 H /\
  shape (lg_Wi g) V H /\ shape (lg_Ui g) H H /\ shape (lg_bi g) 1 H /\
  shape (lg_Wo g) V H /\ shape (lg_Uo g) H H /\ shape (lg_bo g) 1 H /\
  shape (lg_Wc g) V H /\ shape (lg_Uc g) H H /\ shape (lg_bc g) 1 H /\
  shape (lg_Why g) H V /\ shape (lg_by g) 1 V /\
  shape (lg_dh_next_grad g) 1 H /\ shape (lg_dc_next_grad g) 1 H.

Section ForwardInvariant.
Context {C : Type}.
(** The shape of a cache entry, the relation between the entry of a step
    and the state that the step pushes on [hiddenStates], the [prob] of
    an entry, and what holds of [cellStates]. *)
Variable cshape : C -> Prop.
Variable hrel : C -> Matrix -> Prop.
Variable probf : C -> Matrix.
Variable cells_ok : list Matrix -> Prop.
Variable cells_step : list Matrix -> list Matrix -> Prop.
Variable H : nat.
Variable vocab : list string.
Variable encodedText : list nat.
Variable step : nat.

(** What one pass through the body of a forward loop does to the loop
    variables. *)
Definition forward_step_post (t : nat) (st st' : Forward C) : Prop :=
  exists e h,
    cshape e /\ shape h 1 H /\ hrel e h /\
    hiddenStates st' = hiddenStates st ++ [h] /\
    cache st' = cache st ++ [e] /\
    fw_predictions st' =
      fw_predictions st ++ [prediction_at vocab encodedText t (probf e)] /\
    cells_step (cellStates st) (cellStates st').

(** The loop variables at time [t] of a window that starts at [step]. *)
Definition forward_inv (t : nat) (st : Forward C) : Prop :=
  (step <= t)%nat /\
  (exists h0 hs,
     hiddenStates st = h0 :: hs /\ shape h0 1 H /\
     Forall2 (fun e h => cshape e /\ shape h 1 H /\ hrel e h) (cache st) hs) /\
  length (cache st) = (t - step)%nat /\
  map pred_pair (fw_predictions st) =
    map (pair_at vocab encodedText) (seq step (t - step)) /\
  cells_ok (cellStates st).
End ForwardInvariant.

(** The invariant of the forward loop of [trainStepRNN]. *)
Definition rnn_inv (model : RNN.RNNModel) (H : nat) (encodedText : list nat)
    (step : nat) : nat -> Forward RNNCache -> Prop :=
  forward_inv (rnn_cache_shape (length (RNN.vocab model)) H)
    (fun e h => rc_h_next_dropped e = h) (fun cs => cs = [])
    H (RNN.vocab model) encodedText step.

(** The number of pairs in the window: [seqEnd - step], or 0. *)
Definition window_size (encodedText : list nat) (step len : nat) : nat :=
  Z.to_nat (window_end encodedText step len - Z.of_nat step).

(** The model that [trainStepRNN] returns, from the forward variables and
    the gradients. *)
Definition rnn_updated (model : RNN.RNNModel) (fw : Forward RNNCache)
    (g : RNNGrads) (learningRate : R) : RNN.RNNModel :=
  RNN.mk (RNN.vocab model) (RNN.tokenToIndex model)
    (mkLayer (descend (weights (RNN.Wxh model)) (dWxh g) (- learningRate))
             (descend (biases (RNN.Wxh model)) (dbxh g) (- learningRate)))
    (mkLayer (descend (weights (RNN.Whh model)) (dWhh g) (- learningRate))
             (biases (RNN.Whh model)))
    (mkLayer (descend (weights (RNN.Why model)) (dWhy g) (- learningRate))
             (descend (biases (RNN.Why model)) (dbhy g) (- learningRate)))
    (last_state (hiddenStates fw)).

(** The invariant of the forward loop of [trainStepGRU]. *)
Definition gru_inv (model : GRU.GRULanguageModel) (H : nat)
    (encodedText : list nat) (step : nat) : nat -> Forward GRUCache -> Prop :=
  forward_inv (gru_cache_shape (length (GRU.vocab model)) H)
    (fun e h => gc_h_t_dropped e = h) (fun cs => cs = [])
    H (GRU.vocab model) encodedText step.

Definition gru_updated (model : GRU.GRULanguageModel) (fw : Forward GRUCache)
    (g : GRUGrads) (learningRate : R) : GRU.GRULanguageModel :=
  let lr := - learningRate in
  GRU.mk (GRU.vocab model) (GRU.tokenToIndex model)
    (mkLayer (descend (weights (GRU.Wz model)) (gg_Wz g) lr)
             (descend (biases (GRU.Wz model)) (gg_bz g) lr))
    (mkLayer (descend (weights (GRU.Uz model)) (gg_Uz g) lr)
             (biases (GRU.Uz model)))
    (mkLayer (descend (weights (GRU.Wr model)) (gg_Wr g) lr)
             (descend (biases (GRU.Wr model)) (gg_br g) lr))
    (mkLayer (descend (weights (GRU.Ur model)) (gg_Ur g) lr)
             (biases (GRU.Ur model)))
    (mkLayer (descend (weights (GRU.Wh model)) (gg_Wh g) lr)
             (descend (biases (GRU.Wh model)) (gg_bh g) lr))
    (mkLayer (descend (weights (GRU.Uh model)) (gg_Uh g) lr)
             (biases (GRU.Uh model)))
    (mkLayer (descend (weights (GRU.Why model)) (gg_Why g) lr)
             (descend (biases (GRU.Why model)) (gg_by g) lr))
    (last_state (hiddenStates fw)).

(** The invariant of the forward loop of [trainStepLSTM]: [cellStates] is
    never empty and holds 1 by [H] rows. *)
Definition lstm_cells_ok (H : nat) (cs : list Matrix) : Prop :=
  cs <> [] /\ Forall (fun c => shape c 1 H) cs.

Definition lstm_inv (model : LSTM.LSTMLanguageModel) (H : nat)
    (encodedText : list nat) (step : nat) : nat -> Forward LSTMCache -> Prop :=
  forward_inv (lstm_cache_shape (length (LSTM.vocab model)) H)
    (fun _ _ => True) (lstm_cells_ok H)
    H (LSTM.vocab model) encodedText step.

Definition lstm_updated (model : LSTM.LSTMLanguageModel)
    (fw : Forward LSTMCache) (g : LSTMGrads) (learningRate : R)
    : LSTM.LSTMLanguageModel :=
  let lr := - learningRate in
  let gf := applyGrads (LSTM.Wf model) (LSTM.Uf model) (lg_Wf g) (lg_Uf g) (lg_bf g) lr in
  let gi := applyGrads (LSTM.Wi model) (LSTM.Ui model) (lg_Wi g) (lg_Ui g) (lg_bi g) lr in
  let go := applyGrads (LSTM.Wo model) (LSTM.Uo model) (lg_Wo g) (lg_Uo g) (lg_bo g) lr in
  let gc := applyGrads (LSTM.Wc model) (LSTM.Uc model) (lg_Wc g) (lg_Uc g) (lg_bc g) lr in
  LSTM.mk (LSTM.vocab model) (LSTM.tokenToIndex model)
    gf.1 gf.2 gi.1 gi.2 go.1 go.2 gc.1 gc.2
    (mkLayer (descend (weights (LSTM.Why model)) (lg_Why g) lr)
             (descend (biases (LSTM.Why model)) (lg_by g) lr))
    (last_state (hiddenStates fw))
    (last_state (cellStates fw)).

(* ===================================================================== *)
(** ** The batch of [trainStepFFNN] *)
(* ===================================================================== *)

Definition ffnn_example_shape (V H : nat) (ex : FFNNExample) : Prop :=
  shape (dHiddenWeights ex) V H /\ shape (dHiddenBiases ex) 1 H /\
  shape (dOutputWeights ex) H V /\ shape (dOutputBiases ex) 1 V.

Definition ffnn_acc_shape (V H : nat) (acc : FFNNAcc) : Prop :=
  shape (weights (hiddenGrad acc)) V H /\ shape (biases (hiddenGrad acc)) 1 H /\
  shape (weights (outputGrad acc)) H V /\ shape (biases (outputGrad acc)) 1 V.

(** Cell (i,j) of the gradient that the pair at position [t] contributes
    to one parameter; [sel] picks the parameter's gradient. *)
Definition example_grad (model : FFNN.FFNNModel) (encodedText : list nat)
    (sel : FFNNExample -> Matrix) (t i j : nat) : R :=
  match ffnn_example model encodedText t with
  | Some ex => mget (sel ex) i j
  | None => 0
  end.

(** The sum of the per-example gradients over the [n] pairs from [step]. *)
Definition window_grad (model : FFNN.FFNNModel) (encodedText : list nat)
    (sel : FFNNExample -> Matrix) (step n i j : nat) : R :=
  Rsum (map (fun t => example_grad model encodedText sel t i j) (seq step n)).

(** The accumulator after the pairs from [step] up to [t]. *)
Definition ffnn_inv (model : FFNN.FFNNModel) (H : nat) (encodedText : list nat)
    (step : nat) (t : nat) (acc : FFNNAcc) : Prop :=
  let V := length (FFNN.vocab model) in
  let sum := window_grad model encodedText in
  (step <= t)%nat /\
  ffnn_acc_shape V H acc /\
  map pred_pair (predictions acc) =
    map (pair_at (FFNN.vocab model) encodedText) (seq step (t - step)) /\
  (forall i j, (i < V)%nat -> (j < H)%nat ->
     mget (weights (hiddenGrad acc)) i j = sum dHiddenWeights step (t - step)%nat i j) /\
  (forall j, (j < H)%nat ->
     mget (biases (hiddenGrad acc)) 0 j = sum dHiddenBiases step (t - step)%nat 0%nat j) /\
  (forall i j, (i < H)%nat -> (j < V)%nat ->
     mget (weights (outputGrad acc)) i j = sum dOutputWeights step (t - step)%nat i j) /\
  (forall j, (j < V)%nat ->
     mget (biases (outputGrad acc)) 0 j = sum dOutputBiases step (t - step)%nat 0%nat j).

(** One parameter after the update of a window of [n] pairs, as the code
    computes it: the accumulated gradient is clipped, then scaled by
    [-learningRate / n]. *)
Definition clip_then_average (old acc learningRate : R) (n : nat) : R :=
  old + clip_value acc * (- learningRate / INR n).

(** The same parameter as the description of the update has it: the
    accumulated gradient is divided by [n], then clipped, then scaled by
    [-learningRate]. *)
Definition average_then_clip (old acc learningRate : R) (n : nat) : R :=
  old - learningRate * clip_value (acc / INR n).

(** A model and a corpus on which the two differ: every pair of "aaa"
    contributes 4 to the gradient of the hidden bias. *)
Definition ffnn_cex_model : FFNN.FFNNModel :=
  FFNN.mk ["a"; "b"]%string {[ "a"%string := 0%nat; "b"%string := 1%nat ]}
    (mkLayer (mkMatrix 2 1 [[0]; [0]]) (mkMatrix 1 1 [[0]]))
    (mkLayer (mkMatrix 1 2 [[0; 8]]) (mkMatrix 1 2 [[0; 0]])).

Definition ffnn_cex_text : list nat := [0; 0; 0]%nat.

(** The model that [trainStepFFNN] returns for a window that is not empty,
    from the accumulated gradients and the step [lr]. *)
Definition ffnn_updated (model : FFNN.FFNNModel) (acc : FFNNAcc) (lr : R)
    : FFNN.FFNNModel :=
  FFNN.mk (FFNN.vocab model) (FFNN.tokenToIndex model)
    (mkLayer (descend (weights (FFNN.hiddenLayer model)) (weights (hiddenGrad acc)) lr)
             (descend (biases (FFNN.hiddenLayer model)) (biases (hiddenGrad acc)) lr))
    (mkLayer (descend (weights (FFNN.outputLayer model)) (weights (outputGrad acc)) lr)
             (descend (biases (FFNN.outputLayer model)) (biases (outputGrad acc)) lr)).

(** [model] with another bias vector in its recurrent layer [Whh]. *)
Definition set_Whh_biases (model : RNN.RNNModel) (b : Matrix) : RNN.RNNModel :=
  RNN.mk (RNN.vocab model) (RNN.tokenToIndex model) (RNN.Wxh model)
    (mkLayer (weights (RNN.Whh model)) b) (RNN.Why model) (RNN.h model).

(** A result of [trainStepRNN] with that bias vector in its model. *)
Definition result_set_Whh_biases (b : Matrix)
    (rp : TrainStepResult RNN.RNNModel * nat)
    : TrainStepResult RNN.RNNModel * nat :=
  let r := rp.1 in
  (mkResult (set_Whh_biases (updatedModel r) b) (loss r) (inputToken r)
     (targetToken r) (predictedToken r) (predictionResults r) (act_hidden r)
     (act_output r) (act_outputRaw r) (gradients r) (gateActivations r),
   rp.2).

(** Two states of a forward loop carry the same recurrent state into the
    next step. *)
Definition same_carry {C : Type} (st st' : Forward C) : Prop :=
  last_state (hiddenStates st) = last_state (hiddenStates st') /\
  last_state (cellStates st) = last_state (cellStates st').

(** What C8 says of [predictionResults]: as many entries as the window has
    pairs, [min(windowSize, length - 1 - cursor)], and entry k holds the
    input and target tokens of the pair at [cursor + k]. *)
Definition covers_window (vocab : list string) (encodedText : list nat)
    (step windowSize : nat) (preds : list Prediction) : Prop :=
  Z.of_nat (length preds) =
    Z.min (Z.of_nat windowSize)
          (Z.of_nat (length encodedText) - 1 - Z.of_nat step) /\
  map pred_pair preds =
    map (pair_at vocab encodedText) (seq step (length preds)).

(* ===================================================================== *)
(** ** Small models used as instances *)
(* ===================================================================== *)

(** A layer whose weights all hold [w], with zero biases. *)
Definition const_layer (in_ out : nat) (w : R) : Layer :=
  mkLayer (createMatrix in_ out w) (createMatrix 1 out 0).

Definition abc_vocab : list string := ["a"; "b"; "c"]%string.

Definition abc_index : gmap string nat :=
  {[ "a"%string := 0%nat; "b"%string := 1%nat; "c"%string := 2%nat ]}.

(** The encoded corpus of "abcabc". *)
Definition abc_text : list nat := [0; 1; 2; 0; 1; 2]%nat.

Definition ffnn_abc : FFNN.FFNNModel :=
  FFNN.mk abc_vocab abc_index (const_layer 3 2 (1 / 10)) (const_layer 2 3 (1 / 10)).

Definition rnn_abc : RNN.RNNModel :=
  RNN.mk abc_vocab abc_index
    (const_layer 3 2 (1 / 10)) (const_layer 2 2 (1 / 10))
    (const_layer 2 3 (1 / 10)) (createMatrix 1 2 0).

Definition gru_abc : GRU.GRULanguageModel :=
  GRU.mk abc_vocab abc_index
    (const_layer 3 2 (1 / 10)) (const_layer 2 2 (1 / 10))
    (const_layer 3 2 (1 / 10)) (const_layer 2 2 (1 / 10))
    (const_layer 3 2 (1 / 10)) (const_layer 2 2 (1 / 10))
    (const_layer 2 3 (1 / 10)) (createMatrix 1 2 0).

Definition lstm_abc : LSTM.LSTMLanguageModel :=
  LSTM.mk abc_vocab abc_index
    (const_layer 3 2 (1 / 10)) (const_layer 2 2 (1 / 10))
    (const_layer 3 2 (1 / 10)) (const_layer 2 2 (1 / 10))
    (const_layer 3 2 (1 / 10)) (const_layer 2 2 (1 / 10))
    (const_layer 3 2 (1 / 10)) (const_layer 2 2 (1 / 10))
    (const_layer 2 3 (1 / 10)) (createMatrix 1 2 0) (createMatrix 1 2 0).

Definition no_rand : nat -> R := fun _ => 0.

(** An order for [localeCompare] in the examples: by code units. *)
Definition by_code_units (a b : string) : Z :=
  match String.compare a b with
  | Lt => (-1)%Z
  | Eq => 0%Z
  | Gt => 1%Z
  end.

(** The letter h (code unit 104) and the letter s (115). *)
Definition letter_h : Ascii.ascii := Ascii.ascii_of_nat 104.
Definition letter_s : Ascii.ascii := Ascii.ascii_of_nat 115.

(* ===================================================================== *)
(** ** The backward steps, as the specification writes them *)
(* ===================================================================== *)

(** Row vectors are functions from the column index.  [vsum n f] is the
    sum of [f k] for k < n, and [times_transposed n v U] is the row
    [v * transpose(U)] for a row [v] of length [n]: its entry j is the sum
    over k of [v k * U[j][k]]. *)
Definition vsum (n : nat) (f : nat -> R) : R := Rsum (map f (seq 0 n)).

Definition times_transposed (n : nat) (v : nat -> R) (U : Matrix) (j : nat) : R :=
  vsum n (fun k => v k * mget U j k).

(** The factor that dropout puts on entry j of a gradient. *)
Definition mask_at (mask : option Matrix) (j : nat) : R :=
  match mask with
  | Some mk => mget mk 0 j
  | None => 1
  end.

Section GRUBackwardSpec.
Variable model : GRU.GRULanguageModel.
Variables V H : nat.
Variable e : GRUCache.
Variable target : option nat.
Variable dh_next_in : Matrix.

Let z (j : nat) : R := mget (gc_z_t e) 0 j.
Let r (j : nat) : R := mget (gc_r_t e) 0 j.
Let h_hat (j : nat) : R := mget (gc_h_hat_t e) 0 j.
Let h_prev (j : nat) : R := mget (gc_h_prev e) 0 j.

(** The gradient of the loss in the logits: [prob] with 1 subtracted at
    the target. *)
Definition gru_dy (k : nat) : R := mget (softmax_grad (gc_prob e) target) 0 k.

(** [dh]: the gradient from the output path plus the one from the later
    step, through the dropout mask. *)
Definition gru_dh (j : nat) : R :=
  (times_transposed V gru_dy (weights (GRU.Why model)) j + mget dh_next_in 0 j)
  * mask_at (gc_mask e) j.

(** The pre-activation gradients of the candidate and of the update
    gate. *)
Definition gru_dh_hat_raw (j : nat) : R := gru_dh j * z j * dtanh (h_hat j).
Definition gru_dz_raw (j : nat) : R :=
  gru_dh j * (h_hat j - h_prev j) * dsigmoid (z j).

(** [dh_hat_raw * transpose(Uh)]: the candidate's gradient at the
    reset-gated previous state. *)
Definition gru_candidate_back (j : nat) : R :=
  times_transposed H gru_dh_hat_raw (weights (GRU.Uh model)) j.

(** The pre-activation gradient of the reset gate. *)
Definition gru_dr_raw (j : nat) : R :=
  gru_candidate_back j * h_prev j * dsigmoid (r j).

(** The four contributions to the gradient passed to the earlier
    step. *)
Definition gru_direct_path (j : nat) : R := gru_dh j * (1 - z j).
Definition gru_candidate_path (j : nat) : R := gru_candidate_back j * r j.
Definition gru_update_path (j : nat) : R :=
  times_transposed H gru_dz_raw (weights (GRU.Uz model)) j.
Definition gru_reset_path (j : nat) : R :=
  times_transposed H gru_dr_raw (weights (GRU.Ur model)) j.

Definition gru_dh_next (j : nat) : R :=
  gru_direct_path j + gru_candidate_path j + gru_update_path j
  + gru_reset_path j.
End GRUBackwardSpec.

Section LSTMBackwardSpec.
Variable model : LSTM.LSTMLanguageModel.
Variables V H : nat.
Variable e : LSTMCache.
Variable target : option nat.
Variables dh_next_in dc_next_in : Matrix.

Let f (j : nat) : R := mget (lc_f_t e) 0 j.
Let i (j : nat) : R := mget (lc_i_t e) 0 j.
Let o (j : nat) : R := mget (lc_o_t e) 0 j.
Let c_hat (j : nat) : R := mget (lc_c_hat_t e) 0 j.
Let c_t (j : nat) : R := mget (lc_c_t e) 0 j.
Let c_prev (j : nat) : R := mget (lc_c_prev e) 0 j.

Definition lstm_dy (k : nat) : R := mget (softmax_grad (lc_prob e) target) 0 k.

(** [dh]: the gradient from the output path plus [dh_next], through the
    dropout mask. *)
Definition lstm_dh (j : nat) : R :=
  (times_transposed V lstm_dy (weights (LSTM.Why model)) j + mget dh_next_in 0 j)
  * mask_at (lc_mask e) j.

(** The gradient in the output gate's activation [o_t], and the
    pre-activation gradient of the output gate: the former times the
    derivative of the sigmoid. *)
Definition lstm_do_activation (j : nat) : R := lstm_dh j * tanh (c_t j).
Definition lstm_do_pre (j : nat) : R := lstm_do_activation j * dsigmoid (o j).

(** [dc_t], and the pre-activation gradients of the candidate, the input
    gate and the forget gate. *)
Definition lstm_dc (j : nat) : R :=
  mget dc_next_in 0 j + lstm_dh j * (o j * dtanh (tanh (c_t j))).
Definition lstm_dc_hat_pre (j : nat) : R := lstm_dc j * i j * dtanh (c_hat j).
Definition lstm_di_pre (j : nat) : R := lstm_dc j * c_hat j * dsigmoid (i j).
Definition lstm_df_pre (j : nat) : R := lstm_dc j * c_prev j * dsigmoid (f j).

(** [dc_next = dc_t * f_t] *)
Definition lstm_dc_next (j : nat) : R := lstm_dc j * f j.

(** [dh_next] as C1 has it: each gate's pre-activation gradient times
    the transpose of its recurrent weights. *)
Definition lstm_dh_next_claimed (j : nat) : R :=
  times_transposed H lstm_df_pre (weights (LSTM.Uf model)) j
  + times_transposed H lstm_di_pre (weights (LSTM.Ui model)) j
  + times_transposed H lstm_do_pre (weights (LSTM.Uo model)) j
  + times_transposed H lstm_dc_hat_pre (weights (LSTM.Uc model)) j.

(** [dh_next] as [trainStepLSTM] computes it: the output gate enters
    with the gradient in its activation, not with its pre-activation
    gradient. *)
Definition lstm_dh_next_computed (j : nat) : R :=
  times_transposed H lstm_df_pre (weights (LSTM.Uf model)) j
  + times_transposed H lstm_di_pre (weights (LSTM.Ui model)) j
  + times_transposed H lstm_do_activation (weights (LSTM.Uo model)) j
  + times_transposed H lstm_dc_hat_pre (weights (LSTM.Uc model)) j.
End LSTMBackwardSpec.

(** [grads], [dh_next_grad] and [dc_next_grad] as the backward pass of
    [trainStepLSTM] initialises them. *)
Definition lstm_zero_grads (V H : nat) : LSTMGrads :=
  let VH := createMatrix V H 0 in
  let HH := createMatrix H H 0 in
  let b := createMatrix 1 H 0 in
  mkLSTMGrads VH HH b VH HH b VH HH b VH HH b
    (createMatrix H V 0) (createMatrix 1 V 0)
    (createMatrix 1 H 0) (createMatrix 1 H 0).

(** An LSTM over two tokens with one hidden unit: the only non-zero
    parameters are the recurrent weight of the output gate and one output
    weight; the carried cell state is 1. *)
Definition lstm_bug_model : LSTM.LSTMLanguageModel :=
  let W0 := mkLayer (mkMatrix 2 1 [[0]; [0]]) (mkMatrix 1 1 [[0]]) in
  let U0 := mkLayer (mkMatrix 1 1 [[0]]) (mkMatrix 1 1 [[0]]) in
  let U1 := mkLayer (mkMatrix 1 1 [[1]]) (mkMatrix 1 1 [[0]]) in
  LSTM.mk ["a"; "b"]%string {[ "a"%string := 0%nat; "b"%string := 1%nat ]}
    W0 U0 W0 U0 W0 U1 W0 U0
    (mkLayer (mkMatrix 1 2 [[1; 0]]) (mkMatrix 1 2 [[0; 0]]))
    (mkMatrix 1 1 [[0]]) (mkMatrix 1 1 [[1]]).

Definition lstm_bug_text : list nat := [0; 0; 0]%nat.

Definition row1 (a : R) : Matrix := mkMatrix 1 1 [[a]].

(** The output probabilities of [lstm_bug_model] for hidden state [h]. *)
Definition bug_prob (h : R) : Matrix := softmax (mkMatrix 1 2 [[h; 0]]).

(** The cache entry of a forward step of [lstm_bug_model] on token 0 from
    hidden state [a] and cell state [b]. *)
Definition bug_entry (a b : R) : LSTMCache :=
  mkLSTMCache (one_hot 2 (Some 0%nat)) (row1 a) (row1 b)
    (row1 (1 / 2)) (row1 (1 / 2)) (row1 (sigmoid a)) (row1 0) (row1 (b / 2))
    (row1 (sigmoid a * tanh (b / 2))) None
    (bug_prob (sigmoid a * tanh (b / 2))).

(** Its hidden state after the first step of the window. *)
Definition bug_h1 : R := sigmoid 0 * tanh (1 / 2).

(** [v * W] for a row [v] of length [n]: entry j is the sum over k of
    [v k * W[k][j]]. *)
Definition times (n : nat) (v : nat -> R) (W : Matrix) (j : nat) : R :=
  vsum n (fun k => v k * mget W k j).

(** The hidden state of the RNN before dropout, as its forward pass is
    described: [tanh(x * Wxh.weights + Wxh.biases + h_prev * Whh.weights)]. *)
Definition rnn_hidden (model : RNN.RNNModel) (H : nat) (x h_prev : Matrix)
    (j : nat) : R :=
  tanh (times (length (RNN.vocab model)) (mget x 0) (weights (RNN.Wxh model)) j
        + mget (biases (RNN.Wxh model)) 0 j
        + times H (mget h_prev 0) (weights (RNN.Whh model)) j).
(* ===================================================================== *)
(** ** Statements about the tokenizers *)
(* ===================================================================== *)

(** The text that a sequence of ids stands for: [vocab[id]] for each id,
    joined, as the training steps and the generators read ids. *)
Definition decode_ids (vocab : list string) (ids : list (option nat)) : string :=
  join (map (fun id => or_undefined (token_at vocab id)) ids).

(* ===================================================================== *)
(** ** Statements about the engine *)
(* ===================================================================== *)

(** The least and the largest loss of one pair:
    [-Math.log(p + 1e-9)] for a probability [p] between 0 and 1. *)
Definition loss_floor : R := - ln (1 + epsilon).
Definition loss_ceiling : R := - ln epsilon.

(** Every entry of [b] is within [d] of the entry of [a] at the same
    place. *)
Definition within (a b : Matrix) (d : R) : Prop :=
  forall i j, (i < rows a)%nat -> (j < cols a)%nat ->
    Rabs (mget b i j - mget a i j) <= d.

Definition layer_within (a b : Layer) (d : R) : Prop :=
  within (weights a) (weights b) d /\ within (biases a) (biases b) d.

(** Every entry of [m] is at least -1 and at most 1. *)
Definition bounded_by_one (m : Matrix) : Prop :=
  forall i j, -1 <= mget m i j <= 1.

(** The three tokens of a prediction entry are tokens of [vocab]. *)
Definition holds_tokens (vocab : list string) (p : Prediction) : Prop :=
  exists a b c,
    p = mkPrediction (Some a) (Some b) (Some c) /\
    In a vocab /\ In b vocab /\ In c vocab.

(** Every id of the corpus is an index of the vocabulary. *)
Definition valid_corpus (V : nat) (encodedText : list nat) : Prop :=
  Forall (fun id => (id < V)%nat) encodedText.

(** No parameter of the second model is further than [d] from the same
    parameter of the first. *)
Definition ffnn_within (m m' : FFNN.FFNNModel) (d : R) : Prop :=
  layer_within (FFNN.hiddenLayer m) (FFNN.hiddenLayer m') d /\
  layer_within (FFNN.outputLayer m) (FFNN.outputLayer m') d.

Definition rnn_within (m m' : RNN.RNNModel) (d : R) : Prop :=
  layer_within (RNN.Wxh m) (RNN.Wxh m') d /\
  layer_within (RNN.Whh m) (RNN.Whh m') d /\
  layer_within (RNN.Why m) (RNN.Why m') d.

Definition gru_within (m m' : GRU.GRULanguageModel) (d : R) : Prop :=
  layer_within (GRU.Wz m) (GRU.Wz m') d /\ layer_within (GRU.Uz m) (GRU.Uz m') d /\
  layer_within (GRU.Wr m) (GRU.Wr m') d /\ layer_within (GRU.Ur m) (GRU.Ur m') d /\
  layer_within (GRU.Wh m) (GRU.Wh m') d /\ layer_within (GRU.Uh m) (GRU.Uh m') d /\
  layer_within (GRU.Why m) (GRU.Why m') d.

Definition lstm_within (m m' : LSTM.LSTMLanguageModel) (d : R) : Prop :=
  layer_within (LSTM.Wf m) (LSTM.Wf m') d /\ layer_within (LSTM.Uf m) (LSTM.Uf m') d /\
  layer_within (LSTM.Wi m) (LSTM.Wi m') d /\ layer_within (LSTM.Ui m) (LSTM.Ui m') d /\
  layer_within (LSTM.Wo m) (LSTM.Wo m') d /\ layer_within (LSTM.Uo m) (LSTM.Uo m') d /\
  layer_within (LSTM.Wc m) (LSTM.Wc m') d /\ layer_within (LSTM.Uc m) (LSTM.Uc m') d /\
  layer_within (LSTM.Why m) (LSTM.Why m') d.

(** What a pass through the body of a forward loop does to [totalLoss]
    and [predictionResults]: it adds the loss and the entry of the
    [softmax] of logits that [dot] and [add] compute with the output layer
    [Why]. *)
Definition output_effect {C : Type} (vocab : list string) (Why : Layer)
    (encodedText : list nat) (t : nat) (st st' : Forward C) : Prop :=
  exists hd hy,
    dot hd (weights Why) = Some hy /\
    hiddenStates st' = hiddenStates st ++ [hd] /\
    fw_totalLoss st' =
      fw_totalLoss st +
      crossEntropy (softmax (add hy (biases Why))) (encodedText !! S t) /\
    fw_predictions st' =
      fw_predictions st ++
      [prediction_at vocab encodedText t (softmax (add hy (biases Why)))].

(** The same for the batch loop of the FFNN. *)
Definition ffnn_output_effect (model : FFNN.FFNNModel) (encodedText : list nat)
    (t : nat) (acc acc' : FFNNAcc) : Prop :=
  exists ha hw,
    dot ha (weights (FFNN.outputLayer model)) = Some hw /\
    let prob := softmax (add hw (biases (FFNN.outputLayer model))) in
    totalLoss acc' = totalLoss acc + crossEntropy prob (encodedText !! S t) /\
    predictions acc' =
      predictions acc ++ [prediction_at (FFNN.vocab model) encodedText t prob].

(** The predicted token of an entry is a token of [vocab]. *)
Definition predicted_in (vocab : list string) (p : Prediction) : Prop :=
  exists c, p_predictedToken p = Some c /\ In c vocab.

(** So are its input and target tokens. *)
Definition pair_in (vocab : list string) (pr : option string * option string)
    : Prop :=
  exists a b, pr = (Some a, Some b) /\ In a vocab /\ In b vocab.

(** A sum of [n] losses. *)
Definition loss_in_range (n : nat) (total : R) : Prop :=
  INR n * loss_floor <= total <= INR n * loss_ceiling.

(** A layer as [createLayer] leaves it: every weight at least -0.05 and
    below 0.05, every bias 0. *)
Definition fresh_layer (l : Layer) : Prop :=
  (forall i j, (i < rows (weights l))%nat -> (j < cols (weights l))%nat ->
     - (5 / 100) <= mget (weights l) i j < 5 / 100) /\
  biases l = createMatrix 1 (cols (weights l)) 0.

(** Every draw of the random stream is a value of [Math.random]: at least
    0 and below 1. *)
Definition unit_draws (rand : nat -> R) : Prop :=
  forall n, 0 <= rand n < 1.

(** A model as its initialiser leaves it: every layer fresh, the
    recurrent state 0. *)
Definition ffnn_fresh (m : FFNN.FFNNModel) : Prop :=
  fresh_layer (FFNN.hiddenLayer m) /\ fresh_layer (FFNN.outputLayer m).

Definition rnn_fresh (m : RNN.RNNModel) (H : nat) : Prop :=
  fresh_layer (RNN.Wxh m) /\ fresh_layer (RNN.Whh m) /\ fresh_layer (RNN.Why m) /\
  RNN.h m = createMatrix 1 H 0.

Definition gru_fresh (m : GRU.GRULanguageModel) (H : nat) : Prop :=
  fresh_layer (GRU.Wz m) /\ fresh_layer (GRU.Uz m) /\
  fresh_layer (GRU.Wr m) /\ fresh_layer (GRU.Ur m) /\
  fresh_layer (GRU.Wh m) /\ fresh_layer (GRU.Uh m) /\
  fresh_layer (GRU.Why m) /\
  GRU.h m = createMatrix 1 H 0.

Definition lstm_fresh (m : LSTM.LSTMLanguageModel) (H : nat) : Prop :=
  fresh_layer (LSTM.Wf m) /\ fresh_layer (LSTM.Uf m) /\
  fresh_layer (LSTM.Wi m) /\ fresh_layer (LSTM.Ui m) /\
  fresh_layer (LSTM.Wo m) /\ fresh_layer (LSTM.Uo m) /\
  fresh_layer (LSTM.Wc m) /\ fresh_layer (LSTM.Uc m) /\
  fresh_layer (LSTM.Why m) /\
  LSTM.h m = createMatrix 1 H 0 /\ LSTM.c m = createMatrix 1 H 0.

(** A stream of draws that are all 0. *)
Definition zero_draws : nat -> R := fun _ => 0.

(* ===================================================================== *)
(** ** Statements about the generators *)
(* ===================================================================== *)

(** What a generator appends for one pass through its loop: a token of
    the vocabulary, or the text of [undefined] (when the vocabulary is
    empty), and never the space. *)
Definition emitted (vocab : list string) (tok : string) : Prop :=
  tok <> " "%string /\ (In tok vocab \/ (vocab = [] /\ tok = undefined_text)).

(** A result of a generator called with [seed], [length] and the stream
    position [pos]: the seed followed by at most [length] emitted tokens,
    with one draw read per token and at most one more (the draw of a
    space, which ends the word). *)
Definition generated (vocab : list string) (seed : string) (length : nat)
    (pos : nat) (r : string * nat) : Prop :=
  exists toks,
    r.1 = seed +:+ join toks /\
    Forall (emitted vocab) toks /\
    (List.length toks <= length)%nat /\
    (pos + List.length toks <= r.2 <= pos + List.length toks + 1)%nat /\
    (r.2 <= pos + length)%nat.

(** The loop variables of a generator after [i] passes that all went on:
    [i] emitted tokens, one draw each; [Sh] is what holds of the carried
    matrices. *)
Definition gen_inv (vocab : list string) (pos0 : nat) (Sh : GenState -> Prop)
    (i : nat) (st : GenState) : Prop :=
  Sh st /\
  exists toks,
    gen_result st = join toks /\ length toks = i /\
    Forall (emitted vocab) toks /\ gen_pos st = (pos0 + i)%nat.

(** The loop variables when the loop has ended. *)
Definition gen_fin (vocab : list string) (pos0 total : nat) (st : GenState)
    : Prop :=
  exists toks,
    gen_result st = join toks /\ Forall (emitted vocab) toks /\
    (length toks <= total)%nat /\
    (pos0 + length toks <= gen_pos st <= pos0 + length toks + 1)%nat /\
    (gen_pos st <= pos0 + total)%nat.

Definition gen_post (vocab : list string) (pos0 total : nat)
    (Sh : GenState -> Prop) (i : nat) (fl : Flow) : Prop :=
  match fl with
  | Break st' => gen_fin vocab pos0 total st'
  | Continue st' => gen_inv vocab pos0 Sh (S i) st'
  end.

(** A token index that has the space, at index 0. *)
Definition space_first : gmap string nat :=
  <[" "%string := 0%nat]> (<["a"%string := 1%nat]> ∅).

(* ===================================================================== *)
(** ** Statements about the greedy tokenizers *)
(* ===================================================================== *)

(** No token of a later place of the vocabulary is longer than one of an
    earlier place ("sorted by length descending"). *)
Definition lengths_descend (vocab : list string) : Prop :=
  forall a b x y, (a <= b)%nat -> vocab !! a = Some x -> vocab !! b = Some y ->
    (String.length y <= String.length x)%nat.

(** [token] is a longest token of [vocab] that [text] holds at [i]. *)
Definition longest_match (vocab : list string) (text : string) (i : nat)
    (token : string) : Prop :=
  In token vocab /\ startsWith text token i = true /\
  forall token', In token' vocab -> startsWith text token' i = true ->
    (String.length token' <= String.length token)%nat.

(** Every character of [text] is a token of [vocab]. *)
Definition covers_characters (vocab : list string) (text : string) : Prop :=
  forall c, In c (String.list_ascii_of_string text) -> In (String c "") vocab.

(** [tokenToIndex] maps every token of [vocab] to a place where [vocab]
    holds it. *)
Definition indexes (vocab : list string) (tokenToIndex : gmap string nat)
    : Prop :=
  forall token, In token vocab ->
    exists i, tokenToIndex !! token = Some i /\ vocab !! i = Some token.

(** An id that [encodeCustom] has pushed is a place of the vocabulary. *)
Definition valid_id (vocab : list string) (id : option nat) : Prop :=
  exists i, id = Some i /\ (i < length vocab)%nat.

(* ===================================================================== *)
(** ** Statements about byte-pair encoding *)
(* ===================================================================== *)

(** [a] is followed by [b] somewhere in [ids]. *)
Definition adjacent (ids : list nat) (a b : nat) : Prop :=
  exists k, ids !! k = Some a /\ ids !! S k = Some b.

(** [ids] with every [idx] replaced by the two ids of [pair]. *)
Definition unmerge (pair : Pair) (idx : nat) (ids : list nat) : list nat :=
  flat_map (fun x => if (x =? idx)%nat then [pair.1; pair.2] else [x]) ids.

(** The bytes that a sequence of ids stands for. *)
Definition decode_bytes (byteVocab : gmap nat (list nat)) (ids : list nat)
    : list nat :=
  flat_map (bytes_of byteVocab) ids.

(** What an entry [(pair, idx)] of [merges] satisfies before pass [i] of
    the training loop: [idx] is a merge id older than [i] and above the two
    ids of its pair, its bytes are the bytes of the two, and the pair no
    longer occurs in [ids]. *)
Definition merge_entry_ok (i : nat) (st : BPE) (e : Pair * nat) : Prop :=
  (e.1.1 < e.2)%nat /\ (e.1.2 < e.2)%nat /\ (e.2 < 256 + i)%nat /\
  bytes_of (bpe_byteVocab st) e.2 =
    bytes_of (bpe_byteVocab st) e.1.1 ++ bytes_of (bpe_byteVocab st) e.1.2 /\
  ~ adjacent (bpe_ids st) e.1.1 e.1.2.

(** What the variables of the training loop of [trainBPE text] satisfy
    before pass [i]. *)
Definition bpe_inv (text : string) (i : nat) (st : BPE) : Prop :=
  Forall (fun x => (x < 256 + i)%nat) (bpe_ids st) /\
  (forall b, (b < 256)%nat -> bpe_byteVocab st !! b = Some [b]) /\
  (forall id, is_Some (bpe_byteVocab st !! id) <-> (id < 256 + i)%nat) /\
  (forall e, In e (bpe_merges st) -> merge_entry_ok i st e) /\
  map snd (bpe_merges st) = seq 256 i /\
  List.NoDup (map fst (bpe_merges st)) /\
  bpe_ids st =
    fold_left (fun ids e => merge ids e.1 e.2) (bpe_merges st) (textEncode text) /\
  (length (bpe_ids st) + i <= length (textEncode text))%nat.

(** The number of places of [ids] where [pair] occurs (two occurrences may
    share an id, as (7,7) in [7; 7; 7]). *)
Fixpoint occurrences (ids : list nat) (pair : Pair) : nat :=
  match ids with
  | a :: rest =>
      match rest with
      | b :: _ =>
          ((if (a =? pair.1)%nat && (b =? pair.2)%nat then 1 else 0)
           + occurrences rest pair)%nat
      | [] => 0%nat
      end
  | [] => 0%nat
  end.

(* ===================================================================== *)
(** ** Statements about the tokenization of [initialize] *)
(* ===================================================================== *)

(** [lengths_descend], by recursion on the list. *)
Fixpoint descending (l : list string) : Prop :=
  match l with
  | [] => True
  | x :: rest =>
      (forall y, In y rest -> (String.length y <= String.length x)%nat) /\
      descending rest
  end.

(** [encoded] holds the ids of [encodedText], none of them [undefined]. *)
Definition ids_of (encoded : list (option nat)) (encodedText : list nat) : Prop :=
  encoded = map Some encodedText.

(** [c] is a character of one of the tokens. *)
Definition covered (tokens : list string) (c : Ascii.ascii) : Prop :=
  exists t, In t tokens /\ In c (String.list_ascii_of_string t).

(** [c] occurs in some token, and every token in which it occurs has a
    character that [text] does not have. *)
Definition only_in_foreign_tokens (tokens : list string) (text : string)
    (c : Ascii.ascii) : Prop :=
  covered tokens c /\
  forall t, In t tokens -> In c (String.list_ascii_of_string t) ->
    exists d, In d (String.list_ascii_of_string t) /\
              ~ In d (String.list_ascii_of_string text).

(* ===================================================================== *)
(** ** Statements about the "good word" check *)
(* ===================================================================== *)

(** The letters of the tokens of phonotactics.ts. *)
Definition token_letters : string := "abcdefghiklmnoprstuv".

Definition is_token_letter (c : Ascii.ascii) : bool :=
  existsb (Ascii.eqb c) (String.list_ascii_of_string token_letters).

(** What [tokenizeWord] returns on [word]: tokens of phonotactics.ts that,
    joined, are the word; or [null], and then there is a place of the word
    where it holds no token. *)
Definition tokenized (allTokens : list string) (word : string)
    (r : option (list string)) : Prop :=
  match r with
  | Some tokens =>
      join tokens = word /\ Forall (fun t => In t allTokens) tokens
  | None =>
      exists i, (i < String.length word)%nat /\
        forall t, In t allTokens -> startsWith word t i = false
  end.

(** What holds of a word that [isGoodWord] accepts. *)
Definition good_word_facts (word : string) : Prop :=
  (2 <= String.length word <= 12)%nat /\
  Forall (fun c => is_token_letter c = true) (String.list_ascii_of_string word) /\
  (exists v, In v VOWELS /\ In v (split_chars word)) /\
  exists tokens first last,
    join tokens = word /\
    Forall (fun t => In t allTokensSet) tokens /\
    head tokens = Some first /\ (In first ONSETS \/ In first VOWELS) /\
    List.last tokens ""%string = last /\
    (In last VOWELS \/ In last CODAS \/ In last EXTENSIONS).

(* ===================================================================== *)
(** ** Lemmas on shapes and element reads *)
(* ===================================================================== *)

Arguments build : simpl never.
Arguments mget : simpl never.
Arguments createMatrix : simpl never.

Lemma tabulate_length r c f : length (tabulate r c f) = r.
Proof. unfold tabulate. now rewrite length_map, length_seq. Qed.

Lemma tabulate_rows r c f :
  Forall (fun row => length row = c) (tabulate r c f).
Proof.
  unfold tabulate. apply List.Forall_forall. intros row Hin.
  apply List.in_map_iff in Hin as (i & <- & _).
  now rewrite length_map, length_seq.
Qed.

Lemma nth_tabulate r c f i j :
  (i < r)%nat -> (j < c)%nat -> nth j (nth i (tabulate r c f) []) 0 = f i j.
Proof.
  intros Hi Hj. unfold tabulate.
  rewrite (nth_indep _ [] (map (fun j => f 0%nat j) (seq 0 c)))
    by now rewrite length_map, length_seq.
  rewrite (map_nth (fun i => map (fun j => f i j) (seq 0 c)) (seq 0 r) 0%nat i).
  rewrite seq_nth by assumption. cbn [Nat.add].
  rewrite (nth_indep _ 0 (f i 0%nat)) by now rewrite length_map, length_seq.
  rewrite (map_nth (fun j => f i j) (seq 0 c) 0%nat j).
  now rewrite seq_nth.
Qed.

Lemma shape_build r c f : shape (build r c f) r c.
Proof.
  unfold shape, build; cbn. repeat split; auto using tabulate_length, tabulate_rows.
Qed.

Lemma mget_build r c f i j :
  (i < r)%nat -> (j < c)%nat -> mget (build r c f) i j = f i j.
Proof. intros. unfold mget, build; cbn. now apply nth_tabulate. Qed.

Lemma shape_createMatrix r c v : shape (createMatrix r c v) r c.
Proof.
  unfold shape, createMatrix; cbn. repeat split.
  - apply repeat_length.
  - apply List.Forall_forall. intros row Hin. apply repeat_spec in Hin. subst.
    apply repeat_length.
Qed.

Lemma mget_createMatrix r c v i j :
  (i < r)%nat -> (j < c)%nat -> mget (createMatrix r c v) i j = v.
Proof.
  intros Hi Hj. unfold mget, createMatrix; cbn.
  rewrite (nth_indep _ [] (repeat v c)) by now rewrite repeat_length.
  rewrite nth_repeat.
  rewrite (nth_indep _ 0 v) by now rewrite repeat_length.
  apply nth_repeat.
Qed.

Lemma shape_rows m r c : shape m r c -> rows m = r.
Proof. now intros (? & _). Qed.

Lemma shape_cols m r c : shape m r c -> cols m = c.
Proof. now intros (_ & ? & _). Qed.

Lemma shape_inj m r c r' c' : shape m r c -> shape m r' c' -> r = r' /\ c = c'.
Proof. intros (<- & <- & _) (<- & <- & _). auto. Qed.

(** Two lists of rows of the same dimensions that agree at every position
    are the same list. *)
Lemma rows_ext (r c : nat) (la lb : list (list R)) :
  length la = r -> length lb = r ->
  Forall (fun row => length row = c) la ->
  Forall (fun row => length row = c) lb ->
  (forall i j, (i < r)%nat -> (j < c)%nat ->
     nth j (nth i la []) 0 = nth j (nth i lb []) 0) ->
  la = lb.
Proof.
  revert r lb. induction la as [|ra la IH]; intros r lb Hla Hlb Fa Fb Hget.
  - destruct lb; [reflexivity | cbn in *; lia].
  - destruct lb as [|rb lb]; [cbn in *; lia|].
    destruct r as [|r]; [cbn in *; lia|].
    inversion Fa as [|? ? Hra Fa']; inversion Fb as [|? ? Hrb Fb']; subst.
    f_equal.
    + apply (nth_ext _ _ 0 0); [congruence|].
      intros j Hj. apply (Hget 0%nat j); lia.
    + apply (IH r); cbn in *; try lia; auto.
      intros i j Hi Hj. apply (Hget (S i) j); lia.
Qed.

Lemma shape_ext a b r c :
  shape a r c -> shape b r c ->
  (forall i j, (i < r)%nat -> (j < c)%nat -> mget a i j = mget b i j) ->
  a = b.
Proof.
  destruct a as [ra ca da], b as [rb cb db].
  intros (Hr & Hc & Hl & Hf) (Hr' & Hc' & Hl' & Hf') Hget; cbn in *.
  subst. f_equal. eapply rows_ext; eauto.
Qed.

Lemma meq_eq a b r c : shape a r c -> shape b r c -> meq a b -> a = b.
Proof.
  intros Ha Hb (_ & _ & Hget). eapply shape_ext; eauto.
  intros i j Hi Hj. apply Hget.
  - now rewrite (shape_rows _ _ _ Ha).
  - now rewrite (shape_cols _ _ _ Ha).
Qed.

(** *** The operations on shaped operands *)

Lemma dot_Some a b r k c :
  shape a r k -> shape b k c -> dot a b = Some (build r c (dot_cell a b)).
Proof.
  intros (Hr & Hc & _) (Hr' & Hc' & _). unfold dot.
  rewrite Hc, Hr', Nat.eqb_refl. cbn. now rewrite Hr, Hc'.
Qed.

Lemma subtract_Some a b r c :
  shape a r c -> shape b r c ->
  subtract a b = Some (build r c (fun i j => mget a i j - mget b i j)).
Proof.
  intros (Hr & Hc & _) (Hr' & Hc' & _). unfold subtract.
  rewrite Hr, Hc, Hr', Hc', !Nat.eqb_refl. reflexivity.
Qed.

Lemma multiply_Some a b r c :
  shape a r c -> shape b r c ->
  multiply a b = Some (build r c (fun i j => mget a i j * mget b i j)).
Proof.
  intros (Hr & Hc & _) (Hr' & Hc' & _). unfold multiply.
  rewrite Hr, Hc, Hr', Hc', !Nat.eqb_refl. reflexivity.
Qed.

Lemma add_same a b r c :
  shape a r c -> shape b r c ->
  add a b = build r c (fun i j => mget a i j + mget b i j).
Proof.
  intros (Hr & Hc & _) (Hr' & Hc' & _). unfold add.
  rewrite Hr, Hc, Hr', Hc', !Nat.eqb_refl. reflexivity.
Qed.

Lemma shape_add a b r c : shape a r c -> shape (add a b) r c.
Proof.
  intros Ha. pose proof Ha as (Hr & Hc & _). unfold add.
  repeat destruct (_ : bool); cbn; try assumption;
    rewrite Hr, Hc; apply shape_build.
Qed.

Lemma shape_scale m s r c : shape m r c -> shape (scale m s) r c.
Proof. intros (<- & <- & _). apply shape_build. Qed.

Lemma shape_transpose m r c : shape m r c -> shape (transpose m) c r.
Proof. intros (<- & <- & _). apply shape_build. Qed.

Lemma shape_map_matrix m fn r c : shape m r c -> shape (map_matrix m fn) r c.
Proof. intros (<- & <- & _). apply shape_build. Qed.

Lemma shape_clip m r c : shape m r c -> shape (clip m) r c.
Proof. apply shape_map_matrix. Qed.

Lemma shape_ones r c : shape (ones r c) r c.
Proof. apply shape_createMatrix. Qed.

Lemma mget_add a b r c i j :
  shape a r c -> shape b r c -> (i < r)%nat -> (j < c)%nat ->
  mget (add a b) i j = mget a i j + mget b i j.
Proof. intros Ha Hb Hi Hj. rewrite (add_same a b r c) by assumption. now rewrite mget_build. Qed.

Lemma mget_scale m s r c i j :
  shape m r c -> (i < r)%nat -> (j < c)%nat ->
  mget (scale m s) i j = mget m i j * s.
Proof. intros (<- & <- & _) Hi Hj. unfold scale. now rewrite mget_build. Qed.

Lemma mget_transpose m r c i j :
  shape m r c -> (i < c)%nat -> (j < r)%nat ->
  mget (transpose m) i j = mget m j i.
Proof. intros (<- & <- & _) Hi Hj. unfold transpose. now rewrite mget_build. Qed.

Lemma mget_map_matrix m fn r c i j :
  shape m r c -> (i < r)%nat -> (j < c)%nat ->
  mget (map_matrix m fn) i j = fn (mget m i j).
Proof. intros (<- & <- & _) Hi Hj. unfold map_matrix. now rewrite mget_build. Qed.

Lemma mget_clip m r c i j :
  shape m r c -> (i < r)%nat -> (j < c)%nat ->
  mget (clip m) i j = clip_value (mget m i j).
Proof. apply mget_map_matrix. Qed.

Create HintDb shape discriminated.
#[export] Hint Constants Opaque : shape.
#[export] Hint Resolve shape_createMatrix shape_add shape_scale
  shape_transpose shape_map_matrix shape_clip shape_ones : shape.

(* ===================================================================== *)
(** ** [add] *)
(* ===================================================================== *)

Lemma shape_add_cex_a : shape add_cex_a 2 2.
Proof. unfold shape; cbn. repeat split; repeat constructor. Qed.

Lemma shape_add_cex_b : shape add_cex_b 1 3.
Proof. unfold shape; cbn. repeat split; repeat constructor. Qed.

(** C6, as stated, fails: with [a] 2 by 2 and [b] 1 by 3 the shapes are
    neither equal nor a same-width row broadcast, yet [add] takes the
    broadcast branch (its guard looks at the row counts only) and returns
    a sum, not [a]. *)
Lemma add_returns_first_counterexample :
  shape add_cex_a 2 2 /\ shape add_cex_b 1 3 /\
  add add_cex_a add_cex_b = mkMatrix 2 2 [[11; 22]; [13; 24]] /\
  ~ add_returns_first_otherwise add_cex_a add_cex_b.
Proof.
  assert (E : add add_cex_a add_cex_b = mkMatrix 2 2 [[11; 22]; [13; 24]]).
  { unfold add, add_cex_a, add_cex_b, build, tabulate, mget; cbn.
    repeat f_equal; lra. }
  split; [apply shape_add_cex_a|]. split; [apply shape_add_cex_b|].
  split; [exact E|].
  intros Hclaim. unfold add_returns_first_otherwise in Hclaim.
  rewrite E in Hclaim.
  assert (Hne : mkMatrix 2 2 [[11; 22]; [13; 24]] = add_cex_a).
  { apply Hclaim.
    - intros [H _]. cbn in H. discriminate.
    - intros (_ & _ & H). cbn in H. discriminate. }
  unfold add_cex_a in Hne. injection Hne as Hne. lra.
Qed.

(** C6, amended: [add] is the elementwise sum on equal shapes, the row
    broadcast when [a] has more than one row and [b] is a single row of the
    same width, and it returns [a] itself on every shape mismatch in which
    it is not the case that [a] has more than one row and [b] exactly
    one. *)
Theorem add_spec (a b : Matrix) (r c r' c' : nat)
    (Ha : shape a r c) (Hb : shape b r' c') :
  (r = r' -> c = c' ->
     shape (add a b) r c /\
     forall i j, (i < r)%nat -> (j < c)%nat ->
       mget (add a b) i j = mget a i j + mget b i j) /\
  ((1 < r)%nat -> r' = 1%nat -> c = c' ->
     shape (add a b) r c /\
     forall i j, (i < r)%nat -> (j < c)%nat ->
       mget (add a b) i j = mget a i j + mget b 0 j) /\
  (r <> r' \/ c <> c' -> ~ ((1 < r)%nat /\ r' = 1%nat) -> add a b = a).
Proof.
  pose proof Ha as (Hr & Hc & _). pose proof Hb as (Hr' & Hc' & _).
  split; [|split].
  - intros -> ->. split; [now apply shape_add|].
    intros i j Hi Hj. now apply (mget_add a b r' c').
  - intros Hgt -> ->. split; [now apply shape_add|].
    intros i j Hi Hj. unfold add. rewrite Hr, Hr', Hc, Hc', Nat.eqb_refl.
    replace (r =? 1)%nat with false by (symmetry; apply Nat.eqb_neq; lia).
    replace (1 <? r)%nat with true by (symmetry; apply Nat.ltb_lt; lia).
    cbn. now rewrite mget_build.
  - intros Hneq Hnb. unfold add. rewrite Hr, Hr', Hc, Hc'.
    destruct (Nat.eqb_spec r r') as [->|Hrr]; cbn [negb orb].
    + destruct (Nat.eqb_spec c c') as [->|Hcc]; cbn [negb orb]; [lia|].
      destruct (Nat.ltb_spec 1 r'); destruct (Nat.eqb_spec r' 1);
        cbn [andb]; auto; lia.
    + destruct (Nat.ltb_spec 1 r); destruct (Nat.eqb_spec r' 1);
        cbn [andb]; auto; lia.
Qed.

Lemma add_spec_witness :
  shape add_cex_b 1 3 /\ shape add_cex_a 2 2 /\
  add add_cex_b add_cex_a = add_cex_b.
Proof.
  split; [apply shape_add_cex_b|]. split; [apply shape_add_cex_a|].
  apply (add_spec add_cex_b add_cex_a 1 3 2 2 shape_add_cex_b shape_add_cex_a).
  - left; lia.
  - lia.
Defined.

(* ===================================================================== *)
(** ** [softmax] *)
(* ===================================================================== *)

Lemma fold_left_Rplus_acc (l : list R) (a : R) :
  fold_left Rplus l a = a + Rsum l.
Proof.
  unfold Rsum. revert a. induction l as [|x l IH]; intros a; cbn.
  - lra.
  - rewrite IH, (IH (0 + x)). lra.
Qed.

Lemma Rsum_cons x l : Rsum (x :: l) = x + Rsum l.
Proof. unfold Rsum at 1. cbn. rewrite fold_left_Rplus_acc. lra. Qed.

Lemma Rsum_nil : Rsum [] = 0.
Proof. reflexivity. Qed.

Lemma Rsum_pos (l : list R) :
  l <> [] -> Forall (fun x => 0 < x) l -> 0 < Rsum l.
Proof.
  induction l as [|x l IH]; intros Hne Hpos; [congruence|].
  inversion Hpos as [|? ? Hx Hl]; subst. rewrite Rsum_cons.
  destruct l as [|y l'].
  - rewrite Rsum_nil. lra.
  - assert (0 < Rsum (y :: l')) by (apply IH; [discriminate | assumption]). lra.
Qed.

Lemma Rsum_nonneg (l : list R) : Forall (fun x => 0 < x) l -> 0 <= Rsum l.
Proof.
  induction 1 as [|x l Hx _ IH]; [rewrite Rsum_nil; lra|].
  rewrite Rsum_cons. lra.
Qed.

Lemma Rsum_bound (l : list R) (j : nat) :
  Forall (fun x => 0 < x) l -> (j < length l)%nat -> nth j l 0 <= Rsum l.
Proof.
  intros Hpos. revert j. induction Hpos as [|x l Hx Hl IH]; intros j Hj; cbn in Hj.
  - lia.
  - rewrite Rsum_cons. pose proof (Rsum_nonneg l Hl). destruct j; cbn.
    + lra.
    + specialize (IH j ltac:(lia)). lra.
Qed.

Lemma Rsum_div (l : list R) (s : R) :
  Rsum (map (fun e => e / s) l) = Rsum l / s.
Proof.
  induction l as [|x l IH]; cbn [map].
  - rewrite Rsum_nil. unfold Rdiv. lra.
  - rewrite !Rsum_cons, IH. unfold Rdiv. lra.
Qed.

Lemma Rmax_shift (a b c : R) : Rmax (a + c) (b + c) = Rmax a b + c.
Proof. unfold Rmax. repeat destruct (Rle_dec _ _); lra. Qed.

Lemma fold_left_Rmax_shift (l : list R) (a c : R) :
  fold_left Rmax (map (fun v => v + c) l) (a + c) = fold_left Rmax l a + c.
Proof.
  revert a. induction l as [|x l IH]; intros a; cbn; [reflexivity|].
  rewrite Rmax_shift. apply IH.
Qed.

Lemma Rlist_max_shift (l : list R) (c : R) :
  l <> [] -> Rlist_max (map (fun v => v + c) l) = Rlist_max l + c.
Proof.
  destruct l as [|x l]; [congruence|]. intros _. cbn.
  apply fold_left_Rmax_shift.
Qed.

Lemma exps_positive (l : list R) (mx : R) :
  Forall (fun x => 0 < x) (map (fun x => exp (x - mx)) l).
Proof.
  apply List.Forall_forall. intros e Hin.
  apply List.in_map_iff in Hin as (x & <- & _). apply exp_pos.
Qed.

(** The denominator of [softmax] on a row that is not empty. *)
Lemma softmax_denominator_pos (row : list R) :
  row <> [] -> 0 < Rsum (map (fun x => exp (x - Rlist_max row)) row).
Proof.
  intros Hne. apply Rsum_pos; [|apply exps_positive].
  destruct row; [congruence | discriminate].
Qed.

Lemma or_one_nonzero (s : R) : s <> 0 -> or_one s = s.
Proof. intros Hs. unfold or_one. now destruct (Req_dec_T s 0). Qed.

(** [softmax] on a matrix whose first row is not empty. *)
Lemma softmax_unfold (m : Matrix) (row : list R) (rest : list (list R)) :
  data m = row :: rest -> row <> [] ->
  softmax m =
    mkMatrix 1 (cols m)
      [map (fun e => e / Rsum (map (fun x => exp (x - Rlist_max row)) row))
           (map (fun x => exp (x - Rlist_max row)) row)].
Proof.
  intros Hd Hne. unfold softmax. rewrite Hd.
  destruct row as [|x xs]; [congruence|].
  rewrite or_one_nonzero; [reflexivity|].
  pose proof (softmax_denominator_pos (x :: xs) Hne). lra.
Qed.

Lemma shape_one_row (m : Matrix) (n : nat) :
  shape m 1 n -> exists row, data m = [row] /\ length row = n.
Proof.
  intros (_ & _ & Hl & Hf). destruct (data m) as [|row [|? ?]]; cbn in Hl; try lia.
  exists row. split; [reflexivity|]. now inversion Hf.
Qed.

Lemma shape_softmax (m : Matrix) (n : nat) : shape m 1 n -> shape (softmax m) 1 n.
Proof.
  intros Hm. destruct (shape_one_row m n Hm) as (row & Hd & Hlen).
  pose proof Hm as (_ & Hc & _).
  destruct row as [|x xs].
  - unfold softmax. rewrite Hd, Hc. apply shape_createMatrix.
  - rewrite (softmax_unfold m (x :: xs) []) by (auto; discriminate).
    unfold shape; cbn [rows cols data length]. repeat split; auto.
    constructor; [|constructor]. now rewrite !length_map.
Qed.

Lemma map_seq_nth {A B : Type} (g : A -> B) (l : list A) (d : A) :
  map (fun j => g (nth j l d)) (seq 0 (length l)) = map g l.
Proof.
  induction l as [|x l IH]; cbn [length seq map nth]; [reflexivity|].
  f_equal. rewrite <- seq_shift, map_map. exact IH.
Qed.

Lemma softmax_1000 : softmax logits_1000 = thirds.
Proof.
  rewrite (softmax_unfold logits_1000 [1000; 1000; 1000] []);
    [|reflexivity|discriminate].
  unfold thirds, logits_1000. cbn [cols Rlist_max fold_left map].
  assert (E : Rmax 1000 1000 = 1000) by (apply Rmax_left; lra).
  rewrite !E.
  replace (1000 - 1000) with 0 by lra. rewrite exp_0.
  rewrite !Rsum_cons, Rsum_nil. repeat f_equal; lra.
Qed.

(** C7: over the reals, [softmax] of a 1 by n row, n >= 1, is a 1 by n row
    of elements in [0,1] that sum to 1; it is unchanged when a constant is
    added to every logit; the sum of exponentials is not zero, so the
    [|| 1] fallback is not taken; and [softmax [1000, 1000, 1000]] is
    [[1/3, 1/3, 1/3]]. *)
Theorem softmax_row_properties (m : Matrix) (n : nat) (c : R)
    (Hshape : shape m 1 n) (Hn : (1 <= n)%nat) :
  shape (softmax m) 1 n /\
  (forall j, (j < n)%nat -> 0 <= mget (softmax m) 0 j <= 1) /\
  Rsum (row0 (softmax m)) = 1 /\
  softmax (shift m c) = softmax m /\
  (let sumExps := Rsum (map (fun x => exp (x - Rlist_max (row0 m))) (row0 m)) in
   sumExps <> 0 /\ or_one sumExps = sumExps) /\
  softmax logits_1000 = thirds.
Proof.
  destruct (shape_one_row m n Hshape) as (row & Hd & Hlen).
  assert (Hne : row <> []) by (destruct row; [cbn in Hlen; lia | discriminate]).
  pose proof (softmax_denominator_pos row Hne) as Hpos.
  pose proof (exps_positive row (Rlist_max row)) as Hexps.
  set (exps := map (fun x => exp (x - Rlist_max row)) row) in *.
  assert (Hsm : softmax m = mkMatrix 1 (cols m) [map (fun e => e / Rsum exps) exps])
    by (apply (softmax_unfold m row []); assumption).
  split; [now apply shape_softmax|].
  split; [|split; [|split; [|split]]].
  - intros j Hj. rewrite Hsm. unfold mget; cbn [data nth].
    assert (Hjl : (j < length exps)%nat) by (unfold exps; rewrite length_map; lia).
    rewrite (nth_indep _ 0 (0 / Rsum exps)) by now rewrite length_map.
    rewrite (map_nth (fun e => e / Rsum exps) exps 0 j).
    pose proof (Rsum_bound exps j Hexps Hjl) as Hb.
    assert (0 < nth j exps 0).
    { eapply (proj1 (List.Forall_forall _ _) Hexps). now apply nth_In. }
    split.
    + apply Rlt_le, Rdiv_lt_0_compat; assumption.
    + apply (Rmult_le_reg_r (Rsum exps)); [assumption|].
      unfold Rdiv. rewrite Rmult_assoc, Rinv_l by lra. lra.
  - rewrite Hsm. unfold row0; cbn [data nth]. rewrite Rsum_div.
    unfold Rdiv. apply Rinv_r. lra.
  - assert (Hds : data (shift m c) = [map (fun v => v + c) row]).
    { pose proof Hshape as (Hr & Hc & _).
      unfold shift, map_matrix, build. cbn [data]. rewrite Hr, Hc.
      unfold tabulate. cbn [seq map]. f_equal. unfold mget. rewrite Hd.
      cbn [nth]. subst n. apply (map_seq_nth (fun v => v + c) row 0). }
    rewrite (softmax_unfold (shift m c) (map (fun v => v + c) row) []);
      [|assumption|destruct row; [congruence|discriminate]].
    rewrite Hsm. rewrite Rlist_max_shift by assumption.
    assert (Hex : map (fun x => exp (x - (Rlist_max row + c))) (map (fun v => v + c) row)
                  = exps).
    { unfold exps. rewrite map_map. apply map_ext. intros v. f_equal. lra. }
    rewrite Hex. reflexivity.
  - unfold row0. rewrite Hd. cbn [nth]. fold exps. split; [lra|].
    apply or_one_nonzero. lra.
  - apply softmax_1000.
Qed.

Lemma shape_logits_1000 : shape logits_1000 1 3.
Proof. unfold shape; cbn. repeat split; repeat constructor. Qed.

Lemma softmax_row_properties_witness :
  shape logits_1000 1 3 /\ (1 <= 3)%nat /\
  Rsum (row0 (softmax logits_1000)) = 1.
Proof.
  split; [apply shape_logits_1000|]. split; [lia|].
  apply (softmax_row_properties logits_1000 3 0 shape_logits_1000); lia.
Defined.

(* ===================================================================== *)
(** ** Computations that return *)
(* ===================================================================== *)

Lemma returns_Some {A : Type} (a : A) (Q : A -> Prop) : Q a -> returns (Some a) Q.
Proof. intros. now exists a. Qed.

Lemma returns_bind {A B : Type} (o : option A) (f : A -> option B)
    (Q : B -> Prop) :
  returns o (fun a => returns (f a) Q) -> returns (o ≫= f) Q.
Proof. intros (a & -> & b & Hb & HQ). exists b. now split. Qed.

Lemma returns_mono {A : Type} (o : option A) (P Q : A -> Prop) :
  returns o P -> (forall a, P a -> Q a) -> returns o Q.
Proof. intros (a & -> & HP) HPQ. exists a. auto. Qed.

Lemma returns_inv {A : Type} (o : option A) (Q : A -> Prop) (a : A) :
  returns o Q -> o = Some a -> Q a.
Proof. intros (a' & -> & HQ) [= ->]. exact HQ. Qed.

Lemma returns_and {A : Type} (o : option A) (P Q : A -> Prop) :
  returns o P -> returns o Q -> returns o (fun a => P a /\ Q a).
Proof. intros (a & -> & HP) (a' & [= <-] & HQ). exists a. auto. Qed.

Lemma returns_dot a b r k c :
  shape a r k -> shape b k c ->
  returns (dot a b) (fun m =>
    shape m r c /\
    forall i j, (i < r)%nat -> (j < c)%nat -> mget m i j = dot_cell a b i j).
Proof.
  intros Ha Hb. rewrite (dot_Some a b r k c) by assumption.
  apply returns_Some. split; [apply shape_build|].
  intros i j Hi Hj. now rewrite mget_build.
Qed.

Lemma returns_multiply a b r c :
  shape a r c -> shape b r c ->
  returns (multiply a b) (fun m =>
    shape m r c /\
    forall i j, (i < r)%nat -> (j < c)%nat -> mget m i j = mget a i j * mget b i j).
Proof.
  intros Ha Hb. rewrite (multiply_Some a b r c) by assumption.
  apply returns_Some. split; [apply shape_build|].
  intros i j Hi Hj. now rewrite mget_build.
Qed.

Lemma returns_subtract a b r c :
  shape a r c -> shape b r c ->
  returns (subtract a b) (fun m =>
    shape m r c /\
    forall i j, (i < r)%nat -> (j < c)%nat -> mget m i j = mget a i j - mget b i j).
Proof.
  intros Ha Hb. rewrite (subtract_Some a b r c) by assumption.
  apply returns_Some. split; [apply shape_build|].
  intros i j Hi Hj. now rewrite mget_build.
Qed.

Lemma shape_update_row0 m idx f n :
  shape m 1 n -> shape (update_row0 m idx f) 1 n.
Proof.
  intros Hm. destruct (shape_one_row m n Hm) as (row & Hd & Hlen).
  pose proof Hm as (Hr & Hc & _).
  unfold update_row0. destruct idx as [j|]; [|assumption]. rewrite Hd.
  unfold shape; cbn [rows cols data length]. repeat split; auto.
  constructor; [|constructor]. now rewrite length_alter.
Qed.

Lemma shape_one_hot V idx : shape (one_hot V idx) 1 V.
Proof. apply shape_update_row0, shape_createMatrix. Qed.

Lemma shape_softmax_grad p target n :
  shape p 1 n -> shape (softmax_grad p target) 1 n.
Proof. apply shape_update_row0. Qed.

Lemma shape_dropout_mask H rate rand pos :
  shape (dropout_mask H rate rand pos) 1 H.
Proof.
  unfold dropout_mask, createMatrixRandomRow, shape; cbn [rows cols data length].
  repeat split; auto. constructor; [|constructor].
  now rewrite length_map, length_seq.
Qed.

#[export] Hint Resolve shape_one_hot shape_softmax shape_softmax_grad
  shape_dropout_mask : shape.

Lemma returns_apply_dropout H rate rand pos h_t :
  shape h_t 1 H ->
  returns (apply_dropout H rate rand pos h_t) (fun '(mask, dropped, _) =>
    mask_shape mask H /\ shape dropped 1 H).
Proof.
  intros Hh. unfold apply_dropout. destruct (Rlt_dec 0 rate).
  - apply returns_bind.
    eapply returns_mono; [apply (returns_multiply _ _ 1 H); auto with shape|].
    intros d (Hd & _). apply returns_Some. split; [apply shape_dropout_mask|assumption].
  - apply returns_Some. split; [exact I|assumption].
Qed.

Lemma apply_dropout_zero H rand pos h_t :
  apply_dropout H 0 rand pos h_t = Some (None, h_t, pos).
Proof. unfold apply_dropout. destruct (Rlt_dec 0 0); [lra|reflexivity]. Qed.

Lemma returns_mask_grad dh mask H :
  shape dh 1 H -> mask_shape mask H ->
  returns (mask_grad dh mask) (fun d => shape d 1 H).
Proof.
  intros Hd Hm. destruct mask as [mk|]; cbn in *.
  - eapply returns_mono; [apply (returns_multiply _ _ 1 H); assumption|].
    now intros d (? & _).
  - now apply returns_Some.
Qed.

Lemma returns_gate_raw x W hp U V H :
  shape x 1 V -> layer_shape W V H -> shape hp 1 H -> layer_shape U H H ->
  returns (gate_raw x W hp U) (fun m => shape m 1 H).
Proof.
  intros Hx (HW & HbW) Hhp (HU & _). unfold gate_raw.
  apply returns_bind.
  eapply returns_mono; [apply (returns_dot _ _ 1 V H); assumption|].
  intros xw (Hxw & _). apply returns_bind.
  eapply returns_mono; [apply (returns_dot _ _ 1 H H); assumption|].
  intros hu (Hhu & _). apply returns_Some. auto with shape.
Qed.

(** One step through a computation: the operation at the head of the goal
    returns, and its result enters the context with its shape. *)
Ltac ret_with lem :=
  apply returns_bind; eapply returns_mono; [eapply lem; eauto with shape|];
  cbv beta.

Ltac ret_op :=
  lazymatch goal with
  | |- returns (Some _) _ => apply returns_Some
  | |- returns (mbind _ (dot _ _)) _ =>
      ret_with returns_dot; intros ? (? & _)
  | |- returns (mbind _ (multiply _ _)) _ =>
      ret_with returns_multiply; intros ? (? & _)
  | |- returns (mbind _ (subtract _ _)) _ =>
      ret_with returns_subtract; intros ? (? & _)
  | |- returns (mbind _ (mask_grad _ _)) _ =>
      ret_with returns_mask_grad; intros ? ?
  | |- returns (mbind _ (gate_raw _ _ _ _)) _ =>
      ret_with returns_gate_raw; intros ? ?
  | |- returns (mbind _ (apply_dropout _ _ _ _ _)) _ =>
      ret_with returns_apply_dropout; intros [[? ?] ?] (? & ?)
  end.

(** *** The loops *)

Lemma forward_loop_app {C : Type} (body : nat -> Forward C -> option (Forward C))
    (n1 n2 t : nat) (st : Forward C) :
  forward_loop body (n1 + n2) t st =
  forward_loop body n1 t st ≫= forward_loop body n2 (t + n1).
Proof.
  revert t st. induction n1 as [|n1 IH]; intros t st; cbn [forward_loop Nat.add].
  - now rewrite Nat.add_0_r.
  - destruct (body t st) as [st'|]; cbn; [|reflexivity].
    rewrite IH. now replace (S t + n1)%nat with (t + S n1)%nat by lia.
Qed.

(** An invariant [P t st] of the loop variables at time [t] that each
    pass through the body re-establishes holds when the loop ends, and the
    loop does end. *)
Lemma forward_loop_returns {C : Type}
    (body : nat -> Forward C -> option (Forward C))
    (P : nat -> Forward C -> Prop) (n t : nat) (st : Forward C) :
  (forall t st, P t st -> returns (body t st) (P (S t))) ->
  P t st -> returns (forward_loop body n t st) (P (t + n)%nat).
Proof.
  intros Hbody. revert t st. induction n as [|n IH]; intros t st HP; cbn.
  - rewrite Nat.add_0_r. now apply returns_Some.
  - apply returns_bind. eapply returns_mono; [now apply Hbody|].
    intros st' HP'. replace (t + S n)%nat with (S t + n)%nat by lia. now apply IH.
Qed.

Lemma backward_loop_returns {C G : Type} (body : nat -> C -> G -> option G)
    (Pc : C -> Prop) (Q : G -> Prop) (cache : list C) (n : nat) (g : G) :
  (forall t e g, (t < length cache)%nat -> Pc e -> Q g -> returns (body t e g) Q) ->
  Forall Pc cache -> (n <= length cache)%nat -> Q g ->
  returns (backward_loop body cache n g) Q.
Proof.
  intros Hbody Hc. revert g. induction n as [|n IH]; intros g Hn HQ; cbn.
  - now apply returns_Some.
  - destruct (lookup_lt_is_Some_2 cache n ltac:(lia)) as [e He]. rewrite He. cbn.
    apply returns_bind. eapply returns_mono.
    + apply Hbody; [lia| |assumption].
      eapply Forall_lookup_1; eassumption.
    + intros g' HQ'. apply IH; [lia|assumption].
Qed.

(* ===================================================================== *)
(** ** The forward loop keeps its invariant *)
(* ===================================================================== *)

Lemma last_state_snoc l x : last_state (l ++ [x]) = x.
Proof. unfold last_state. apply last_last. Qed.

Lemma last_state_shape l H :
  l <> [] -> Forall (fun h => shape h 1 H) l -> shape (last_state l) 1 H.
Proof.
  intros Hne Hall. destruct (exists_last Hne) as (l' & x & ->).
  rewrite last_state_snoc. apply Forall_app in Hall as (_ & Hx). now inversion Hx.
Qed.

Section ForwardInvariantLemmas.
Context {C : Type}.
Variable cshape : C -> Prop.
Variable hrel : C -> Matrix -> Prop.
Variable probf : C -> Matrix.
Variable cells_ok : list Matrix -> Prop.
Variable cells_step : list Matrix -> list Matrix -> Prop.
Variable H : nat.
Variable vocab : list string.
Variable encodedText : list nat.
Variable step : nat.

Local Abbreviation inv := (forward_inv cshape hrel cells_ok H vocab encodedText step).
Local Abbreviation post := (forward_step_post cshape hrel probf cells_step H vocab encodedText).

Lemma forward_inv_hidden t st :
  inv t st ->
  hiddenStates st <> [] /\ Forall (fun h => shape h 1 H) (hiddenStates st) /\
  length (hiddenStates st) = S (t - step).
Proof.
  intros (_ & (h0 & hs & -> & Hh0 & Hall) & Hlen & _). split; [discriminate|].
  split.
  - constructor; [assumption|].
    clear -Hall. induction Hall as [|e h ? ? (_ & Hh & _)]; constructor; auto.
  - cbn. f_equal. rewrite <- Hlen. symmetry. eapply Forall2_length; eassumption.
Qed.

Lemma forward_inv_last t st : inv t st -> shape (last_state (hiddenStates st)) 1 H.
Proof.
  intros Hinv. destruct (forward_inv_hidden t st Hinv) as (? & ? & _).
  now apply last_state_shape.
Qed.

Lemma forward_inv_cache t st : inv t st -> Forall cshape (cache st).
Proof.
  intros (_ & (h0 & hs & _ & _ & Hall) & _).
  induction Hall as [|e h ? ? (He & _)]; constructor; auto.
Qed.

Lemma forward_inv_predictions t st :
  inv t st -> length (fw_predictions st) = (t - step)%nat.
Proof.
  intros (_ & _ & _ & Hp & _).
  apply (f_equal (@length _)) in Hp. now rewrite !length_map, length_seq in Hp.
Qed.

(** A body with the effect [post] keeps the invariant. *)
Lemma forward_inv_step t st st' :
  (forall cs cs', cells_ok cs -> cells_step cs cs' -> cells_ok cs') ->
  inv t st -> post t st st' -> inv (S t) st'.
Proof.
  intros Hcells (Hle & (h0 & hs & Hhs & Hh0 & Hall) & Hlen & Hp & Hc)
         (e & h & He & Hh & Hrel & Hhs' & Hcache' & Hp' & Hc').
  unfold forward_inv. replace (S t - step)%nat with (S (t - step)) by lia.
  split; [lia|]. split; [|split; [|split]].
  - exists h0, (hs ++ [h]). split; [now rewrite Hhs', Hhs|]. split; [assumption|].
    rewrite Hcache'. apply Forall2_app; [assumption|].
    constructor; [auto|constructor].
  - rewrite Hcache', length_app. cbn. lia.
  - rewrite Hp', map_app, Hp, seq_S, map_app. cbn. do 2 f_equal.
    unfold pred_pair, prediction_at, pair_at; cbn.
    now replace (step + (t - step))%nat with t by lia.
  - eauto.
Qed.

(** The loop returns and the invariant holds of what it returns. *)
Lemma forward_loop_inv (body : nat -> Forward C -> option (Forward C))
    (n t : nat) (st : Forward C) :
  (forall cs cs', cells_ok cs -> cells_step cs cs' -> cells_ok cs') ->
  (forall t st, inv t st -> returns (body t st) (post t st)) ->
  inv t st -> returns (forward_loop body n t st) (inv (t + n)%nat).
Proof.
  intros Hcells Hbody. apply forward_loop_returns.
  intros t' st' Hinv. eapply returns_mono; [now apply Hbody|].
  intros st'' Hpost. eapply forward_inv_step; eassumption.
Qed.
End ForwardInvariantLemmas.

(* ===================================================================== *)
(** ** [trainStepRNN] returns *)
(* ===================================================================== *)

Lemma shape_descend w g lr r c : shape w r c -> shape (descend w g lr) r c.
Proof. intros. unfold descend. now apply shape_add. Qed.

#[export] Hint Resolve shape_descend : shape.

Ltac split_all := repeat match goal with |- _ /\ _ => split end.

Ltac wf_rnn_destruct Hwf :=
  let HWxh := fresh "HWxh" in let Hbxh := fresh "Hbxh" in
  let HWhh := fresh "HWhh" in let Hbhh := fresh "Hbhh" in
  let HWhy := fresh "HWhy" in let Hbhy := fresh "Hbhy" in
  let Hh := fresh "Hh" in
  pose proof Hwf as ((HWxh & Hbxh) & (HWhh & Hbhh) & (HWhy & Hbhy) & Hh).

Lemma rnn_forward_step_returns model H encodedText rate rand step t st :
  wf_rnn model H ->
  rnn_inv model H encodedText step t st ->
  returns (rnn_forward_step model encodedText rate rand t st)
    (forward_step_post (rnn_cache_shape (length (RNN.vocab model)) H)
       (fun e h => rc_h_next_dropped e = h) rc_prob (fun _ cs' => cs' = [])
       H (RNN.vocab model) encodedText t st).
Proof.
  intros Hwf Hinv. wf_rnn_destruct Hwf.
  pose proof (forward_inv_last _ _ _ _ _ _ _ _ _ Hinv) as Hlast.
  unfold rnn_forward_step.
  rewrite (shape_cols _ _ _ HWxh).
  repeat ret_op.
  eexists _, _. cbn [hiddenStates cache fw_predictions cellStates].
  split_all.
  5: reflexivity. 4: reflexivity. 3: reflexivity. 3, 4: reflexivity.
  - unfold rnn_cache_shape; cbn. split_all; auto with shape.
  - assumption.
Qed.

Lemma rnn_backward_step_returns model H encodedText step t e g :
  wf_rnn model H ->
  rnn_cache_shape (length (RNN.vocab model)) H e ->
  rnn_grads_shape (length (RNN.vocab model)) H g ->
  returns (rnn_backward_step model encodedText step t e g)
    (rnn_grads_shape (length (RNN.vocab model)) H).
Proof.
  intros Hwf (Hx & Hhp & Hhn & Hmask & Hprob & Hhd) (G1 & G2 & G3 & G4 & G5 & G6).
  wf_rnn_destruct Hwf.
  unfold rnn_backward_step.
  repeat ret_op.
  unfold rnn_grads_shape; cbn. split_all; auto with shape.
Qed.

Lemma rnn_inv_init model H encodedText step pos :
  wf_rnn model H ->
  rnn_inv model H encodedText step step (mkForward [RNN.h model] [] [] 0 [] pos).
Proof.
  intros Hwf. wf_rnn_destruct Hwf. unfold rnn_inv, forward_inv; cbn.
  rewrite Nat.sub_diag. split; [lia|]. split; [|auto].
  exists (RNN.h model), []. split_all; auto.
Qed.

Lemma rnn_forward_returns model H encodedText step len rate rand pos :
  wf_rnn model H ->
  returns (rnn_forward model encodedText step len rate rand pos)
    (rnn_inv model H encodedText step
       (step + window_size encodedText step len)%nat).
Proof.
  intros Hwf. unfold rnn_forward, rnn_inv.
  apply (forward_loop_inv _ _ rc_prob _ (fun _ cs' => cs' = [])).
  - auto.
  - intros t st Hinv. now apply (rnn_forward_step_returns _ _ _ _ _ step).
  - now apply rnn_inv_init.
Qed.

Lemma rnn_backward_returns model H encodedText step cache :
  wf_rnn model H ->
  Forall (rnn_cache_shape (length (RNN.vocab model)) H) cache ->
  returns (rnn_backward model encodedText step cache)
    (rnn_grads_shape (length (RNN.vocab model)) H).
Proof.
  intros Hwf Hcache. wf_rnn_destruct Hwf. unfold rnn_backward.
  rewrite (shape_cols _ _ _ HWxh).
  eapply backward_loop_returns; [|exact Hcache|lia|].
  - intros t e g _ He Hg. now apply rnn_backward_step_returns.
  - unfold rnn_grads_shape; cbn. split_all; auto with shape.
Qed.

(** [trainStepRNN] is its forward pass, its backward pass and the
    update. *)
Lemma trainStepRNN_unfold model encodedText step len lr rate rand pos r p :
  trainStepRNN model encodedText step len lr rate rand pos = Some (r, p) <->
  exists fw g,
    rnn_forward model encodedText step len rate rand pos = Some fw /\
    rnn_backward model encodedText step (cache fw) = Some g /\
    updatedModel r = rnn_updated model fw g lr /\
    predictionResults r = fw_predictions fw /\
    loss r = window_loss (fw_totalLoss fw) (window_end encodedText step len) step /\
    p = fw_pos fw /\
    trainStepRNN model encodedText step len lr rate rand pos = Some (r, p).
Proof.
  split.
  - intros Heq. pose proof Heq as Heq'. unfold trainStepRNN in Heq.
    destruct (rnn_forward _ _ _ _ _ _ _) as [fw|] eqn:Hfw; [|discriminate].
    cbn [mbind option_bind] in Heq.
    destruct (rnn_backward _ _ _ _) as [g|] eqn:Hg; [|discriminate].
    cbn [mbind option_bind] in Heq. injection Heq as <- <-.
    exists fw, g. split_all; try reflexivity; auto.
  - now intros (_ & _ & _ & _ & _ & _ & _ & _ & Heq).
Qed.

Lemma shape_rnn_updated model H fw g lr t encodedText step :
  wf_rnn model H -> rnn_inv model H encodedText step t fw ->
  wf_rnn (rnn_updated model fw g lr) H.
Proof.
  intros Hwf Hinv. wf_rnn_destruct Hwf.
  pose proof (forward_inv_last _ _ _ _ _ _ _ _ _ Hinv).
  unfold wf_rnn, layer_shape, rnn_updated; cbn. split_all; auto with shape.
Qed.

(** On a well-formed model the training step returns, whatever the corpus,
    the cursor, the window and the dropout rate. *)
Lemma trainStepRNN_returns model H encodedText step len lr rate rand pos :
  wf_rnn model H ->
  returns (trainStepRNN model encodedText step len lr rate rand pos)
    (fun rp => exists fw g,
       rnn_forward model encodedText step len rate rand pos = Some fw /\
       rnn_backward model encodedText step (cache fw) = Some g /\
       rnn_inv model H encodedText step
         (step + window_size encodedText step len)%nat fw /\
       rnn_grads_shape (length (RNN.vocab model)) H g /\
       updatedModel rp.1 = rnn_updated model fw g lr /\
       predictionResults rp.1 = fw_predictions fw /\
       loss rp.1 =
         window_loss (fw_totalLoss fw) (window_end encodedText step len) step /\
       wf_rnn (updatedModel rp.1) H).
Proof.
  intros Hwf.
  destruct (rnn_forward_returns model H encodedText step len rate rand pos Hwf)
    as (fw & Hfw & Hinv).
  destruct (rnn_backward_returns model H encodedText step (cache fw) Hwf
              (forward_inv_cache _ _ _ _ _ _ _ _ _ Hinv)) as (g & Hg & Hgs).
  unfold trainStepRNN. rewrite Hfw. cbn. rewrite Hg. cbn.
  apply returns_Some. exists fw, g. cbn.
  split_all; auto.
  eapply shape_rnn_updated; eassumption.
Qed.

(* ===================================================================== *)
(** ** [trainStepGRU] returns *)
(* ===================================================================== *)

Ltac wf_gru_destruct Hwf :=
  let HWz := fresh "HWz" in let HUz := fresh "HUz" in
  let HWr := fresh "HWr" in let HUr := fresh "HUr" in
  let HWh := fresh "HWh" in let HUh := fresh "HUh" in
  let HWhy := fresh "HWhy" in let Hbhy := fresh "Hbhy" in
  let Hh := fresh "Hh" in
  pose proof Hwf as (HWz & HUz & HWr & HUr & HWh & HUh & (HWhy & Hbhy) & Hh).

Lemma returns_gru_cell model H x hp :
  wf_gru model H -> shape x 1 (length (GRU.vocab model)) -> shape hp 1 H ->
  returns (gru_cell model H x hp) (fun '(z_t, r_t, h_hat_t, h_t) =>
    shape z_t 1 H /\ shape r_t 1 H /\ shape h_hat_t 1 H /\ shape h_t 1 H).
Proof.
  intros Hwf Hx Hhp. wf_gru_destruct Hwf. unfold gru_cell.
  repeat ret_op. split_all; auto with shape.
Qed.

(** The state that a step pushed on [hiddenStates] is still there when the
    backward loop reads [hiddenStates[t + 1]]. *)
Lemma forward_inv_lookup {C : Type} cshape hrel cells_ok H vocab text step t'
    (st : Forward C) (t : nat) :
  forward_inv cshape hrel cells_ok H vocab text step t' st ->
  (t < length (cache st))%nat ->
  exists e h, cache st !! t = Some e /\ hiddenStates st !! S t = Some h /\
              shape h 1 H /\ hrel e h.
Proof.
  intros (_ & (h0 & hs & -> & _ & Hall) & _) Ht.
  destruct (lookup_lt_is_Some_2 (cache st) t Ht) as [e He].
  destruct (Forall2_lookup_l _ _ _ _ _ Hall He) as (h & Hh & _ & Hs & Hr).
  exists e, h. auto.
Qed.

Lemma gru_forward_step_returns model H encodedText rate rand step t st :
  wf_gru model H ->
  gru_inv model H encodedText step t st ->
  returns (gru_forward_step model encodedText rate rand t st)
    (forward_step_post (gru_cache_shape (length (GRU.vocab model)) H)
       (fun e h => gc_h_t_dropped e = h) gc_prob (fun _ cs' => cs' = [])
       H (GRU.vocab model) encodedText t st).
Proof.
  intros Hwf Hinv. wf_gru_destruct Hwf.
  pose proof (forward_inv_last _ _ _ _ _ _ _ _ _ Hinv) as Hlast.
  unfold gru_forward_step.
  rewrite (shape_rows _ _ _ HWhy).
  apply returns_bind. eapply returns_mono;
    [apply (returns_gru_cell model H); auto with shape|].
  intros [[[z_t r_t] h_hat_t] h_t] (Hz & Hr & Hhh & Hht).
  repeat ret_op.
  eexists _, _. cbn [hiddenStates cache fw_predictions cellStates].
  split_all.
  5: reflexivity. 4: reflexivity. 3: reflexivity. 3, 4: reflexivity.
  - unfold gru_cache_shape; cbn. split_all; auto with shape.
  - assumption.
Qed.

Lemma gru_backward_step_returns model H encodedText step hiddenStates t e g :
  wf_gru model H ->
  (exists h, hiddenStates !! S t = Some h /\ shape h 1 H) ->
  gru_cache_shape (length (GRU.vocab model)) H e ->
  gru_grads_shape (length (GRU.vocab model)) H g ->
  returns (gru_backward_step model encodedText step hiddenStates t e g)
    (gru_grads_shape (length (GRU.vocab model)) H).
Proof.
  intros Hwf (hs & Hhs & Hhss)
    (Hx & Hhp & Hz & Hr & Hhh & Hht & Hmask & Hprob & Hhd)
    (G1 & G2 & G3 & G4 & G5 & G6 & G7 & G8 & G9 & G10 & G11 & G12).
  wf_gru_destruct Hwf.
  destruct HWz as (HWz & Hbz), HUz as (HUz & _), HWr as (HWr & Hbr),
    HUr as (HUr & _), HWh as (HWh & Hbh), HUh as (HUh & _).
  unfold gru_backward_step.
  rewrite (shape_rows _ _ _ HWhy), Hhs. cbn [mbind option_bind].
  repeat ret_op.
  unfold gru_grads_shape; cbn. split_all; auto with shape.
Qed.

Lemma gru_inv_init model H encodedText step pos :
  wf_gru model H ->
  gru_inv model H encodedText step step (mkForward [GRU.h model] [] [] 0 [] pos).
Proof.
  intros Hwf. wf_gru_destruct Hwf. unfold gru_inv, forward_inv; cbn.
  rewrite Nat.sub_diag. split; [lia|]. split; [|auto].
  exists (GRU.h model), []. split_all; auto.
Qed.

Lemma gru_forward_returns model H encodedText step len rate rand pos :
  wf_gru model H ->
  returns (gru_forward model encodedText step len rate rand pos)
    (gru_inv model H encodedText step
       (step + window_size encodedText step len)%nat).
Proof.
  intros Hwf. unfold gru_forward, gru_inv.
  apply (forward_loop_inv _ _ gc_prob _ (fun _ cs' => cs' = [])).
  - auto.
  - intros t st Hinv. now apply (gru_forward_step_returns _ _ _ _ _ step).
  - now apply gru_inv_init.
Qed.

Lemma gru_backward_returns model H encodedText step t fw :
  wf_gru model H ->
  gru_inv model H encodedText step t fw ->
  returns (gru_backward model encodedText step fw)
    (gru_grads_shape (length (GRU.vocab model)) H).
Proof.
  intros Hwf Hinv. wf_gru_destruct Hwf. unfold gru_backward.
  rewrite (shape_rows _ _ _ HWhy).
  eapply backward_loop_returns;
    [|exact (forward_inv_cache _ _ _ _ _ _ _ _ _ Hinv)|lia|].
  - intros t' e g Ht He Hg. apply (gru_backward_step_returns _ H); auto.
    destruct (forward_inv_lookup _ _ _ _ _ _ _ _ _ t' Hinv Ht)
      as (_ & h & _ & Hh' & Hs & _).
    eauto.
  - unfold gru_grads_shape; cbn. split_all; auto with shape.
Qed.

Lemma shape_gru_updated model H fw g lr t encodedText step :
  wf_gru model H -> gru_inv model H encodedText step t fw ->
  wf_gru (gru_updated model fw g lr) H.
Proof.
  intros Hwf Hinv. wf_gru_destruct Hwf.
  destruct HWz as (HWz & Hbz), HUz as (HUz & Hbuz), HWr as (HWr & Hbr),
    HUr as (HUr & Hbur), HWh as (HWh & Hbh), HUh as (HUh & Hbuh).
  pose proof (forward_inv_last _ _ _ _ _ _ _ _ _ Hinv).
  unfold wf_gru, layer_shape, gru_updated; cbn. split_all; auto with shape.
Qed.

Lemma trainStepGRU_returns model H encodedText step len lr rate rand pos :
  wf_gru model H ->
  returns (trainStepGRU model encodedText step len lr rate rand pos)
    (fun rp => exists fw g,
       gru_forward model encodedText step len rate rand pos = Some fw /\
       gru_backward model encodedText step fw = Some g /\
       gru_inv model H encodedText step
         (step + window_size encodedText step len)%nat fw /\
       gru_grads_shape (length (GRU.vocab model)) H g /\
       updatedModel rp.1 = gru_updated model fw g lr /\
       predictionResults rp.1 = fw_predictions fw /\
       loss rp.1 =
         window_loss (fw_totalLoss fw) (window_end encodedText step len) step /\
       wf_gru (updatedModel rp.1) H).
Proof.
  intros Hwf.
  destruct (gru_forward_returns model H encodedText step len rate rand pos Hwf)
    as (fw & Hfw & Hinv).
  destruct (gru_backward_returns model H encodedText step _ fw Hwf Hinv)
    as (g & Hg & Hgs).
  unfold trainStepGRU. rewrite Hfw. cbn [mbind option_bind]. rewrite Hg.
  cbn [mbind option_bind].
  apply returns_Some. exists fw, g. cbn [fst updatedModel predictionResults loss].
  split_all; auto.
  eapply shape_gru_updated; eassumption.
Qed.

(* ===================================================================== *)
(** ** [trainStepLSTM] returns *)
(* ===================================================================== *)

Ltac wf_lstm_destruct Hwf :=
  let HWf := fresh "HWf" in let HUf := fresh "HUf" in
  let HWi := fresh "HWi" in let HUi := fresh "HUi" in
  let HWo := fresh "HWo" in let HUo := fresh "HUo" in
  let HWc := fresh "HWc" in let HUc := fresh "HUc" in
  let HWhy := fresh "HWhy" in let Hbhy := fresh "Hbhy" in
  let Hh := fresh "Hh" in let Hc := fresh "Hc" in
  pose proof Hwf as (HWf & HUf & HWi & HUi & HWo & HUo & HWc & HUc &
                     (HWhy & Hbhy) & Hh & Hc).

Lemma returns_lstm_cell model H x hp cp :
  wf_lstm model H -> shape x 1 (length (LSTM.vocab model)) ->
  shape hp 1 H -> shape cp 1 H ->
  returns (lstm_cell model x hp cp) (fun '(f_t, i_t, o_t, c_hat_t, c_t, h_t) =>
    shape f_t 1 H /\ shape i_t 1 H /\ shape o_t 1 H /\ shape c_hat_t 1 H /\
    shape c_t 1 H /\ shape h_t 1 H).
Proof.
  intros Hwf Hx Hhp Hcp. wf_lstm_destruct Hwf. unfold lstm_cell.
  repeat ret_op. split_all; auto with shape.
Qed.

Lemma lstm_cells_step H cs cs' :
  lstm_cells_ok H cs -> (exists c, shape c 1 H /\ cs' = cs ++ [c]) ->
  lstm_cells_ok H cs'.
Proof.
  intros (Hne & Hall) (c & Hc & ->). split.
  - destruct cs; discriminate.
  - apply Forall_app. split; [assumption|]. constructor; [assumption|constructor].
Qed.

Lemma lstm_forward_step_returns model H encodedText rate rand step t st :
  wf_lstm model H ->
  lstm_inv model H encodedText step t st ->
  returns (lstm_forward_step model encodedText rate rand t st)
    (forward_step_post (lstm_cache_shape (length (LSTM.vocab model)) H)
       (fun _ _ => True) lc_prob
       (fun cs cs' => exists c, shape c 1 H /\ cs' = cs ++ [c])
       H (LSTM.vocab model) encodedText t st).
Proof.
  intros Hwf Hinv. wf_lstm_destruct Hwf.
  pose proof (forward_inv_last _ _ _ _ _ _ _ _ _ Hinv) as Hlast.
  assert (Hclast : shape (last_state (cellStates st)) 1 H).
  { destruct Hinv as (_ & _ & _ & _ & Hne & Hall). now apply last_state_shape. }
  unfold lstm_forward_step.
  rewrite (shape_rows _ _ _ HWhy).
  apply returns_bind. eapply returns_mono;
    [apply (returns_lstm_cell model H); auto with shape|].
  intros [[[[[f_t i_t] o_t] c_hat_t] c_t] h_t] (Hf & Hi & Ho & Hch & Hct & Hht).
  repeat ret_op.
  eexists _, _. cbn [hiddenStates cache fw_predictions cellStates].
  split_all.
  5: reflexivity. 4: reflexivity. 3: exact I. 3: reflexivity.
  - unfold lstm_cache_shape; cbn. split_all; auto with shape.
  - assumption.
  - eauto.
Qed.

Lemma lstm_backward_step_returns model H encodedText step hiddenStates t e g :
  wf_lstm model H ->
  (exists h, hiddenStates !! S t = Some h /\ shape h 1 H) ->
  lstm_cache_shape (length (LSTM.vocab model)) H e ->
  lstm_grads_shape (length (LSTM.vocab model)) H g ->
  returns (lstm_backward_step model encodedText step hiddenStates t e g)
    (lstm_grads_shape (length (LSTM.vocab model)) H).
Proof.
  intros Hwf (hs & Hhs & Hhss)
    (Hx & Hhp & Hcp & Hf & Hi & Ho & Hch & Hct & Hht & Hmask & Hprob)
    (G1 & G2 & G3 & G4 & G5 & G6 & G7 & G8 & G9 & G10 & G11 & G12 & G13 & G14
       & G15 & G16).
  wf_lstm_destruct Hwf.
  destruct HWf as (HWf & Hbf), HUf as (HUf & _), HWi as (HWi & Hbi),
    HUi as (HUi & _), HWo as (HWo & Hbo), HUo as (HUo & _),
    HWc as (HWc & Hbc), HUc as (HUc & _).
  unfold lstm_backward_step.
  rewrite Hhs. cbn [mbind option_bind].
  repeat ret_op.
  unfold lstm_grads_shape; cbn. split_all; auto with shape.
Qed.

Lemma lstm_inv_init model H encodedText step pos :
  wf_lstm model H ->
  lstm_inv model H encodedText step step
    (mkForward [LSTM.h model] [LSTM.c model] [] 0 [] pos).
Proof.
  intros Hwf. wf_lstm_destruct Hwf. unfold lstm_inv, forward_inv; cbn.
  rewrite Nat.sub_diag. split; [lia|]. split; [|split_all; auto].
  - exists (LSTM.h model), []. split_all; auto.
  - split; [discriminate|]. constructor; [assumption|constructor].
Qed.

Lemma lstm_forward_returns model H encodedText step len rate rand pos :
  wf_lstm model H ->
  returns (lstm_forward model encodedText step len rate rand pos)
    (lstm_inv model H encodedText step
       (step + window_size encodedText step len)%nat).
Proof.
  intros Hwf. unfold lstm_forward, lstm_inv.
  apply (forward_loop_inv _ _ lc_prob _
           (fun cs cs' => exists c, shape c 1 H /\ cs' = cs ++ [c])).
  - apply lstm_cells_step.
  - intros t st Hinv. now apply (lstm_forward_step_returns _ _ _ _ _ step).
  - now apply lstm_inv_init.
Qed.

Lemma lstm_backward_returns model H encodedText step t fw :
  wf_lstm model H ->
  lstm_inv model H encodedText step t fw ->
  returns (lstm_backward model encodedText step fw)
    (lstm_grads_shape (length (LSTM.vocab model)) H).
Proof.
  intros Hwf Hinv. wf_lstm_destruct Hwf. unfold lstm_backward.
  rewrite (shape_rows _ _ _ HWhy).
  eapply backward_loop_returns;
    [|exact (forward_inv_cache _ _ _ _ _ _ _ _ _ Hinv)|lia|].
  - intros t' e g Ht He Hg. apply (lstm_backward_step_returns _ H); auto.
    destruct (forward_inv_lookup _ _ _ _ _ _ _ _ _ t' Hinv Ht)
      as (_ & h & _ & Hh' & Hs & _).
    eauto.
  - unfold lstm_grads_shape; cbn. split_all; auto with shape.
Qed.

Lemma shape_lstm_updated model H fw g lr t encodedText step :
  wf_lstm model H -> lstm_inv model H encodedText step t fw ->
  wf_lstm (lstm_updated model fw g lr) H.
Proof.
  intros Hwf Hinv. wf_lstm_destruct Hwf.
  destruct HWf as (HWf & Hbf), HUf as (HUf & Hbuf), HWi as (HWi & Hbi),
    HUi as (HUi & Hbui), HWo as (HWo & Hbo), HUo as (HUo & Hbuo),
    HWc as (HWc & Hbc), HUc as (HUc & Hbuc).
  pose proof (forward_inv_last _ _ _ _ _ _ _ _ _ Hinv).
  assert (shape (last_state (cellStates fw)) 1 H).
  { destruct Hinv as (_ & _ & _ & _ & Hne & Hall). now apply last_state_shape. }
  unfold wf_lstm, layer_shape, lstm_updated, applyGrads; cbn.
  split_all; auto with shape.
Qed.

Lemma trainStepLSTM_returns model H encodedText step len lr rate rand pos :
  wf_lstm model H ->
  returns (trainStepLSTM model encodedText step len lr rate rand pos)
    (fun rp => exists fw g,
       lstm_forward model encodedText step len rate rand pos = Some fw /\
       lstm_backward model encodedText step fw = Some g /\
       lstm_inv model H encodedText step
         (step + window_size encodedText step len)%nat fw /\
       lstm_grads_shape (length (LSTM.vocab model)) H g /\
       updatedModel rp.1 = lstm_updated model fw g lr /\
       predictionResults rp.1 = fw_predictions fw /\
       loss rp.1 =
         window_loss (fw_totalLoss fw) (window_end encodedText step len) step /\
       wf_lstm (updatedModel rp.1) H).
Proof.
  intros Hwf.
  destruct (lstm_forward_returns model H encodedText step len rate rand pos Hwf)
    as (fw & Hfw & Hinv).
  destruct (lstm_backward_returns model H encodedText step _ fw Hwf Hinv)
    as (g & Hg & Hgs).
  unfold trainStepLSTM. rewrite Hfw. cbn [mbind option_bind]. rewrite Hg.
  cbn [mbind option_bind].
  apply returns_Some. exists fw, g. cbn [fst updatedModel predictionResults loss].
  split_all; auto.
  eapply shape_lstm_updated; eassumption.
Qed.

(* ===================================================================== *)
(** ** [trainStepFFNN] *)
(* ===================================================================== *)

Lemma Rsum_app l l' : Rsum (l ++ l') = Rsum l + Rsum l'.
Proof.
  induction l as [|x l IH]; cbn [app].
  - rewrite Rsum_nil. lra.
  - rewrite !Rsum_cons, IH. lra.
Qed.

Lemma window_grad_S model text sel step n i j :
  window_grad model text sel step (S n) i j =
  window_grad model text sel step n i j + example_grad model text sel (step + n) i j.
Proof.
  unfold window_grad. rewrite seq_S, map_app, Rsum_app. cbn [map].
  rewrite Rsum_cons, Rsum_nil. lra.
Qed.

Lemma window_grad_0 model text sel step i j :
  window_grad model text sel step 0 i j = 0.
Proof. reflexivity. Qed.

Lemma ffnn_example_returns model H encodedText i :
  wf_ffnn model H ->
  returns (ffnn_example model encodedText i)
    (ffnn_example_shape (length (FFNN.vocab model)) H).
Proof.
  intros ((HWh & Hbh) & (HWo & Hbo)). unfold ffnn_example.
  repeat ret_op.
  unfold ffnn_example_shape; cbn. split_all; auto with shape.
Qed.

Lemma ffnn_batch_loop_returns model encodedText batchEnd
    (P : nat -> FFNNAcc -> Prop) (n i : nat) (acc : FFNNAcc) :
  (forall i acc, P i acc ->
     returns (ffnn_batch_step model encodedText batchEnd i acc) (P (S i))) ->
  P i acc ->
  returns (ffnn_batch_loop model encodedText batchEnd n i acc) (P (i + n)%nat).
Proof.
  intros Hbody. revert i acc. induction n as [|n IH]; intros i acc HP; cbn.
  - rewrite Nat.add_0_r. now apply returns_Some.
  - apply returns_bind. eapply returns_mono; [now apply Hbody|].
    intros acc' HP'. replace (i + S n)%nat with (S i + n)%nat by lia. now apply IH.
Qed.

Lemma ffnn_batch_step_returns model H encodedText batchEnd step t acc :
  wf_ffnn model H ->
  ffnn_inv model H encodedText step t acc ->
  returns (ffnn_batch_step model encodedText batchEnd t acc)
    (ffnn_inv model H encodedText step (S t)).
Proof.
  intros Hwf (Hle & (A1 & A2 & A3 & A4) & Hp & S1 & S2 & S3 & S4).
  destruct (ffnn_example_returns model H encodedText t Hwf)
    as (ex & Hex & (E1 & E2 & E3 & E4)).
  unfold ffnn_batch_step. rewrite Hex. cbn [mbind option_bind].
  apply returns_Some. unfold ffnn_inv.
  replace (S t - step)%nat with (S (t - step)) by lia.
  cbn [hiddenGrad outputGrad predictions weights biases].
  assert (Ht : (step + (t - step))%nat = t) by lia.
  split; [lia|]. split; [|split; [|split_all]].
  - unfold ffnn_acc_shape; cbn. split_all; auto with shape.
  - rewrite map_app, Hp, seq_S, map_app. cbn. do 2 f_equal.
    unfold pred_pair, pair_at; cbn. now rewrite Ht.
  - intros i j Hi Hj. rewrite window_grad_S, Ht, <- S1 by assumption.
    unfold example_grad. rewrite Hex.
    now apply (mget_add _ _ (length (FFNN.vocab model)) H).
  - intros j Hj. rewrite window_grad_S, Ht, <- S2 by assumption.
    unfold example_grad. rewrite Hex. apply (mget_add _ _ 1 H); auto.
  - intros i j Hi Hj. rewrite window_grad_S, Ht, <- S3 by assumption.
    unfold example_grad. rewrite Hex.
    now apply (mget_add _ _ H (length (FFNN.vocab model))).
  - intros j Hj. rewrite window_grad_S, Ht, <- S4 by assumption.
    unfold example_grad. rewrite Hex.
    apply (mget_add _ _ 1 (length (FFNN.vocab model))); auto.
Qed.

Lemma ffnn_inv_init model H encodedText step :
  wf_ffnn model H ->
  ffnn_inv model H encodedText step step
    (mkAcc (mkLayer (createMatrix (length (FFNN.vocab model)) H 0)
                    (createMatrix 1 H 0))
           (mkLayer (createMatrix H (length (FFNN.vocab model)) 0)
                    (createMatrix 1 (length (FFNN.vocab model)) 0))
           0 None []).
Proof.
  intros Hwf. unfold ffnn_inv. rewrite Nat.sub_diag.
  cbn [hiddenGrad outputGrad predictions weights biases].
  split; [lia|]. split; [|split; [reflexivity|split_all]].
  - unfold ffnn_acc_shape; cbn. split_all; apply shape_createMatrix.
  - intros. rewrite window_grad_0. now apply mget_createMatrix.
  - intros. rewrite window_grad_0. apply mget_createMatrix; auto.
  - intros. rewrite window_grad_0. now apply mget_createMatrix.
  - intros. rewrite window_grad_0. apply mget_createMatrix; auto.
Qed.

Lemma mget_descend w g lr r c i j :
  shape w r c -> shape g r c -> (i < r)%nat -> (j < c)%nat ->
  mget (descend w g lr) i j = mget w i j + clip_value (mget g i j) * lr.
Proof.
  intros Hw Hg Hi Hj. unfold descend.
  rewrite (mget_add _ _ r c) by auto with shape.
  rewrite (mget_scale _ _ r c) by auto with shape.
  now rewrite (mget_clip _ r c).
Qed.

(** The batch loop of [trainStepFFNN] returns, with its invariant. *)
Lemma ffnn_batch_returns model H encodedText step batchSize :
  wf_ffnn model H ->
  returns
    (ffnn_batch_loop model encodedText (window_end encodedText step batchSize)
       (window_size encodedText step batchSize) step
       (mkAcc (mkLayer (createMatrix (length (FFNN.vocab model)) H 0)
                       (createMatrix 1 H 0))
              (mkLayer (createMatrix H (length (FFNN.vocab model)) 0)
                       (createMatrix 1 (length (FFNN.vocab model)) 0))
              0 None []))
    (ffnn_inv model H encodedText step
       (step + window_size encodedText step batchSize)%nat).
Proof.
  intros Hwf. apply ffnn_batch_loop_returns.
  - intros i acc Hinv. now apply ffnn_batch_step_returns.
  - now apply ffnn_inv_init.
Qed.

Lemma window_size_Z encodedText step len :
  (0 < window_size encodedText step len)%nat ->
  (window_end encodedText step len - Z.of_nat step)%Z =
    Z.of_nat (window_size encodedText step len).
Proof. unfold window_size. lia. Qed.

Lemma trainStepFFNN_returns model H encodedText step batchSize lr :
  wf_ffnn model H ->
  returns (trainStepFFNN model encodedText step batchSize lr) (fun r =>
    let d := (window_end encodedText step batchSize - Z.of_nat step)%Z in
    exists acc,
      ffnn_inv model H encodedText step
        (step + window_size encodedText step batchSize)%nat acc /\
      gradients r = Some (hiddenGrad acc, outputGrad acc) /\
      ((d = 0%Z /\ updatedModel r = model /\ predictionResults r = [] /\
        loss r = 0) \/
       (d <> 0%Z /\ updatedModel r = ffnn_updated model acc (- lr / IZR d) /\
        predictionResults r = predictions acc /\
        loss r = totalLoss acc / IZR d))).
Proof.
  intros Hwf.
  destruct (ffnn_batch_returns model H encodedText step batchSize Hwf)
    as (acc & Hacc & Hinv).
  pose proof Hwf as ((HWh & _) & _).
  unfold trainStepFFNN. rewrite (shape_cols _ _ _ HWh).
  fold (window_size encodedText step batchSize). rewrite Hacc.
  cbn [mbind option_bind].
  destruct (Z.eqb_spec (window_end encodedText step batchSize - Z.of_nat step) 0)
    as [Hz|Hz]; apply returns_Some; exists acc; cbn; split_all; auto.
Qed.

Lemma shape_ffnn_updated model H acc lr :
  wf_ffnn model H -> wf_ffnn (ffnn_updated model acc lr) H.
Proof.
  intros ((HWh & Hbh) & (HWo & Hbo)).
  unfold wf_ffnn, layer_shape, ffnn_updated; cbn. split_all; auto with shape.
Qed.

(** The update of a window that is not empty, parameter by parameter. *)
Lemma ffnn_update_cells model H encodedText step batchSize lr :
  wf_ffnn model H ->
  (0 < window_size encodedText step batchSize)%nat ->
  returns (trainStepFFNN model encodedText step batchSize lr) (fun r =>
    let n := window_size encodedText step batchSize in
    let V := length (FFNN.vocab model) in
    let sum := window_grad model encodedText in
    let new := updatedModel r in
    exists hg og,
      gradients r = Some (hg, og) /\
      (forall i j, (i < V)%nat -> (j < H)%nat ->
         mget (weights hg) i j = sum dHiddenWeights step n i j /\
         mget (weights (FFNN.hiddenLayer new)) i j =
           clip_then_average (mget (weights (FFNN.hiddenLayer model)) i j) (mget (weights hg) i j) lr n) /\
      (forall j, (j < H)%nat ->
         mget (biases hg) 0 j = sum dHiddenBiases step n 0%nat j /\
         mget (biases (FFNN.hiddenLayer new)) 0 j =
           clip_then_average (mget (biases (FFNN.hiddenLayer model)) 0 j) (mget (biases hg) 0 j) lr n) /\
      (forall i j, (i < H)%nat -> (j < V)%nat ->
         mget (weights og) i j = sum dOutputWeights step n i j /\
         mget (weights (FFNN.outputLayer new)) i j =
           clip_then_average (mget (weights (FFNN.outputLayer model)) i j) (mget (weights og) i j) lr n) /\
      (forall j, (j < V)%nat ->
         mget (biases og) 0 j = sum dOutputBiases step n 0%nat j /\
         mget (biases (FFNN.outputLayer new)) 0 j =
           clip_then_average (mget (biases (FFNN.outputLayer model)) 0 j) (mget (biases og) 0 j) lr n)).
Proof.
  intros Hwf Hn.
  eapply returns_mono; [apply (trainStepFFNN_returns model H); assumption|].
  cbv beta zeta. intros r (acc & Hinv & Hg & Hcase).
  pose proof (window_size_Z encodedText step batchSize Hn) as Hd.
  destruct Hcase as [(Hz & _)|(_ & Hupd & _)]; [lia|].
  rewrite Hd, <- INR_IZR_INZ in Hupd.
  destruct Hinv as (_ & (A1 & A2 & A3 & A4) & _ & S1 & S2 & S3 & S4).
  pose proof Hwf as ((HWh & Hbh) & (HWo & Hbo)).
  replace (step + window_size encodedText step batchSize - step)%nat
    with (window_size encodedText step batchSize) in * by lia.
  exists (hiddenGrad acc), (outputGrad acc). split; [assumption|].
  rewrite Hupd. unfold clip_then_average, ffnn_updated.
  cbn [FFNN.hiddenLayer FFNN.outputLayer weights biases].
  split_all; intros.
  - split; [now apply S1|]. now apply (mget_descend _ _ _ (length (FFNN.vocab model)) H).
  - split; [now apply S2|]. apply (mget_descend _ _ _ 1 H); auto.
  - split; [now apply S3|]. now apply (mget_descend _ _ _ H (length (FFNN.vocab model))).
  - split; [now apply S4|]. apply (mget_descend _ _ _ 1 (length (FFNN.vocab model))); auto.
Qed.

(** *** A window on which clipping before and after the division differ *)

Ltac mat_eval :=
  unfold dot, add, subtract, multiply, scale, transpose, map_matrix, clip, build,
    tabulate, dot_cell, mget, one_hot, update_row0, createMatrix, softmax_grad;
  cbn; repeat f_equal; try lra.

Lemma tanh_0 : tanh 0 = 0.
Proof. unfold tanh. rewrite sinh_0. unfold Rdiv. apply Rmult_0_l. Qed.

Lemma softmax_zeros2 :
  softmax (mkMatrix 1 2 [[0; 0]]) = mkMatrix 1 2 [[1 / 2; 1 / 2]].
Proof.
  rewrite (softmax_unfold _ [0; 0] []); [|reflexivity|discriminate].
  cbn [cols Rlist_max fold_left map].
  assert (E : Rmax 0 0 = 0) by (apply Rmax_left; lra). rewrite E.
  replace (0 - 0) with 0 by lra. rewrite exp_0.
  rewrite !Rsum_cons, Rsum_nil. repeat f_equal; lra.
Qed.

Lemma ffnn_cex_example t :
  ffnn_cex_text !! t = Some 0%nat -> ffnn_cex_text !! S t = Some 0%nat ->
  ffnn_example ffnn_cex_model ffnn_cex_text t =
  Some (mkExample (mkMatrix 1 1 [[0]]) (mkMatrix 1 2 [[0; 0]])
          (mkMatrix 1 2 [[1 / 2; 1 / 2]])
          (mkMatrix 2 1 [[4]; [0]]) (mkMatrix 1 1 [[4]])
          (mkMatrix 1 2 [[0; 0]]) (mkMatrix 1 2 [[-1 / 2; 1 / 2]])).
Proof.
  intros Hin Htg. unfold ffnn_example. rewrite Hin, Htg.
  unfold ffnn_cex_model.
  cbn [FFNN.vocab FFNN.hiddenLayer FFNN.outputLayer weights biases length].
  assert (E1 : dot (one_hot 2 (Some 0%nat)) (mkMatrix 2 1 [[0]; [0]])
               = Some (mkMatrix 1 1 [[0]])) by mat_eval.
  rewrite E1. cbn [mbind option_bind].
  assert (E2 : map_matrix (add (mkMatrix 1 1 [[0]]) (mkMatrix 1 1 [[0]])) tanh
               = mkMatrix 1 1 [[0]]).
  { mat_eval. replace (0 + 0) with 0 by lra. apply tanh_0. }
  rewrite E2.
  assert (E3 : dot (mkMatrix 1 1 [[0]]) (mkMatrix 1 2 [[0; 8]])
               = Some (mkMatrix 1 2 [[0; 0]])) by mat_eval.
  rewrite E3. cbn [mbind option_bind].
  assert (E4 : add (mkMatrix 1 2 [[0; 0]]) (mkMatrix 1 2 [[0; 0]])
               = mkMatrix 1 2 [[0; 0]]) by mat_eval.
  rewrite E4, softmax_zeros2.
  assert (E5 : softmax_grad (mkMatrix 1 2 [[1 / 2; 1 / 2]]) (Some 0%nat)
               = mkMatrix 1 2 [[-1 / 2; 1 / 2]]) by mat_eval.
  rewrite E5.
  assert (E6 : dot (transpose (mkMatrix 1 1 [[0]])) (mkMatrix 1 2 [[-1 / 2; 1 / 2]])
               = Some (mkMatrix 1 2 [[0; 0]])) by mat_eval.
  rewrite E6. cbn [mbind option_bind].
  assert (E7 : dot (mkMatrix 1 2 [[-1 / 2; 1 / 2]])
                 (transpose (mkMatrix 1 2 [[0; 8]]))
               = Some (mkMatrix 1 1 [[4]])) by mat_eval.
  rewrite E7. cbn [mbind option_bind].
  assert (E8 : multiply (mkMatrix 1 1 [[4]])
                 (map_matrix (mkMatrix 1 1 [[0]]) dtanh)
               = Some (mkMatrix 1 1 [[4]])) by (unfold dtanh; mat_eval).
  rewrite E8. cbn [mbind option_bind].
  assert (E9 : dot (transpose (one_hot 2 (Some 0%nat))) (mkMatrix 1 1 [[4]])
               = Some (mkMatrix 2 1 [[4]; [0]])) by mat_eval.
  rewrite E9. cbn [mbind option_bind]. reflexivity.
Qed.

Lemma wf_ffnn_cex : wf_ffnn ffnn_cex_model 1.
Proof.
  unfold wf_ffnn, layer_shape, shape; cbn. split_all; auto; repeat constructor.
Qed.

Lemma clip_value_8 : clip_value 8 = 5.
Proof.
  unfold clip_value. rewrite Rmin_left by lra. apply Rmax_right. lra.
Qed.

Lemma clip_value_4 : clip_value 4 = 4.
Proof.
  unfold clip_value. rewrite Rmin_right by lra. apply Rmax_right. lra.
Qed.

Lemma ffnn_cex_window : window_size ffnn_cex_text 0 2 = 2%nat.
Proof. reflexivity. Qed.

Lemma ffnn_cex_grad :
  window_grad ffnn_cex_model ffnn_cex_text dHiddenBiases 0 2 0 0 = 8.
Proof.
  unfold window_grad, example_grad. cbn [seq map].
  rewrite !ffnn_cex_example by reflexivity. cbn [dHiddenBiases].
  rewrite !Rsum_cons, Rsum_nil. unfold mget; cbn. lra.
Qed.

(** C3, as stated, fails: on the corpus "aaa" with batch size 2 and
    learning rate 1 the accumulated gradient of the hidden bias is 8; the
    step leaves the bias at [0 + clip(8) * (-1/2) = -5/2], while dividing
    first gives [0 - 1 * clip(8/2) = -4]. *)
Lemma ffnn_average_then_clip_counterexample :
  wf_ffnn ffnn_cex_model 1 /\
  window_size ffnn_cex_text 0 2 = 2%nat /\
  exists r,
    trainStepFFNN ffnn_cex_model ffnn_cex_text 0 2 1 = Some r /\
    mget (biases (FFNN.hiddenLayer (updatedModel r))) 0 0 = - 5 / 2 /\
    average_then_clip
      (mget (biases (FFNN.hiddenLayer ffnn_cex_model)) 0 0)
      (window_grad ffnn_cex_model ffnn_cex_text dHiddenBiases 0 2 0 0) 1 2 = - 4 /\
    mget (biases (FFNN.hiddenLayer (updatedModel r))) 0 0 <>
    average_then_clip
      (mget (biases (FFNN.hiddenLayer ffnn_cex_model)) 0 0)
      (window_grad ffnn_cex_model ffnn_cex_text dHiddenBiases 0 2 0 0) 1 2.
Proof.
  split; [apply wf_ffnn_cex|]. split; [apply ffnn_cex_window|].
  destruct (ffnn_update_cells ffnn_cex_model 1 ffnn_cex_text 0 2 1
              wf_ffnn_cex ltac:(rewrite ffnn_cex_window; lia))
    as (r & Hr & hg & og & Hg & _ & Hb & _).
  exists r. split; [exact Hr|].
  destruct (Hb 0%nat ltac:(lia)) as (Hsum & Hupd).
  rewrite ffnn_cex_window in Hsum, Hupd. rewrite ffnn_cex_grad in Hsum.
  unfold clip_then_average in Hupd. rewrite Hsum, clip_value_8 in Hupd.
  assert (Hold : mget (biases (FFNN.hiddenLayer ffnn_cex_model)) 0 0 = 0)
    by reflexivity.
  rewrite Hold in Hupd. cbn [INR] in Hupd.
  assert (Hnew : mget (biases (FFNN.hiddenLayer (updatedModel r))) 0 0 = - 5 / 2)
    by (rewrite Hupd; lra).
  assert (Hclaim : average_then_clip 0 8 1 2 = - 4).
  { unfold average_then_clip. cbn [INR]. replace (8 / (1 + 1)) with 4 by lra.
    rewrite clip_value_4. lra. }
  split; [exact Hnew|]. rewrite Hold, ffnn_cex_grad. split; [exact Hclaim|].
  rewrite Hnew, Hclaim. lra.
Qed.

(** C3, amended: for a well-formed model and a window of n >= 1 pairs,
    [trainStepFFNN] returns; the gradients it reports are, cell by cell,
    the sums of the per-example gradients over the window; and every
    parameter cell becomes old + clip(sum, -5, 5) * (-learningRate / n):
    the sum is clipped to +-5 first and the clipped value is then scaled
    by -learningRate / n. *)
Theorem trainStepFFNN_update (model : FFNN.FFNNModel) (H : nat)
    (encodedText : list nat) (step batchSize : nat) (learningRate : R)
    (Hwf : wf_ffnn model H)
    (Hn : (0 < window_size encodedText step batchSize)%nat) :
  returns (trainStepFFNN model encodedText step batchSize learningRate) (fun r =>
    let n := window_size encodedText step batchSize in
    let V := length (FFNN.vocab model) in
    let sum := window_grad model encodedText in
    let new := updatedModel r in
    exists hg og,
      gradients r = Some (hg, og) /\
      (forall i j, (i < V)%nat -> (j < H)%nat ->
         mget (weights hg) i j = sum dHiddenWeights step n i j /\
         mget (weights (FFNN.hiddenLayer new)) i j =
           mget (weights (FFNN.hiddenLayer model)) i j
           + clip_value (mget (weights hg) i j) * (- learningRate / INR n)) /\
      (forall j, (j < H)%nat ->
         mget (biases hg) 0 j = sum dHiddenBiases step n 0%nat j /\
         mget (biases (FFNN.hiddenLayer new)) 0 j =
           mget (biases (FFNN.hiddenLayer model)) 0 j
           + clip_value (mget (biases hg) 0 j) * (- learningRate / INR n)) /\
      (forall i j, (i < H)%nat -> (j < V)%nat ->
         mget (weights og) i j = sum dOutputWeights step n i j /\
         mget (weights (FFNN.outputLayer new)) i j =
           mget (weights (FFNN.outputLayer model)) i j
           + clip_value (mget (weights og) i j) * (- learningRate / INR n)) /\
      (forall j, (j < V)%nat ->
         mget (biases og) 0 j = sum dOutputBiases step n 0%nat j /\
         mget (biases (FFNN.outputLayer new)) 0 j =
           mget (biases (FFNN.outputLayer model)) 0 j
           + clip_value (mget (biases og) 0 j) * (- learningRate / INR n))).
Proof.
  exact (ffnn_update_cells model H encodedText step batchSize
           learningRate Hwf Hn).
Qed.

Lemma trainStepFFNN_update_witness :
  wf_ffnn ffnn_cex_model 1 /\
  (0 < window_size ffnn_cex_text 0 2)%nat /\
  exists r, trainStepFFNN ffnn_cex_model ffnn_cex_text 0 2 1 = Some r.
Proof.
  split; [apply wf_ffnn_cex|]. split; [rewrite ffnn_cex_window; lia|].
  destruct (trainStepFFNN_update ffnn_cex_model 1 ffnn_cex_text 0 2 1
              wf_ffnn_cex ltac:(rewrite ffnn_cex_window; lia)) as (r & Hr & _).
  exists r. exact Hr.
Defined.

(* ===================================================================== *)
(** ** Updates that change nothing *)
(* ===================================================================== *)

Lemma clip_value_0 : clip_value 0 = 0.
Proof. unfold clip_value. rewrite Rmin_right by lra. apply Rmax_right. lra. Qed.

(** A zero gradient leaves a parameter as it is. *)
Lemma descend_zero w lr r c :
  shape w r c -> descend w (createMatrix r c 0) lr = w.
Proof.
  intros Hw. apply (shape_ext _ _ r c); auto with shape.
  intros i j Hi Hj.
  rewrite (mget_descend _ _ _ r c) by auto with shape.
  rewrite mget_createMatrix, clip_value_0 by assumption. lra.
Qed.

(** So does a zero learning rate. *)
Lemma descend_frozen w g r c :
  shape w r c -> shape g r c -> descend w g (- 0) = w.
Proof.
  intros Hw Hg. apply (shape_ext _ _ r c); auto with shape.
  intros i j Hi Hj. rewrite (mget_descend _ _ _ r c) by assumption. lra.
Qed.

Lemma layer_eta (l : Layer) : mkLayer (weights l) (biases l) = l.
Proof. now destruct l. Qed.

Lemma window_size_empty encodedText step len :
  (Z.of_nat (length encodedText) - 1 <= Z.of_nat step)%Z ->
  window_size encodedText step len = 0%nat.
Proof. unfold window_size, window_end. lia. Qed.

Lemma window_size_valid encodedText step len :
  (Z.of_nat step < Z.of_nat (length encodedText) - 1)%Z ->
  Z.of_nat (window_size encodedText step len) =
    Z.min (Z.of_nat len) (Z.of_nat (length encodedText) - 1 - Z.of_nat step).
Proof. unfold window_size, window_end. lia. Qed.

Lemma window_loss_0 seqEnd step : window_loss 0 seqEnd step = 0.
Proof. unfold window_loss, Rdiv. apply Rmult_0_l. Qed.

(** *** The empty window *)

Lemma trainStepFFNN_empty model H encodedText step batchSize lr :
  wf_ffnn model H ->
  (Z.of_nat (length encodedText) - 1 <= Z.of_nat step)%Z ->
  exists r,
    trainStepFFNN model encodedText step batchSize lr = Some r /\
    loss r = 0 /\ predictionResults r = [] /\ updatedModel r = model.
Proof.
  intros Hwf Hempty.
  pose proof (window_size_empty encodedText step batchSize Hempty) as Hws.
  pose proof Hwf as ((HWh & Hbh) & (HWo & Hbo)).
  unfold trainStepFFNN. rewrite (shape_cols _ _ _ HWh).
  fold (window_size encodedText step batchSize). rewrite Hws.
  cbn [ffnn_batch_loop mbind option_bind].
  destruct (Z.eqb_spec (window_end encodedText step batchSize - Z.of_nat step) 0)
    as [Hz|Hz]; eexists; (split; [reflexivity|]); cbn.
  - auto.
  - split; [unfold Rdiv; apply Rmult_0_l|]. split; [reflexivity|].
    rewrite !(descend_zero _ _ _ _ HWh), !(descend_zero _ _ _ _ Hbh),
      !(descend_zero _ _ _ _ HWo), !(descend_zero _ _ _ _ Hbo), !layer_eta.
    now destruct model.
Qed.

Lemma trainStepRNN_empty model H encodedText step len lr rate rand pos :
  wf_rnn model H ->
  (Z.of_nat (length encodedText) - 1 <= Z.of_nat step)%Z ->
  exists r,
    trainStepRNN model encodedText step len lr rate rand pos = Some (r, pos) /\
    loss r = 0 /\ predictionResults r = [] /\ updatedModel r = model.
Proof.
  intros Hwf Hempty.
  pose proof (window_size_empty encodedText step len Hempty) as Hws.
  wf_rnn_destruct Hwf.
  unfold trainStepRNN, rnn_forward, rnn_backward.
  rewrite (shape_cols _ _ _ HWxh).
  fold (window_size encodedText step len). rewrite Hws.
  cbn [forward_loop backward_loop mbind option_bind cache length].
  eexists. split; [reflexivity|]. cbn.
  split; [apply window_loss_0|]. split; [reflexivity|].
  rewrite !(descend_zero _ _ _ _ HWxh), !(descend_zero _ _ _ _ Hbxh),
    !(descend_zero _ _ _ _ HWhh), !(descend_zero _ _ _ _ HWhy),
    !(descend_zero _ _ _ _ Hbhy), !layer_eta.
  now destruct model.
Qed.

Lemma trainStepGRU_empty model H encodedText step len lr rate rand pos :
  wf_gru model H ->
  (Z.of_nat (length encodedText) - 1 <= Z.of_nat step)%Z ->
  exists r,
    trainStepGRU model encodedText step len lr rate rand pos = Some (r, pos) /\
    loss r = 0 /\ predictionResults r = [] /\ updatedModel r = model.
Proof.
  intros Hwf Hempty.
  pose proof (window_size_empty encodedText step len Hempty) as Hws.
  wf_gru_destruct Hwf.
  destruct HWz as (HWz & Hbz), HUz as (HUz & Hbuz), HWr as (HWr & Hbr),
    HUr as (HUr & Hbur), HWh as (HWh & Hbh), HUh as (HUh & Hbuh).
  unfold trainStepGRU, gru_forward, gru_backward.
  rewrite (shape_rows _ _ _ HWhy).
  fold (window_size encodedText step len). rewrite Hws.
  cbn [forward_loop backward_loop mbind option_bind cache length].
  eexists. split; [reflexivity|]. cbn.
  split; [apply window_loss_0|]. split; [reflexivity|].
  rewrite !(descend_zero _ _ _ _ HWz), !(descend_zero _ _ _ _ Hbz),
    !(descend_zero _ _ _ _ HUz), !(descend_zero _ _ _ _ HWr),
    !(descend_zero _ _ _ _ Hbr), !(descend_zero _ _ _ _ HUr),
    !(descend_zero _ _ _ _ HWh), !(descend_zero _ _ _ _ Hbh),
    !(descend_zero _ _ _ _ HUh), !(descend_zero _ _ _ _ HWhy),
    !(descend_zero _ _ _ _ Hbhy), !layer_eta.
  now destruct model.
Qed.

Lemma trainStepLSTM_empty model H encodedText step len lr rate rand pos :
  wf_lstm model H ->
  (Z.of_nat (length encodedText) - 1 <= Z.of_nat step)%Z ->
  exists r,
    trainStepLSTM model encodedText step len lr rate rand pos = Some (r, pos) /\
    loss r = 0 /\ predictionResults r = [] /\ updatedModel r = model.
Proof.
  intros Hwf Hempty.
  pose proof (window_size_empty encodedText step len Hempty) as Hws.
  wf_lstm_destruct Hwf.
  destruct HWf as (HWf & Hbf), HUf as (HUf & Hbuf), HWi as (HWi & Hbi),
    HUi as (HUi & Hbui), HWo as (HWo & Hbo), HUo as (HUo & Hbuo),
    HWc as (HWc & Hbc), HUc as (HUc & Hbuc).
  unfold trainStepLSTM, lstm_forward, lstm_backward.
  rewrite (shape_rows _ _ _ HWhy).
  fold (window_size encodedText step len). rewrite Hws.
  cbn [forward_loop backward_loop mbind option_bind cache length].
  eexists. split; [reflexivity|]. cbn.
  split; [apply window_loss_0|]. split; [reflexivity|].
  rewrite !(descend_zero _ _ _ _ HWf), !(descend_zero _ _ _ _ Hbf),
    !(descend_zero _ _ _ _ HUf), !(descend_zero _ _ _ _ HWi),
    !(descend_zero _ _ _ _ Hbi), !(descend_zero _ _ _ _ HUi),
    !(descend_zero _ _ _ _ HWo), !(descend_zero _ _ _ _ Hbo),
    !(descend_zero _ _ _ _ HUo), !(descend_zero _ _ _ _ HWc),
    !(descend_zero _ _ _ _ Hbc), !(descend_zero _ _ _ _ HUc),
    !(descend_zero _ _ _ _ HWhy), !(descend_zero _ _ _ _ Hbhy), !layer_eta.
  now destruct model.
Qed.

(* ===================================================================== *)
(** ** The instances are well formed *)
(* ===================================================================== *)

Lemma layer_shape_const in_ out w : layer_shape (const_layer in_ out w) in_ out.
Proof. split; apply shape_createMatrix. Qed.

Lemma wf_ffnn_abc : wf_ffnn ffnn_abc 2.
Proof. split; apply layer_shape_const. Qed.

Lemma wf_rnn_abc : wf_rnn rnn_abc 2.
Proof.
  unfold wf_rnn, rnn_abc; cbn.
  split_all; try apply layer_shape_const; apply shape_createMatrix.
Qed.

Lemma wf_gru_abc : wf_gru gru_abc 2.
Proof.
  unfold wf_gru, gru_abc; cbn.
  split_all; try apply layer_shape_const; apply shape_createMatrix.
Qed.

Lemma wf_lstm_abc : wf_lstm lstm_abc 2.
Proof.
  unfold wf_lstm, lstm_abc; cbn.
  split_all; try apply layer_shape_const; apply shape_createMatrix.
Qed.

(* ===================================================================== *)
(** ** C5: the empty window *)
(* ===================================================================== *)

(** C5: when the cursor is at or past [encodedCorpus.length - 1], each of
    the four training steps, on a well-formed model, returns (no error)
    a loss of 0, an empty [predictionResults] and a model equal to the
    input model: every weight matrix, bias vector and recurrent state is
    the same, cell by cell.  The recurrent steps draw no random number. *)
Theorem empty_window_is_a_noop
    (encodedText : list nat) (step windowSize : nat)
    (learningRate dropoutRate : R) (rand : nat -> R) (pos : nat)
    (ffnn : FFNN.FFNNModel) (rnn : RNN.RNNModel)
    (gru : GRU.GRULanguageModel) (lstm : LSTM.LSTMLanguageModel)
    (Hf Hr Hg Hl : nat)
    (Hffnn : wf_ffnn ffnn Hf) (Hrnn : wf_rnn rnn Hr)
    (Hgru : wf_gru gru Hg) (Hlstm : wf_lstm lstm Hl)
    (Hempty : (Z.of_nat (length encodedText) - 1 <= Z.of_nat step)%Z) :
  (exists r,
     trainStepFFNN ffnn encodedText step windowSize learningRate = Some r /\
     loss r = 0 /\ predictionResults r = [] /\ updatedModel r = ffnn) /\
  (exists r,
     trainStepRNN rnn encodedText step windowSize learningRate dropoutRate
       rand pos = Some (r, pos) /\
     loss r = 0 /\ predictionResults r = [] /\ updatedModel r = rnn) /\
  (exists r,
     trainStepGRU gru encodedText step windowSize learningRate dropoutRate
       rand pos = Some (r, pos) /\
     loss r = 0 /\ predictionResults r = [] /\ updatedModel r = gru) /\
  (exists r,
     trainStepLSTM lstm encodedText step windowSize learningRate dropoutRate
       rand pos = Some (r, pos) /\
     loss r = 0 /\ predictionResults r = [] /\ updatedModel r = lstm).
Proof.
  split_all.
  - now apply (trainStepFFNN_empty ffnn Hf).
  - now apply (trainStepRNN_empty rnn Hr).
  - now apply (trainStepGRU_empty gru Hg).
  - now apply (trainStepLSTM_empty lstm Hl).
Qed.

Lemma empty_window_is_a_noop_witness :
  wf_ffnn ffnn_abc 2 /\ wf_rnn rnn_abc 2 /\ wf_gru gru_abc 2 /\
  wf_lstm lstm_abc 2 /\
  (Z.of_nat (length abc_text) - 1 <= Z.of_nat 5)%Z /\
  exists r,
    trainStepLSTM lstm_abc abc_text 5 3 (1 / 100) 0 no_rand 0 = Some (r, 0%nat) /\
    loss r = 0 /\ predictionResults r = [] /\ updatedModel r = lstm_abc.
Proof.
  split; [apply wf_ffnn_abc|]. split; [apply wf_rnn_abc|].
  split; [apply wf_gru_abc|]. split; [apply wf_lstm_abc|].
  split; [cbn; lia|].
  apply (empty_window_is_a_noop abc_text 5 3 (1 / 100) 0 no_rand 0
           ffnn_abc rnn_abc gru_abc lstm_abc 2 2 2 2
           wf_ffnn_abc wf_rnn_abc wf_gru_abc wf_lstm_abc).
  cbn. lia.
Defined.

(* ===================================================================== *)
(** ** C10: the bias of the recurrent layer *)
(* ===================================================================== *)

(** The forward and the backward pass do not read [Whh.biases]. *)
Lemma rnn_forward_frame model b encodedText step len rate rand pos :
  rnn_forward (set_Whh_biases model b) encodedText step len rate rand pos =
  rnn_forward model encodedText step len rate rand pos.
Proof. reflexivity. Qed.

Lemma rnn_backward_frame model b encodedText step cache :
  rnn_backward (set_Whh_biases model b) encodedText step cache =
  rnn_backward model encodedText step cache.
Proof. reflexivity. Qed.

Lemma trainStepRNN_frame model b encodedText step len lr rate rand pos :
  trainStepRNN (set_Whh_biases model b) encodedText step len lr rate rand pos =
  result_set_Whh_biases b <$>
    trainStepRNN model encodedText step len lr rate rand pos.
Proof.
  unfold trainStepRNN. rewrite rnn_forward_frame.
  destruct (rnn_forward model encodedText step len rate rand pos) as [fw|];
    [|reflexivity].
  cbn [mbind option_bind]. rewrite rnn_backward_frame.
  destruct (rnn_backward model encodedText step (cache fw)) as [g|];
    reflexivity.
Qed.

Lemma fold_left_sum {A : Type} (f : A -> R) (l : list A) (a : R) :
  fold_left (fun s k => s + f k) l a = a + Rsum (map f l).
Proof.
  revert a. induction l as [|x l IH]; intros a; cbn [fold_left map].
  - rewrite Rsum_nil. lra.
  - rewrite IH, Rsum_cons. lra.
Qed.

Lemma dot_cell_vsum a b i j :
  dot_cell a b i j = vsum (cols a) (fun k => mget a i k * mget b k j).
Proof. unfold dot_cell, vsum. rewrite fold_left_sum. lra. Qed.

Lemma vsum_ext n f g :
  (forall k, (k < n)%nat -> f k = g k) -> vsum n f = vsum n g.
Proof.
  intros Hfg. unfold vsum. f_equal. apply map_ext_in.
  intros k Hk. apply in_seq in Hk. apply Hfg. lia.
Qed.

(** Entry j of [X * W] for a row [X]. *)
Lemma dot_row X W d n m j :
  shape X 1 n -> shape W n m ->
  (forall i j, (i < 1)%nat -> (j < m)%nat -> mget d i j = dot_cell X W i j) ->
  (j < m)%nat ->
  mget d 0 j = times n (mget X 0) W j.
Proof.
  intros HX HW Hd Hj. rewrite Hd by lia. rewrite dot_cell_vsum.
  now rewrite (shape_cols _ _ _ HX).
Qed.

Ltac ret_as lem x Hs Hv :=
  apply returns_bind; eapply returns_mono; [eapply lem; eauto with shape|];
  cbv beta; intros x (Hs & Hv).

(** The forward step computes the hidden state from [Wxh], the bias of
    [Wxh] and the weights of [Whh]. *)
Lemma rnn_forward_step_hidden model H encodedText rate rand step t st :
  wf_rnn model H ->
  rnn_inv model H encodedText step t st ->
  returns (rnn_forward_step model encodedText rate rand t st) (fun st' =>
    exists e,
      cache st' = cache st ++ [e] /\
      rc_h_prev e = last_state (hiddenStates st) /\
      forall j, (j < H)%nat ->
        mget (rc_h_next e) 0 j =
        rnn_hidden model H (rc_inputVector e) (rc_h_prev e) j).
Proof.
  intros Hwf Hinv. wf_rnn_destruct Hwf.
  pose proof (forward_inv_last _ _ _ _ _ _ _ _ _ Hinv) as Hlast.
  unfold rnn_forward_step.
  rewrite (shape_cols _ _ _ HWxh).
  ret_as returns_dot xw Sxw Vxw.
  ret_as returns_dot hw Shw Vhw.
  repeat ret_op.
  eexists. cbn [cache].
  split; [reflexivity|]. split; [reflexivity|].
  cbn [rc_h_prev rc_h_next rc_inputVector].
  intros j Hj. unfold rnn_hidden.
  rewrite (mget_map_matrix _ _ 1 H) by (auto with shape; lia). f_equal.
  rewrite !(mget_add _ _ 1 H) by (auto with shape; lia). f_equal; [f_equal|].
  - apply (dot_row _ _ _ (length (RNN.vocab model)) H); auto with shape.
  - apply (dot_row _ _ _ H H); auto.
Qed.

Lemma trainStepRNN_keeps_Whh_biases model encodedText step len lr rate rand pos r p :
  trainStepRNN model encodedText step len lr rate rand pos = Some (r, p) ->
  biases (RNN.Whh (updatedModel r)) = biases (RNN.Whh model).
Proof.
  intros Heq. apply trainStepRNN_unfold in Heq as (fw & g & _ & _ & -> & _).
  reflexivity.
Qed.

(** C10: [trainStepRNN] neither reads nor writes [Whh.biases].  Each
    forward step computes the hidden state as
    [tanh(x * Wxh.weights + Wxh.biases + h_prev * Whh.weights)]: the bias of
    [Wxh] is the only one added.  On a well-formed model the step returns,
    and the model it returns has the input model's [Whh.biases]; this
    holds of whatever it returns on any model; and replacing [Whh.biases]
    by any [b] changes nothing in the result but that same field, so the
    forward pass, the gradients and the other updates do not depend on
    it. *)
Theorem Whh_biases_frame (model : RNN.RNNModel) (H : nat)
    (encodedText : list nat) (step sequenceLength : nat)
    (learningRate dropoutRate : R) (rand : nat -> R) (pos : nat) (b : Matrix)
    (t : nat) (st : Forward RNNCache)
    (Hwf : wf_rnn model H)
    (Hinv : rnn_inv model H encodedText step t st) :
  returns (rnn_forward_step model encodedText dropoutRate rand t st) (fun st' =>
    exists e,
      cache st' = cache st ++ [e] /\
      rc_h_prev e = last_state (hiddenStates st) /\
      forall j, (j < H)%nat ->
        mget (rc_h_next e) 0 j =
        tanh (times (length (RNN.vocab model)) (mget (rc_inputVector e) 0)
                (weights (RNN.Wxh model)) j
              + mget (biases (RNN.Wxh model)) 0 j
              + times H (mget (rc_h_prev e) 0) (weights (RNN.Whh model)) j)) /\
  returns (trainStepRNN model encodedText step sequenceLength learningRate
             dropoutRate rand pos)
    (fun rp => biases (RNN.Whh (updatedModel rp.1)) = biases (RNN.Whh model) /\
               meq (biases (RNN.Whh (updatedModel rp.1))) (biases (RNN.Whh model))) /\
  (forall model' r p,
     trainStepRNN model' encodedText step sequenceLength learningRate
       dropoutRate rand pos = Some (r, p) ->
     biases (RNN.Whh (updatedModel r)) = biases (RNN.Whh model')) /\
  trainStepRNN (set_Whh_biases model b) encodedText step sequenceLength
    learningRate dropoutRate rand pos =
  result_set_Whh_biases b <$>
    trainStepRNN model encodedText step sequenceLength learningRate
      dropoutRate rand pos.
Proof.
  split; [|split; [|split]].
  - now apply (rnn_forward_step_hidden model H encodedText dropoutRate rand step).
  - eapply returns_mono; [now apply (trainStepRNN_returns model H)|].
    intros [r p] (fw & g & _ & _ & _ & _ & Hupd & _). cbn [fst] in *.
    rewrite Hupd. cbn. split; [reflexivity|]. unfold meq. split_all; auto.
  - intros model' r p. apply trainStepRNN_keeps_Whh_biases.
  - apply trainStepRNN_frame.
Qed.

Lemma Whh_biases_frame_witness :
  wf_rnn rnn_abc 2 /\
  rnn_inv rnn_abc 2 abc_text 0 0 (mkForward [RNN.h rnn_abc] [] [] 0 [] 0) /\
  exists r p,
    trainStepRNN rnn_abc abc_text 0 3 (1 / 100) 0 no_rand 0 = Some (r, p) /\
    biases (RNN.Whh (updatedModel r)) = biases (RNN.Whh rnn_abc).
Proof.
  split; [apply wf_rnn_abc|].
  split; [apply (rnn_inv_init rnn_abc 2 abc_text 0 0 wf_rnn_abc)|].
  destruct (Whh_biases_frame rnn_abc 2 abc_text 0 3 (1 / 100) 0 no_rand 0
              (createMatrix 1 2 1) 0 (mkForward [RNN.h rnn_abc] [] [] 0 [] 0)
              wf_rnn_abc (rnn_inv_init rnn_abc 2 abc_text 0 0 wf_rnn_abc))
    as (_ & ([r p] & Hr & Hb & _) & _).
  exists r, p. split; [exact Hr | exact Hb].
Defined.

(* ===================================================================== *)
(** ** C8: one prediction per pair *)
(* ===================================================================== *)

(** What C8 says of the list of predictions of a step on the window of
    [windowSize] pairs at [step]. *)
Lemma predictions_of_inv (vocab : list string) (encodedText : list nat)
    (step windowSize : nat) (preds : list Prediction) :
  (Z.of_nat step < Z.of_nat (length encodedText) - 1)%Z ->
  map pred_pair preds =
    map (pair_at vocab encodedText)
        (seq step (step + window_size encodedText step windowSize - step)) ->
  Z.of_nat (length preds) =
    Z.min (Z.of_nat windowSize)
          (Z.of_nat (length encodedText) - 1 - Z.of_nat step) /\
  map pred_pair preds =
    map (pair_at vocab encodedText) (seq step (length preds)).
Proof.
  intros Hvalid Hp.
  replace (step + window_size encodedText step windowSize - step)%nat
    with (window_size encodedText step windowSize) in Hp by lia.
  assert (Hlen : length preds = window_size encodedText step windowSize).
  { apply (f_equal (@length _)) in Hp. now rewrite !length_map, length_seq in Hp. }
  rewrite Hlen. split; [now apply window_size_valid | exact Hp].
Qed.

(** The state pushed by the last step is the one that the last cache entry
    is related to. *)
Lemma forward_inv_last_entry {C : Type} cshape hrel cells_ok H vocab text step t
    (st : Forward C) (n : nat) :
  forward_inv cshape hrel cells_ok H vocab text step t st ->
  length (cache st) = S n ->
  exists e, cache st !! n = Some e /\ hrel e (last_state (hiddenStates st)).
Proof.
  intros Hinv Hlen.
  destruct (forward_inv_lookup _ _ _ _ _ _ _ _ _ n Hinv ltac:(lia))
    as (e & h & He & Hh & _ & Hrel).
  exists e. split; [assumption|].
  destruct (forward_inv_hidden _ _ _ _ _ _ _ _ _ Hinv) as (Hne & _ & Hhl).
  replace (last_state (hiddenStates st)) with h; [assumption|].
  destruct Hinv as (_ & _ & Hcl & _). rewrite <- Hcl, Hlen in Hhl.
  unfold last_state. destruct (exists_last Hne) as (l' & x & Hx).
  rewrite Hx in *. rewrite last_last. rewrite length_app in Hhl. cbn in Hhl.
  rewrite lookup_app_r in Hh by lia.
  replace (S n - length l')%nat with 0%nat in Hh by lia. cbn in Hh. congruence.
Qed.

Lemma trainStepFFNN_covers model H encodedText step windowSize lr :
  wf_ffnn model H ->
  (Z.of_nat step < Z.of_nat (length encodedText) - 1)%Z ->
  returns (trainStepFFNN model encodedText step windowSize lr) (fun r =>
    covers_window (FFNN.vocab model) encodedText step windowSize
      (predictionResults r)).
Proof.
  intros Hwf Hvalid.
  eapply returns_mono; [now apply (trainStepFFNN_returns model H)|].
  cbv beta zeta. intros r (acc & (_ & _ & Hp & _) & _ & Hcase).
  destruct Hcase as [(Hz & _ & -> & _)|(_ & _ & -> & _)].
  - split; [|reflexivity]. cbn [length].
    rewrite <- (window_size_valid encodedText step windowSize Hvalid).
    unfold window_size. rewrite Hz. reflexivity.
  - now apply predictions_of_inv.
Qed.

Lemma trainStepRNN_covers model H encodedText step windowSize lr rate rand pos :
  wf_rnn model H ->
  (Z.of_nat step < Z.of_nat (length encodedText) - 1)%Z ->
  returns (trainStepRNN model encodedText step windowSize lr rate rand pos)
    (fun rp => covers_window (RNN.vocab model) encodedText step windowSize
                 (predictionResults rp.1)).
Proof.
  intros Hwf Hvalid.
  eapply returns_mono; [now apply (trainStepRNN_returns model H)|].
  intros [r p] (fw & g & _ & _ & (_ & _ & _ & Hp & _) & _ & _ & Hpr & _).
  cbn [fst] in *. rewrite Hpr. now apply predictions_of_inv.
Qed.

Lemma trainStepGRU_covers model H encodedText step windowSize lr rate rand pos :
  wf_gru model H ->
  (Z.of_nat step < Z.of_nat (length encodedText) - 1)%Z ->
  returns (trainStepGRU model encodedText step windowSize lr rate rand pos)
    (fun rp => covers_window (GRU.vocab model) encodedText step windowSize
                 (predictionResults rp.1)).
Proof.
  intros Hwf Hvalid.
  eapply returns_mono; [now apply (trainStepGRU_returns model H)|].
  intros [r p] (fw & g & _ & _ & (_ & _ & _ & Hp & _) & _ & _ & Hpr & _).
  cbn [fst] in *. rewrite Hpr. now apply predictions_of_inv.
Qed.

Lemma trainStepLSTM_covers model H encodedText step windowSize lr rate rand pos :
  wf_lstm model H ->
  (Z.of_nat step < Z.of_nat (length encodedText) - 1)%Z ->
  returns (trainStepLSTM model encodedText step windowSize lr rate rand pos)
    (fun rp => covers_window (LSTM.vocab model) encodedText step windowSize
                 (predictionResults rp.1)).
Proof.
  intros Hwf Hvalid.
  eapply returns_mono; [now apply (trainStepLSTM_returns model H)|].
  intros [r p] (fw & g & _ & _ & (_ & _ & _ & Hp & _) & _ & _ & Hpr & _).
  cbn [fst] in *. rewrite Hpr. now apply predictions_of_inv.
Qed.

(** Without dropout the state pushed on [hiddenStates] is the hidden
    state itself. *)
Lemma forward_loop_preserves {C : Type}
    (body : nat -> Forward C -> option (Forward C)) (P : Forward C -> Prop)
    (n t : nat) (st st' : Forward C) :
  (forall t st st', P st -> body t st = Some st' -> P st') ->
  P st -> forward_loop body n t st = Some st' -> P st'.
Proof.
  intros Hbody. revert t st. induction n as [|n IH]; intros t st HP Heq;
    cbn [forward_loop] in Heq.
  - now injection Heq as <-.
  - destruct (body t st) as [st1|] eqn:Hb; [|discriminate].
    cbn [mbind option_bind] in Heq. eapply IH; [|exact Heq]. eauto.
Qed.

Lemma rnn_forward_step_no_dropout model encodedText rate rand t st st' :
  rate <= 0 ->
  Forall (fun e => rc_h_next_dropped e = rc_h_next e) (cache st) ->
  rnn_forward_step model encodedText rate rand t st = Some st' ->
  Forall (fun e => rc_h_next_dropped e = rc_h_next e) (cache st').
Proof.
  intros Hrate Hall Heq. unfold rnn_forward_step, apply_dropout in Heq.
  destruct (Rlt_dec 0 rate) as [Hlt|_]; [lra|].
  cbv zeta in Heq.
  repeat match type of Heq with
  | context [mbind _ (dot ?a ?b)] =>
      destruct (dot a b); cbn [mbind option_bind] in Heq; [|discriminate]
  end.
  injection Heq as <-. cbn [cache].
  apply Forall_app. split; [assumption|]. constructor; [reflexivity|constructor].
Qed.

(** Scenario B: an RNN over the vocabulary a, b, c on "abcabc", window 3
    at cursor 0. *)
Lemma rnn_scenario_B model H lr rate rand pos :
  wf_rnn model H -> RNN.vocab model = abc_vocab ->
  exists r p fw e,
    trainStepRNN model abc_text 0 3 lr rate rand pos = Some (r, p) /\
    length (predictionResults r) = 3%nat /\
    map pred_pair (predictionResults r) =
      [(Some "a", Some "b"); (Some "b", Some "c"); (Some "c", Some "a")]%string /\
    rnn_forward model abc_text 0 3 rate rand pos = Some fw /\
    length (cache fw) = 3%nat /\
    cache fw !! 2%nat = Some e /\
    RNN.h (updatedModel r) = rc_h_next_dropped e /\
    (rate <= 0 -> RNN.h (updatedModel r) = rc_h_next e).
Proof.
  intros Hwf Hvocab.
  destruct (trainStepRNN_returns model H abc_text 0 3 lr rate rand pos Hwf)
    as ([r p] & Hr & fw & g & Hfw & _ & Hinv & _ & Hupd & Hpr & _).
  cbn [fst] in *.
  assert (Hws : (0 + window_size abc_text 0 3)%nat = 3%nat) by reflexivity.
  rewrite Hws in Hinv.
  pose proof Hinv as (_ & _ & Hcl & Hp & _).
  cbn [Nat.sub] in Hcl, Hp.
  destruct (forward_inv_last_entry _ _ _ _ _ _ _ _ _ 2 Hinv Hcl) as (e & He & Hrel).
  exists r, p, fw, e. rewrite Hpr, Hupd. cbn [RNN.h rnn_updated].
  split_all; auto.
  - apply (f_equal (@length _)) in Hp. now rewrite !length_map in Hp.
  - rewrite Hp, Hvocab. reflexivity.
  - intros Hrate. rewrite <- Hrel.
    assert (Hall : Forall (fun e => rc_h_next_dropped e = rc_h_next e) (cache fw)).
    { unfold rnn_forward in Hfw.
      refine (forward_loop_preserves _
                (fun st => Forall (fun e => rc_h_next_dropped e = rc_h_next e)
                             (cache st)) _ _ _ _ _ _ Hfw).
      - intros t st st'. now apply rnn_forward_step_no_dropout.
      - constructor. }
    exact (Forall_lookup_1 _ _ _ _ Hall He).
Qed.

(** C8: with a valid cursor, each training step, on a well-formed model,
    returns a [predictionResults] of exactly
    [min(windowSize, length - 1 - cursor)] entries, entry k holding the
    input and target tokens of the pair at [cursor + k]; and an RNN over
    the vocabulary a, b, c on the corpus [0,1,2,0,1,2], window 3 at
    cursor 0, returns 3 entries for the pairs a->b, b->c, c->a and a model
    whose [h] is the hidden state that the third forward step cached: the
    state it pushed on [hiddenStates], which without dropout is the hidden
    state [h_next] itself. *)
Theorem one_prediction_per_pair
    (encodedText : list nat) (step windowSize : nat)
    (learningRate dropoutRate : R) (rand : nat -> R) (pos : nat)
    (ffnn : FFNN.FFNNModel) (rnn : RNN.RNNModel)
    (gru : GRU.GRULanguageModel) (lstm : LSTM.LSTMLanguageModel)
    (abc : RNN.RNNModel) (Hf Hr Hg Hl Ha : nat)
    (Hffnn : wf_ffnn ffnn Hf) (Hrnn : wf_rnn rnn Hr)
    (Hgru : wf_gru gru Hg) (Hlstm : wf_lstm lstm Hl)
    (Habc : wf_rnn abc Ha) (Hvocab : RNN.vocab abc = abc_vocab)
    (Hvalid : (Z.of_nat step < Z.of_nat (length encodedText) - 1)%Z) :
  returns (trainStepFFNN ffnn encodedText step windowSize learningRate)
    (fun r => covers_window (FFNN.vocab ffnn) encodedText step windowSize
                (predictionResults r)) /\
  returns (trainStepRNN rnn encodedText step windowSize learningRate
             dropoutRate rand pos)
    (fun rp => covers_window (RNN.vocab rnn) encodedText step windowSize
                 (predictionResults rp.1)) /\
  returns (trainStepGRU gru encodedText step windowSize learningRate
             dropoutRate rand pos)
    (fun rp => covers_window (GRU.vocab gru) encodedText step windowSize
                 (predictionResults rp.1)) /\
  returns (trainStepLSTM lstm encodedText step windowSize learningRate
             dropoutRate rand pos)
    (fun rp => covers_window (LSTM.vocab lstm) encodedText step windowSize
                 (predictionResults rp.1)) /\
  exists r p fw e,
    trainStepRNN abc abc_text 0 3 learningRate dropoutRate rand pos
      = Some (r, p) /\
    length (predictionResults r) = 3%nat /\
    map pred_pair (predictionResults r) =
      [(Some "a", Some "b"); (Some "b", Some "c"); (Some "c", Some "a")]%string /\
    rnn_forward abc abc_text 0 3 dropoutRate rand pos = Some fw /\
    length (cache fw) = 3%nat /\
    cache fw !! 2%nat = Some e /\
    RNN.h (updatedModel r) = rc_h_next_dropped e /\
    (dropoutRate <= 0 -> RNN.h (updatedModel r) = rc_h_next e).
Proof.
  split_all.
  - now apply (trainStepFFNN_covers ffnn Hf).
  - now apply (trainStepRNN_covers rnn Hr).
  - now apply (trainStepGRU_covers gru Hg).
  - now apply (trainStepLSTM_covers lstm Hl).
  - now apply (rnn_scenario_B abc Ha).
Qed.

Lemma one_prediction_per_pair_witness :
  wf_ffnn ffnn_abc 2 /\ wf_rnn rnn_abc 2 /\ wf_gru gru_abc 2 /\
  wf_lstm lstm_abc 2 /\ RNN.vocab rnn_abc = abc_vocab /\
  (Z.of_nat 4 < Z.of_nat (length abc_text) - 1)%Z /\
  returns (trainStepGRU gru_abc abc_text 4 3 (1 / 100) 0 no_rand 0)
    (fun rp => covers_window abc_vocab abc_text 4 3 (predictionResults rp.1)).
Proof.
  split; [apply wf_ffnn_abc|]. split; [apply wf_rnn_abc|].
  split; [apply wf_gru_abc|]. split; [apply wf_lstm_abc|].
  split; [reflexivity|]. split; [cbn; lia|].
  apply (one_prediction_per_pair abc_text 4 3 (1 / 100) 0 no_rand 0
           ffnn_abc rnn_abc gru_abc lstm_abc rnn_abc 2 2 2 2 2
           wf_ffnn_abc wf_rnn_abc wf_gru_abc wf_lstm_abc wf_rnn_abc eq_refl).
  cbn. lia.
Defined.

(* ===================================================================== *)
(** ** C4: the recurrent state across two windows *)
(* ===================================================================== *)

(** A loop whose body looks at the carried state only yields the same
    carried state from two states that carry the same one. *)
Lemma forward_loop_carry {C : Type}
    (body : nat -> Forward C -> option (Forward C)) (n t : nat)
    (st st' : Forward C) :
  (forall t st st', same_carry st st' ->
     option_Forall2 same_carry (body t st) (body t st')) ->
  same_carry st st' ->
  option_Forall2 same_carry (forward_loop body n t st) (forward_loop body n t st').
Proof.
  intros Hbody. revert t st st'.
  induction n as [|n IH]; intros t st st' Hc; cbn [forward_loop].
  - now constructor.
  - destruct (Hbody t st st' Hc) as [a b Hab|]; cbn [mbind option_bind].
    + now apply IH.
    + constructor.
Qed.

Ltac carry_step :=
  repeat match goal with
  | x : (_ * _)%type |- _ => destruct x
  | |- option_Forall2 _ (mbind _ ?o) (mbind _ ?o) =>
      destruct o as [?|]; cbn [mbind option_bind]; [|constructor]
  end.

Ltac carry_done :=
  constructor; unfold same_carry; cbn [hiddenStates cellStates];
  rewrite ?last_state_snoc; auto.

Lemma rnn_forward_step_carry model encodedText rand t st st' :
  same_carry st st' ->
  option_Forall2 same_carry
    (rnn_forward_step model encodedText 0 rand t st)
    (rnn_forward_step model encodedText 0 rand t st').
Proof.
  intros (Hh & Hc). unfold rnn_forward_step.
  rewrite Hh.
  carry_step. rewrite !apply_dropout_zero. cbn [mbind option_bind].
  carry_step. carry_done.
Qed.

Lemma gru_forward_step_carry model encodedText rand t st st' :
  same_carry st st' ->
  option_Forall2 same_carry
    (gru_forward_step model encodedText 0 rand t st)
    (gru_forward_step model encodedText 0 rand t st').
Proof.
  intros (Hh & Hc). unfold gru_forward_step. rewrite Hh.
  carry_step. rewrite !apply_dropout_zero. cbn [mbind option_bind].
  carry_step. carry_done.
Qed.

Lemma lstm_forward_step_carry model encodedText rand t st st' :
  same_carry st st' ->
  option_Forall2 same_carry
    (lstm_forward_step model encodedText 0 rand t st)
    (lstm_forward_step model encodedText 0 rand t st').
Proof.
  intros (Hh & Hc). unfold lstm_forward_step. rewrite Hh, Hc.
  carry_step. rewrite !apply_dropout_zero. cbn [mbind option_bind].
  carry_step. carry_done.
Qed.

Lemma window_size_first encodedText k :
  (2 * k + 1 <= length encodedText)%nat -> window_size encodedText 0 k = k.
Proof. unfold window_size, window_end. lia. Qed.

Lemma window_size_second encodedText k :
  (2 * k + 1 <= length encodedText)%nat -> window_size encodedText k k = k.
Proof. unfold window_size, window_end. lia. Qed.

Lemma window_size_both encodedText k :
  (2 * k + 1 <= length encodedText)%nat ->
  window_size encodedText 0 (2 * k) = (k + k)%nat.
Proof. unfold window_size, window_end. lia. Qed.

(** With a learning rate of 0 the update keeps every parameter. *)
Lemma rnn_updated_frozen model H fw g :
  wf_rnn model H -> rnn_grads_shape (length (RNN.vocab model)) H g ->
  rnn_updated model fw g 0 =
  RNN.mk (RNN.vocab model) (RNN.tokenToIndex model) (RNN.Wxh model)
    (RNN.Whh model) (RNN.Why model) (last_state (hiddenStates fw)).
Proof.
  intros Hwf (G1 & G2 & G3 & G4 & G5 & _). wf_rnn_destruct Hwf.
  unfold rnn_updated.
  rewrite (descend_frozen _ _ _ _ HWxh G1), (descend_frozen _ _ _ _ Hbxh G4),
    (descend_frozen _ _ _ _ HWhh G2), (descend_frozen _ _ _ _ HWhy G3),
    (descend_frozen _ _ _ _ Hbhy G5), !layer_eta.
  reflexivity.
Qed.

Lemma rnn_continuity model H encodedText k rand pos :
  wf_rnn model H -> (2 * k + 1 <= length encodedText)%nat ->
  exists r1 p1 r2 p2 r p,
    trainStepRNN model encodedText 0 k 0 0 rand pos = Some (r1, p1) /\
    trainStepRNN (updatedModel r1) encodedText k k 0 0 rand p1 = Some (r2, p2) /\
    trainStepRNN model encodedText 0 (2 * k) 0 0 rand pos = Some (r, p) /\
    RNN.h (updatedModel r2) = RNN.h (updatedModel r).
Proof.
  intros Hwf Hlen.
  destruct (trainStepRNN_returns model H encodedText 0 k 0 0 rand pos Hwf)
    as ([r1 p1] & Hr1 & fw1 & g1 & Hfw1 & _ & Hinv1 & Hg1 & Hupd1 & _ & _ & Hwf1).
  cbn [fst] in *.
  destruct (trainStepRNN_returns (updatedModel r1) H encodedText k k 0 0 rand p1 Hwf1)
    as ([r2 p2] & Hr2 & fw2 & g2 & Hfw2 & _ & _ & _ & Hupd2 & _).
  destruct (trainStepRNN_returns model H encodedText 0 (2 * k) 0 0 rand pos Hwf)
    as ([r p] & Hr & fw & g & Hfw & _ & _ & _ & Hupd & _).
  cbn [fst] in *.
  exists r1, p1, r2, p2, r, p. split_all; auto.
  rewrite Hupd2, Hupd. cbn [RNN.h rnn_updated].
  (* the single window is the first window followed by the second *)
  unfold rnn_forward in Hfw, Hfw1.
  fold (window_size encodedText 0 (2 * k)) in Hfw.
  fold (window_size encodedText 0 k) in Hfw1.
  rewrite window_size_both, forward_loop_app in Hfw by assumption.
  rewrite window_size_first in Hfw1 by assumption.
  rewrite Hfw1 in Hfw. cbn [mbind option_bind Nat.add] in Hfw.
  (* the second call starts from the state that the first one left *)
  rewrite Hupd1, (rnn_updated_frozen model H fw1 g1 Hwf Hg1) in Hfw2.
  unfold rnn_forward in Hfw2. fold (window_size encodedText k k) in Hfw2.
  rewrite window_size_second in Hfw2 by assumption.
  cbn [RNN.h] in Hfw2.
  assert (Hcarry : same_carry
            (mkForward [last_state (hiddenStates fw1)] [] [] 0 [] p1) fw1).
  { destruct Hinv1 as (_ & _ & _ & _ & Hcells). split; cbn; [reflexivity|].
    now rewrite Hcells. }
  pose proof (forward_loop_carry
                (rnn_forward_step model encodedText 0 rand) k k _ _
                (rnn_forward_step_carry model encodedText rand) Hcarry) as Hrel.
  change (rnn_forward_step
            (RNN.mk (RNN.vocab model) (RNN.tokenToIndex model) (RNN.Wxh model)
               (RNN.Whh model) (RNN.Why model) (last_state (hiddenStates fw1)))
            encodedText 0 rand)
    with (rnn_forward_step model encodedText 0 rand) in Hfw2.
  rewrite Hfw2, Hfw in Hrel. inversion Hrel as [? ? (Hh & _)|]; subst.
  exact Hh.
Qed.

Lemma gru_updated_frozen model H fw g :
  wf_gru model H -> gru_grads_shape (length (GRU.vocab model)) H g ->
  gru_updated model fw g 0 =
  GRU.mk (GRU.vocab model) (GRU.tokenToIndex model)
    (GRU.Wz model) (GRU.Uz model) (GRU.Wr model) (GRU.Ur model)
    (GRU.Wh model) (GRU.Uh model) (GRU.Why model)
    (last_state (hiddenStates fw)).
Proof.
  intros Hwf (G1 & G2 & G3 & G4 & G5 & G6 & G7 & G8 & G9 & G10 & G11 & _).
  wf_gru_destruct Hwf.
  destruct HWz as (HWz & Hbz), HUz as (HUz & _), HWr as (HWr & Hbr),
    HUr as (HUr & _), HWh as (HWh & Hbh), HUh as (HUh & _).
  unfold gru_updated. cbv zeta.
  rewrite (descend_frozen _ _ _ _ HWz G1), (descend_frozen _ _ _ _ Hbz G3),
    (descend_frozen _ _ _ _ HUz G2), (descend_frozen _ _ _ _ HWr G4),
    (descend_frozen _ _ _ _ Hbr G6), (descend_frozen _ _ _ _ HUr G5),
    (descend_frozen _ _ _ _ HWh G7), (descend_frozen _ _ _ _ Hbh G9),
    (descend_frozen _ _ _ _ HUh G8), (descend_frozen _ _ _ _ HWhy G10),
    (descend_frozen _ _ _ _ Hbhy G11), !layer_eta.
  reflexivity.
Qed.

Lemma gru_continuity model H encodedText k rand pos :
  wf_gru model H -> (2 * k + 1 <= length encodedText)%nat ->
  exists r1 p1 r2 p2 r p,
    trainStepGRU model encodedText 0 k 0 0 rand pos = Some (r1, p1) /\
    trainStepGRU (updatedModel r1) encodedText k k 0 0 rand p1 = Some (r2, p2) /\
    trainStepGRU model encodedText 0 (2 * k) 0 0 rand pos = Some (r, p) /\
    GRU.h (updatedModel r2) = GRU.h (updatedModel r).
Proof.
  intros Hwf Hlen.
  destruct (trainStepGRU_returns model H encodedText 0 k 0 0 rand pos Hwf)
    as ([r1 p1] & Hr1 & fw1 & g1 & Hfw1 & _ & Hinv1 & Hg1 & Hupd1 & _ & _ & Hwf1).
  cbn [fst] in *.
  destruct (trainStepGRU_returns (updatedModel r1) H encodedText k k 0 0 rand p1 Hwf1)
    as ([r2 p2] & Hr2 & fw2 & g2 & Hfw2 & _ & _ & _ & Hupd2 & _).
  destruct (trainStepGRU_returns model H encodedText 0 (2 * k) 0 0 rand pos Hwf)
    as ([r p] & Hr & fw & g & Hfw & _ & _ & _ & Hupd & _).
  cbn [fst] in *.
  exists r1, p1, r2, p2, r, p. split_all; auto.
  rewrite Hupd2, Hupd. cbn [GRU.h gru_updated].
  unfold gru_forward in Hfw, Hfw1.
  fold (window_size encodedText 0 (2 * k)) in Hfw.
  fold (window_size encodedText 0 k) in Hfw1.
  rewrite window_size_both, forward_loop_app in Hfw by assumption.
  rewrite window_size_first in Hfw1 by assumption.
  rewrite Hfw1 in Hfw. cbn [mbind option_bind Nat.add] in Hfw.
  rewrite Hupd1, (gru_updated_frozen model H fw1 g1 Hwf Hg1) in Hfw2.
  unfold gru_forward in Hfw2. fold (window_size encodedText k k) in Hfw2.
  rewrite window_size_second in Hfw2 by assumption.
  cbn [GRU.h] in Hfw2.
  assert (Hcarry : same_carry
            (mkForward [last_state (hiddenStates fw1)] [] [] 0 [] p1) fw1).
  { destruct Hinv1 as (_ & _ & _ & _ & Hcells). split; cbn; [reflexivity|].
    now rewrite Hcells. }
  pose proof (forward_loop_carry
                (gru_forward_step model encodedText 0 rand) k k _ _
                (gru_forward_step_carry model encodedText rand) Hcarry) as Hrel.
  change (gru_forward_step
            (GRU.mk (GRU.vocab model) (GRU.tokenToIndex model)
               (GRU.Wz model) (GRU.Uz model) (GRU.Wr model) (GRU.Ur model)
               (GRU.Wh model) (GRU.Uh model) (GRU.Why model)
               (last_state (hiddenStates fw1)))
            encodedText 0 rand)
    with (gru_forward_step model encodedText 0 rand) in Hfw2.
  rewrite Hfw2, Hfw in Hrel. inversion Hrel as [? ? (Hh & _)|]; subst.
  exact Hh.
Qed.

Lemma lstm_updated_frozen model H fw g :
  wf_lstm model H -> lstm_grads_shape (length (LSTM.vocab model)) H g ->
  lstm_updated model fw g 0 =
  LSTM.mk (LSTM.vocab model) (LSTM.tokenToIndex model)
    (LSTM.Wf model) (LSTM.Uf model) (LSTM.Wi model) (LSTM.Ui model)
    (LSTM.Wo model) (LSTM.Uo model) (LSTM.Wc model) (LSTM.Uc model)
    (LSTM.Why model)
    (last_state (hiddenStates fw)) (last_state (cellStates fw)).
Proof.
  intros Hwf (G1 & G2 & G3 & G4 & G5 & G6 & G7 & G8 & G9 & G10 & G11 & G12
                & G13 & G14 & _).
  wf_lstm_destruct Hwf.
  destruct HWf as (HWf & Hbf), HUf as (HUf & _), HWi as (HWi & Hbi),
    HUi as (HUi & _), HWo as (HWo & Hbo), HUo as (HUo & _),
    HWc as (HWc & Hbc), HUc as (HUc & _).
  unfold lstm_updated, applyGrads. cbv zeta. cbn [fst snd].
  rewrite (descend_frozen _ _ _ _ HWf G1), (descend_frozen _ _ _ _ Hbf G3),
    (descend_frozen _ _ _ _ HUf G2), (descend_frozen _ _ _ _ HWi G4),
    (descend_frozen _ _ _ _ Hbi G6), (descend_frozen _ _ _ _ HUi G5),
    (descend_frozen _ _ _ _ HWo G7), (descend_frozen _ _ _ _ Hbo G9),
    (descend_frozen _ _ _ _ HUo G8), (descend_frozen _ _ _ _ HWc G10),
    (descend_frozen _ _ _ _ Hbc G12), (descend_frozen _ _ _ _ HUc G11),
    (descend_frozen _ _ _ _ HWhy G13), (descend_frozen _ _ _ _ Hbhy G14),
    !layer_eta.
  reflexivity.
Qed.

Lemma lstm_continuity model H encodedText k rand pos :
  wf_lstm model H -> (2 * k + 1 <= length encodedText)%nat ->
  exists r1 p1 r2 p2 r p,
    trainStepLSTM model encodedText 0 k 0 0 rand pos = Some (r1, p1) /\
    trainStepLSTM (updatedModel r1) encodedText k k 0 0 rand p1 = Some (r2, p2) /\
    trainStepLSTM model encodedText 0 (2 * k) 0 0 rand pos = Some (r, p) /\
    LSTM.h (updatedModel r2) = LSTM.h (updatedModel r) /\
    LSTM.c (updatedModel r2) = LSTM.c (updatedModel r).
Proof.
  intros Hwf Hlen.
  destruct (trainStepLSTM_returns model H encodedText 0 k 0 0 rand pos Hwf)
    as ([r1 p1] & Hr1 & fw1 & g1 & Hfw1 & _ & Hinv1 & Hg1 & Hupd1 & _ & _ & Hwf1).
  cbn [fst] in *.
  destruct (trainStepLSTM_returns (updatedModel r1) H encodedText k k 0 0 rand p1 Hwf1)
    as ([r2 p2] & Hr2 & fw2 & g2 & Hfw2 & _ & _ & _ & Hupd2 & _).
  destruct (trainStepLSTM_returns model H encodedText 0 (2 * k) 0 0 rand pos Hwf)
    as ([r p] & Hr & fw & g & Hfw & _ & _ & _ & Hupd & _).
  cbn [fst] in *.
  exists r1, p1, r2, p2, r, p. split; [assumption|]. split; [assumption|].
  split; [assumption|].
  rewrite Hupd2, Hupd. cbn [LSTM.h LSTM.c lstm_updated].
  unfold lstm_forward in Hfw, Hfw1.
  fold (window_size encodedText 0 (2 * k)) in Hfw.
  fold (window_size encodedText 0 k) in Hfw1.
  rewrite window_size_both, forward_loop_app in Hfw by assumption.
  rewrite window_size_first in Hfw1 by assumption.
  rewrite Hfw1 in Hfw. cbn [mbind option_bind Nat.add] in Hfw.
  rewrite Hupd1, (lstm_updated_frozen model H fw1 g1 Hwf Hg1) in Hfw2.
  unfold lstm_forward in Hfw2. fold (window_size encodedText k k) in Hfw2.
  rewrite window_size_second in Hfw2 by assumption.
  cbn [LSTM.h LSTM.c] in Hfw2.
  assert (Hcarry : same_carry
            (mkForward [last_state (hiddenStates fw1)]
               [last_state (cellStates fw1)] [] 0 [] p1) fw1).
  { split; reflexivity. }
  pose proof (forward_loop_carry
                (lstm_forward_step model encodedText 0 rand) k k _ _
                (lstm_forward_step_carry model encodedText rand) Hcarry) as Hrel.
  change (lstm_forward_step
            (LSTM.mk (LSTM.vocab model) (LSTM.tokenToIndex model)
               (LSTM.Wf model) (LSTM.Uf model) (LSTM.Wi model) (LSTM.Ui model)
               (LSTM.Wo model) (LSTM.Uo model) (LSTM.Wc model) (LSTM.Uc model)
               (LSTM.Why model)
               (last_state (hiddenStates fw1)) (last_state (cellStates fw1)))
            encodedText 0 rand)
    with (lstm_forward_step model encodedText 0 rand) in Hfw2.
  rewrite Hfw2, Hfw in Hrel. inversion Hrel as [? ? (Hh & Hc)|]; subst.
  split; assumption.
Qed.

(** C4: with [dropoutRate = 0] and [learningRate = 0], on a corpus of
    length at least 2k+1, each recurrent training step called with window
    k at cursor 0 and then with window k at cursor k on the model it
    returned ends with the same persisted state ([h], and [c] for the
    LSTM) as one call with window 2k at cursor 0.  All three calls
    return. *)
Theorem recurrent_state_continuity
    (encodedText : list nat) (k : nat) (rand : nat -> R) (pos : nat)
    (rnn : RNN.RNNModel) (gru : GRU.GRULanguageModel)
    (lstm : LSTM.LSTMLanguageModel) (Hr Hg Hl : nat)
    (Hrnn : wf_rnn rnn Hr) (Hgru : wf_gru gru Hg) (Hlstm : wf_lstm lstm Hl)
    (Hlen : (2 * k + 1 <= length encodedText)%nat) :
  (exists r1 p1 r2 p2 r p,
     trainStepRNN rnn encodedText 0 k 0 0 rand pos = Some (r1, p1) /\
     trainStepRNN (updatedModel r1) encodedText k k 0 0 rand p1 = Some (r2, p2) /\
     trainStepRNN rnn encodedText 0 (2 * k) 0 0 rand pos = Some (r, p) /\
     RNN.h (updatedModel r2) = RNN.h (updatedModel r)) /\
  (exists r1 p1 r2 p2 r p,
     trainStepGRU gru encodedText 0 k 0 0 rand pos = Some (r1, p1) /\
     trainStepGRU (updatedModel r1) encodedText k k 0 0 rand p1 = Some (r2, p2) /\
     trainStepGRU gru encodedText 0 (2 * k) 0 0 rand pos = Some (r, p) /\
     GRU.h (updatedModel r2) = GRU.h (updatedModel r)) /\
  (exists r1 p1 r2 p2 r p,
     trainStepLSTM lstm encodedText 0 k 0 0 rand pos = Some (r1, p1) /\
     trainStepLSTM (updatedModel r1) encodedText k k 0 0 rand p1 = Some (r2, p2) /\
     trainStepLSTM lstm encodedText 0 (2 * k) 0 0 rand pos = Some (r, p) /\
     LSTM.h (updatedModel r2) = LSTM.h (updatedModel r) /\
     LSTM.c (updatedModel r2) = LSTM.c (updatedModel r)).
Proof.
  split; [|split].
  - now apply (rnn_continuity rnn Hr).
  - now apply (gru_continuity gru Hg).
  - now apply (lstm_continuity lstm Hl).
Qed.

Lemma recurrent_state_continuity_witness :
  wf_rnn rnn_abc 2 /\ wf_gru gru_abc 2 /\ wf_lstm lstm_abc 2 /\
  (2 * 2 + 1 <= length abc_text)%nat /\
  exists r1 p1 r2 p2 r p,
    trainStepLSTM lstm_abc abc_text 0 2 0 0 no_rand 0 = Some (r1, p1) /\
    trainStepLSTM (updatedModel r1) abc_text 2 2 0 0 no_rand p1 = Some (r2, p2) /\
    trainStepLSTM lstm_abc abc_text 0 (2 * 2) 0 0 no_rand 0 = Some (r, p) /\
    LSTM.h (updatedModel r2) = LSTM.h (updatedModel r) /\
    LSTM.c (updatedModel r2) = LSTM.c (updatedModel r).
Proof.
  split; [apply wf_rnn_abc|]. split; [apply wf_gru_abc|].
  split; [apply wf_lstm_abc|]. split; [cbn; lia|].
  apply (recurrent_state_continuity abc_text 2 no_rand 0
           rnn_abc gru_abc lstm_abc 2 2 2 wf_rnn_abc wf_gru_abc wf_lstm_abc).
  cbn. lia.
Defined.

(* ===================================================================== *)
(** ** C2: the gradient that the GRU passes back *)
(* ===================================================================== *)

(** Entry j of [X * transpose(U)] for a row [X] whose entries are [v]. *)
Lemma dot_transposed_row X U d n m v j :
  shape X 1 n -> shape U m n ->
  (forall k, (k < n)%nat -> mget X 0 k = v k) ->
  (forall i j, (i < 1)%nat -> (j < m)%nat ->
     mget d i j = dot_cell X (transpose U) i j) ->
  (j < m)%nat ->
  mget d 0 j = times_transposed n v U j.
Proof.
  intros HX HU Hv Hd Hj. rewrite Hd by lia. rewrite dot_cell_vsum.
  rewrite (shape_cols _ _ _ HX). unfold times_transposed. apply vsum_ext.
  intros k Hk. rewrite Hv by assumption.
  now rewrite (mget_transpose U m n k j) by assumption.
Qed.

Lemma returns_mask_grad_values dh mask H :
  shape dh 1 H -> mask_shape mask H ->
  returns (mask_grad dh mask) (fun d =>
    shape d 1 H /\
    forall j, (j < H)%nat -> mget d 0 j = mget dh 0 j * mask_at mask j).
Proof.
  intros Hd Hm. destruct mask as [mk|]; cbn [mask_grad mask_at mask_shape] in *.
  - eapply returns_mono; [apply (returns_multiply _ _ 1 H); assumption|].
    intros d (Hs & Hv). split; [assumption|]. intros j Hj. apply Hv; lia.
  - apply returns_Some. split; [assumption|]. intros. lra.
Qed.


Lemma gru_backward_step_dh_next model H encodedText step hiddenStates t e g :
  wf_gru model H ->
  (exists h, hiddenStates !! S t = Some h /\ shape h 1 H) ->
  gru_cache_shape (length (GRU.vocab model)) H e ->
  gru_grads_shape (length (GRU.vocab model)) H g ->
  returns (gru_backward_step model encodedText step hiddenStates t e g)
    (fun g' =>
       shape (gg_dh_next_grad g') 1 H /\
       forall j, (j < H)%nat ->
         mget (gg_dh_next_grad g') 0 j =
         gru_dh_next model (length (GRU.vocab model)) H e
           (encodedText !! (step + t + 1)%nat) (gg_dh_next_grad g) j).
Proof.
  intros Hwf (hs & Hhs & Hhss)
    (Hx & Hhp & Hz & Hr & Hhh & Hht & Hmask & Hprob & Hhd)
    (G1 & G2 & G3 & G4 & G5 & G6 & G7 & G8 & G9 & G10 & G11 & G12).
  wf_gru_destruct Hwf.
  destruct HWz as (HWz & Hbz), HUz as (HUz & _), HWr as (HWr & Hbr),
    HUr as (HUr & _), HWh as (HWh & Hbh), HUh as (HUh & _).
  set (V := length (GRU.vocab model)) in *.
  unfold gru_backward_step.
  rewrite (shape_rows _ _ _ HWhy), Hhs. cbn [mbind option_bind].
  set (dy := softmax_grad (gc_prob e) (encodedText !! (step + t + 1)%nat)).
  assert (Hdy : shape dy 1 V) by (subst dy; auto with shape).
  ret_op.
  ret_as returns_dot dhy Sdhy Vdhy.
  ret_as returns_mask_grad_values dh Sdh Vdh.
  ret_as returns_subtract omz Somz Vomz.
  ret_as returns_multiply from_h Sfrom_h Vfrom_h.
  ret_as returns_subtract diff Sdiff Vdiff.
  ret_as returns_multiply dz Sdz Vdz.
  ret_as returns_multiply dh_hat Sdh_hat Vdh_hat.
  ret_as returns_multiply dh_hat_raw Sdh_hat_raw Vdh_hat_raw.
  ret_op. ret_op. ret_op.
  ret_as returns_dot dr_h_prev Sdr_h_prev Vdr_h_prev.
  ret_as returns_multiply dr Sdr Vdr.
  ret_as returns_multiply dr_raw Sdr_raw Vdr_raw.
  ret_op. ret_op.
  ret_as returns_multiply dz_raw Sdz_raw Vdz_raw.
  ret_op. ret_op.
  ret_as returns_multiply from_r Sfrom_r Vfrom_r.
  ret_as returns_dot from_z Sfrom_z Vfrom_z.
  ret_as returns_dot from_r_gate Sfrom_r_gate Vfrom_r_gate.
  apply returns_Some. cbn [gg_dh_next_grad].
  split; [auto with shape|]. intros j Hj.
  (* the cells of the intermediate gradients *)
  assert (Edh : forall k, (k < H)%nat ->
            mget dh 0 k = gru_dh model V e (encodedText !! (step + t + 1)%nat)
                            (gg_dh_next_grad g) k).
  { intros k Hk. rewrite Vdh by assumption. unfold gru_dh. f_equal.
    rewrite (mget_add _ _ 1 H) by (auto; lia). f_equal.
    apply (dot_transposed_row dy _ _ V H); auto. }
  assert (Ehat : forall k, (k < H)%nat ->
            mget dh_hat_raw 0 k =
            gru_dh_hat_raw model V e (encodedText !! (step + t + 1)%nat)
              (gg_dh_next_grad g) k).
  { intros k Hk. rewrite Vdh_hat_raw, Vdh_hat, Edh by lia.
    now rewrite (mget_map_matrix _ _ 1 H) by (auto; lia). }
  assert (Eback : forall k, (k < H)%nat ->
            mget dr_h_prev 0 k =
            gru_candidate_back model V H e (encodedText !! (step + t + 1)%nat)
              (gg_dh_next_grad g) k).
  { intros k Hk. apply (dot_transposed_row dh_hat_raw _ _ H H); auto. }
  assert (Edz : forall k, (k < H)%nat ->
            mget dz_raw 0 k =
            gru_dz_raw model V e (encodedText !! (step + t + 1)%nat)
              (gg_dh_next_grad g) k).
  { intros k Hk. rewrite Vdz_raw, Vdz, Vdiff, Edh by lia.
    now rewrite (mget_map_matrix _ _ 1 H) by (auto; lia). }
  assert (Edr : forall k, (k < H)%nat ->
            mget dr_raw 0 k =
            gru_dr_raw model V H e (encodedText !! (step + t + 1)%nat)
              (gg_dh_next_grad g) k).
  { intros k Hk. rewrite Vdr_raw, Vdr, Eback by lia.
    now rewrite (mget_map_matrix _ _ 1 H) by (auto; lia). }
  (* the four contributions *)
  rewrite !(mget_add _ _ 1 H) by (auto with shape; lia).
  unfold gru_dh_next, gru_direct_path, gru_candidate_path, gru_update_path,
    gru_reset_path.
  rewrite Vfrom_h, Vomz, Edh, Vfrom_r, Eback by lia.
  unfold ones. rewrite (mget_createMatrix 1 H 1 0 j) by lia.
  f_equal; [f_equal|].
  - apply (dot_transposed_row dz_raw _ _ H H); auto.
  - apply (dot_transposed_row dr_raw _ _ H H); auto.
Qed.

(** C2: at every step t of the window of [trainStepGRU], for whatever
    gradients [g] the later steps have left, the backward step returns and
    the gradient it passes to the earlier step is, entry by entry, the sum
    of four contributions: [dh * (1 - z_t)], [(dh_hat_raw * Uh^T) * r_t],
    [dz_raw * Uz^T] and [dr_raw * Ur^T]. *)
Theorem gru_dh_next_is_sum_of_four
    (model : GRU.GRULanguageModel) (H : nat) (encodedText : list nat)
    (step sequenceLength : nat) (dropoutRate : R) (rand : nat -> R) (pos : nat)
    (fw : Forward GRUCache) (t : nat) (e : GRUCache) (g : GRUGrads)
    (Hwf : wf_gru model H)
    (Hfw : gru_forward model encodedText step sequenceLength dropoutRate
             rand pos = Some fw)
    (He : cache fw !! t = Some e)
    (Hg : gru_grads_shape (length (GRU.vocab model)) H g) :
  let V := length (GRU.vocab model) in
  let target := encodedText !! (step + t + 1)%nat in
  let dh_in := gg_dh_next_grad g in
  returns (gru_backward_step model encodedText step (hiddenStates fw) t e g)
    (fun g' =>
       shape (gg_dh_next_grad g') 1 H /\
       forall j, (j < H)%nat ->
         mget (gg_dh_next_grad g') 0 j =
           gru_direct_path model V e target dh_in j
           + gru_candidate_path model V H e target dh_in j
           + gru_update_path model V H e target dh_in j
           + gru_reset_path model V H e target dh_in j).
Proof.
  intros V target dh_in.
  pose proof (returns_inv _ _ _
                (gru_forward_returns model H encodedText step sequenceLength
                   dropoutRate rand pos Hwf) Hfw) as Hinv.
  assert (Ht : (t < length (cache fw))%nat) by (eapply lookup_lt_Some; eassumption).
  destruct (forward_inv_lookup _ _ _ _ _ _ _ _ _ t Hinv Ht)
    as (e' & h & He' & Hh & Hs & _).
  apply (gru_backward_step_dh_next model H); eauto.
  pose proof (forward_inv_cache _ _ _ _ _ _ _ _ _ Hinv) as Hc.
  eapply Forall_lookup_1; eassumption.
Qed.

Lemma gru_dh_next_is_sum_of_four_witness :
  wf_gru gru_abc 2 /\
  exists fw e g',
    gru_forward gru_abc abc_text 0 3 0 no_rand 0 = Some fw /\
    cache fw !! 2%nat = Some e /\
    gru_backward_step gru_abc abc_text 0 (hiddenStates fw) 2 e
      (mkGRUGrads (createMatrix 3 2 0) (createMatrix 2 2 0) (createMatrix 1 2 0)
         (createMatrix 3 2 0) (createMatrix 2 2 0) (createMatrix 1 2 0)
         (createMatrix 3 2 0) (createMatrix 2 2 0) (createMatrix 1 2 0)
         (createMatrix 2 3 0) (createMatrix 1 3 0) (createMatrix 1 2 0))
      = Some g' /\
    shape (gg_dh_next_grad g') 1 2.
Proof.
  split; [apply wf_gru_abc|].
  destruct (gru_forward_returns gru_abc 2 abc_text 0 3 0 no_rand 0 wf_gru_abc)
    as (fw & Hfw & Hinv).
  assert (Hlen : length (cache fw) = 3%nat) by apply Hinv.
  destruct (lookup_lt_is_Some_2 (cache fw) 2 ltac:(lia)) as [e He].
  assert (Hg : gru_grads_shape (length (GRU.vocab gru_abc)) 2
                 (mkGRUGrads (createMatrix 3 2 0) (createMatrix 2 2 0)
                    (createMatrix 1 2 0) (createMatrix 3 2 0) (createMatrix 2 2 0)
                    (createMatrix 1 2 0) (createMatrix 3 2 0) (createMatrix 2 2 0)
                    (createMatrix 1 2 0) (createMatrix 2 3 0) (createMatrix 1 3 0)
                    (createMatrix 1 2 0))).
  { unfold gru_grads_shape; cbn. split_all; apply shape_createMatrix. }
  destruct (gru_dh_next_is_sum_of_four gru_abc 2 abc_text 0 3 0 no_rand 0
              fw 2 e _ wf_gru_abc Hfw He Hg) as (g' & Hg' & Hs & _).
  exists fw, e, g'. auto.
Defined.

(* ===================================================================== *)
(** ** C1: the gradients that the LSTM passes back *)
(* ===================================================================== *)

Lemma lstm_backward_step_passes model H encodedText step hiddenStates t e g :
  wf_lstm model H ->
  (exists h, hiddenStates !! S t = Some h /\ shape h 1 H) ->
  lstm_cache_shape (length (LSTM.vocab model)) H e ->
  lstm_grads_shape (length (LSTM.vocab model)) H g ->
  returns (lstm_backward_step model encodedText step hiddenStates t e g)
    (fun g' =>
       let V := length (LSTM.vocab model) in
       let target := encodedText !! (step + t + 1)%nat in
       let dh_in := lg_dh_next_grad g in
       let dc_in := lg_dc_next_grad g in
       forall j, (j < H)%nat ->
         mget (lg_dc_next_grad g') 0 j = lstm_dc_next model V e target dh_in dc_in j /\
         mget (lg_dh_next_grad g') 0 j =
           lstm_dh_next_computed model V H e target dh_in dc_in j).
Proof.
  intros Hwf (hs & Hhs & Hhss)
    (Hx & Hhp & Hcp & Hf & Hi & Ho & Hch & Hct & Hht & Hmask & Hprob)
    (G1 & G2 & G3 & G4 & G5 & G6 & G7 & G8 & G9 & G10 & G11 & G12 & G13 & G14
       & G15 & G16).
  wf_lstm_destruct Hwf.
  destruct HWf as (HWf & Hbf), HUf as (HUf & _), HWi as (HWi & Hbi),
    HUi as (HUi & _), HWo as (HWo & Hbo), HUo as (HUo & _),
    HWc as (HWc & Hbc), HUc as (HUc & _).
  set (V := length (LSTM.vocab model)) in *.
  unfold lstm_backward_step.
  rewrite Hhs. cbn [mbind option_bind].
  set (target := encodedText !! (step + t + 1)%nat).
  set (dy := softmax_grad (lc_prob e) target).
  assert (Hdy : shape dy 1 V) by (subst dy; auto with shape).
  ret_op.
  ret_as returns_dot dhy Sdhy Vdhy.
  ret_as returns_mask_grad_values dh Sdh Vdh.
  ret_as returns_multiply do_raw Sdo_raw Vdo_raw.
  ret_as returns_multiply do_t Sdo_t Vdo_t.
  ret_op. ret_op.
  ret_as returns_multiply odt Sodt Vodt.
  ret_as returns_multiply dh_odt Sdh_odt Vdh_odt.
  ret_as returns_multiply dc_hat_t Sdc_hat_t Vdc_hat_t.
  ret_as returns_multiply dc_hat_raw Sdc_hat_raw Vdc_hat_raw.
  ret_op. ret_op.
  ret_as returns_multiply di_t Sdi_t Vdi_t.
  ret_as returns_multiply di_raw Sdi_raw Vdi_raw.
  ret_op. ret_op.
  ret_as returns_multiply df_t Sdf_t Vdf_t.
  ret_as returns_multiply df_raw Sdf_raw Vdf_raw.
  ret_op. ret_op.
  ret_as returns_multiply dc_next Sdc_next Vdc_next.
  ret_as returns_dot pf Spf Vpf.
  ret_as returns_dot pi Spi Vpi.
  ret_as returns_dot po Spo Vpo.
  ret_as returns_dot pc Spc Vpc.
  apply returns_Some. cbn [lg_dh_next_grad lg_dc_next_grad].
  intros j Hj.
  assert (Edh : forall k, (k < H)%nat ->
            mget dh 0 k = lstm_dh model V e target (lg_dh_next_grad g) k).
  { intros k Hk. rewrite Vdh by assumption. unfold lstm_dh. f_equal.
    rewrite (mget_add _ _ 1 H) by (auto; lia). f_equal.
    apply (dot_transposed_row dy _ _ V H); auto. }
  assert (Edo : forall k, (k < H)%nat ->
            mget do_raw 0 k =
            lstm_do_activation model V e target (lg_dh_next_grad g) k).
  { intros k Hk. rewrite Vdo_raw, Edh by lia.
    now rewrite (mget_map_matrix _ _ 1 H) by (auto; lia). }
  assert (Edc : forall k, (k < H)%nat ->
            mget (add (lg_dc_next_grad g) dh_odt) 0 k =
            lstm_dc model V e target (lg_dh_next_grad g) (lg_dc_next_grad g) k).
  { intros k Hk. rewrite (mget_add _ _ 1 H) by (auto; lia).
    rewrite Vdh_odt, Vodt, Edh by lia.
    rewrite (mget_map_matrix _ _ 1 H) by (auto with shape; lia).
    now rewrite (mget_map_matrix _ _ 1 H) by (auto; lia). }
  assert (Ehat : forall k, (k < H)%nat ->
            mget dc_hat_raw 0 k =
            lstm_dc_hat_pre model V e target (lg_dh_next_grad g)
              (lg_dc_next_grad g) k).
  { intros k Hk. rewrite Vdc_hat_raw, Vdc_hat_t, Edc by lia.
    now rewrite (mget_map_matrix _ _ 1 H) by (auto; lia). }
  assert (Edi : forall k, (k < H)%nat ->
            mget di_raw 0 k =
            lstm_di_pre model V e target (lg_dh_next_grad g)
              (lg_dc_next_grad g) k).
  { intros k Hk. rewrite Vdi_raw, Vdi_t, Edc by lia.
    now rewrite (mget_map_matrix _ _ 1 H) by (auto; lia). }
  assert (Edf : forall k, (k < H)%nat ->
            mget df_raw 0 k =
            lstm_df_pre model V e target (lg_dh_next_grad g)
              (lg_dc_next_grad g) k).
  { intros k Hk. rewrite Vdf_raw, Vdf_t, Edc by lia.
    now rewrite (mget_map_matrix _ _ 1 H) by (auto; lia). }
  split.
  - rewrite Vdc_next, Edc by lia. reflexivity.
  - rewrite !(mget_add _ _ 1 H) by (auto with shape; lia).
    unfold lstm_dh_next_computed. f_equal; [f_equal; [f_equal|]|].
    + apply (dot_transposed_row df_raw _ _ H H); auto.
    + apply (dot_transposed_row di_raw _ _ H H); auto.
    + apply (dot_transposed_row do_raw _ _ H H); auto.
    + apply (dot_transposed_row dc_hat_raw _ _ H H); auto.
Qed.

(** *** A window on which the output gate's path is wrong *)

Lemma tanh_pos x : 0 < x -> 0 < tanh x.
Proof.
  intros Hx. unfold tanh, sinh, cosh.
  pose proof (exp_pos x). pose proof (exp_pos (- x)).
  assert (exp (- x) < exp x) by (apply exp_increasing; lra).
  apply Rdiv_lt_0_compat; lra.
Qed.

Lemma sigmoid_0 : sigmoid 0 = 1 / 2.
Proof. unfold sigmoid. rewrite Ropp_0, exp_0. lra. Qed.

Lemma dsigmoid_not_1 y : dsigmoid y <> 1.
Proof. unfold dsigmoid. nra. Qed.


Lemma lstm_bug_cell (a b : R) :
  lstm_cell lstm_bug_model (one_hot 2 (Some 0%nat)) (row1 a) (row1 b) =
  Some (row1 (1 / 2), row1 (1 / 2), row1 (sigmoid a), row1 0, row1 (b / 2),
        row1 (sigmoid a * tanh (b / 2))).
Proof.
  unfold lstm_cell, gate_raw, lstm_bug_model, row1.
  cbn [LSTM.Wf LSTM.Uf LSTM.Wi LSTM.Ui LSTM.Wo LSTM.Uo LSTM.Wc LSTM.Uc weights biases].
  assert (E1 : dot (one_hot 2 (Some 0%nat)) (mkMatrix 2 1 [[0]; [0]])
               = Some (mkMatrix 1 1 [[0]])) by mat_eval.
  assert (E2 : dot (mkMatrix 1 1 [[a]]) (mkMatrix 1 1 [[0]])
               = Some (mkMatrix 1 1 [[0]])) by mat_eval.
  assert (E3 : dot (mkMatrix 1 1 [[a]]) (mkMatrix 1 1 [[1]])
               = Some (mkMatrix 1 1 [[a]])) by mat_eval.
  assert (E4 : add (add (mkMatrix 1 1 [[0]]) (mkMatrix 1 1 [[0]])) (mkMatrix 1 1 [[0]])
               = mkMatrix 1 1 [[0]]) by mat_eval.
  assert (E5 : add (add (mkMatrix 1 1 [[0]]) (mkMatrix 1 1 [[0]])) (mkMatrix 1 1 [[a]])
               = mkMatrix 1 1 [[a]]) by mat_eval.
  assert (E6 : map_matrix (mkMatrix 1 1 [[0]]) sigmoid = mkMatrix 1 1 [[1 / 2]]).
  { mat_eval. apply sigmoid_0. }
  assert (E7 : map_matrix (mkMatrix 1 1 [[0]]) tanh = mkMatrix 1 1 [[0]]).
  { mat_eval. apply tanh_0. }
  assert (E8 : map_matrix (mkMatrix 1 1 [[a]]) sigmoid = mkMatrix 1 1 [[sigmoid a]])
    by mat_eval.
  rewrite E1, E2. cbn [mbind option_bind]. rewrite E3. cbn [mbind option_bind].
  rewrite E4, E5, E6, E7, E8.
  assert (E9 : multiply (mkMatrix 1 1 [[1 / 2]]) (mkMatrix 1 1 [[b]])
               = Some (mkMatrix 1 1 [[b / 2]])) by mat_eval.
  assert (E10 : multiply (mkMatrix 1 1 [[1 / 2]]) (mkMatrix 1 1 [[0]])
               = Some (mkMatrix 1 1 [[0]])) by mat_eval.
  rewrite E9, E10. cbn [mbind option_bind].
  assert (E11 : add (mkMatrix 1 1 [[b / 2]]) (mkMatrix 1 1 [[0]])
               = mkMatrix 1 1 [[b / 2]]) by mat_eval.
  rewrite E11.
  assert (E12 : multiply (mkMatrix 1 1 [[sigmoid a]])
                  (map_matrix (mkMatrix 1 1 [[b / 2]]) tanh)
               = Some (mkMatrix 1 1 [[sigmoid a * tanh (b / 2)]])) by mat_eval.
  rewrite E12. reflexivity.
Qed.

Lemma lstm_bug_step rand t st a b :
  lstm_bug_text !! t = Some 0%nat ->
  last_state (hiddenStates st) = row1 a ->
  last_state (cellStates st) = row1 b ->
  lstm_forward_step lstm_bug_model lstm_bug_text 0 rand t st =
  Some (mkForward
          (hiddenStates st ++ [row1 (sigmoid a * tanh (b / 2))])
          (cellStates st ++ [row1 (b / 2)])
          (cache st ++ [bug_entry a b])
          (fw_totalLoss st
           + crossEntropy (bug_prob (sigmoid a * tanh (b / 2)))
               (lstm_bug_text !! S t))
          (fw_predictions st ++
             [prediction_at (LSTM.vocab lstm_bug_model) lstm_bug_text t
                (bug_prob (sigmoid a * tanh (b / 2)))])
          (fw_pos st)).
Proof.
  intros Ht Hh Hc. unfold lstm_forward_step. rewrite Ht, Hh, Hc.
  change (length (LSTM.vocab lstm_bug_model)) with 2%nat.
  rewrite lstm_bug_cell. cbn [mbind option_bind].
  rewrite apply_dropout_zero. cbn [mbind option_bind].
  change (weights (LSTM.Why lstm_bug_model)) with (mkMatrix 1 2 [[1; 0]]).
  change (biases (LSTM.Why lstm_bug_model)) with (mkMatrix 1 2 [[0; 0]]).
  set (h := sigmoid a * tanh (b / 2)).
  assert (E1 : dot (row1 h) (mkMatrix 1 2 [[1; 0]]) = Some (mkMatrix 1 2 [[h; 0]]))
    by (unfold row1; mat_eval).
  rewrite E1. cbn [mbind option_bind].
  assert (E2 : add (mkMatrix 1 2 [[h; 0]]) (mkMatrix 1 2 [[0; 0]])
               = mkMatrix 1 2 [[h; 0]]) by mat_eval.
  rewrite E2. reflexivity.
Qed.

Lemma lstm_bug_forward rand :
  exists fw,
    lstm_forward lstm_bug_model lstm_bug_text 0 2 0 rand 0 = Some fw /\
    cache fw !! 1%nat = Some (bug_entry bug_h1 (1 / 2)).
Proof.
  unfold lstm_forward.
  change (Z.to_nat (window_end lstm_bug_text 0 2 - Z.of_nat 0)) with 2%nat.
  cbn [forward_loop].
  rewrite (lstm_bug_step rand 0 _ 0 1) by reflexivity.
  cbn [mbind option_bind].
  rewrite (lstm_bug_step rand 1 _ bug_h1 (1 / 2)).
  - cbn [mbind option_bind]. eexists. split; [reflexivity|]. reflexivity.
  - reflexivity.
  - cbn [hiddenStates]. rewrite last_state_snoc. reflexivity.
  - cbn [cellStates]. rewrite last_state_snoc. reflexivity.
Qed.

Lemma wf_lstm_bug : wf_lstm lstm_bug_model 1.
Proof.
  unfold wf_lstm, layer_shape, shape; cbn. split_all; auto; repeat constructor.
Qed.

(** The first probability of a softmax over two logits is below 1. *)
Lemma softmax_first_of_two_lt_1 (x y : R) :
  mget (softmax (mkMatrix 1 2 [[x; y]])) 0 0 < 1.
Proof.
  rewrite (softmax_unfold _ [x; y] []); [|reflexivity|discriminate].
  unfold mget. cbn [data nth map]. set (mx := Rlist_max [x; y]).
  rewrite !Rsum_cons, Rsum_nil.
  pose proof (exp_pos (x - mx)). pose proof (exp_pos (y - mx)).
  apply (Rmult_lt_reg_r (exp (x - mx) + (exp (y - mx) + 0))); [lra|].
  unfold Rdiv. rewrite Rmult_assoc, Rinv_l by lra. lra.
Qed.

(** C1 fails on the code.  On [lstm_bug_model] with the corpus [0,0,0],
    cursor 0 and a window of 2, the backward step at the last time step
    (t = 1) passes to the earlier step a [dh_next] whose entry 0 is not the
    sum of the four pre-activation gradients times the transposed recurrent
    weights: the output gate contributes [do_raw = dh * tanh(c_t)], the
    gradient in its activation, where its pre-activation gradient is
    [do_t = do_raw * o_t * (1 - o_t)] (the one that the same step adds to
    the gradients of [Wo], [Uo] and [bo]). *)
Theorem lstm_dh_next_output_gate_path (rand : nat -> R) :
  exists fw e g',
    lstm_forward lstm_bug_model lstm_bug_text 0 2 0 rand 0 = Some fw /\
    cache fw !! 1%nat = Some e /\
    lstm_backward_step lstm_bug_model lstm_bug_text 0 (hiddenStates fw) 1 e
      (lstm_zero_grads 2 1) = Some g' /\
    mget (lg_dh_next_grad g') 0 0 <>
    lstm_dh_next_claimed lstm_bug_model 2 1 e (lstm_bug_text !! 2%nat)
      (createMatrix 1 1 0) (createMatrix 1 1 0) 0.
Proof.
  destruct (lstm_bug_forward rand) as (fw & Hfw & He).
  pose proof (returns_inv _ _ _
                (lstm_forward_returns lstm_bug_model 1 lstm_bug_text 0 2 0 rand 0
                   wf_lstm_bug) Hfw) as Hinv.
  assert (Ht : (1 < length (cache fw))%nat) by (eapply lookup_lt_Some; eassumption).
  destruct (forward_inv_lookup _ _ _ _ _ _ _ _ _ 1 Hinv Ht)
    as (e' & h & He' & Hh & Hs & _).
  pose proof (Forall_lookup_1 _ _ _ _ (forward_inv_cache _ _ _ _ _ _ _ _ _ Hinv) He)
    as Hcs.
  assert (Hg : lstm_grads_shape (length (LSTM.vocab lstm_bug_model)) 1
                 (lstm_zero_grads 2 1)).
  { unfold lstm_grads_shape, lstm_zero_grads; cbn. split_all; apply shape_createMatrix. }
  destruct (lstm_backward_step_passes lstm_bug_model 1 lstm_bug_text 0
              (hiddenStates fw) 1 _ _ wf_lstm_bug (ex_intro _ h (conj Hh Hs)) Hcs Hg)
    as (g' & Hg' & Hval).
  exists fw, (bug_entry bug_h1 (1 / 2)), g'. split_all; auto.
  destruct (Hval 0%nat ltac:(lia)) as (_ & Hdh). rewrite Hdh. clear Hval Hdh.
  change (length (LSTM.vocab lstm_bug_model)) with 2%nat.
  change (lg_dh_next_grad (lstm_zero_grads 2 1)) with (createMatrix 1 1 0).
  change (lg_dc_next_grad (lstm_zero_grads 2 1)) with (createMatrix 1 1 0).
  change (lstm_bug_text !! (0 + 1 + 1)%nat) with (lstm_bug_text !! 2%nat).
  set (target := lstm_bug_text !! 2%nat).
  set (e := bug_entry bug_h1 (1 / 2)).
  set (z := createMatrix 1 1 0).
  unfold lstm_dh_next_computed, lstm_dh_next_claimed, times_transposed, vsum.
  cbn [seq map]. rewrite !Rsum_cons, !Rsum_nil.
  replace (mget (weights (LSTM.Uo lstm_bug_model)) 0 0) with 1 by reflexivity.
  unfold lstm_do_pre.
  set (act := lstm_do_activation lstm_bug_model 2 e target z 0).
  assert (Hact : act <> 0).
  { unfold act, lstm_do_activation.
    replace (mget (lc_c_t e) 0 0) with (1 / 2 / 2) by reflexivity.
    pose proof (tanh_pos (1 / 2 / 2) ltac:(lra)) as Htanh.
    assert (Hdh : lstm_dh lstm_bug_model 2 e target z 0 < 0).
    { unfold lstm_dh, times_transposed, vsum. cbn [seq map mask_at lc_mask e bug_entry].
      rewrite !Rsum_cons, Rsum_nil.
      replace (mget (weights (LSTM.Why lstm_bug_model)) 0 0) with 1 by reflexivity.
      replace (mget (weights (LSTM.Why lstm_bug_model)) 0 1) with 0 by reflexivity.
      replace (mget z 0 0) with 0 by reflexivity.
      assert (Hdy : lstm_dy e target 0 < 0).
      { unfold lstm_dy, e, bug_entry, bug_prob. cbn [lc_prob].
        set (h2 := sigmoid bug_h1 * tanh (1 / 2 / 2)).
        pose proof (softmax_first_of_two_lt_1 h2 0) as Hlt.
        assert (Hu := softmax_unfold (mkMatrix 1 2 [[h2; 0]]) [h2; 0] []
                        eq_refl ltac:(discriminate)).
        rewrite Hu in *.
        unfold softmax_grad, update_row0, mget in *. cbn in *. lra. }
      lra. }
    nra. }
  pose proof (dsigmoid_not_1 (mget (lc_o_t e) 0 0)) as Hds.
  intros Heq.
  assert (Hz : act * (1 - dsigmoid (mget (lc_o_t e) 0 0)) = 0) by lra.
  apply Rmult_integral in Hz as [Hz|Hz]; [contradiction|lra].
Qed.

(* ===================================================================== *)
(** ** C9: a seed that is not a token *)
(* ===================================================================== *)

Lemma append_empty_r (s : string) : s +:+ "" = s.
Proof.
  induction s as [|c s IH]; [reflexivity|].
  change (String c s +:+ "") with (String c (s +:+ "")). now rewrite IH.
Qed.

(** A loop whose body breaks at once returns its state. *)
Lemma generate_loop_break body n i st :
  body i st = Some (Break st) -> generate_loop body (S n) i st = Some st.
Proof. intros Hb. cbn [generate_loop]. now rewrite Hb. Qed.

(** *** Reading [tokenToIndex] *)

Lemma read_index_own tokenToIndex key index :
  tokenToIndex !! key = Some index -> read_index tokenToIndex key = Own index.
Proof. intros Hk. unfold read_index. now rewrite Hk. Qed.

Lemma read_index_undefined tokenToIndex key :
  tokenToIndex !! key = None -> inherited key = false ->
  read_index tokenToIndex key = Undefined.
Proof. intros Hk Hi. unfold read_index. now rewrite Hk, Hi. Qed.

Lemma read_index_inherited tokenToIndex key :
  tokenToIndex !! key = None -> inherited key = true ->
  read_index tokenToIndex key = Inherited.
Proof. intros Hk Hi. unfold read_index. now rewrite Hk, Hi. Qed.

(** No name of [Object.prototype] is as short as one character, or the
    text "undefined". *)
Lemma inherited_long key :
  inherited key = true -> (7 <= String.length key)%nat /\ key <> undefined_text.
Proof.
  unfold inherited. rewrite existsb_exists. intros (name & Hin & Heq).
  apply String.eqb_eq in Heq. subst name. unfold Object_prototype_names in Hin.
  cbn [In] in Hin.
  repeat (destruct Hin as [<-|Hin]; [split; [cbn; lia|discriminate]|]).
  destruct Hin.
Qed.

Lemma length_substring_1 (n : nat) (s : string) :
  (String.length (String.substring n 1 s) <= 1)%nat.
Proof.
  revert s. induction n as [|n IH]; intros [|c s]; cbn [String.substring String.length];
    try lia.
  - destruct s; cbn; lia.
  - apply IH.
Qed.

(** The key that the FFNN generator reads is one character, or the text
    "undefined": it is no name of [Object.prototype]. *)
Lemma last_char_key_own (s : string) : inherited (last_char_key s) = false.
Proof.
  destruct (inherited (last_char_key s)) eqn:Hi; [|reflexivity].
  apply inherited_long in Hi. destruct Hi as (Hlen & Hne).
  unfold last_char_key in *. destruct (String.length s) as [|n]; [congruence|].
  pose proof (length_substring_1 n s). lia.
Qed.

Lemma generateFFNN_unknown model seed length temperature rand pos :
  FFNN.tokenToIndex model !! last_char_key seed = None ->
  generateFFNN model seed length temperature rand pos = Some (seed, pos).
Proof.
  intros Hnone. unfold generateFFNN. destruct length as [|n].
  - cbn. now rewrite append_empty_r.
  - rewrite generate_loop_break.
    + cbn. now rewrite append_empty_r.
    + unfold ffnn_generate_body. cbn [gen_input].
      now rewrite (read_index_undefined _ _ Hnone (last_char_key_own seed)).
Qed.

Lemma generateRNN_unknown model seed length temperature rand pos :
  read_index (RNN.tokenToIndex model) seed = Undefined ->
  generateRNN model seed length temperature rand pos = Some (seed, pos).
Proof.
  intros Hnone. unfold generateRNN. destruct length as [|n].
  - cbn. now rewrite append_empty_r.
  - rewrite generate_loop_break.
    + cbn. now rewrite append_empty_r.
    + unfold rnn_generate_body. cbn [gen_input]. now rewrite Hnone.
Qed.

Lemma generateGRU_unknown model seed length temperature rand pos :
  read_index (GRU.tokenToIndex model) seed = Undefined ->
  generateGRU model seed length temperature rand pos = Some (seed, pos).
Proof.
  intros Hnone. unfold generateGRU. destruct length as [|n].
  - cbn. now rewrite append_empty_r.
  - rewrite generate_loop_break.
    + cbn. now rewrite append_empty_r.
    + unfold gru_generate_body. cbn [gen_input]. now rewrite Hnone.
Qed.

Lemma generateLSTM_unknown model seed length temperature rand pos :
  read_index (LSTM.tokenToIndex model) seed = Undefined ->
  generateLSTM model seed length temperature rand pos = Some (seed, pos).
Proof.
  intros Hnone. unfold generateLSTM. destruct length as [|n].
  - cbn. now rewrite append_empty_r.
  - rewrite generate_loop_break.
    + cbn. now rewrite append_empty_r.
    + unfold lstm_generate_body. cbn [gen_input]. now rewrite Hnone.
Qed.

(** The body of the FFNN generator on a well-formed model and a known
    last character: it runs the forward step and draws once. *)
Lemma ffnn_generate_body_draws model H temperature rand i st idx :
  wf_ffnn model H ->
  FFNN.tokenToIndex model !! last_char_key (gen_input st) = Some idx ->
  returns (ffnn_generate_body model temperature rand i st) (fun fl =>
    match fl with
    | Break st' | Continue st' => gen_pos st' = S (gen_pos st)
    end).
Proof.
  intros ((HWh & Hbh) & (HWo & Hbo)) Hidx. unfold ffnn_generate_body.
  rewrite (read_index_own _ _ _ Hidx). repeat ret_op. unfold emit.
  destruct (decide _); reflexivity.
Qed.

(** The body of the RNN generator on a well-formed model and a seed that
    is no token but a name of [Object.prototype]: the lookup is not
    [undefined], so it runs the forward step, on a row of zeros, and draws
    once. *)
Lemma rnn_generate_body_inherited model H temperature rand i st :
  wf_rnn model H -> shape (gen_h st) 1 H ->
  read_index (RNN.tokenToIndex model) (gen_input st) = Inherited ->
  returns (rnn_generate_body model temperature rand i st) (fun fl =>
    match fl with
    | Break st' | Continue st' => gen_pos st' = S (gen_pos st)
    end).
Proof.
  intros Hwf Hsh Hidx. wf_rnn_destruct Hwf. unfold rnn_generate_body.
  rewrite Hidx. repeat ret_op. unfold emit.
  destruct (decide _); reflexivity.
Qed.

(** C9, as stated, fails.  The RNN generator with the seed "z", which is
    not a token, returns "z", not the empty string.  The FFNN generator
    with the seed "xa", which is not a token either, looks up the last
    character "a", runs a forward step and draws a random number.  The RNN
    generator with the seed "constructor", which is not a token, reads
    what the object inherits under that name, does not stop, and draws a
    random number. *)
Lemma unknown_seed_counterexample :
  (RNN.tokenToIndex rnn_abc !! "z"%string = None /\
   generateRNN rnn_abc "z" 5 1 no_rand 0 = Some ("z"%string, 0%nat) /\
   "z"%string <> ""%string) /\
  (FFNN.tokenToIndex ffnn_abc !! "xa"%string = None /\
   exists s, generateFFNN ffnn_abc "xa" 1 1 no_rand 0 = Some (s, 1%nat)) /\
  (RNN.tokenToIndex rnn_abc !! "constructor"%string = None /\
   exists s, generateRNN rnn_abc "constructor" 1 1 no_rand 0 = Some (s, 1%nat)).
Proof.
  split; [split; [reflexivity|split]|split; [split|split]].
  - now apply generateRNN_unknown.
  - discriminate.
  - reflexivity.
  - unfold generateFFNN. cbn [generate_loop].
    destruct (ffnn_generate_body_draws ffnn_abc 2 1 no_rand 0
                (mkGen no_state no_state "" "xa" 0) 0 wf_ffnn_abc eq_refl)
      as (fl & Hfl & Hpos).
    rewrite Hfl. cbn [mbind option_bind].
    destruct fl as [st'|st']; cbn [generate_loop mbind option_bind];
      rewrite Hpos; eexists; reflexivity.
  - reflexivity.
  - unfold generateRNN. cbn [generate_loop].
    pose proof wf_rnn_abc as (_ & _ & _ & Hh).
    destruct (rnn_generate_body_inherited rnn_abc 2 1 no_rand 0
                (mkGen (RNN.h rnn_abc) no_state "" "constructor" 0)
                wf_rnn_abc Hh eq_refl)
      as (fl & Hfl & Hpos).
    rewrite Hfl. cbn [mbind option_bind].
    destruct fl as [st'|st']; cbn [generate_loop mbind option_bind];
      rewrite Hpos; eexists; reflexivity.
Qed.

(** C9, amended: in each generator, when the value read from
    [tokenToIndex] at the first step is [undefined], the generator
    performs no forward step: on any model, whatever its weights, it
    raises no error, draws no random number and returns the seed itself,
    with nothing appended.  The key read is the seed itself for the RNN,
    GRU and LSTM generators, and the last character of the seed for the
    FFNN generator; the value is [undefined] when the key is not in
    [tokenToIndex] and, for the three recurrent generators, the seed is no
    name of a property that the object inherits from [Object.prototype]
    (the key of the FFNN generator never is one). *)
Theorem generators_unknown_seed
    (ffnn : FFNN.FFNNModel) (rnn : RNN.RNNModel)
    (gru : GRU.GRULanguageModel) (lstm : LSTM.LSTMLanguageModel)
    (seed : string) (length : nat) (temperature : R)
    (rand : nat -> R) (pos : nat)
    (Hffnn : FFNN.tokenToIndex ffnn !! last_char_key seed = None)
    (Hrnn : RNN.tokenToIndex rnn !! seed = None)
    (Hgru : GRU.tokenToIndex gru !! seed = None)
    (Hlstm : LSTM.tokenToIndex lstm !! seed = None)
    (Hseed : inherited seed = false) :
  generateFFNN ffnn seed length temperature rand pos = Some (seed, pos) /\
  generateRNN rnn seed length temperature rand pos = Some (seed, pos) /\
  generateGRU gru seed length temperature rand pos = Some (seed, pos) /\
  generateLSTM lstm seed length temperature rand pos = Some (seed, pos).
Proof.
  split_all.
  - now apply generateFFNN_unknown.
  - apply generateRNN_unknown. now apply read_index_undefined.
  - apply generateGRU_unknown. now apply read_index_undefined.
  - apply generateLSTM_unknown. now apply read_index_undefined.
Qed.

Lemma generators_unknown_seed_witness :
  FFNN.tokenToIndex ffnn_abc !! last_char_key "z" = None /\
  RNN.tokenToIndex rnn_abc !! "z"%string = None /\
  GRU.tokenToIndex gru_abc !! "z"%string = None /\
  LSTM.tokenToIndex lstm_abc !! "z"%string = None /\
  inherited "z" = false /\
  generateLSTM lstm_abc "z" 5 1 no_rand 0 = Some ("z"%string, 0%nat).
Proof.
  split; [reflexivity|]. split; [reflexivity|]. split; [reflexivity|].
  split; [reflexivity|]. split; [reflexivity|].
  apply (generators_unknown_seed ffnn_abc rnn_abc gru_abc lstm_abc "z" 5 1
           no_rand 0 eq_refl eq_refl eq_refl eq_refl eq_refl).
Defined.
(* ===================================================================== *)
(** * Further properties of the engine *)
(* ===================================================================== *)

(** ** Matrix utilities *)

Lemma transpose_transpose m r c : shape m r c -> transpose (transpose m) = m.
Proof.
  intros Hm. apply (shape_ext _ _ r c); auto with shape.
  intros i j Hi Hj.
  rewrite (mget_transpose (transpose m) c r) by auto with shape.
  now rewrite (mget_transpose m r c).
Qed.

(** X1: on matrices whose [data] agrees with their dimensions, [transpose]
    applied twice gives the matrix back, and the transpose of a product
    [dot a b] is the product of the transposes in the other order; neither
    product throws. *)
Theorem transpose_laws (a b : Matrix) (r k c : nat)
    (Ha : shape a r k) (Hb : shape b k c) :
  transpose (transpose a) = a /\
  (exists p, dot a b = Some p /\ dot (transpose b) (transpose a) = Some (transpose p)).
Proof.
  split; [now apply (transpose_transpose a r k)|].
  exists (build r c (dot_cell a b)).
  split; [now apply (dot_Some a b r k c)|].
  rewrite (dot_Some (transpose b) (transpose a) c k r) by auto with shape.
  f_equal. apply (shape_ext _ _ c r).
  - apply shape_build.
  - apply shape_transpose, shape_build.
  - intros i j Hi Hj.
    rewrite (mget_transpose _ r c) by auto using shape_build.
    rewrite !mget_build by assumption.
    rewrite !dot_cell_vsum.
    rewrite (shape_cols _ _ _ Ha), (shape_cols _ _ _ (shape_transpose _ _ _ Hb)).
    apply vsum_ext. intros x Hx.
    rewrite (mget_transpose b k c), (mget_transpose a r k) by assumption. lra.
Qed.

Lemma transpose_laws_witness :
  shape add_cex_a 2 2 /\
  transpose (transpose add_cex_a) = add_cex_a /\
  (exists p, dot add_cex_a add_cex_a = Some p /\
     dot (transpose add_cex_a) (transpose add_cex_a) = Some (transpose p)).
Proof.
  split; [apply shape_add_cex_a|].
  exact (transpose_laws add_cex_a add_cex_a 2 2 2 shape_add_cex_a shape_add_cex_a).
Defined.

Lemma mget_update_row0 m idx f n j :
  shape m 1 n -> (j < n)%nat ->
  mget (update_row0 m idx f) 0 j =
    if decide (idx = Some j) then f (mget m 0 j) else mget m 0 j.
Proof.
  intros Hm Hj. destruct (shape_one_row m n Hm) as (row & Hd & Hlen).
  unfold update_row0, mget. destruct idx as [k|]; rewrite Hd; cbn [data nth].
  - rewrite !nth_lookup. destruct (decide (Some k = Some j)) as [[= ->]|Hne].
    + rewrite list_lookup_alter_eq.
      destruct (lookup_lt_is_Some_2 row j ltac:(lia)) as [x ->]. reflexivity.
    + rewrite list_lookup_alter_ne by congruence. reflexivity.
  - destruct (decide _); [discriminate|reflexivity].
Qed.

Lemma mget_one_hot V idx j :
  (j < V)%nat ->
  mget (one_hot V idx) 0 j = if decide (idx = Some j) then 1 else 0.
Proof.
  intros Hj. unfold one_hot.
  rewrite (mget_update_row0 _ _ _ V) by auto with shape.
  rewrite mget_createMatrix by lia. reflexivity.
Qed.

Lemma vsum_S n f : vsum (S n) f = vsum n f + f n.
Proof.
  unfold vsum. rewrite seq_S, map_app, Rsum_app. cbn [map Nat.add].
  rewrite Rsum_cons, Rsum_nil. lra.
Qed.

Lemma vsum_0 n f : (forall k, (k < n)%nat -> f k = 0) -> vsum n f = 0.
Proof.
  induction n as [|n IH]; intros Hf.
  - reflexivity.
  - rewrite vsum_S. rewrite IH by (intros k Hk; apply Hf; lia).
    rewrite Hf by lia. lra.
Qed.

(** The sum of a function that vanishes away from [i]. *)
Lemma vsum_single n i f :
  (forall k, (k < n)%nat -> k <> i -> f k = 0) ->
  vsum n f = if decide (i < n)%nat then f i else 0.
Proof.
  induction n as [|n IH]; intros Hf.
  - rewrite decide_False by lia. reflexivity.
  - rewrite vsum_S. destruct (decide (i = n)) as [->|Hne].
    + rewrite vsum_0 by (intros; apply Hf; lia).
      rewrite decide_True by lia. lra.
    + rewrite IH by (intros; apply Hf; lia).
      rewrite (Hf n) by lia.
      destruct (decide (i < n)%nat).
      * rewrite decide_True by lia. lra.
      * rewrite decide_False by lia. lra.
Qed.

(** X2: the product of the one-hot row of a token id and a weight matrix
    of [V] rows is row [id] of the matrix; for an id that is missing
    ([undefined]) or not below [V] it is the zero row.  The product never
    throws. *)
Theorem one_hot_selects_row (W : Matrix) (V H : nat) (idx : option nat)
    (HW : shape W V H) :
  dot (one_hot V idx) W =
    Some (build 1 H (fun _ j =>
            match idx with
            | Some i => if decide (i < V)%nat then mget W i j else 0
            | None => 0
            end)).
Proof.
  rewrite (dot_Some _ _ 1 V H) by auto with shape. f_equal.
  apply (shape_ext _ _ 1 H); auto using shape_build.
  intros i j Hi Hj. rewrite !mget_build by assumption.
  replace i with 0%nat by lia.
  rewrite dot_cell_vsum, (shape_cols _ _ _ (shape_one_hot V idx)).
  destruct idx as [k|].
  - rewrite (vsum_single V k).
    + destruct (decide _); [|reflexivity].
      rewrite mget_one_hot by assumption. rewrite decide_True by reflexivity. lra.
    + intros x Hx Hne. rewrite mget_one_hot by assumption.
      rewrite decide_False by congruence. lra.
  - apply vsum_0. intros x Hx. rewrite mget_one_hot by assumption.
    rewrite decide_False by discriminate. lra.
Qed.

Lemma one_hot_selects_row_witness :
  shape add_cex_a 2 2 /\
  dot (one_hot 2 (Some 1%nat)) add_cex_a =
    Some (build 1 2 (fun _ j => if decide (1 < 2)%nat then mget add_cex_a 1 j else 0)).
Proof.
  split; [apply shape_add_cex_a|].
  exact (one_hot_selects_row add_cex_a 2 2 (Some 1%nat) shape_add_cex_a).
Defined.

(* ===================================================================== *)
(** ** Activations *)
(* ===================================================================== *)

Lemma Rdiv_between a b lo hi :
  0 < b -> lo * b < a -> a < hi * b -> lo < a / b < hi.
Proof.
  intros Hb Hlo Hhi. pose proof (Rinv_0_lt_compat b Hb) as Hi.
  unfold Rdiv. split.
  - replace lo with (lo * b * / b) by (field; lra).
    now apply Rmult_lt_compat_r.
  - replace hi with (hi * b * / b) by (field; lra).
    now apply Rmult_lt_compat_r.
Qed.

Lemma sigmoid_range x : 0 < sigmoid x < 1.
Proof.
  unfold sigmoid. pose proof (exp_pos (- x)) as He.
  apply Rdiv_between; lra.
Qed.

Lemma cosh_pos x : 0 < cosh x.
Proof. unfold cosh. pose proof (exp_pos x). pose proof (exp_pos (- x)). lra. Qed.

Lemma tanh_range x : -1 < tanh x < 1.
Proof.
  unfold tanh. pose proof (cosh_pos x) as Hc.
  pose proof (exp_pos x). pose proof (exp_pos (- x)).
  apply Rdiv_between; unfold sinh, cosh in *; lra.
Qed.

(** X3: over the real numbers, [dtanh] and [dsigmoid], applied to the
    output of the activation, are the derivatives of [tanh] and of
    [sigmoid] at every point; [tanh] takes its values between -1 and 1 and
    [sigmoid] between 0 and 1, the bounds included. *)
Theorem activation_derivatives (x : R) :
  derivable_pt_lim tanh x (dtanh (tanh x)) /\
  derivable_pt_lim sigmoid x (dsigmoid (sigmoid x)) /\
  -1 <= tanh x <= 1 /\
  0 <= sigmoid x <= 1.
Proof.
  pose proof (cosh_pos x) as Hc. pose proof (exp_pos (- x)) as He.
  pose proof (tanh_range x) as Ht. pose proof (sigmoid_range x) as Hs.
  split; [|split; [|split; lra]].
  - replace (dtanh (tanh x))
      with ((cosh x * cosh x - sinh x * sinh x) / (cosh x)²).
    + apply (derivable_pt_lim_div sinh cosh x (cosh x) (sinh x));
        [apply derivable_pt_lim_sinh | apply derivable_pt_lim_cosh | lra].
    + unfold dtanh, tanh, Rsqr. field. lra.
  - assert (Hd : derivable_pt_lim (fun y => 1 + exp (- y)) x (- exp (- x))).
    { replace (- exp (- x)) with (0 + exp (- x) * (-1)) by lra.
      apply (derivable_pt_lim_plus (fun _ => 1) (fun y => exp (- y))).
      - apply derivable_pt_lim_const.
      - apply (derivable_pt_lim_comp (- id)%F exp).
        + apply (derivable_pt_lim_opp id x 1), derivable_pt_lim_id.
        + apply derivable_pt_lim_exp. }
    replace (dsigmoid (sigmoid x))
      with ((0 * (1 + exp (- x)) - (- exp (- x)) * 1) / (1 + exp (- x))²).
    + apply (derivable_pt_lim_div (fun _ => 1) (fun y => 1 + exp (- y)) x 0
               (- exp (- x))); [apply derivable_pt_lim_const | exact Hd | lra].
    + unfold dsigmoid, sigmoid, Rsqr. field. lra.
Qed.
(* ===================================================================== *)
(** ** Predictions and losses *)
(* ===================================================================== *)

Lemma fold_left_Rmax_ge (l : list R) (a : R) :
  a <= fold_left Rmax l a /\ Forall (fun x => x <= fold_left Rmax l a) l.
Proof.
  revert a. induction l as [|x l IH]; intros a; cbn [fold_left].
  - split; [lra|constructor].
  - destruct (IH (Rmax a x)) as (Ha & Hl).
    pose proof (Rmax_l a x). pose proof (Rmax_r a x).
    split; [lra|]. constructor; [lra|assumption].
Qed.

Lemma fold_left_Rmax_in (l : list R) (a : R) :
  In (fold_left Rmax l a) (a :: l).
Proof.
  revert a. induction l as [|x l IH]; intros a; cbn [fold_left].
  - now left.
  - destruct (IH (Rmax a x)) as [Heq|Hin].
    + rewrite <- Heq. unfold Rmax. destruct (Rle_dec a x); [right; now left|now left].
    + right. now right.
Qed.

Lemma Rlist_max_ge (row : list R) :
  Forall (fun x => x <= Rlist_max row) row.
Proof.
  destruct row as [|x xs]; [constructor|]. cbn [Rlist_max].
  destruct (fold_left_Rmax_ge xs x). now constructor.
Qed.

Lemma Rlist_max_in (row : list R) : row <> [] -> In (Rlist_max row) row.
Proof.
  destruct row as [|x xs]; [congruence|]. intros _. apply fold_left_Rmax_in.
Qed.

(** [indexOf] finds the first position of a value that the row holds. *)
Lemma indexOf_in (v : R) (row : list R) :
  In v row ->
  exists j, indexOf v row = Some j /\ (j < length row)%nat /\ nth j row 0 = v /\
            forall k, (k < j)%nat -> nth k row 0 <> v.
Proof.
  induction row as [|x xs IH]; intros Hin; [destruct Hin|].
  cbn [indexOf]. destruct (Req_dec_T x v) as [->|Hne].
  - exists 0%nat. cbn. split_all; auto; lia.
  - destruct Hin as [Heq|Hin]; [congruence|].
    destruct (IH Hin) as (j & -> & Hj & Hnth & Hfirst).
    exists (S j). cbn. split_all; auto; [lia|].
    intros [|k] Hk; cbn; [assumption|]. apply Hfirst. lia.
Qed.

Lemma argmax_row0_in_range (prob : Matrix) (V : nat) :
  shape prob 1 V -> (0 < V)%nat ->
  exists j, argmax_row0 prob = Some j /\ (j < V)%nat.
Proof.
  intros Hs HV. destruct (shape_one_row prob V Hs) as (row & Hd & Hlen).
  destruct row as [|x xs]; [cbn in Hlen; lia|].
  unfold argmax_row0. rewrite Hd.
  destruct (indexOf_in (Rlist_max (x :: xs)) (x :: xs)) as (j & Hj & Hlt & _).
  { apply Rlist_max_in. discriminate. }
  exists j. split; [assumption|lia].
Qed.

(** X4: the predicted index
    [prob.data[0].indexOf(Math.max(...prob.data[0]))] of a row of [V]
    probabilities, [V] not 0, is an index below [V]; no entry of the row
    is larger than the entry there, and every entry before it is strictly
    smaller (of equal maxima the first is predicted). *)
Theorem argmax_is_first_maximum (prob : Matrix) (V : nat)
    (Hs : shape prob 1 V) (HV : (0 < V)%nat) :
  exists j, argmax_row0 prob = Some j /\ (j < V)%nat /\
    (forall k, (k < V)%nat -> mget prob 0 k <= mget prob 0 j) /\
    (forall k, (k < j)%nat -> mget prob 0 k < mget prob 0 j).
Proof.
  destruct (shape_one_row prob V Hs) as (row & Hd & Hlen).
  destruct row as [|x xs]; [cbn in Hlen; lia|].
  assert (Hget : forall k, mget prob 0 k = nth k (x :: xs) 0).
  { intros k. unfold mget. now rewrite Hd. }
  unfold argmax_row0. rewrite Hd.
  destruct (indexOf_in (Rlist_max (x :: xs)) (x :: xs))
    as (j & Hj & Hlt & Hnth & Hfirst).
  { apply Rlist_max_in. discriminate. }
  pose proof (Rlist_max_ge (x :: xs)) as Hge.
  rewrite List.Forall_forall in Hge.
  exists j. split_all; auto; [lia| |].
  - intros k Hk. rewrite !Hget, Hnth. apply Hge, nth_In. lia.
  - intros k Hk. rewrite !Hget, Hnth.
    assert (nth k (x :: xs) 0 <= Rlist_max (x :: xs)) by (apply Hge, nth_In; lia).
    specialize (Hfirst k Hk). lra.
Qed.

Lemma argmax_is_first_maximum_witness :
  shape thirds 1 3 /\ (0 < 3)%nat /\
  exists j, argmax_row0 thirds = Some j /\ (j < 3)%nat /\
    (forall k, (k < 3)%nat -> mget thirds 0 k <= mget thirds 0 j) /\
    (forall k, (k < j)%nat -> mget thirds 0 k < mget thirds 0 j).
Proof.
  assert (Hs : shape thirds 1 3).
  { unfold shape, thirds; cbn. repeat split; auto. }
  split; [exact Hs|]. split; [lia|].
  apply (argmax_is_first_maximum thirds 3 Hs). lia.
Defined.

Lemma mget_zero_row c j : mget (createMatrix 1 c 0) 0 j = 0.
Proof. unfold mget, createMatrix. cbn [data repeat nth]. apply nth_repeat. Qed.

(** Every entry that can be read from the first row of a [softmax] is
    between 0 and 1, whatever the argument. *)
Lemma softmax_entry_range (m : Matrix) (j : nat) :
  0 <= mget (softmax m) 0 j <= 1.
Proof.
  destruct (data m) as [|row rest] eqn:Hd.
  - unfold softmax. rewrite Hd, mget_zero_row. lra.
  - destruct row as [|x xs].
    + unfold softmax. rewrite Hd, mget_zero_row. lra.
    + rewrite (softmax_unfold m (x :: xs) rest) by (auto; discriminate).
      unfold mget. cbn [data nth].
      set (exps := map (fun y => exp (y - Rlist_max (x :: xs))) (x :: xs)).
      pose proof (softmax_denominator_pos (x :: xs) ltac:(discriminate)) as Hpos.
      fold exps in Hpos.
      destruct (Nat.lt_ge_cases j (length exps)) as [Hlt|Hge].
      * rewrite (nth_indep _ 0 (0 / Rsum exps)) by now rewrite length_map.
        rewrite (map_nth (fun e => e / Rsum exps)).
        pose proof (Rsum_bound exps j (exps_positive _ _) Hlt) as Hb.
        assert (0 < nth j exps 0).
        { pose proof (exps_positive (x :: xs) (Rlist_max (x :: xs))) as Hall.
          rewrite List.Forall_forall in Hall. apply Hall, nth_In. exact Hlt. }
        split.
        -- apply Rlt_le, Rdiv_lt_0_compat; lra.
        -- apply (Rmult_le_reg_r (Rsum exps)); [assumption|].
           unfold Rdiv. rewrite Rmult_assoc, Rinv_l by lra. lra.
      * rewrite nth_overflow by now rewrite length_map. lra.
Qed.

Lemma epsilon_pos : 0 < epsilon.
Proof. unfold epsilon. lra. Qed.

Lemma ln_le_compat x y : 0 < x -> x <= y -> ln x <= ln y.
Proof.
  intros Hx [Hlt|Heq]; [|subst; lra]. left. now apply ln_increasing.
Qed.

Lemma crossEntropy_softmax_range (m : Matrix) (target : option nat) :
  loss_floor <= crossEntropy (softmax m) target <= loss_ceiling.
Proof.
  unfold crossEntropy, loss_floor, loss_ceiling. pose proof epsilon_pos as He.
  assert (Hp : 0 <= row0_at (softmax m) target <= 1).
  { destruct target as [j|]; cbn [row0_at]; [apply softmax_entry_range|lra]. }
  split; apply Ropp_le_contravar; apply ln_le_compat; lra.
Qed.
(* ===================================================================== *)
(** ** The training steps: layout, step size, tokens and losses *)
(* ===================================================================== *)

(** X5: on a model with the parameter layout of its architecture a
    training step returns a model with the same layout, the same
    vocabulary and the same token index, whatever the corpus, the cursor,
    the window, the learning rate and the dropout rate: the step can be
    applied again to its own result. *)
Theorem training_keeps_layout
    (encodedText : list nat) (step windowSize : nat)
    (learningRate dropoutRate : R) (rand : nat -> R) (pos : nat)
    (ffnn : FFNN.FFNNModel) (rnn : RNN.RNNModel)
    (gru : GRU.GRULanguageModel) (lstm : LSTM.LSTMLanguageModel)
    (Hf Hr Hg Hl : nat)
    (Hffnn : wf_ffnn ffnn Hf) (Hrnn : wf_rnn rnn Hr)
    (Hgru : wf_gru gru Hg) (Hlstm : wf_lstm lstm Hl) :
  returns (trainStepFFNN ffnn encodedText step windowSize learningRate)
    (fun r => wf_ffnn (updatedModel r) Hf /\
              FFNN.vocab (updatedModel r) = FFNN.vocab ffnn /\
              FFNN.tokenToIndex (updatedModel r) = FFNN.tokenToIndex ffnn) /\
  returns (trainStepRNN rnn encodedText step windowSize learningRate
             dropoutRate rand pos)
    (fun rp => wf_rnn (updatedModel rp.1) Hr /\
               RNN.vocab (updatedModel rp.1) = RNN.vocab rnn /\
               RNN.tokenToIndex (updatedModel rp.1) = RNN.tokenToIndex rnn) /\
  returns (trainStepGRU gru encodedText step windowSize learningRate
             dropoutRate rand pos)
    (fun rp => wf_gru (updatedModel rp.1) Hg /\
               GRU.vocab (updatedModel rp.1) = GRU.vocab gru /\
               GRU.tokenToIndex (updatedModel rp.1) = GRU.tokenToIndex gru) /\
  returns (trainStepLSTM lstm encodedText step windowSize learningRate
             dropoutRate rand pos)
    (fun rp => wf_lstm (updatedModel rp.1) Hl /\
               LSTM.vocab (updatedModel rp.1) = LSTM.vocab lstm /\
               LSTM.tokenToIndex (updatedModel rp.1) = LSTM.tokenToIndex lstm).
Proof.
  split_all.
  - eapply returns_mono; [now apply (trainStepFFNN_returns ffnn Hf)|].
    cbv beta zeta. intros r (acc & _ & _ & [(_ & -> & _)|(_ & -> & _)]).
    + auto.
    + split; [now apply shape_ffnn_updated|]. split; reflexivity.
  - eapply returns_mono; [now apply (trainStepRNN_returns rnn Hr)|].
    cbv beta. intros rp (fw & g & _ & _ & _ & _ & Hu & _ & _ & Hwf).
    split; [assumption|]. rewrite Hu. split; reflexivity.
  - eapply returns_mono; [now apply (trainStepGRU_returns gru Hg)|].
    cbv beta. intros rp (fw & g & _ & _ & _ & _ & Hu & _ & _ & Hwf).
    split; [assumption|]. rewrite Hu. split; reflexivity.
  - eapply returns_mono; [now apply (trainStepLSTM_returns lstm Hl)|].
    cbv beta. intros rp (fw & g & _ & _ & _ & _ & Hu & _ & _ & Hwf).
    split; [assumption|]. rewrite Hu. split; reflexivity.
Qed.

Lemma training_keeps_layout_witness :
  wf_ffnn ffnn_abc 2 /\ wf_rnn rnn_abc 2 /\ wf_gru gru_abc 2 /\ wf_lstm lstm_abc 2 /\
  returns (trainStepRNN rnn_abc abc_text 0 3 (1 / 10) 0 no_rand 0)
    (fun rp => wf_rnn (updatedModel rp.1) 2 /\
               RNN.vocab (updatedModel rp.1) = RNN.vocab rnn_abc /\
               RNN.tokenToIndex (updatedModel rp.1) = RNN.tokenToIndex rnn_abc).
Proof.
  split; [apply wf_ffnn_abc|]. split; [apply wf_rnn_abc|].
  split; [apply wf_gru_abc|]. split; [apply wf_lstm_abc|].
  apply (training_keeps_layout abc_text 0 3 (1 / 10) 0 no_rand 0
           ffnn_abc rnn_abc gru_abc lstm_abc 2 2 2 2
           wf_ffnn_abc wf_rnn_abc wf_gru_abc wf_lstm_abc).
Defined.

(** *** The size of an update *)

Lemma clip_value_range v : -5 <= clip_value v <= 5.
Proof.
  unfold clip_value. pose proof (Rmin_l 5 v). pose proof (Rmax_l (-5) (Rmin 5 v)).
  split; [lra|]. apply Rmax_lub; lra.
Qed.

Lemma within_refl m d : 0 <= d -> within m m d.
Proof.
  intros Hd i j _ _. replace (mget m i j - mget m i j) with 0 by lra.
  now rewrite Rabs_R0.
Qed.

Lemma within_mono a b d d' : d <= d' -> within a b d -> within a b d'.
Proof. intros Hd Hw i j Hi Hj. specialize (Hw i j Hi Hj). lra. Qed.

Lemma within_descend w g lr r c :
  shape w r c -> shape g r c -> within w (descend w g lr) (5 * Rabs lr).
Proof.
  intros Hw Hg i j Hi Hj.
  rewrite (shape_rows _ _ _ Hw) in Hi. rewrite (shape_cols _ _ _ Hw) in Hj.
  rewrite (mget_descend _ _ _ r c) by assumption.
  replace (mget w i j + clip_value (mget g i j) * lr - mget w i j)
    with (clip_value (mget g i j) * lr) by lra.
  rewrite Rabs_mult. apply Rmult_le_compat_r; [apply Rabs_pos|].
  apply Rabs_le. apply clip_value_range.
Qed.

Lemma step_bound_nonneg lr : 0 <= 5 * Rabs lr.
Proof. pose proof (Rabs_pos lr). lra. Qed.

(** The step of the FFNN update, [-learningRate / batchActualSize], is no
    larger than the learning rate over the number of pairs of the window. *)
Lemma ffnn_step_size lr (d : Z) :
  d <> 0%Z ->
  5 * Rabs (- lr / IZR d) <= 5 * Rabs lr / INR (Nat.max 1 (Z.to_nat d)).
Proof.
  intros Hd.
  assert (Hn : 1 <= INR (Nat.max 1 (Z.to_nat d))).
  { replace 1 with (INR 1) by reflexivity. apply le_INR. lia. }
  assert (Hz : INR (Nat.max 1 (Z.to_nat d)) <= Rabs (IZR d)).
  { rewrite <- abs_IZR, INR_IZR_INZ. apply IZR_le. lia. }
  assert (HdR : IZR d <> 0) by (now apply not_0_IZR).
  unfold Rdiv. rewrite Rabs_mult, Rabs_Ropp, Rabs_inv.
  rewrite Rmult_assoc. apply Rmult_le_compat_l; [lra|].
  apply Rmult_le_compat_l; [apply Rabs_pos|].
  apply Rinv_le_contravar; lra.
Qed.

Ltac within_layers :=
  unfold layer_within; cbn [weights biases fst snd applyGrads];
  split_all;
  first [ eapply within_descend; eassumption
        | apply within_refl, step_bound_nonneg ].

(** X6: one training step moves no weight and no bias by more than 5
    times the learning rate (the gradient of a window is clipped to
    [-5, 5] before it is scaled); for the FFNN, whose step is the learning
    rate over the number [n] of pairs of the window, by no more than 5
    times the learning rate over [n]. *)
Theorem training_update_bounded
    (encodedText : list nat) (step windowSize : nat)
    (learningRate dropoutRate : R) (rand : nat -> R) (pos : nat)
    (ffnn : FFNN.FFNNModel) (rnn : RNN.RNNModel)
    (gru : GRU.GRULanguageModel) (lstm : LSTM.LSTMLanguageModel)
    (Hf Hr Hg Hl : nat)
    (Hffnn : wf_ffnn ffnn Hf) (Hrnn : wf_rnn rnn Hr)
    (Hgru : wf_gru gru Hg) (Hlstm : wf_lstm lstm Hl) :
  returns (trainStepFFNN ffnn encodedText step windowSize learningRate)
    (fun r => ffnn_within ffnn (updatedModel r)
                (5 * Rabs learningRate /
                   INR (Nat.max 1 (window_size encodedText step windowSize)))) /\
  returns (trainStepRNN rnn encodedText step windowSize learningRate
             dropoutRate rand pos)
    (fun rp => rnn_within rnn (updatedModel rp.1) (5 * Rabs learningRate)) /\
  returns (trainStepGRU gru encodedText step windowSize learningRate
             dropoutRate rand pos)
    (fun rp => gru_within gru (updatedModel rp.1) (5 * Rabs learningRate)) /\
  returns (trainStepLSTM lstm encodedText step windowSize learningRate
             dropoutRate rand pos)
    (fun rp => lstm_within lstm (updatedModel rp.1) (5 * Rabs learningRate)).
Proof.
  split_all.
  - eapply returns_mono; [now apply (trainStepFFNN_returns ffnn Hf)|].
    cbv beta zeta.
    intros r (acc & (_ & (A1 & A2 & A3 & A4) & _) & _ & [(_ & -> & _)|(Hd & -> & _)]).
    + assert (0 <= 5 * Rabs learningRate /
                   INR (Nat.max 1 (window_size encodedText step windowSize))).
      { unfold Rdiv. apply Rmult_le_pos; [apply step_bound_nonneg|].
        apply Rlt_le, Rinv_0_lt_compat, lt_0_INR. lia. }
      unfold ffnn_within, layer_within. split_all; now apply within_refl.
    + destruct Hffnn as ((W1 & B1) & (W2 & B2)).
      pose proof (ffnn_step_size learningRate _ Hd) as Hs.
      fold (window_size encodedText step windowSize) in Hs.
      unfold ffnn_within, layer_within, ffnn_updated;
        cbn [FFNN.hiddenLayer FFNN.outputLayer weights biases].
      split_all; (eapply within_mono; [exact Hs|]);
        eapply within_descend; eassumption.
  - eapply returns_mono; [now apply (trainStepRNN_returns rnn Hr)|].
    cbv beta. intros rp (fw & g & _ & _ & _ & (G1 & G2 & G3 & G4 & G5 & _) & -> & _).
    destruct Hrnn as ((W1 & B1) & (W2 & B2) & (W3 & B3) & _).
    rewrite <- (Rabs_Ropp learningRate).
    unfold rnn_within, rnn_updated; cbn [RNN.Wxh RNN.Whh RNN.Why].
    within_layers.
  - eapply returns_mono; [now apply (trainStepGRU_returns gru Hg)|].
    cbv beta.
    intros rp (fw & g & _ & _ & _ &
      (G1 & G2 & G3 & G4 & G5 & G6 & G7 & G8 & G9 & G10 & G11 & _) & -> & _).
    destruct Hgru as ((W1 & B1) & (W2 & B2) & (W3 & B3) & (W4 & B4) &
                      (W5 & B5) & (W6 & B6) & (W7 & B7) & _).
    rewrite <- (Rabs_Ropp learningRate).
    unfold gru_within, gru_updated;
      cbn [GRU.Wz GRU.Uz GRU.Wr GRU.Ur GRU.Wh GRU.Uh GRU.Why].
    within_layers.
  - eapply returns_mono; [now apply (trainStepLSTM_returns lstm Hl)|].
    cbv beta.
    intros rp (fw & g & _ & _ & _ &
      (G1 & G2 & G3 & G4 & G5 & G6 & G7 & G8 & G9 & G10 & G11 & G12 & G13 & G14 & _)
      & -> & _).
    destruct Hlstm as ((W1 & B1) & (W2 & B2) & (W3 & B3) & (W4 & B4) &
                       (W5 & B5) & (W6 & B6) & (W7 & B7) & (W8 & B8) &
                       (W9 & B9) & _).
    rewrite <- (Rabs_Ropp learningRate).
    unfold lstm_within, lstm_updated;
      cbn [LSTM.Wf LSTM.Uf LSTM.Wi LSTM.Ui LSTM.Wo LSTM.Uo LSTM.Wc LSTM.Uc LSTM.Why].
    within_layers.
Qed.

Lemma training_update_bounded_witness :
  wf_ffnn ffnn_abc 2 /\ wf_rnn rnn_abc 2 /\ wf_gru gru_abc 2 /\ wf_lstm lstm_abc 2 /\
  returns (trainStepFFNN ffnn_abc abc_text 0 3 (1 / 10))
    (fun r => ffnn_within ffnn_abc (updatedModel r)
                (5 * Rabs (1 / 10) / INR (Nat.max 1 (window_size abc_text 0 3)))).
Proof.
  split; [apply wf_ffnn_abc|]. split; [apply wf_rnn_abc|].
  split; [apply wf_gru_abc|]. split; [apply wf_lstm_abc|].
  apply (training_update_bounded abc_text 0 3 (1 / 10) 0 no_rand 0
           ffnn_abc rnn_abc gru_abc lstm_abc 2 2 2 2
           wf_ffnn_abc wf_rnn_abc wf_gru_abc wf_lstm_abc).
Defined.
(* ===================================================================== *)
(** ** The forward loops: what each pass adds *)
(* ===================================================================== *)

Ltac invert_bind H :=
  match type of H with
  | context [mbind _ ?o] =>
      let E := fresh "E" in
      destruct o eqn:E; cbn [mbind option_bind] in H; [|discriminate H]
  end.

Lemma rnn_forward_step_effect model encodedText rate rand t st st' :
  rnn_forward_step model encodedText rate rand t st = Some st' ->
  output_effect (RNN.vocab model) (RNN.Why model) encodedText t st st'.
Proof.
  intros Heq. unfold rnn_forward_step in Heq. cbv zeta in Heq.
  invert_bind Heq. invert_bind Heq. invert_bind Heq.
  destruct p as [[mask hd] pos']. invert_bind Heq.
  injection Heq as <-. eexists _, _. cbn.
  split; [eassumption|]. auto.
Qed.

Lemma gru_forward_step_effect model encodedText rate rand t st st' :
  gru_forward_step model encodedText rate rand t st = Some st' ->
  output_effect (GRU.vocab model) (GRU.Why model) encodedText t st st'.
Proof.
  intros Heq. unfold gru_forward_step in Heq. cbv zeta in Heq.
  invert_bind Heq. destruct p as [[[z r] hh] h].
  invert_bind Heq. destruct p as [[mask hd] pos']. invert_bind Heq.
  injection Heq as <-. eexists _, _. cbn.
  split; [eassumption|]. auto.
Qed.

Lemma lstm_forward_step_effect model encodedText rate rand t st st' :
  lstm_forward_step model encodedText rate rand t st = Some st' ->
  output_effect (LSTM.vocab model) (LSTM.Why model) encodedText t st st'.
Proof.
  intros Heq. unfold lstm_forward_step in Heq. cbv zeta in Heq.
  invert_bind Heq. destruct p as [[[[[f i] o] ch] c] h].
  invert_bind Heq. destruct p as [[mask hd] pos']. invert_bind Heq.
  injection Heq as <-. eexists _, _. cbn.
  split; [eassumption|]. auto.
Qed.

Lemma ffnn_batch_step_effect model encodedText batchEnd t acc acc' :
  ffnn_batch_step model encodedText batchEnd t acc = Some acc' ->
  ffnn_output_effect model encodedText t acc acc'.
Proof.
  intros Heq. unfold ffnn_batch_step in Heq. cbv zeta in Heq.
  destruct (ffnn_example model encodedText t) as [ex|] eqn:Hex;
    cbn [mbind option_bind] in Heq; [|discriminate].
  injection Heq as <-.
  unfold ffnn_example in Hex. cbv zeta in Hex.
  invert_bind Hex. invert_bind Hex. invert_bind Hex. invert_bind Hex.
  invert_bind Hex. invert_bind Hex.
  injection Hex as <-. eexists _, _. cbn.
  split; [eassumption|]. split; reflexivity.
Qed.

Lemma ffnn_batch_loop_preserves model encodedText batchEnd (P : FFNNAcc -> Prop)
    (n i : nat) (acc acc' : FFNNAcc) :
  (forall i acc acc', P acc ->
     ffnn_batch_step model encodedText batchEnd i acc = Some acc' -> P acc') ->
  P acc -> ffnn_batch_loop model encodedText batchEnd n i acc = Some acc' -> P acc'.
Proof.
  intros Hbody. revert i acc. induction n as [|n IH]; intros i acc HP Heq;
    cbn [ffnn_batch_loop] in Heq.
  - now injection Heq as <-.
  - destruct (ffnn_batch_step _ _ _ i acc) as [acc1|] eqn:Hb; [|discriminate].
    cbn [mbind option_bind] in Heq. eapply IH; [|exact Heq]. eauto.
Qed.

(** [softmax] gives a row of as many entries as its argument has
    columns, whatever the number of its rows. *)
Lemma shape_softmax_rows (m : Matrix) (r c : nat) :
  shape m r c -> shape (softmax m) 1 c.
Proof.
  intros (Hr & Hc & Hl & Hf).
  destruct (data m) as [|row rest] eqn:Hd.
  - unfold softmax. rewrite Hd, Hc. apply shape_createMatrix.
  - destruct row as [|x xs].
    + unfold softmax. rewrite Hd, Hc. apply shape_createMatrix.
    + rewrite (softmax_unfold m (x :: xs) rest) by (auto; discriminate).
      inversion Hf as [|? ? Hrow _]; subst.
      unfold shape; cbn [rows cols data length]. repeat split; auto.
      constructor; [|constructor]. now rewrite !length_map.
Qed.

Lemma dot_shape a b p : dot a b = Some p -> shape p (rows a) (cols b).
Proof.
  unfold dot. destruct (negb _); [discriminate|]. intros [= <-]. apply shape_build.
Qed.

Lemma output_prob_shape hd W b hy :
  dot hd W = Some hy -> shape (softmax (add hy b)) 1 (cols W).
Proof.
  intros Hdot. apply (shape_softmax_rows _ (rows hd)).
  apply shape_add. eapply dot_shape; eassumption.
Qed.

Lemma lookup_In {A : Type} (l : list A) (i : nat) (x : A) :
  l !! i = Some x -> In x l.
Proof.
  revert i. induction l as [|y l IH]; intros [|i] Hl; cbn in Hl; try discriminate.
  - injection Hl as ->. now left.
  - right. eapply IH; eassumption.
Qed.

Lemma token_at_in vocab i :
  (i < length vocab)%nat ->
  exists tok, token_at vocab (Some i) = Some tok /\ In tok vocab.
Proof.
  intros Hi. destruct (lookup_lt_is_Some_2 vocab i Hi) as [tok Htok].
  exists tok. split; [exact Htok|]. eapply lookup_In; eassumption.
Qed.

Lemma predicted_token_in vocab encodedText t prob :
  shape prob 1 (length vocab) -> (0 < length vocab)%nat ->
  predicted_in vocab (prediction_at vocab encodedText t prob).
Proof.
  intros Hs HV. destruct (argmax_row0_in_range prob _ Hs HV) as (j & Hj & Hlt).
  unfold predicted_in, prediction_at; cbn [p_predictedToken]. rewrite Hj.
  now apply token_at_in.
Qed.

Lemma output_effect_predicted {C : Type} vocab Why encodedText t
    (st st' : Forward C) :
  cols (weights Why) = length vocab -> (0 < length vocab)%nat ->
  Forall (predicted_in vocab) (fw_predictions st) ->
  output_effect vocab Why encodedText t st st' ->
  Forall (predicted_in vocab) (fw_predictions st').
Proof.
  intros Hc HV Hall (hd & hy & Hdot & _ & _ & ->).
  apply Forall_app. split; [assumption|]. constructor; [|constructor].
  apply predicted_token_in; [|assumption].
  rewrite <- Hc. eapply output_prob_shape; eassumption.
Qed.

Lemma ffnn_output_effect_predicted model encodedText t acc acc' :
  cols (weights (FFNN.outputLayer model)) = length (FFNN.vocab model) ->
  (0 < length (FFNN.vocab model))%nat ->
  Forall (predicted_in (FFNN.vocab model)) (predictions acc) ->
  ffnn_output_effect model encodedText t acc acc' ->
  Forall (predicted_in (FFNN.vocab model)) (predictions acc').
Proof.
  intros Hc HV Hall (ha & hw & Hdot & _ & ->).
  apply Forall_app. split; [assumption|]. constructor; [|constructor].
  apply predicted_token_in; [|assumption].
  rewrite <- Hc. eapply output_prob_shape; eassumption.
Qed.

(** The pairs of a window of a corpus of valid ids are pairs of tokens. *)
Lemma window_pairs_in vocab encodedText step len :
  valid_corpus (length vocab) encodedText ->
  Forall (pair_in vocab)
    (map (pair_at vocab encodedText) (seq step (window_size encodedText step len))).
Proof.
  intros Hvalid. apply List.Forall_forall. intros pr Hin.
  apply List.in_map_iff in Hin as (t & <- & Ht). apply in_seq in Ht.
  assert (Hlen : (S t < length encodedText)%nat).
  { unfold window_size, window_end in Ht. lia. }
  destruct (lookup_lt_is_Some_2 encodedText t ltac:(lia)) as [a Ha].
  destruct (lookup_lt_is_Some_2 encodedText (S t) Hlen) as [b Hb].
  unfold valid_corpus in Hvalid. rewrite Forall_lookup in Hvalid.
  destruct (token_at_in vocab a (Hvalid _ _ Ha)) as (ta & Hta & Hina).
  destruct (token_at_in vocab b (Hvalid _ _ Hb)) as (tb & Htb & Hinb).
  exists ta, tb. unfold pair_at. rewrite Ha, Hb, Hta, Htb. auto.
Qed.

Lemma holds_tokens_intro vocab (preds : list Prediction) :
  Forall (pair_in vocab) (map pred_pair preds) ->
  Forall (predicted_in vocab) preds ->
  Forall (holds_tokens vocab) preds.
Proof.
  induction preds as [|p preds IH]; intros Hp Hc; [constructor|].
  cbn [map] in Hp. inversion Hp as [|? ? (a & b & Hab & Ha & Hb) Hp']; subst.
  inversion Hc as [|? ? (c & Hpc & Hinc) Hc']; subst.
  constructor; [|now apply IH].
  exists a, b, c. destruct p as [pi pt pp]. unfold pred_pair in Hab.
  cbn in Hab, Hpc. injection Hab as -> ->. subst pp. auto.
Qed.

(** A corpus of valid ids over an empty vocabulary is empty, and so is
    every window of it. *)
Lemma empty_vocab_window encodedText step len :
  valid_corpus 0 encodedText -> window_size encodedText step len = 0%nat.
Proof.
  intros Hvalid. destruct encodedText as [|id rest].
  - unfold window_size, window_end. cbn [length]. lia.
  - inversion Hvalid; lia.
Qed.

Lemma forward_inv_pairs {C : Type} (cshape : C -> Prop) hrel cells_ok H vocab
    encodedText step t (st : Forward C) :
  forward_inv cshape hrel cells_ok H vocab encodedText step t st ->
  map pred_pair (fw_predictions st) =
    map (pair_at vocab encodedText) (seq step (t - step)).
Proof. now intros (_ & _ & _ & Hp & _). Qed.

Lemma forward_window_tokens {C : Type} (cshape : C -> Prop) hrel cells_ok H vocab
    Why encodedText step len body (st0 fw : Forward C) :
  valid_corpus (length vocab) encodedText ->
  cols (weights Why) = length vocab ->
  (forall t st st', body t st = Some st' ->
     output_effect vocab Why encodedText t st st') ->
  fw_predictions st0 = [] ->
  forward_loop body (window_size encodedText step len) step st0 = Some fw ->
  forward_inv cshape hrel cells_ok H vocab encodedText step
    (step + window_size encodedText step len)%nat fw ->
  Forall (holds_tokens vocab) (fw_predictions fw).
Proof.
  intros Hvalid Hc Hbody H0 Hloop Hinv.
  apply forward_inv_pairs in Hinv.
  replace (step + window_size encodedText step len - step)%nat
    with (window_size encodedText step len) in Hinv by lia.
  destruct (Nat.eq_dec (length vocab) 0%nat) as [HV|HV].
  - rewrite HV in Hvalid. rewrite (empty_vocab_window _ _ _ Hvalid) in Hinv.
    cbn in Hinv. apply map_eq_nil in Hinv. rewrite Hinv. constructor.
  - apply holds_tokens_intro.
    + rewrite Hinv. now apply window_pairs_in.
    + refine (forward_loop_preserves body
                (fun st => Forall (predicted_in vocab) (fw_predictions st))
                _ _ _ _ _ _ Hloop).
      * intros t st st' HP Hb. eapply output_effect_predicted; eauto. lia.
      * rewrite H0. constructor.
Qed.

Lemma ffnn_window_tokens model H encodedText step batchSize acc :
  wf_ffnn model H ->
  valid_corpus (length (FFNN.vocab model)) encodedText ->
  ffnn_batch_loop model encodedText (window_end encodedText step batchSize)
    (window_size encodedText step batchSize) step
    (mkAcc (mkLayer (createMatrix (length (FFNN.vocab model)) H 0)
                    (createMatrix 1 H 0))
           (mkLayer (createMatrix H (length (FFNN.vocab model)) 0)
                    (createMatrix 1 (length (FFNN.vocab model)) 0))
           0 None []) = Some acc ->
  ffnn_inv model H encodedText step
    (step + window_size encodedText step batchSize)%nat acc ->
  Forall (holds_tokens (FFNN.vocab model)) (predictions acc).
Proof.
  intros Hwf Hvalid Hloop (_ & _ & Hp & _).
  replace (step + window_size encodedText step batchSize - step)%nat
    with (window_size encodedText step batchSize) in Hp by lia.
  destruct (Nat.eq_dec (length (FFNN.vocab model)) 0%nat) as [HV|HV].
  - rewrite HV in Hvalid. rewrite (empty_vocab_window _ _ _ Hvalid) in Hp.
    cbn in Hp. apply map_eq_nil in Hp. rewrite Hp. constructor.
  - apply holds_tokens_intro.
    + rewrite Hp. now apply window_pairs_in.
    + refine (ffnn_batch_loop_preserves model encodedText _
                (fun acc => Forall (predicted_in (FFNN.vocab model)) (predictions acc))
                _ _ _ _ _ _ Hloop).
      * intros t a a' HP Hb. apply ffnn_batch_step_effect in Hb.
        eapply ffnn_output_effect_predicted; eauto; [|lia].
        destruct Hwf as (_ & (HWo & _)). exact (shape_cols _ _ _ HWo).
      * constructor.
Qed.

(** X7: on a model with the layout of its architecture and a corpus whose
    ids are all indices of the vocabulary, every entry of
    [predictionResults] holds three tokens of the vocabulary: no input,
    target or predicted token is [undefined]. *)
Theorem predictions_hold_tokens
    (encodedText : list nat) (step windowSize : nat)
    (learningRate dropoutRate : R) (rand : nat -> R) (pos : nat)
    (ffnn : FFNN.FFNNModel) (rnn : RNN.RNNModel)
    (gru : GRU.GRULanguageModel) (lstm : LSTM.LSTMLanguageModel)
    (Hf Hr Hg Hl : nat)
    (Hffnn : wf_ffnn ffnn Hf) (Hrnn : wf_rnn rnn Hr)
    (Hgru : wf_gru gru Hg) (Hlstm : wf_lstm lstm Hl)
    (Vffnn : valid_corpus (length (FFNN.vocab ffnn)) encodedText)
    (Vrnn : valid_corpus (length (RNN.vocab rnn)) encodedText)
    (Vgru : valid_corpus (length (GRU.vocab gru)) encodedText)
    (Vlstm : valid_corpus (length (LSTM.vocab lstm)) encodedText) :
  returns (trainStepFFNN ffnn encodedText step windowSize learningRate)
    (fun r => Forall (holds_tokens (FFNN.vocab ffnn)) (predictionResults r)) /\
  returns (trainStepRNN rnn encodedText step windowSize learningRate
             dropoutRate rand pos)
    (fun rp => Forall (holds_tokens (RNN.vocab rnn)) (predictionResults rp.1)) /\
  returns (trainStepGRU gru encodedText step windowSize learningRate
             dropoutRate rand pos)
    (fun rp => Forall (holds_tokens (GRU.vocab gru)) (predictionResults rp.1)) /\
  returns (trainStepLSTM lstm encodedText step windowSize learningRate
             dropoutRate rand pos)
    (fun rp => Forall (holds_tokens (LSTM.vocab lstm)) (predictionResults rp.1)).
Proof.
  split_all.
  - destruct (ffnn_batch_returns ffnn Hf encodedText step windowSize Hffnn)
      as (acc & Hacc & Hinv).
    pose proof (ffnn_window_tokens _ _ _ _ _ _ Hffnn Vffnn Hacc Hinv) as Htok.
    pose proof Hffnn as ((HWh & _) & _).
    unfold trainStepFFNN. rewrite (shape_cols _ _ _ HWh).
    fold (window_size encodedText step windowSize). rewrite Hacc.
    cbn [mbind option_bind].
    destruct (Z.eqb_spec (window_end encodedText step windowSize - Z.of_nat step) 0);
      apply returns_Some; cbn [predictionResults ffnn_result]; [constructor|assumption].
  - eapply returns_mono; [now apply (trainStepRNN_returns rnn Hr)|].
    cbv beta. intros rp (fw & g & Hfw & _ & Hinv & _ & _ & -> & _).
    destruct Hrnn as (_ & _ & (HWhy & _) & _).
    unfold rnn_forward in Hfw. fold (window_size encodedText step windowSize) in Hfw.
    eapply (forward_window_tokens _ _ _ _ _ (RNN.Why rnn));
      [exact Vrnn | exact (shape_cols _ _ _ HWhy) | | | exact Hfw | exact Hinv];
      [intros t st st'; apply rnn_forward_step_effect | reflexivity].
  - eapply returns_mono; [now apply (trainStepGRU_returns gru Hg)|].
    cbv beta. intros rp (fw & g & Hfw & _ & Hinv & _ & _ & -> & _).
    destruct Hgru as (_ & _ & _ & _ & _ & _ & (HWhy & _) & _).
    unfold gru_forward in Hfw. fold (window_size encodedText step windowSize) in Hfw.
    eapply (forward_window_tokens _ _ _ _ _ (GRU.Why gru));
      [exact Vgru | exact (shape_cols _ _ _ HWhy) | | | exact Hfw | exact Hinv];
      [intros t st st'; apply gru_forward_step_effect | reflexivity].
  - eapply returns_mono; [now apply (trainStepLSTM_returns lstm Hl)|].
    cbv beta. intros rp (fw & g & Hfw & _ & Hinv & _ & _ & -> & _).
    destruct Hlstm as (_ & _ & _ & _ & _ & _ & _ & _ & (HWhy & _) & _).
    unfold lstm_forward in Hfw. fold (window_size encodedText step windowSize) in Hfw.
    eapply (forward_window_tokens _ _ _ _ _ (LSTM.Why lstm));
      [exact Vlstm | exact (shape_cols _ _ _ HWhy) | | | exact Hfw | exact Hinv];
      [intros t st st'; apply lstm_forward_step_effect | reflexivity].
Qed.

Lemma output_effect_loss {C : Type} vocab Why encodedText t (st st' : Forward C) :
  loss_in_range (length (fw_predictions st)) (fw_totalLoss st) ->
  output_effect vocab Why encodedText t st st' ->
  loss_in_range (length (fw_predictions st')) (fw_totalLoss st').
Proof.
  intros Hr (hd & hy & _ & _ & -> & ->). unfold loss_in_range in *.
  rewrite length_app. cbn [length]. rewrite Nat.add_1_r, S_INR.
  pose proof (crossEntropy_softmax_range (add hy (biases Why)) (encodedText !! S t)).
  lra.
Qed.

Lemma ffnn_output_effect_loss model encodedText t acc acc' :
  loss_in_range (length (predictions acc)) (totalLoss acc) ->
  ffnn_output_effect model encodedText t acc acc' ->
  loss_in_range (length (predictions acc')) (totalLoss acc').
Proof.
  intros Hr (ha & hw & _ & -> & ->). unfold loss_in_range in *.
  rewrite length_app. cbn [length]. rewrite Nat.add_1_r, S_INR.
  pose proof (crossEntropy_softmax_range
                (add hw (biases (FFNN.outputLayer model))) (encodedText !! S t)).
  lra.
Qed.

Lemma loss_bounds_sign : loss_floor < 0 < loss_ceiling.
Proof.
  unfold loss_floor, loss_ceiling. pose proof epsilon_pos.
  assert (0 < ln (1 + epsilon)).
  { rewrite <- ln_1. apply ln_increasing; lra. }
  assert (ln epsilon < 0).
  { rewrite <- ln_1. apply ln_increasing; [assumption|]. unfold epsilon. lra. }
  lra.
Qed.

Lemma loss_in_range_0 : loss_in_range 0 0.
Proof. unfold loss_in_range. cbn [INR]. lra. Qed.

(** The mean of a total in range is in range. *)
Lemma mean_loss_in_range (n : nat) (total : R) (d : Z) :
  loss_in_range n total -> n = Z.to_nat d ->
  loss_floor <= total / IZR (if (d =? 0)%Z then 1%Z else d) <= loss_ceiling.
Proof.
  intros Hr Hn. pose proof loss_bounds_sign as Hs. unfold loss_in_range in Hr.
  destruct (Z.eqb_spec d 0) as [->|Hd].
  - subst n. change (INR (Z.to_nat 0)) with 0 in Hr.
    unfold Rdiv. rewrite Rinv_1. lra.
  - destruct (Z.lt_ge_cases d 0) as [Hneg|Hpos].
    + assert (Hz : Z.to_nat d = 0%nat) by lia. subst n. rewrite Hz in Hr.
      change (INR 0) with 0 in Hr.
      assert (total = 0) by lra. subst total. unfold Rdiv. rewrite Rmult_0_l. lra.
    + assert (Hd' : IZR d = INR n).
      { rewrite INR_IZR_INZ. f_equal. lia. }
      rewrite Hd'.
      assert (0 < INR n) by (apply lt_0_INR; lia).
      split.
      * apply (Rmult_le_reg_r (INR n)); [assumption|].
        unfold Rdiv. rewrite Rmult_assoc, Rinv_l by lra. lra.
      * apply (Rmult_le_reg_r (INR n)); [assumption|].
        unfold Rdiv. rewrite Rmult_assoc, Rinv_l by lra. lra.
Qed.

Lemma forward_window_loss {C : Type} (cshape : C -> Prop) hrel cells_ok H vocab
    Why encodedText step len body (st0 fw : Forward C) :
  (forall t st st', body t st = Some st' ->
     output_effect vocab Why encodedText t st st') ->
  fw_predictions st0 = [] -> fw_totalLoss st0 = 0 ->
  forward_loop body (window_size encodedText step len) step st0 = Some fw ->
  forward_inv cshape hrel cells_ok H vocab encodedText step
    (step + window_size encodedText step len)%nat fw ->
  loss_floor <=
    window_loss (fw_totalLoss fw) (window_end encodedText step len) step
  <= loss_ceiling.
Proof.
  intros Hbody Hp0 Hl0 Hloop Hinv.
  apply forward_inv_pairs in Hinv. apply (f_equal (@length _)) in Hinv.
  rewrite !length_map, length_seq in Hinv.
  unfold window_loss. cbv zeta. apply (mean_loss_in_range (length (fw_predictions fw))).
  - refine (forward_loop_preserves body
              (fun st => loss_in_range (length (fw_predictions st)) (fw_totalLoss st))
              _ _ _ _ _ _ Hloop).
    + intros t st st' HP Hb. eapply output_effect_loss; eauto.
    + rewrite Hp0, Hl0. apply loss_in_range_0.
  - rewrite Hinv. unfold window_size. lia.
Qed.

(** X8: on a model with the layout of its architecture and a corpus of
    valid ids (an id that is no index gives a [NaN] loss, which the model
    does not have), the loss that a training step returns lies between
    [-ln(1 + 1e-9)] and [-ln(1e-9)], the least and the largest value of
    [-Math.log(p + 1e-9)] for a probability [p]; the first is below 0 and
    the second above. *)
Theorem loss_within_range
    (encodedText : list nat) (step windowSize : nat)
    (learningRate dropoutRate : R) (rand : nat -> R) (pos : nat)
    (ffnn : FFNN.FFNNModel) (rnn : RNN.RNNModel)
    (gru : GRU.GRULanguageModel) (lstm : LSTM.LSTMLanguageModel)
    (Hf Hr Hg Hl : nat)
    (Hffnn : wf_ffnn ffnn Hf) (Hrnn : wf_rnn rnn Hr)
    (Hgru : wf_gru gru Hg) (Hlstm : wf_lstm lstm Hl)
    (Vffnn : valid_corpus (length (FFNN.vocab ffnn)) encodedText)
    (Vrnn : valid_corpus (length (RNN.vocab rnn)) encodedText)
    (Vgru : valid_corpus (length (GRU.vocab gru)) encodedText)
    (Vlstm : valid_corpus (length (LSTM.vocab lstm)) encodedText) :
  returns (trainStepFFNN ffnn encodedText step windowSize learningRate)
    (fun r => loss_floor <= loss r <= loss_ceiling) /\
  returns (trainStepRNN rnn encodedText step windowSize learningRate
             dropoutRate rand pos)
    (fun rp => loss_floor <= loss rp.1 <= loss_ceiling) /\
  returns (trainStepGRU gru encodedText step windowSize learningRate
             dropoutRate rand pos)
    (fun rp => loss_floor <= loss rp.1 <= loss_ceiling) /\
  returns (trainStepLSTM lstm encodedText step windowSize learningRate
             dropoutRate rand pos)
    (fun rp => loss_floor <= loss rp.1 <= loss_ceiling) /\
  loss_floor < 0 < loss_ceiling.
Proof.
  split_all; try apply loss_bounds_sign.
  - destruct (ffnn_batch_returns ffnn Hf encodedText step windowSize Hffnn)
      as (acc & Hacc & Hinv).
    assert (Hrange : loss_in_range (length (predictions acc)) (totalLoss acc)).
    { refine (ffnn_batch_loop_preserves ffnn encodedText _
                (fun acc => loss_in_range (length (predictions acc)) (totalLoss acc))
                _ _ _ _ _ _ Hacc).
      - intros t a a' HP Hb. apply ffnn_batch_step_effect in Hb.
        eapply ffnn_output_effect_loss; eauto.
      - apply loss_in_range_0. }
    destruct Hinv as (_ & _ & Hp & _). apply (f_equal (@length _)) in Hp.
    rewrite !length_map, length_seq in Hp.
    pose proof (mean_loss_in_range _ _
                  (window_end encodedText step windowSize - Z.of_nat step)
                  Hrange ltac:(rewrite Hp; unfold window_size; lia)) as Hmean.
    pose proof Hffnn as ((HWh & _) & _).
    unfold trainStepFFNN. rewrite (shape_cols _ _ _ HWh).
    fold (window_size encodedText step windowSize). rewrite Hacc.
    cbn [mbind option_bind].
    destruct (Z.eqb_spec (window_end encodedText step windowSize - Z.of_nat step) 0);
      apply returns_Some; cbn [loss ffnn_result].
    + pose proof loss_bounds_sign. lra.
    + exact Hmean.
  - eapply returns_mono; [now apply (trainStepRNN_returns rnn Hr)|].
    cbv beta. intros rp (fw & g & Hfw & _ & Hinv & _ & _ & _ & -> & _).
    unfold rnn_forward in Hfw. fold (window_size encodedText step windowSize) in Hfw.
    eapply (forward_window_loss _ _ _ _ _ (RNN.Why rnn));
      [ | | | exact Hfw | exact Hinv];
      [intros t st st'; apply rnn_forward_step_effect | reflexivity | reflexivity].
  - eapply returns_mono; [now apply (trainStepGRU_returns gru Hg)|].
    cbv beta. intros rp (fw & g & Hfw & _ & Hinv & _ & _ & _ & -> & _).
    unfold gru_forward in Hfw. fold (window_size encodedText step windowSize) in Hfw.
    eapply (forward_window_loss _ _ _ _ _ (GRU.Why gru));
      [ | | | exact Hfw | exact Hinv];
      [intros t st st'; apply gru_forward_step_effect | reflexivity | reflexivity].
  - eapply returns_mono; [now apply (trainStepLSTM_returns lstm Hl)|].
    cbv beta. intros rp (fw & g & Hfw & _ & Hinv & _ & _ & _ & -> & _).
    unfold lstm_forward in Hfw. fold (window_size encodedText step windowSize) in Hfw.
    eapply (forward_window_loss _ _ _ _ _ (LSTM.Why lstm));
      [ | | | exact Hfw | exact Hinv];
      [intros t st st'; apply lstm_forward_step_effect | reflexivity | reflexivity].
Qed.

(** A read outside a matrix that [build] has made gives 0. *)
Lemma mget_build_outside r c f i j :
  (r <= i)%nat \/ (c <= j)%nat -> mget (build r c f) i j = 0.
Proof.
  intros Hout. unfold mget, build. cbn [data].
  destruct (Nat.lt_ge_cases i r) as [Hi|Hi].
  - destruct Hout as [?|Hj]; [lia|].
    apply nth_overflow.
    pose proof (tabulate_rows r c f) as Hrows. rewrite List.Forall_forall in Hrows.
    rewrite (Hrows (nth i (tabulate r c f) [])); [assumption|].
    apply nth_In. now rewrite tabulate_length.
  - rewrite (nth_overflow (tabulate r c f)) by now rewrite tabulate_length.
    now destruct j.
Qed.

Lemma bounded_build r c f :
  (forall i j, (i < r)%nat -> (j < c)%nat -> -1 <= f i j <= 1) ->
  bounded_by_one (build r c f).
Proof.
  intros Hf i j.
  destruct (Nat.lt_ge_cases i r) as [Hi|Hi]; [destruct (Nat.lt_ge_cases j c) as [Hj|Hj]|].
  - rewrite mget_build by assumption. now apply Hf.
  - rewrite mget_build_outside by lia. lra.
  - rewrite mget_build_outside by lia. lra.
Qed.

Lemma bounded_tanh m : bounded_by_one (map_matrix m tanh).
Proof.
  apply bounded_build. intros i j _ _. pose proof (tanh_range (mget m i j)). lra.
Qed.

Lemma bounded_empty : bounded_by_one (createMatrix 0 0 0).
Proof. intros i j. unfold mget, createMatrix. cbn. destruct i, j; cbn; lra. Qed.

Lemma bounded_last (l : list Matrix) :
  Forall bounded_by_one l -> bounded_by_one (last_state l).
Proof.
  unfold last_state. induction 1 as [|m l Hm Hl IH]; [apply bounded_empty|].
  destruct l; [assumption|exact IH].
Qed.

Lemma multiply_inv a b p :
  multiply a b = Some p ->
  rows a = rows b /\ cols a = cols b /\
  p = build (rows a) (cols a) (fun i j => mget a i j * mget b i j).
Proof.
  unfold multiply.
  destruct (Nat.eqb_spec (rows a) (rows b)); cbn [negb orb]; [|discriminate].
  destruct (Nat.eqb_spec (cols a) (cols b)); cbn [negb]; [|discriminate].
  intros [= <-]. auto.
Qed.

Lemma subtract_inv a b p :
  subtract a b = Some p ->
  rows a = rows b /\ cols a = cols b /\
  p = build (rows a) (cols a) (fun i j => mget a i j - mget b i j).
Proof.
  unfold subtract.
  destruct (Nat.eqb_spec (rows a) (rows b)); cbn [negb orb]; [|discriminate].
  destruct (Nat.eqb_spec (cols a) (cols b)); cbn [negb]; [|discriminate].
  intros [= <-]. auto.
Qed.

Lemma apply_dropout_none H rate rand pos h r :
  rate <= 0 -> apply_dropout H rate rand pos h = Some r -> r = (None, h, pos).
Proof.
  intros Hrate. unfold apply_dropout.
  destruct (Rlt_dec 0 rate); [lra|]. now intros [= <-].
Qed.

Lemma rnn_forward_step_bounded model encodedText rate rand t st st' :
  rate <= 0 ->
  Forall bounded_by_one (hiddenStates st) ->
  rnn_forward_step model encodedText rate rand t st = Some st' ->
  Forall bounded_by_one (hiddenStates st').
Proof.
  intros Hrate Hall Heq. unfold rnn_forward_step in Heq. cbv zeta in Heq.
  invert_bind Heq. invert_bind Heq. invert_bind Heq.
  apply (apply_dropout_none _ _ _ _ _ _ Hrate) in E1. subst p.
  invert_bind Heq. injection Heq as <-. cbn [hiddenStates].
  apply Forall_app. split; [assumption|]. constructor; [|constructor].
  apply bounded_tanh.
Qed.

Lemma sigmoid_entry m i j : 0 <= mget (map_matrix m sigmoid) i j < 1.
Proof.
  unfold map_matrix.
  destruct (Nat.lt_ge_cases i (rows m)) as [Hi|Hi];
    [destruct (Nat.lt_ge_cases j (cols m)) as [Hj|Hj]|].
  - rewrite mget_build by assumption. pose proof (sigmoid_range (mget m i j)). lra.
  - rewrite mget_build_outside by lia. lra.
  - rewrite mget_build_outside by lia. lra.
Qed.

Lemma lstm_forward_step_bounded model encodedText rate rand t st st' :
  rate <= 0 ->
  Forall bounded_by_one (hiddenStates st) ->
  lstm_forward_step model encodedText rate rand t st = Some st' ->
  Forall bounded_by_one (hiddenStates st').
Proof.
  intros Hrate Hall Heq. unfold lstm_forward_step in Heq. cbv zeta in Heq.
  destruct (lstm_cell _ _ _ _) as [[[[[[f i] o] ch] c] h]|] eqn:Hcell;
    cbn [mbind option_bind] in Heq; [|discriminate].
  invert_bind Heq.
  apply (apply_dropout_none _ _ _ _ _ _ Hrate) in E. subst p.
  invert_bind Heq. injection Heq as <-. cbn [hiddenStates].
  apply Forall_app. split; [assumption|]. constructor; [|constructor].
  unfold lstm_cell in Hcell. cbv zeta in Hcell.
  invert_bind Hcell. invert_bind Hcell. invert_bind Hcell. invert_bind Hcell.
  invert_bind Hcell. invert_bind Hcell. invert_bind Hcell.
  injection Hcell as <- <- <- <- <- <-.
  match goal with
  | Hm : multiply (map_matrix _ sigmoid) (map_matrix _ tanh) = Some _ |- _ =>
      apply multiply_inv in Hm as (_ & _ & ->)
  end.
  apply bounded_build. intros a b _ _.
  match goal with
  | |- _ <= mget (map_matrix ?x sigmoid) a b * mget (map_matrix ?y tanh) a b <= _ =>
      pose proof (sigmoid_entry x a b); pose proof (bounded_tanh y a b)
  end.
  nra.
Qed.

Lemma gru_forward_step_bounded model encodedText rate rand t st st' :
  rate <= 0 ->
  Forall bounded_by_one (hiddenStates st) ->
  gru_forward_step model encodedText rate rand t st = Some st' ->
  Forall bounded_by_one (hiddenStates st').
Proof.
  intros Hrate Hall Heq. unfold gru_forward_step in Heq. cbv zeta in Heq.
  destruct (gru_cell _ _ _ _) as [[[[z r] hh] h]|] eqn:Hcell;
    cbn [mbind option_bind] in Heq; [|discriminate].
  invert_bind Heq.
  apply (apply_dropout_none _ _ _ _ _ _ Hrate) in E. subst p.
  invert_bind Heq. injection Heq as <-. cbn [hiddenStates].
  apply Forall_app. split; [assumption|]. constructor; [|constructor].
  pose proof (bounded_last _ Hall) as Hprev.
  set (hp := last_state (hiddenStates st)) in *.
  unfold gru_cell in Hcell. cbv zeta in Hcell.
  destruct (gate_raw _ (GRU.Wz model) _ _) as [z_raw|];
    cbn [mbind option_bind] in Hcell; [|discriminate].
  destruct (gate_raw _ (GRU.Wr model) _ _) as [r_raw|];
    cbn [mbind option_bind] in Hcell; [|discriminate].
  destruct (multiply (map_matrix r_raw sigmoid) hp) as [rh|];
    cbn [mbind option_bind] in Hcell; [|discriminate].
  destruct (gate_raw _ (GRU.Wh model) _ _) as [h_raw|];
    cbn [mbind option_bind] in Hcell; [|discriminate].
  destruct (subtract _ _) as [omz|] eqn:Hsub;
    cbn [mbind option_bind] in Hcell; [|discriminate].
  destruct (multiply omz hp) as [keep|] eqn:Hkeep;
    cbn [mbind option_bind] in Hcell; [|discriminate].
  destruct (multiply _ (map_matrix h_raw tanh)) as [new|] eqn:Hnew;
    cbn [mbind option_bind] in Hcell; [|discriminate].
  injection Hcell as <- <- <- <-.
  apply subtract_inv in Hsub as (Hr1 & Hc1 & ->).
  apply multiply_inv in Hkeep as (_ & _ & ->).
  apply multiply_inv in Hnew as (Hr2 & Hc2 & ->).
  cbn [rows cols build] in *.
  set (R0 := rows (ones 1 (rows (weights (GRU.Why model))))) in *.
  set (C0 := cols (ones 1 (rows (weights (GRU.Why model))))) in *.
  rewrite <- Hr1, <- Hc1.
  rewrite (add_same _ _ R0 C0) by apply shape_build.
  apply bounded_build. intros a b Ha Hb.
  rewrite !mget_build by assumption.
  assert (Hone : mget (ones 1 (rows (weights (GRU.Why model)))) a b = 1).
  { apply mget_createMatrix; assumption. }
  rewrite Hone.
  assert (Hz : 0 < mget (map_matrix z_raw sigmoid) a b < 1).
  { unfold map_matrix. rewrite mget_build.
    - apply sigmoid_range.
    - change (rows (map_matrix z_raw sigmoid)) with (rows z_raw) in Hr1. lia.
    - change (cols (map_matrix z_raw sigmoid)) with (cols z_raw) in Hc1. lia. }
  pose proof (Hprev a b). pose proof (bounded_tanh h_raw a b).
  nra.
Qed.

(** X9: without dropout ([dropoutRate <= 0]) a recurrent training step
    keeps the persistent hidden state between -1 and 1, the bounds
    included: if every entry of [h] is at least -1 and at most 1 before the
    step, every entry of the returned [h] is. *)
Theorem hidden_state_bounded
    (encodedText : list nat) (step windowSize : nat)
    (learningRate dropoutRate : R) (rand : nat -> R) (pos : nat)
    (rnn : RNN.RNNModel) (gru : GRU.GRULanguageModel)
    (lstm : LSTM.LSTMLanguageModel) (Hr Hg Hl : nat)
    (Hrnn : wf_rnn rnn Hr) (Hgru : wf_gru gru Hg) (Hlstm : wf_lstm lstm Hl)
    (Hrate : dropoutRate <= 0)
    (Brnn : bounded_by_one (RNN.h rnn)) (Bgru : bounded_by_one (GRU.h gru))
    (Blstm : bounded_by_one (LSTM.h lstm)) :
  returns (trainStepRNN rnn encodedText step windowSize learningRate
             dropoutRate rand pos)
    (fun rp => bounded_by_one (RNN.h (updatedModel rp.1))) /\
  returns (trainStepGRU gru encodedText step windowSize learningRate
             dropoutRate rand pos)
    (fun rp => bounded_by_one (GRU.h (updatedModel rp.1))) /\
  returns (trainStepLSTM lstm encodedText step windowSize learningRate
             dropoutRate rand pos)
    (fun rp => bounded_by_one (LSTM.h (updatedModel rp.1))).
Proof.
  split_all.
  - eapply returns_mono; [now apply (trainStepRNN_returns rnn Hr)|].
    cbv beta. intros rp (fw & g & Hfw & _ & _ & _ & -> & _).
    cbn [RNN.h rnn_updated]. apply bounded_last.
    unfold rnn_forward in Hfw.
    refine (forward_loop_preserves _
              (fun st => Forall bounded_by_one (hiddenStates st)) _ _ _ _ _ _ Hfw).
    + intros t st st'. now apply rnn_forward_step_bounded.
    + cbn [hiddenStates]. constructor; [assumption|constructor].
  - eapply returns_mono; [now apply (trainStepGRU_returns gru Hg)|].
    cbv beta. intros rp (fw & g & Hfw & _ & _ & _ & -> & _).
    cbn [GRU.h gru_updated]. apply bounded_last.
    unfold gru_forward in Hfw.
    refine (forward_loop_preserves _
              (fun st => Forall bounded_by_one (hiddenStates st)) _ _ _ _ _ _ Hfw).
    + intros t st st'. now apply gru_forward_step_bounded.
    + cbn [hiddenStates]. constructor; [assumption|constructor].
  - eapply returns_mono; [now apply (trainStepLSTM_returns lstm Hl)|].
    cbv beta. intros rp (fw & g & Hfw & _ & _ & _ & -> & _).
    cbn [LSTM.h lstm_updated]. apply bounded_last.
    unfold lstm_forward in Hfw.
    refine (forward_loop_preserves _
              (fun st => Forall bounded_by_one (hiddenStates st)) _ _ _ _ _ _ Hfw).
    + intros t st st'. now apply lstm_forward_step_bounded.
    + cbn [hiddenStates]. constructor; [assumption|constructor].
Qed.

Lemma bounded_zero r c : bounded_by_one (createMatrix r c 0).
Proof.
  intros i j. unfold mget, createMatrix. cbn [data].
  destruct (Nat.lt_ge_cases i r) as [Hi|Hi].
  - rewrite (nth_indep _ [] (repeat 0 c)) by now rewrite repeat_length.
    rewrite nth_repeat, nth_repeat. lra.
  - rewrite (nth_overflow (repeat _ r)) by now rewrite repeat_length.
    destruct j; cbn; lra.
Qed.


Lemma valid_abc_text : valid_corpus 3 abc_text.
Proof. unfold valid_corpus, abc_text. repeat constructor. Qed.

Lemma predictions_hold_tokens_witness :
  wf_ffnn ffnn_abc 2 /\ wf_rnn rnn_abc 2 /\ wf_gru gru_abc 2 /\ wf_lstm lstm_abc 2 /\
  valid_corpus (length (RNN.vocab rnn_abc)) abc_text /\
  returns (trainStepRNN rnn_abc abc_text 0 3 (1 / 10) 0 no_rand 0)
    (fun rp => Forall (holds_tokens (RNN.vocab rnn_abc)) (predictionResults rp.1)).
Proof.
  split; [apply wf_ffnn_abc|]. split; [apply wf_rnn_abc|].
  split; [apply wf_gru_abc|]. split; [apply wf_lstm_abc|].
  split; [apply valid_abc_text|].
  apply (predictions_hold_tokens abc_text 0 3 (1 / 10) 0 no_rand 0
           ffnn_abc rnn_abc gru_abc lstm_abc 2 2 2 2
           wf_ffnn_abc wf_rnn_abc wf_gru_abc wf_lstm_abc
           valid_abc_text valid_abc_text valid_abc_text valid_abc_text).
Defined.

Lemma loss_within_range_witness :
  wf_ffnn ffnn_abc 2 /\ wf_rnn rnn_abc 2 /\ wf_gru gru_abc 2 /\ wf_lstm lstm_abc 2 /\
  valid_corpus (length (FFNN.vocab ffnn_abc)) abc_text /\
  returns (trainStepFFNN ffnn_abc abc_text 0 3 (1 / 10))
    (fun r => loss_floor <= loss r <= loss_ceiling).
Proof.
  split; [apply wf_ffnn_abc|]. split; [apply wf_rnn_abc|].
  split; [apply wf_gru_abc|]. split; [apply wf_lstm_abc|].
  split; [apply valid_abc_text|].
  apply (loss_within_range abc_text 0 3 (1 / 10) 0 no_rand 0
           ffnn_abc rnn_abc gru_abc lstm_abc 2 2 2 2
           wf_ffnn_abc wf_rnn_abc wf_gru_abc wf_lstm_abc
           valid_abc_text valid_abc_text valid_abc_text valid_abc_text).
Defined.

Lemma hidden_state_bounded_witness :
  wf_rnn rnn_abc 2 /\ wf_gru gru_abc 2 /\ wf_lstm lstm_abc 2 /\ 0 <= 0 /\
  bounded_by_one (GRU.h gru_abc) /\
  returns (trainStepGRU gru_abc abc_text 0 3 (1 / 10) 0 no_rand 0)
    (fun rp => bounded_by_one (GRU.h (updatedModel rp.1))).
Proof.
  split; [apply wf_rnn_abc|]. split; [apply wf_gru_abc|].
  split; [apply wf_lstm_abc|]. split; [lra|].
  split; [apply bounded_zero|].
  apply (hidden_state_bounded abc_text 0 3 (1 / 10) 0 no_rand 0
           rnn_abc gru_abc lstm_abc 2 2 2
           wf_rnn_abc wf_gru_abc wf_lstm_abc ltac:(lra)
           (bounded_zero 1 2) (bounded_zero 1 2) (bounded_zero 1 2)).
Defined.
(* ===================================================================== *)
(** ** Initialisation *)
(* ===================================================================== *)


Lemma layer_shape_createLayer i o rand pos :
  layer_shape (createLayer i o rand pos).1 i o.
Proof.
  unfold createLayer, layer_shape, createMatrixRandom; cbn [fst weights biases].
  split; [apply shape_build | apply shape_createMatrix].
Qed.

Lemma fresh_createLayer i o rand pos :
  unit_draws rand -> fresh_layer (createLayer i o rand pos).1.
Proof.
  intros Hrand. unfold createLayer, fresh_layer, createMatrixRandom;
    cbn [fst weights biases rows cols build].
  split; [|reflexivity].
  intros a b Ha Hb. rewrite mget_build by assumption.
  unfold init_weight. specialize (Hrand (pos + a * o + b)%nat). lra.
Qed.

Lemma wf_initializeFFNNModel vocab H rand pos :
  wf_ffnn (initializeFFNNModel vocab H rand pos).1 H.
Proof.
  unfold initializeFFNNModel, wf_ffnn; cbn.
  split; apply layer_shape_createLayer.
Qed.

Lemma wf_initializeRNNModel vocab H rand pos :
  wf_rnn (initializeRNNModel vocab H rand pos).1 H.
Proof.
  unfold initializeRNNModel, wf_rnn; cbn.
  split_all; try apply layer_shape_createLayer. apply shape_createMatrix.
Qed.

Lemma wf_initializeGRUModel vocab H rand pos :
  wf_gru (initializeGRUModel vocab H rand pos).1 H.
Proof.
  unfold initializeGRUModel, wf_gru; cbn.
  split_all; try apply layer_shape_createLayer. apply shape_createMatrix.
Qed.

Lemma wf_initializeLSTMModel vocab H rand pos :
  wf_lstm (initializeLSTMModel vocab H rand pos).1 H.
Proof.
  unfold initializeLSTMModel, wf_lstm; cbn.
  split_all; try apply layer_shape_createLayer; apply shape_createMatrix.
Qed.

(** X10: for every vocabulary and hidden size the four initialisers
    return a model with the parameter layout of its architecture, on which
    the training step of the architecture returns, for every corpus,
    cursor, window, learning rate and dropout rate, a model with that
    layout again. *)
Theorem fresh_models_train
    (vocab : list string) (hiddenSize : nat) (rand : nat -> R) (pos : nat)
    (encodedText : list nat) (step windowSize : nat)
    (learningRate dropoutRate : R) (rand' : nat -> R) (pos' : nat) :
  let ffnn := (initializeFFNNModel vocab hiddenSize rand pos).1 in
  let rnn := (initializeRNNModel vocab hiddenSize rand pos).1 in
  let gru := (initializeGRUModel vocab hiddenSize rand pos).1 in
  let lstm := (initializeLSTMModel vocab hiddenSize rand pos).1 in
  (wf_ffnn ffnn hiddenSize /\ wf_rnn rnn hiddenSize /\
   wf_gru gru hiddenSize /\ wf_lstm lstm hiddenSize) /\
  returns (trainStepFFNN ffnn encodedText step windowSize learningRate)
    (fun r => wf_ffnn (updatedModel r) hiddenSize) /\
  returns (trainStepRNN rnn encodedText step windowSize learningRate
             dropoutRate rand' pos')
    (fun rp => wf_rnn (updatedModel rp.1) hiddenSize) /\
  returns (trainStepGRU gru encodedText step windowSize learningRate
             dropoutRate rand' pos')
    (fun rp => wf_gru (updatedModel rp.1) hiddenSize) /\
  returns (trainStepLSTM lstm encodedText step windowSize learningRate
             dropoutRate rand' pos')
    (fun rp => wf_lstm (updatedModel rp.1) hiddenSize).
Proof.
  intros ffnn rnn gru lstm.
  pose proof (wf_initializeFFNNModel vocab hiddenSize rand pos) as Wf.
  pose proof (wf_initializeRNNModel vocab hiddenSize rand pos) as Wr.
  pose proof (wf_initializeGRUModel vocab hiddenSize rand pos) as Wg.
  pose proof (wf_initializeLSTMModel vocab hiddenSize rand pos) as Wl.
  split; [now split_all|]. split_all.
  - eapply returns_mono; [now apply (trainStepFFNN_returns ffnn hiddenSize)|].
    cbv beta zeta. intros r (acc & _ & _ & [(_ & -> & _)|(_ & -> & _)]);
      [assumption | now apply shape_ffnn_updated].
  - eapply returns_mono; [now apply (trainStepRNN_returns rnn hiddenSize)|].
    cbv beta. now intros rp (fw & g & _ & _ & _ & _ & _ & _ & _ & Hwf).
  - eapply returns_mono; [now apply (trainStepGRU_returns gru hiddenSize)|].
    cbv beta. now intros rp (fw & g & _ & _ & _ & _ & _ & _ & _ & Hwf).
  - eapply returns_mono; [now apply (trainStepLSTM_returns lstm hiddenSize)|].
    cbv beta. now intros rp (fw & g & _ & _ & _ & _ & _ & _ & _ & Hwf).
Qed.

(** X11: when every draw of [Math.random] is at least 0 and below 1, every
    weight of a model that an initialiser returns is at least -0.05 and
    below 0.05, every bias and every entry of the recurrent state is 0,
    and the initialiser has read one draw per weight. *)
Theorem fresh_models_small_weights
    (vocab : list string) (hiddenSize : nat) (rand : nat -> R) (pos : nat)
    (Hrand : unit_draws rand) :
  let V := length vocab in
  let H := hiddenSize in
  (ffnn_fresh (initializeFFNNModel vocab H rand pos).1 /\
   (initializeFFNNModel vocab H rand pos).2 = (pos + (V * H + H * V))%nat) /\
  (rnn_fresh (initializeRNNModel vocab H rand pos).1 H /\
   (initializeRNNModel vocab H rand pos).2 = (pos + (V * H + H * H + H * V))%nat) /\
  (gru_fresh (initializeGRUModel vocab H rand pos).1 H /\
   (initializeGRUModel vocab H rand pos).2 =
     (pos + (3 * (V * H + H * H) + H * V))%nat) /\
  (lstm_fresh (initializeLSTMModel vocab H rand pos).1 H /\
   (initializeLSTMModel vocab H rand pos).2 =
     (pos + (4 * (V * H + H * H) + H * V))%nat).
Proof.
  intros V H.
  pose proof (fun i o p => fresh_createLayer i o rand p Hrand) as Hfresh.
  unfold ffnn_fresh, rnn_fresh, gru_fresh, lstm_fresh,
    initializeFFNNModel, initializeRNNModel, initializeGRUModel,
    initializeLSTMModel.
  cbn -[Nat.mul Nat.add createMatrix]. subst V H.
  split_all; first [apply Hfresh | reflexivity | lia].
Qed.

Lemma unit_zero_draws : unit_draws zero_draws.
Proof. intros n. unfold zero_draws. lra. Qed.

Lemma fresh_models_small_weights_witness :
  unit_draws zero_draws /\
  rnn_fresh (initializeRNNModel abc_vocab 2 zero_draws 0).1 2.
Proof.
  split; [apply unit_zero_draws|].
  apply (fresh_models_small_weights abc_vocab 2 zero_draws 0 unit_zero_draws).
Defined.

Lemma index_entries_snoc vocab x :
  index_entries (vocab ++ [x]) = index_entries vocab ++ [(x, length vocab)].
Proof.
  unfold index_entries. rewrite imap_app. cbn. now rewrite Nat.add_0_r.
Qed.

Lemma index_of_vocab_snoc vocab x :
  index_of_vocab (vocab ++ [x]) = <[x := length vocab]> (index_of_vocab vocab).
Proof.
  unfold index_of_vocab, fromEntries. rewrite index_entries_snoc, fold_left_app.
  reflexivity.
Qed.

(** X12: the token index that the initialisers build maps a token to the
    position of its last occurrence in the vocabulary, and has no entry
    for a text that is no token of the vocabulary. *)
Theorem index_of_vocab_lookup (vocab : list string) (tok : string) (i : nat) :
  index_of_vocab vocab !! tok = Some i <->
  vocab !! i = Some tok /\ forall j, (i < j)%nat -> vocab !! j <> Some tok.
Proof.
  revert i. induction vocab as [|x vocab IH] using rev_ind; intros i.
  - unfold index_of_vocab, fromEntries, index_entries. cbn.
    rewrite lookup_empty. split; [discriminate|]. now intros (? & _).
  - rewrite index_of_vocab_snoc.
    destruct (decide (x = tok)) as [->|Hne].
    + rewrite lookup_insert_eq. split.
      * intros [= <-]. split.
        -- rewrite lookup_app_r by lia. now rewrite Nat.sub_diag.
        -- intros j Hj. rewrite lookup_ge_None_2; [discriminate|].
           rewrite length_app. cbn. lia.
      * intros (Hi & Hlast). f_equal.
        destruct (Nat.lt_trichotomy i (length vocab)) as [Hlt|[->|Hgt]].
        -- exfalso. apply (Hlast (length vocab) Hlt).
           rewrite lookup_app_r by lia. now rewrite Nat.sub_diag.
        -- reflexivity.
        -- rewrite lookup_ge_None_2 in Hi; [discriminate|].
           rewrite length_app. cbn. lia.
    + rewrite lookup_insert_ne by assumption. rewrite IH. split.
      * intros (Hi & Hlast).
        pose proof (lookup_lt_Some _ _ _ Hi) as Hlt. split.
        -- now rewrite lookup_app_l.
        -- intros j Hj. destruct (Nat.lt_ge_cases j (length vocab)) as [Hjl|Hjl].
           ++ rewrite lookup_app_l by assumption. now apply Hlast.
           ++ rewrite lookup_app_r by assumption.
              destruct (j - length vocab)%nat; cbn; [congruence|discriminate].
      * intros (Hi & Hlast).
        assert (Hlt : (i < length vocab)%nat).
        { pose proof (lookup_lt_Some _ _ _ Hi) as Hl. rewrite length_app in Hl.
          cbn in Hl. destruct (Nat.eq_dec i (length vocab)) as [->|]; [|lia].
          rewrite lookup_app_r, Nat.sub_diag in Hi by lia. cbn in Hi. congruence. }
        rewrite lookup_app_l in Hi by assumption. split; [assumption|].
        intros j Hj. specialize (Hlast j Hj).
        destruct (Nat.lt_ge_cases j (length vocab)) as [Hjl|Hjl].
        -- now rewrite lookup_app_l in Hlast.
        -- rewrite lookup_ge_None_2 by assumption. discriminate.
Qed.
(* ===================================================================== *)
(** ** The generators *)
(* ===================================================================== *)

Lemma append_assoc (a b c : string) : (a +:+ b) +:+ c = a +:+ (b +:+ c).
Proof.
  induction a as [|x a IH]; [reflexivity|].
  change ((String x a +:+ b) +:+ c) with (String x ((a +:+ b) +:+ c)).
  now rewrite IH.
Qed.

Lemma join_snoc (toks : list string) (s : string) :
  join (toks ++ [s]) = join toks +:+ s.
Proof.
  unfold join. induction toks as [|t toks IH]; cbn [app fold_right].
  - now rewrite append_empty_r.
  - rewrite IH. now rewrite append_assoc.
Qed.


Lemma gen_inv_fin vocab pos0 total Sh i st :
  (i <= total)%nat -> gen_inv vocab pos0 Sh i st -> gen_fin vocab pos0 total st.
Proof.
  intros Hi (_ & toks & Hr & Hl & Hall & Hp). exists toks.
  split_all; auto; lia.
Qed.

Lemma generate_loop_returns body vocab pos0 total Sh n i st :
  (i + n = total)%nat ->
  (forall k st, (k < total)%nat -> gen_inv vocab pos0 Sh k st ->
     returns (body k st) (gen_post vocab pos0 total Sh k)) ->
  gen_inv vocab pos0 Sh i st ->
  returns (generate_loop body n i st) (gen_fin vocab pos0 total).
Proof.
  intros Htot Hbody. revert i st Htot.
  induction n as [|n IH]; intros i st Htot Hinv; cbn [generate_loop].
  - apply returns_Some. eapply gen_inv_fin; [|eassumption]. lia.
  - apply returns_bind. eapply returns_mono; [apply Hbody; [lia|eassumption]|].
    intros [st'|st'] Hpost; cbn [gen_post] in Hpost.
    + now apply returns_Some.
    + apply IH; [lia|assumption].
Qed.

Lemma length_suppress_space tokenToIndex i row :
  length (suppress_space tokenToIndex i row) = length row.
Proof.
  unfold suppress_space.
  destruct (i <? MIN_WORD_LENGTH)%nat; [|reflexivity].
  destruct (tokenToIndex !! " "%string) as [s|]; [|reflexivity].
  destruct (s <? length row)%nat; [|reflexivity].
  destruct (Rlt_dec 0 (nth s row 0)); [|reflexivity].
  destruct (Rlt_dec (nth s row 0) 1); [|reflexivity].
  cbv zeta. apply length_imap.
Qed.

(** The sampling loop stops at a position of the row. *)
Lemma sample_walk_range u row j0 c0 j :
  sample_walk u row j0 c0 = Some j -> (j0 <= j < j0 + length row)%nat.
Proof.
  revert j0 c0. induction row as [|p rest IH]; intros j0 c0 Hw;
    cbn [sample_walk] in Hw; [discriminate|].
  destruct (Rlt_dec u (c0 + p)) as [Hlt|Hge].
  - injection Hw as <-. cbn [length]. lia.
  - specialize (IH _ _ Hw). cbn [length]. lia.
Qed.

(** The sampled token is a token of the vocabulary; it is [undefined]
    only when the vocabulary is empty. *)
Lemma sample_token_cases vocab tokenToIndex i temperature outputRaw u :
  shape outputRaw 1 (length vocab) ->
  (exists tok, sample_token vocab tokenToIndex i temperature outputRaw u = Some tok /\
               In tok vocab) \/
  (sample_token vocab tokenToIndex i temperature outputRaw u = None /\ vocab = []).
Proof.
  intros Hshape. unfold sample_token. cbv zeta.
  set (scaled := map_matrix outputRaw (fun val => val / temperature)).
  assert (Hsc : shape (softmax scaled) 1 (length vocab))
    by (apply shape_softmax; now apply shape_map_matrix).
  destruct (shape_one_row _ _ Hsc) as (row & Hd & Hlen). rewrite Hd. cbn [nth].
  pose proof (length_suppress_space tokenToIndex i row) as Hlen'.
  set (row' := suppress_space tokenToIndex i row) in *.
  destruct vocab as [|t vocab]; [right; split; [|reflexivity]|left].
  - unfold token_at. destruct (sample_index _ _ _); reflexivity.
  - assert (Hj : exists j, sample_index (length (t :: vocab)) u row' = Some j /\
                           (j < length (t :: vocab))%nat).
    { unfold sample_index. destruct (sample_walk u row' 0 0) as [j|] eqn:Hw.
      - exists j. split; [reflexivity|].
        pose proof (sample_walk_range _ _ _ _ _ Hw). lia.
      - cbn [length]. eexists. split; [reflexivity|]. lia. }
    destruct Hj as (j & -> & Hj).
    destruct (lookup_lt_is_Some_2 (t :: vocab) j Hj) as [tok Htok].
    exists tok. cbn [token_at mbind option_bind]. split; [exact Htok|].
    eapply lookup_In; eassumption.
Qed.

(** The end of a loop body keeps the invariant or ends the loop. *)
Lemma emit_post vocab pos0 total (Sh : GenState -> Prop) i st h' c'
    tokenToIndex temperature outputRaw u next_input :
  (i < total)%nat ->
  gen_inv vocab pos0 Sh i st ->
  (forall r inp p, Sh (mkGen h' c' r inp p)) ->
  shape outputRaw 1 (length vocab) ->
  gen_post vocab pos0 total Sh i
    (emit st h' c' (sample_token vocab tokenToIndex i temperature outputRaw u)
       next_input).
Proof.
  intros Hi (HSh & toks & Hr & Hl & Hall & Hp) HSh' Hshape. unfold emit.
  destruct (decide (sample_token vocab tokenToIndex i temperature outputRaw u
                    = Some " "%string)) as [Hsp|Hnsp]; cbn [gen_post].
  - exists toks. cbn [gen_result gen_pos]. split_all; auto; lia.
  - split; [apply HSh'|].
    exists (toks ++ [or_undefined
                       (sample_token vocab tokenToIndex i temperature outputRaw u)]).
    cbn [gen_result gen_pos]. rewrite join_snoc, Hr, length_app, Hl, Hp.
    cbn [length]. split_all; auto; try lia.
    apply Forall_app. split; [assumption|]. constructor; [|constructor].
    destruct (sample_token_cases vocab tokenToIndex i temperature outputRaw u Hshape)
      as [(tok & Htok & Hin)|(Hnone & Hempty)].
    + rewrite Htok in *. cbn [or_undefined]. split; [congruence|now left].
    + rewrite Hnone. cbn [or_undefined]. split; [discriminate|now right].
Qed.

Lemma break_post vocab pos0 total Sh i st :
  (i < total)%nat -> gen_inv vocab pos0 Sh i st ->
  gen_post vocab pos0 total Sh i (Break st).
Proof. intros Hi Hinv. cbn [gen_post]. eapply gen_inv_fin; [|eassumption]. lia. Qed.

Lemma ffnn_generate_body_returns model H temperature rand pos0 total i st :
  wf_ffnn model H -> (i < total)%nat ->
  gen_inv (FFNN.vocab model) pos0 (fun _ => True) i st ->
  returns (ffnn_generate_body model temperature rand i st)
    (gen_post (FFNN.vocab model) pos0 total (fun _ => True) i).
Proof.
  intros ((HWh & Hbh) & (HWo & Hbo)) Hi Hinv. unfold ffnn_generate_body.
  destruct (read_index (FFNN.tokenToIndex model) (last_char_key (gen_input st)))
    as [idx| |].
  1,2: repeat ret_op; apply emit_post; auto with shape.
  apply returns_Some. now apply break_post.
Qed.

Lemma rnn_generate_body_returns model H temperature rand pos0 total i st :
  wf_rnn model H -> (i < total)%nat ->
  gen_inv (RNN.vocab model) pos0 (fun st => shape (gen_h st) 1 H) i st ->
  returns (rnn_generate_body model temperature rand i st)
    (gen_post (RNN.vocab model) pos0 total (fun st => shape (gen_h st) 1 H) i).
Proof.
  intros Hwf Hi Hinv. wf_rnn_destruct Hwf. pose proof Hinv as (Hsh & _).
  unfold rnn_generate_body.
  destruct (read_index (RNN.tokenToIndex model) (gen_input st)) as [idx| |].
  1,2: repeat ret_op; apply emit_post; auto with shape;
    intros; cbn [gen_h]; auto with shape.
  apply returns_Some. now apply break_post.
Qed.

Lemma gru_generate_body_returns model H temperature rand pos0 total i st :
  wf_gru model H -> (i < total)%nat ->
  gen_inv (GRU.vocab model) pos0 (fun st => shape (gen_h st) 1 H) i st ->
  returns (gru_generate_body model temperature rand i st)
    (gen_post (GRU.vocab model) pos0 total (fun st => shape (gen_h st) 1 H) i).
Proof.
  intros Hwf Hi Hinv. pose proof Hinv as (Hsh & _).
  pose proof Hwf as (_ & _ & _ & _ & _ & _ & (HWhy & _) & _).
  unfold gru_generate_body.
  destruct (read_index (GRU.tokenToIndex model) (gen_input st)) as [idx| |].
  1,2: cbv zeta; rewrite (shape_cols _ _ _ Hsh);
    apply returns_bind; (eapply returns_mono;
      [apply (returns_gru_cell model H); auto with shape|]);
    intros [[[z r] hh] h] (_ & _ & _ & Hh);
    repeat ret_op; apply emit_post; auto with shape.
  apply returns_Some. now apply break_post.
Qed.

Lemma lstm_generate_body_returns model H temperature rand pos0 total i st :
  wf_lstm model H -> (i < total)%nat ->
  gen_inv (LSTM.vocab model) pos0
    (fun st => shape (gen_h st) 1 H /\ shape (gen_c st) 1 H) i st ->
  returns (lstm_generate_body model temperature rand i st)
    (gen_post (LSTM.vocab model) pos0 total
       (fun st => shape (gen_h st) 1 H /\ shape (gen_c st) 1 H) i).
Proof.
  intros Hwf Hi Hinv. pose proof Hinv as ((Hsh & Hsc) & _).
  pose proof Hwf as (_ & _ & _ & _ & _ & _ & _ & _ & (HWhy & _) & _).
  unfold lstm_generate_body.
  destruct (read_index (LSTM.tokenToIndex model) (gen_input st)) as [idx| |].
  1,2: cbv zeta;
    apply returns_bind; (eapply returns_mono;
      [apply (returns_lstm_cell model H); auto with shape|]);
    intros [[[[[f i'] o] ch] c] h] (_ & _ & _ & _ & Hc & Hh);
    repeat ret_op; apply emit_post; auto with shape.
  apply returns_Some. now apply break_post.
Qed.

Lemma gen_inv_init vocab pos0 (Sh : GenState -> Prop) h c seed :
  Sh (mkGen h c "" seed pos0) -> gen_inv vocab pos0 Sh 0 (mkGen h c "" seed pos0).
Proof.
  intros HSh. split; [assumption|]. exists []. cbn. split_all; auto.
Qed.

Lemma gen_fin_generated vocab seed length pos st :
  gen_fin vocab pos length st ->
  generated vocab seed length pos (seed +:+ gen_result st, gen_pos st).
Proof.
  intros (toks & Hr & Hall & Hl & Hp & Hp'). exists toks. cbn [fst snd].
  rewrite Hr. split_all; auto; lia.
Qed.

(** X13: on a model with the layout of its architecture a generator never
    throws.  It returns the seed followed by at most [length] tokens, each
    a token of the vocabulary and none of them the space (with an empty
    vocabulary each is the text of [undefined]); it reads one draw of
    [Math.random] per token and at most one more, [length] at most in
    all.  This holds for every seed, also one that is no token. *)
Theorem generators_return
    (seed : string) (length : nat) (temperature : R) (rand : nat -> R) (pos : nat)
    (ffnn : FFNN.FFNNModel) (rnn : RNN.RNNModel)
    (gru : GRU.GRULanguageModel) (lstm : LSTM.LSTMLanguageModel)
    (Hf Hr Hg Hl : nat)
    (Hffnn : wf_ffnn ffnn Hf) (Hrnn : wf_rnn rnn Hr)
    (Hgru : wf_gru gru Hg) (Hlstm : wf_lstm lstm Hl) :
  returns (generateFFNN ffnn seed length temperature rand pos)
    (generated (FFNN.vocab ffnn) seed length pos) /\
  returns (generateRNN rnn seed length temperature rand pos)
    (generated (RNN.vocab rnn) seed length pos) /\
  returns (generateGRU gru seed length temperature rand pos)
    (generated (GRU.vocab gru) seed length pos) /\
  returns (generateLSTM lstm seed length temperature rand pos)
    (generated (LSTM.vocab lstm) seed length pos).
Proof.
  split_all.
  - unfold generateFFNN. apply returns_bind.
    eapply returns_mono.
    + apply (generate_loop_returns _ (FFNN.vocab ffnn) pos length (fun _ => True));
        [lia| |now apply gen_inv_init].
      intros k st Hk Hinv. now apply (ffnn_generate_body_returns ffnn Hf).
    + intros st Hfin. apply returns_Some. now apply gen_fin_generated.
  - pose proof Hrnn as (_ & _ & _ & Hh).
    unfold generateRNN. apply returns_bind.
    eapply returns_mono.
    + apply (generate_loop_returns _ (RNN.vocab rnn) pos length
               (fun st => shape (gen_h st) 1 Hr));
        [lia| |now apply gen_inv_init].
      intros k st Hk Hinv. now apply (rnn_generate_body_returns rnn Hr).
    + intros st Hfin. apply returns_Some. now apply gen_fin_generated.
  - pose proof Hgru as (_ & _ & _ & _ & _ & _ & _ & Hh).
    unfold generateGRU. apply returns_bind.
    eapply returns_mono.
    + apply (generate_loop_returns _ (GRU.vocab gru) pos length
               (fun st => shape (gen_h st) 1 Hg));
        [lia| |now apply gen_inv_init].
      intros k st Hk Hinv. now apply (gru_generate_body_returns gru Hg).
    + intros st Hfin. apply returns_Some. now apply gen_fin_generated.
  - pose proof Hlstm as (_ & _ & _ & _ & _ & _ & _ & _ & _ & Hh & Hc).
    unfold generateLSTM. apply returns_bind.
    eapply returns_mono.
    + apply (generate_loop_returns _ (LSTM.vocab lstm) pos length
               (fun st => shape (gen_h st) 1 Hl /\ shape (gen_c st) 1 Hl));
        [lia| |apply gen_inv_init; cbn; auto].
      intros k st Hk Hinv. now apply (lstm_generate_body_returns lstm Hl).
    + intros st Hfin. apply returns_Some. now apply gen_fin_generated.
Qed.

Lemma generators_return_witness :
  wf_ffnn ffnn_abc 2 /\ wf_rnn rnn_abc 2 /\ wf_gru gru_abc 2 /\ wf_lstm lstm_abc 2 /\
  returns (generateGRU gru_abc "a" 5 1 no_rand 0)
    (generated (GRU.vocab gru_abc) "a" 5 0).
Proof.
  split; [apply wf_ffnn_abc|]. split; [apply wf_rnn_abc|].
  split; [apply wf_gru_abc|]. split; [apply wf_lstm_abc|].
  apply (generators_return "a" 5 1 no_rand 0 ffnn_abc rnn_abc gru_abc lstm_abc
           2 2 2 2 wf_ffnn_abc wf_rnn_abc wf_gru_abc wf_lstm_abc).
Defined.


(** *** Sampling *)

(** The draw picks a position whose probability is not 0. *)
Lemma sample_walk_positive u row j0 c0 j :
  c0 <= u -> sample_walk u row j0 c0 = Some j ->
  (j0 <= j < j0 + length row)%nat /\ 0 < nth (j - j0) row 0.
Proof.
  revert j0 c0. induction row as [|p rest IH]; intros j0 c0 Hc Hw;
    cbn [sample_walk] in Hw; [discriminate|].
  destruct (Rlt_dec u (c0 + p)) as [Hlt|Hge].
  - injection Hw as <-. rewrite Nat.sub_diag. cbn [length nth]. split; [lia|lra].
  - destruct (IH (S j0) (c0 + p) ltac:(lra) Hw) as (Hj & Hpos).
    cbn [length]. split; [lia|].
    replace (j - j0)%nat with (S (j - S j0)) by lia. exact Hpos.
Qed.

Lemma nth_imap_zero (row : list R) (s : nat) (d : R) :
  nth s (imap (fun k v => if (k =? s)%nat then 0 else v / d) row) 0 = 0.
Proof.
  rewrite nth_lookup, list_lookup_imap.
  destruct (row !! s); cbn; [|reflexivity]. now rewrite Nat.eqb_refl.
Qed.

(** During the first [MIN_WORD_LENGTH] passes the entry of the space is
    not above 0 in the row that the draw is taken from, when it was below
    1 before. *)
Lemma suppress_space_entry tokenToIndex i row s :
  (i < MIN_WORD_LENGTH)%nat -> tokenToIndex !! " "%string = Some s ->
  nth s row 0 < 1 -> nth s (suppress_space tokenToIndex i row) 0 <= 0.
Proof.
  intros Hi Hs Hp. unfold suppress_space.
  destruct (Nat.ltb_spec i MIN_WORD_LENGTH) as [_|?]; [|lia].
  rewrite Hs. destruct (Nat.ltb_spec s (length row)) as [Hlen|Hlen].
  - destruct (Rlt_dec 0 (nth s row 0)) as [Hpos|Hnpos]; [|lra].
    destruct (Rlt_dec (nth s row 0) 1) as [_|?]; [|lra].
    cbv zeta. rewrite nth_imap_zero. lra.
  - rewrite nth_overflow by lia. lra.
Qed.

(** X14: during the first [MIN_WORD_LENGTH] passes of a generator the
    sampling loop never stops at the index of the space, when the
    probability of the space in the row is below 1 (the guard of the
    source) and the draw is not negative.  The index of the space is then
    sampled only as the value that [nextIndex] starts with, the last index
    of the vocabulary, when the loop has run through the row without
    stopping. *)
Theorem early_walk_skips_space
    (tokenToIndex : gmap string nat) (i : nat) (row : list R) (u : R)
    (spaceIndex vocabLength : nat)
    (Hi : (i < MIN_WORD_LENGTH)%nat)
    (Hu : 0 <= u)
    (Hspace : tokenToIndex !! " "%string = Some spaceIndex)
    (Hprob : nth spaceIndex row 0 < 1) :
  sample_walk u (suppress_space tokenToIndex i row) 0 0 <> Some spaceIndex /\
  (sample_index vocabLength u (suppress_space tokenToIndex i row) = Some spaceIndex ->
   sample_walk u (suppress_space tokenToIndex i row) 0 0 = None /\
   vocabLength = S spaceIndex).
Proof.
  pose proof (suppress_space_entry tokenToIndex i row spaceIndex Hi Hspace Hprob)
    as Hentry.
  set (row' := suppress_space tokenToIndex i row) in *.
  assert (Hwalk : sample_walk u row' 0 0 <> Some spaceIndex).
  { intros Hw. destruct (sample_walk_positive u row' 0 0 _ Hu Hw) as (_ & Hpos).
    rewrite Nat.sub_0_r in Hpos. lra. }
  split; [exact Hwalk|].
  unfold sample_index. destruct (sample_walk u row' 0 0) as [j|].
  - intros Hj. contradiction.
  - destruct vocabLength as [|n]; [discriminate|].
    intros [= ->]. split; reflexivity.
Qed.

Lemma early_walk_skips_space_witness :
  (0 < MIN_WORD_LENGTH)%nat /\ 0 <= 0 /\
  space_first !! " "%string = Some 0%nat /\
  nth 0 [1 / 2; 1 / 2] 0 < 1 /\
  sample_walk 0 (suppress_space space_first 0 [1 / 2; 1 / 2]) 0 0 <> Some 0%nat.
Proof.
  assert (H1 : (0 < MIN_WORD_LENGTH)%nat) by (unfold MIN_WORD_LENGTH; lia).
  assert (H2 : 0 <= 0) by lra.
  assert (H3 : space_first !! " "%string = Some 0%nat) by reflexivity.
  assert (H4 : nth 0 [1 / 2; 1 / 2] 0 < 1) by (cbn [nth]; lra).
  split; [exact H1|]. split; [exact H2|]. split; [exact H3|]. split; [exact H4|].
  exact (proj1 (early_walk_skips_space space_first 0 [1 / 2; 1 / 2] 0 0 2
                  H1 H2 H3 H4)).
Defined.
Local Close Scope R_scope.

(* ===================================================================== *)
(** * Properties of the greedy tokenizers *)
(* ===================================================================== *)

Lemma length_append (a b : string) :
  String.length (a +:+ b) = String.length a + String.length b.
Proof.
  induction a as [|c a IH]; [reflexivity|].
  change (String c a +:+ b) with (String c (a +:+ b)). cbn [String.length].
  now rewrite IH.
Qed.

Lemma string_drop_empty i : string_drop i "" = ""%string.
Proof. now destruct i. Qed.

Lemma string_drop_add (i n : nat) (text : string) :
  string_drop (i + n) text = string_drop n (string_drop i text).
Proof.
  revert text. induction i as [|i IH]; intros text; [reflexivity|].
  destruct text as [|c text]; cbn [Nat.add string_drop].
  - now rewrite string_drop_empty.
  - apply IH.
Qed.

Lemma length_string_drop (i : nat) (text : string) :
  String.length (string_drop i text) = String.length text - i.
Proof.
  revert text. induction i as [|i IH]; intros text; cbn [string_drop].
  - lia.
  - destruct text as [|c text]; [reflexivity|]. cbn [String.length]. now rewrite IH.
Qed.

(** A text that starts with a token is the token followed by the rest. *)
Lemma prefix_split (token s : string) :
  String.prefix token s = true ->
  s = token +:+ string_drop (String.length token) s.
Proof.
  revert s. induction token as [|a token IH]; intros s Hp; [reflexivity|].
  destruct s as [|b s]; [discriminate|]. cbn [String.prefix] in Hp.
  destruct (Ascii.ascii_dec a b) as [->|]; [|discriminate].
  cbn [String.length string_drop].
  change (String b token +:+ string_drop (String.length token) s)
    with (String b (token +:+ string_drop (String.length token) s)).
  f_equal. now apply IH.
Qed.

Lemma prefix_length (token s : string) :
  String.prefix token s = true -> String.length token <= String.length s.
Proof.
  intros Hp. pose proof (prefix_split token s Hp) as E.
  apply (f_equal String.length) in E. rewrite length_append in E. lia.
Qed.

(** Two prefixes of a text that have the same length are the same. *)
Lemma prefix_same_length (a b s : string) :
  String.prefix a s = true -> String.prefix b s = true ->
  String.length a = String.length b -> a = b.
Proof.
  revert b s. induction a as [|x a IH]; intros b s Ha Hb Hl.
  - destruct b; [reflexivity|discriminate].
  - destruct b as [|y b]; [discriminate|].
    destruct s as [|z s]; [discriminate|]. cbn [String.prefix] in Ha, Hb.
    destruct (Ascii.ascii_dec x z) as [->|]; [|discriminate].
    destruct (Ascii.ascii_dec y z) as [->|]; [|discriminate].
    f_equal. cbn in Hl. eapply IH; eauto.
Qed.

Lemma startsWith_split text token i :
  startsWith text token i = true ->
  string_drop i text = token +:+ string_drop (i + String.length token) text.
Proof.
  unfold startsWith. intros Hp. rewrite string_drop_add. now apply prefix_split.
Qed.

(** *** The inner loop *)

Lemma find_token_Some vocab text i token :
  find_token vocab text i = Some token ->
  exists k, vocab !! k = Some token /\ startsWith text token i = true /\
    forall k' token', (k' < k)%nat -> vocab !! k' = Some token' ->
      startsWith text token' i = false.
Proof.
  induction vocab as [|t vocab IH]; cbn [find_token]; [discriminate|].
  destruct (startsWith text t i) eqn:Hs.
  - intros [= <-]. exists 0. split_all; auto. intros; lia.
  - intros Hf. destruct (IH Hf) as (k & Hk & Hm & Hfirst).
    exists (S k). split_all; auto.
    intros [|k'] token' Hlt Hl; cbn in Hl; [congruence|].
    apply (Hfirst k'); [lia|assumption].
Qed.

Lemma find_token_None vocab text i :
  find_token vocab text i = None <->
  forall token, In token vocab -> startsWith text token i = false.
Proof.
  induction vocab as [|t vocab IH]; cbn [find_token].
  - split; [intros _ ? []|reflexivity].
  - destruct (startsWith text t i) eqn:Hs.
    + split; [discriminate|]. intros Hall.
      rewrite (Hall t) in Hs; [discriminate|now left].
    + rewrite IH. split.
      * intros Hall token [<-|Hin]; auto.
      * intros Hall token Hin. apply Hall. now right.
Qed.

Lemma find_token_in vocab text i token :
  find_token vocab text i = Some token -> In token vocab.
Proof.
  intros Hf. destruct (find_token_Some _ _ _ _ Hf) as (k & Hk & _).
  eapply lookup_In; eassumption.
Qed.

Lemma In_lookup {A : Type} (l : list A) (x : A) :
  In x l -> exists k, l !! k = Some x.
Proof.
  induction l as [|y l IH]; intros []; [subst; now exists 0|].
  destruct (IH H) as (k & Hk). now exists (S k).
Qed.

(** X18: on a vocabulary sorted by length, longest first, the inner loop
    of the tokenizers finds a token exactly when it is the longest token
    of the vocabulary that the text holds at the position; it finds none
    exactly when the text holds no token there. *)
Theorem find_token_longest (vocab : list string) (text : string) (i : nat)
    (token : string) (Hsorted : lengths_descend vocab) :
  (find_token vocab text i = Some token <-> longest_match vocab text i token) /\
  (find_token vocab text i = None <->
   forall token', In token' vocab -> startsWith text token' i = false).
Proof.
  split; [|apply find_token_None].
  assert (Hfwd : forall tok, find_token vocab text i = Some tok ->
                             longest_match vocab text i tok).
  { intros tok Hf. destruct (find_token_Some _ _ _ _ Hf) as (k & Hk & Hm & Hfirst).
    split; [eapply lookup_In; eassumption|]. split; [assumption|].
    intros token' Hin' Hm'. destruct (In_lookup _ _ Hin') as (k' & Hk').
    destruct (Nat.lt_ge_cases k' k) as [Hlt|Hge].
    - rewrite (Hfirst k' token' Hlt Hk') in Hm'. discriminate.
    - exact (Hsorted k k' tok token' Hge Hk Hk'). }
  split; [apply Hfwd|].
  intros (Hin & Hm & Hlong).
  destruct (find_token vocab text i) as [tok|] eqn:Hf.
  - destruct (Hfwd tok eq_refl) as (Hin1 & Hm1 & Hlong1). f_equal.
    unfold startsWith in *.
    apply (prefix_same_length tok token (string_drop i text) Hm1 Hm).
    specialize (Hlong tok Hin1 Hm1). specialize (Hlong1 token Hin Hm). lia.
  - rewrite find_token_None in Hf. rewrite (Hf token Hin) in Hm. discriminate.
Qed.

Lemma abc_lengths_descend : lengths_descend abc_vocab.
Proof.
  intros a b x y _ Ha Hb. unfold abc_vocab in *.
  destruct a as [|[|[|a]]]; cbn in Ha; try discriminate;
    destruct b as [|[|[|b]]]; cbn in Hb; try discriminate;
    injection Ha as <-; injection Hb as <-; cbn; lia.
Qed.

Lemma find_token_longest_witness :
  lengths_descend abc_vocab /\
  (find_token abc_vocab "cab" 1 = Some "a"%string <->
   longest_match abc_vocab "cab" 1 "a").
Proof.
  split; [apply abc_lengths_descend|].
  apply (find_token_longest abc_vocab "cab" 1 "a" abc_lengths_descend).
Defined.


(** *** [encodeCustom] *)

Lemma nonempty_length (s : string) : s <> ""%string -> 1 <= String.length s.
Proof. destruct s; [congruence|cbn; lia]. Qed.

(** With no empty token in the vocabulary the loop that starts at [i]
    ends within [length - i] passes, and pushes one id per pass at most. *)
Lemma encodeCustom_loop_ends text vocab tokenToIndex (n i : nat)
    (encoded : list (option nat)) :
  ~ In ""%string vocab ->
  String.length text - i <= n ->
  exists out,
    (forall fuel, n < fuel ->
       encodeCustom_loop fuel text vocab tokenToIndex i encoded =
         Some (encoded ++ out)) /\
    length out <= String.length text - i.
Proof.
  intros Hne. revert i encoded.
  induction n as [|n IH]; intros i encoded Hn.
  - exists []. split; [|cbn; lia]. intros [|fuel] Hf; [lia|].
    cbn [encodeCustom_loop].
    destruct (Nat.ltb_spec i (String.length text)) as [?|_]; [lia|].
    now rewrite app_nil_r.
  - destruct (Nat.ltb_spec i (String.length text)) as [Hi|Hi].
    + destruct (find_token vocab text i) as [token|] eqn:Hfind.
      * assert (Hlen : 1 <= String.length token).
        { apply nonempty_length. intros ->.
          apply Hne. eapply find_token_in; eassumption. }
        destruct (IH (i + String.length token) (encoded ++ [tokenToIndex !! token])
                    ltac:(lia)) as (out & Hout & Hl).
        exists ((tokenToIndex !! token) :: out). split.
        -- intros [|fuel] Hf; [lia|]. cbn [encodeCustom_loop].
           destruct (Nat.ltb_spec i (String.length text)) as [_|?]; [|lia].
           rewrite Hfind, Hout by lia. now rewrite <- app_assoc.
        -- cbn [length]. lia.
      * destruct (IH (i + 1) encoded ltac:(lia)) as (out & Hout & Hl).
        exists out. split.
        -- intros [|fuel] Hf; [lia|]. cbn [encodeCustom_loop].
           destruct (Nat.ltb_spec i (String.length text)) as [_|?]; [|lia].
           rewrite Hfind. apply Hout. lia.
        -- lia.
    + exists []. split; [|cbn; lia]. intros [|fuel] Hf; [lia|].
      cbn [encodeCustom_loop].
      destruct (Nat.ltb_spec i (String.length text)) as [?|_]; [lia|].
      now rewrite app_nil_r.
Qed.

(** X15: when the vocabulary holds no empty token, [encodeCustom] ends
    within as many passes of its loop as the text has characters, with
    the same ids whatever the bound on the passes, and returns no more ids
    than the text has characters. *)
Theorem encodeCustom_ends (text : string) (vocab : list string)
    (tokenToIndex : gmap string nat) (Hne : ~ In ""%string vocab) :
  exists ids,
    (forall fuel, String.length text < fuel ->
       encodeCustom fuel text vocab tokenToIndex = Some ids) /\
    length ids <= String.length text.
Proof.
  destruct (encodeCustom_loop_ends text vocab tokenToIndex (String.length text) 0 []
              Hne ltac:(lia)) as (out & Hout & Hl).
  exists out. split; [|lia].
  intros fuel Hf. unfold encodeCustom. now rewrite Hout.
Qed.

Lemma abc_no_empty_token : ~ In ""%string abc_vocab.
Proof. unfold abc_vocab. cbn. intros [H|[H|[H|[]]]]; discriminate. Qed.

Lemma encodeCustom_ends_witness :
  ~ In ""%string abc_vocab /\
  exists ids,
    (forall fuel, String.length "abcab" < fuel ->
       encodeCustom fuel "abcab" abc_vocab abc_index = Some ids) /\
    length ids <= String.length "abcab".
Proof.
  split; [apply abc_no_empty_token|].
  apply (encodeCustom_ends "abcab" abc_vocab abc_index abc_no_empty_token).
Defined.

(** X16: where the first token of the vocabulary that the text holds at
    a position is the empty one, the loop of [encodeCustom] does not move
    on: it never ends.  So [encodeCustom] does not return on a text that
    is not empty when that is the case at its start. *)
Theorem encodeCustom_empty_token_loops (text : string) (vocab : list string)
    (tokenToIndex : gmap string nat)
    (Htext : text <> ""%string)
    (Hfind : find_token vocab text 0 = Some ""%string) :
  forall fuel, encodeCustom fuel text vocab tokenToIndex = None.
Proof.
  assert (Hlen : 0 < String.length text).
  { destruct text; [congruence|cbn; lia]. }
  unfold encodeCustom. generalize (@nil (option nat)) as encoded.
  intros encoded fuel. revert encoded.
  induction fuel as [|fuel IH]; intros encoded; cbn [encodeCustom_loop];
    [reflexivity|].
  destruct (Nat.ltb_spec 0 (String.length text)) as [_|?]; [|lia].
  rewrite Hfind. cbn [String.length Nat.add]. apply IH.
Qed.

Lemma encodeCustom_empty_token_loops_witness :
  "a"%string <> ""%string /\
  find_token [""; "a"]%string "a" 0 = Some ""%string /\
  forall fuel, encodeCustom fuel "a" [""; "a"]%string abc_index = None.
Proof.
  assert (H1 : "a"%string <> ""%string) by discriminate.
  assert (H2 : find_token [""; "a"]%string "a" 0 = Some ""%string) by reflexivity.
  split; [exact H1|]. split; [exact H2|].
  exact (encodeCustom_empty_token_loops "a" [""; "a"]%string abc_index H1 H2).
Defined.



Lemma string_drop_all (i : nat) (text : string) :
  String.length text <= i -> string_drop i text = ""%string.
Proof.
  intros Hi. pose proof (length_string_drop i text) as Hl.
  destruct (string_drop i text); [reflexivity|]. cbn in Hl. lia.
Qed.

Lemma string_drop_head (i : nat) (text : string) :
  i < String.length text ->
  exists c rest, string_drop i text = String c rest /\
                 In c (String.list_ascii_of_string text).
Proof.
  revert text. induction i as [|i IH]; intros text Hi.
  - destruct text as [|c text]; [cbn in Hi; lia|].
    exists c, text. split; [reflexivity|]. cbn [String.list_ascii_of_string].
    now left.
  - destruct text as [|c text]; [cbn in Hi; lia|]. cbn [String.length] in Hi.
    destruct (IH text ltac:(lia)) as (c' & rest & Hd & Hin).
    exists c', rest. split; [exact Hd|]. cbn [String.list_ascii_of_string].
    right. exact Hin.
Qed.

Lemma prefix_one (c : Ascii.ascii) (rest : string) :
  String.prefix (String c "") (String c rest) = true.
Proof.
  cbn [String.prefix]. destruct (Ascii.ascii_dec c c); [|congruence].
  now destruct rest.
Qed.

Lemma decode_ids_snoc vocab encoded id :
  decode_ids vocab (encoded ++ [id]) =
    decode_ids vocab encoded +:+ or_undefined (token_at vocab id).
Proof. unfold decode_ids. rewrite List.map_app. cbn [map]. apply join_snoc. Qed.

Lemma encodeCustom_loop_round_trip text vocab tokenToIndex (n i : nat)
    (encoded : list (option nat)) :
  ~ In ""%string vocab -> covers_characters vocab text ->
  indexes vocab tokenToIndex ->
  String.length text - i <= n -> i <= String.length text ->
  decode_ids vocab encoded +:+ string_drop i text = text ->
  Forall (valid_id vocab) encoded ->
  exists ids,
    (forall fuel, n < fuel ->
       encodeCustom_loop fuel text vocab tokenToIndex i encoded = Some ids) /\
    decode_ids vocab ids = text /\ Forall (valid_id vocab) ids.
Proof.
  intros Hne Hcov Hidx. revert i encoded.
  induction n as [|n IH]; intros i encoded Hn Hi Hinv Hval.
  - exists encoded. split; [|split; [|assumption]].
    + intros [|fuel] Hf; [lia|]. cbn [encodeCustom_loop].
      destruct (Nat.ltb_spec i (String.length text)) as [?|_]; [lia|]. reflexivity.
    + rewrite string_drop_all in Hinv by lia. now rewrite append_empty_r in Hinv.
  - destruct (Nat.ltb_spec i (String.length text)) as [Hlt|Hge].
    + destruct (string_drop_head i text Hlt) as (c & rest & Hd & Hc).
      destruct (find_token vocab text i) as [token|] eqn:Hfind.
      * destruct (find_token_Some _ _ _ _ Hfind) as (k & Hk & Hm & _).
        assert (Hin : In token vocab) by (eapply lookup_In; eassumption).
        assert (Hlen : 1 <= String.length token).
        { apply nonempty_length. now intros ->. }
        assert (Hfit : String.length token <= String.length text - i).
        { rewrite <- length_string_drop. now apply prefix_length. }
        destruct (Hidx token Hin) as (idx & Hidx1 & Hidx2).
        destruct (IH (i + String.length token) (encoded ++ [tokenToIndex !! token])
                    ltac:(lia) ltac:(lia)) as (ids & Hids & Hdec & Hv).
        { rewrite decode_ids_snoc, Hidx1. cbn [token_at mbind option_bind].
          rewrite Hidx2. cbn [or_undefined]. rewrite append_assoc.
          now rewrite <- (startsWith_split text token i Hm). }
        { apply Forall_app. split; [assumption|]. constructor; [|constructor].
          exists idx. split; [assumption|]. eapply lookup_lt_Some; eassumption. }
        exists ids. split; [|auto].
        intros [|fuel] Hf; [lia|]. cbn [encodeCustom_loop].
        destruct (Nat.ltb_spec i (String.length text)) as [_|?]; [|lia].
        rewrite Hfind. apply Hids. lia.
      * exfalso. rewrite find_token_None in Hfind.
        specialize (Hfind (String c "") (Hcov c Hc)).
        unfold startsWith in Hfind. rewrite Hd, prefix_one in Hfind. discriminate.
    + exists encoded. split; [|split; [|assumption]].
      * intros [|fuel] Hf; [lia|]. cbn [encodeCustom_loop].
        destruct (Nat.ltb_spec i (String.length text)) as [?|_]; [lia|]. reflexivity.
      * rewrite string_drop_all in Hinv by lia. now rewrite append_empty_r in Hinv.
Qed.

(** X17: [encodeCustom] and the reading of ids are inverse to each other
    on a text whose characters are all tokens: when the vocabulary holds
    every character of the text and no empty token, and [tokenToIndex]
    maps each token to a place where the vocabulary holds it, the ids that
    [encodeCustom] returns, read back as [vocab[id]] and joined, are the
    text, and each of them is a place of the vocabulary (none is
    [undefined]). *)
Theorem encodeCustom_round_trip (text : string) (vocab : list string)
    (tokenToIndex : gmap string nat)
    (Hne : ~ In ""%string vocab)
    (Hcov : covers_characters vocab text)
    (Hidx : indexes vocab tokenToIndex) :
  exists ids,
    (forall fuel, String.length text < fuel ->
       encodeCustom fuel text vocab tokenToIndex = Some ids) /\
    decode_ids vocab ids = text /\
    Forall (valid_id vocab) ids.
Proof.
  destruct (encodeCustom_loop_round_trip text vocab tokenToIndex
              (String.length text) 0 [] Hne Hcov Hidx ltac:(lia) ltac:(lia)
              eq_refl ltac:(constructor)) as (ids & Hids & Hdec & Hval).
  exists ids. split; [|split; assumption].
  intros fuel Hf. unfold encodeCustom. now apply Hids.
Qed.

Lemma abc_covers : covers_characters abc_vocab "abcab".
Proof.
  intros c Hc. cbn in Hc. unfold abc_vocab. cbn.
  destruct Hc as [<-|[<-|[<-|[<-|[<-|[]]]]]]; auto.
Qed.

Lemma abc_indexes : indexes abc_vocab abc_index.
Proof.
  intros token Hin. unfold abc_vocab in Hin. cbn in Hin.
  destruct Hin as [<-|[<-|[<-|[]]]];
    [exists 0 | exists 1 | exists 2]; split; reflexivity.
Qed.

Lemma encodeCustom_round_trip_witness :
  ~ In ""%string abc_vocab /\ covers_characters abc_vocab "abcab" /\
  indexes abc_vocab abc_index /\
  exists ids,
    (forall fuel, String.length "abcab" < fuel ->
       encodeCustom fuel "abcab" abc_vocab abc_index = Some ids) /\
    decode_ids abc_vocab ids = "abcab"%string /\
    Forall (valid_id abc_vocab) ids.
Proof.
  split; [apply abc_no_empty_token|]. split; [apply abc_covers|].
  split; [apply abc_indexes|].
  apply (encodeCustom_round_trip "abcab" abc_vocab abc_index
           abc_no_empty_token abc_covers abc_indexes).
Defined.

(* ===================================================================== *)
(** * Properties of byte-pair encoding *)
(* ===================================================================== *)

(** *** [merge] *)

Lemma merge_cons2 a b rest pair idx :
  merge (a :: b :: rest) pair idx =
    if (a =? pair.1) && (b =? pair.2) then idx :: merge rest pair idx
    else a :: merge (b :: rest) pair idx.
Proof. reflexivity. Qed.

(** An induction over [ids] that follows the loop of [merge]. *)
Lemma merge_ind (pair : Pair) (P : list nat -> Prop) :
  P [] -> (forall a, P [a]) ->
  (forall a b rest, a = pair.1 -> b = pair.2 -> P rest -> P (a :: b :: rest)) ->
  (forall a b rest, ~ (a = pair.1 /\ b = pair.2) -> P (b :: rest) ->
     P (a :: b :: rest)) ->
  forall ids, P ids.
Proof.
  intros H0 H1 Hm Hc ids.
  assert (H : forall n ids, length ids <= n -> P ids).
  { clear ids. induction n as [|n IH]; intros ids Hn.
    - destruct ids; [assumption|cbn in Hn; lia].
    - destruct ids as [|a [|b rest]]; auto.
      destruct (Nat.eq_dec a pair.1) as [Ha|Ha];
        [destruct (Nat.eq_dec b pair.2) as [Hb|Hb]|].
      + apply Hm; auto. apply IH. cbn in Hn. lia.
      + apply Hc; [tauto|]. apply IH. cbn in *. lia.
      + apply Hc; [tauto|]. apply IH. cbn in *. lia. }
  apply (H (length ids)). lia.
Qed.

Lemma merge_hit a b rest pair idx :
  a = pair.1 -> b = pair.2 ->
  merge (a :: b :: rest) pair idx = idx :: merge rest pair idx.
Proof.
  intros -> ->. rewrite merge_cons2, !Nat.eqb_refl. reflexivity.
Qed.

Lemma merge_miss a b rest pair idx :
  ~ (a = pair.1 /\ b = pair.2) ->
  merge (a :: b :: rest) pair idx = a :: merge (b :: rest) pair idx.
Proof.
  intros Hne. rewrite merge_cons2.
  destruct (Nat.eqb_spec a pair.1); destruct (Nat.eqb_spec b pair.2);
    cbn [andb]; tauto.
Qed.

Lemma merge_length ids pair idx : length (merge ids pair idx) <= length ids.
Proof.
  induction ids as [|a0|a0 b0 rest Ea Eb IH|a0 b0 rest Hne IH] using (merge_ind pair).
  - reflexivity.
  - reflexivity.
  - rewrite merge_hit by assumption. cbn [length]. lia.
  - rewrite merge_miss by assumption. cbn [length] in *. lia.
Qed.

Lemma merge_unmerge ids pair idx :
  ~ In idx ids -> unmerge pair idx (merge ids pair idx) = ids.
Proof.
  unfold unmerge.
  induction ids as [|a0|a0 b0 rest Ea Eb IH|a0 b0 rest Hne IH] using (merge_ind pair); intros Hfresh.
  - reflexivity.
  - cbn. destruct (Nat.eqb_spec a0 idx) as [->|]; [|reflexivity].
    exfalso. apply Hfresh. now left.
  - rewrite merge_hit by assumption. cbn [flat_map]. rewrite Nat.eqb_refl.
    rewrite IH by (intros Hin; apply Hfresh; right; now right).
    subst. reflexivity.
  - rewrite merge_miss by assumption. cbn [flat_map].
    destruct (Nat.eqb_spec a0 idx) as [->|];
      [exfalso; apply Hfresh; now left|].
    rewrite IH by (intros Hin; apply Hfresh; now right). reflexivity.
Qed.

Lemma adjacent_cons ids x a b :
  adjacent (x :: ids) a b <->
  (match ids with y :: _ => x = a /\ y = b | [] => False end) \/ adjacent ids a b.
Proof.
  unfold adjacent. split.
  - intros ([|k] & Hk & Hk').
    + left. cbn in Hk, Hk'. destruct ids; [discriminate|].
      cbn in Hk'. split; congruence.
    + right. exists k. auto.
  - intros [Hh|(k & Hk & Hk')].
    + destruct ids as [|y ids]; [destruct Hh|]. destruct Hh as (-> & ->).
      now exists 0.
    + exists (S k). auto.
Qed.

Lemma merge_head ids pair idx :
  match merge ids pair idx with
  | [] => ids = []
  | x :: _ => x = idx \/ exists rest, ids = x :: rest
  end.
Proof.
  destruct ids as [|a [|b rest]]; [reflexivity|right; now exists []|].
  rewrite merge_cons2. destruct (_ && _); [now left|right; eauto].
Qed.

(** No occurrence of the pair is left. *)
Lemma merge_removes ids pair idx :
  idx <> pair.1 -> idx <> pair.2 ->
  ~ adjacent (merge ids pair idx) pair.1 pair.2.
Proof.
  intros H1 H2.
  induction ids as [|a0|a0 b0 rest Ea Eb IH|a0 b0 rest Hne IH] using (merge_ind pair).
  - intros (k & Hk & _). discriminate.
  - intros ([|k] & Hk & Hk'); discriminate.
  - rewrite merge_hit by assumption. rewrite adjacent_cons.
    intros [Hh|Hadj]; [|contradiction].
    destruct (merge rest pair idx); [assumption|]. destruct Hh. congruence.
  - rewrite merge_miss by assumption. rewrite adjacent_cons.
    intros [Hh|Hadj]; [|contradiction].
    pose proof (merge_head (b0 :: rest) pair idx) as Hhead.
    destruct (merge (b0 :: rest) pair idx) as [|y r]; [assumption|].
    destruct Hh as (-> & ->).
    destruct Hhead as [Hy|(r' & Hr')]; [congruence|].
    injection Hr' as -> _. tauto.
Qed.

(** [merge] brings in no adjacency between two ids other than [idx]. *)
Lemma merge_adjacent ids pair idx a b :
  a <> idx -> b <> idx ->
  adjacent (merge ids pair idx) a b -> adjacent ids a b.
Proof.
  intros Ha Hb.
  induction ids as [|a0|a0 b0 rest Ea Eb IH|a0 b0 rest Hne IH] using (merge_ind pair).
  - auto.
  - auto.
  - rewrite merge_hit by assumption. rewrite adjacent_cons.
    intros [Hh|Hadj].
    + destruct (merge rest pair idx); [destruct Hh|]. destruct Hh. congruence.
    + rewrite adjacent_cons. right. rewrite adjacent_cons. right. auto.
  - rewrite merge_miss by assumption. rewrite !adjacent_cons.
    intros [Hh|Hadj]; [|right; rewrite <- adjacent_cons; auto].
    pose proof (merge_head (b0 :: rest) pair idx) as Hhead.
    destruct (merge (b0 :: rest) pair idx) as [|y r]; [destruct Hh|].
    destruct Hh as (-> & ->).
    destruct Hhead as [Hy|(r' & Hr')]; [congruence|].
    injection Hr' as -> _. left. auto.
Qed.

Lemma merge_In ids pair idx x :
  In x (merge ids pair idx) -> x = idx \/ In x ids.
Proof.
  induction ids as [|a0|a0 b0 rest Ea Eb IH|a0 b0 rest Hne IH] using (merge_ind pair).
  - auto.
  - auto.
  - rewrite merge_hit by assumption. intros [<-|Hin]; [now left|].
    destruct (IH Hin); [now left|]. right. right. now right.
  - rewrite merge_miss by assumption. intros [<-|Hin]; [right; now left|].
    destruct (IH Hin); [now left|]. right. now right.
Qed.

(** A pair that occurs makes the result shorter. *)
Lemma merge_shortens ids pair idx :
  adjacent ids pair.1 pair.2 -> length (merge ids pair idx) < length ids.
Proof.
  induction ids as [|a0|a0 b0 rest Ea Eb IH|a0 b0 rest Hne IH] using (merge_ind pair).
  - intros (k & Hk & _). discriminate.
  - intros ([|k] & Hk & Hk'); discriminate.
  - intros _. rewrite merge_hit by assumption. cbn [length].
    pose proof (merge_length rest pair idx). lia.
  - rewrite merge_miss by assumption. rewrite adjacent_cons.
    intros [(-> & ->)|Hadj]; [tauto|]. cbn [length] in *.
    specialize (IH Hadj). lia.
Qed.

(** *** [getStats] *)

Lemma map_get_set (m : PairMap) (k k' : Pair) (v : nat) :
  map_get (map_set m k v) k' = if decide (k = k') then Some v else map_get m k'.
Proof.
  induction m as [|[k0 v0] m IH]; cbn [map_set map_get].
  - destruct (decide (k = k')); reflexivity.
  - destruct (decide (k0 = k)) as [->|Hne]; cbn [map_get].
    + destruct (decide (k = k')); reflexivity.
    + destruct (decide (k0 = k')) as [->|Hne'].
      * rewrite decide_False by congruence. reflexivity.
      * apply IH.
Qed.

Lemma occurrences_cons2 a b rest pair :
  occurrences (a :: b :: rest) pair =
    (if (a =? pair.1) && (b =? pair.2) then 1 else 0) + occurrences (b :: rest) pair.
Proof. reflexivity. Qed.

Lemma getStats_loop_cons2 a b rest counts :
  getStats_loop (a :: b :: rest) counts =
    getStats_loop (b :: rest)
      (map_set counts (a, b) (default 0 (map_get counts (a, b)) + 1)).
Proof. reflexivity. Qed.

(** The count of a pair after the loop: what it was, plus the occurrences
    of the pair from the head of [ids] on. *)
Lemma getStats_loop_count ids counts pair :
  default 0 (map_get (getStats_loop ids counts) pair) =
    default 0 (map_get counts pair) + occurrences ids pair.
Proof.
  revert counts. induction ids as [|a ids IH]; intros counts.
  { cbn [getStats_loop occurrences]. now rewrite Nat.add_0_r. }
  destruct ids as [|b rest].
  { cbn [getStats_loop occurrences]. now rewrite Nat.add_0_r. }
  rewrite getStats_loop_cons2, IH, occurrences_cons2, map_get_set.
  destruct pair as [p0 p1]. cbn [fst snd].
  destruct (decide _) as [[= -> ->]|Hne].
  - rewrite !Nat.eqb_refl. cbn [andb from_option]. unfold Datatypes.id. lia.
  - destruct (Nat.eqb_spec a p0); destruct (Nat.eqb_spec b p1);
      cbn [andb]; try lia. congruence.
Qed.

(** A key that the loop leaves in the [Map] has a count that is not 0,
    when that held before. *)
Lemma getStats_loop_positive ids counts pair n :
  (forall k v, map_get counts k = Some v -> 0 < v) ->
  map_get (getStats_loop ids counts) pair = Some n -> 0 < n.
Proof.
  revert counts. induction ids as [|a ids IH]; intros counts Hpos; [apply Hpos|].
  destruct ids as [|b rest]; [apply Hpos|].
  rewrite getStats_loop_cons2. apply IH.
  intros k v. rewrite map_get_set. destruct (decide _); [|apply Hpos].
  intros [= <-]. lia.
Qed.

Lemma occurrences_adjacent ids pair :
  0 < occurrences ids pair <-> adjacent ids pair.1 pair.2.
Proof.
  induction ids as [|a ids IH].
  - cbn. split; [lia|]. intros (k & Hk & _). discriminate.
  - destruct ids as [|b rest].
    + cbn. split; [lia|]. intros ([|k] & Hk & Hk'); discriminate.
    + rewrite occurrences_cons2, adjacent_cons.
      destruct (Nat.eqb_spec a pair.1); destruct (Nat.eqb_spec b pair.2);
        cbn [andb]; rewrite <- IH; split; try tauto; try lia.
      all: intros [[? ?]|?]; try congruence; lia.
Qed.

(** *** The most frequent pair *)

Lemma top_fold_spec (es : list (Pair * nat)) (e : Pair * nat) :
  let top := fold_left (fun a b => if (b.2 <? a.2) then a else b) es e in
  In top (e :: es) /\ (forall e', In e' (e :: es) -> e'.2 <= top.2).
Proof.
  revert e. induction es as [|x es IH]; intros e; cbn [fold_left].
  - split; [now left|]. intros e' [<-|[]]. lia.
  - destruct (IH (if x.2 <? e.2 then e else x)) as (Hin & Hmax).
    cbv zeta. split.
    + destruct Hin as [Heq|Hin]; [|right; now right].
      rewrite <- Heq. destruct (x.2 <? e.2); [now left|right; now left].
    + intros e' [<-|[<-|Hin']].
      * etransitivity; [|apply Hmax; now left].
        destruct (Nat.ltb_spec x.2 e.2); lia.
      * etransitivity; [|apply Hmax; now left].
        destruct (Nat.ltb_spec x.2 e.2); lia.
      * apply Hmax. now right.
Qed.

Lemma map_get_In (m : PairMap) (k : Pair) (v : nat) :
  In (k, v) m -> exists v', map_get m k = Some v'.
Proof.
  induction m as [|[k0 v0] m IH]; intros []; cbn [map_get].
  - injection H as -> ->. rewrite decide_True by reflexivity. eauto.
  - destruct (decide (k0 = k)); eauto.
Qed.

Lemma map_set_keys (m : PairMap) (k : Pair) (v : nat) :
  List.NoDup (map fst m) -> List.NoDup (map fst (map_set m k v)) /\
  (forall k', In k' (map fst (map_set m k v)) <-> k' = k \/ In k' (map fst m)).
Proof.
  induction m as [|[k0 v0] m IH]; intros Hnd; cbn [map_set map fst].
  - split; [constructor; [intros []|constructor]|]. intros k'. cbn. intuition congruence.
  - inversion Hnd as [|? ? Hnot Hnd']; subst.
    destruct (decide (k0 = k)) as [->|Hne]; cbn [map fst].
    + split; [assumption|]. intros k'. cbn. intuition congruence.
    + destruct (IH Hnd') as (Hnd1 & Hkeys). split.
      * constructor; [|assumption]. rewrite Hkeys. intuition congruence.
      * intros k'. cbn [In]. rewrite Hkeys. intuition congruence.
Qed.

Lemma map_get_NoDup (m : PairMap) (k : Pair) (v : nat) :
  List.NoDup (map fst m) -> In (k, v) m -> map_get m k = Some v.
Proof.
  induction m as [|[k0 v0] m IH]; intros Hnd []; cbn [map_get].
  - injection H as -> ->. now rewrite decide_True.
  - inversion Hnd as [|? ? Hnot Hnd']; subst.
    destruct (decide (k0 = k)) as [->|Hne]; [|auto].
    exfalso. apply Hnot. cbn. apply List.in_map_iff. exists (k, v). auto.
Qed.

Lemma getStats_loop_NoDup ids counts :
  List.NoDup (map fst counts) -> List.NoDup (map fst (getStats_loop ids counts)).
Proof.
  revert counts. induction ids as [|a ids IH]; intros counts Hnd; [assumption|].
  destruct ids as [|b rest]; [assumption|].
  rewrite getStats_loop_cons2. apply IH. now apply map_set_keys.
Qed.

Lemma merge_absent ids pair idx :
  ~ adjacent ids pair.1 pair.2 -> merge ids pair idx = ids.
Proof.
  induction ids as [|a0|a0 b0 rest Ea Eb IH|a0 b0 rest Hne IH] using (merge_ind pair).
  - reflexivity.
  - reflexivity.
  - intros Hno. exfalso. apply Hno. rewrite adjacent_cons. left. auto.
  - intros Hno. rewrite merge_miss by assumption. f_equal. apply IH.
    intros Hadj. apply Hno. rewrite adjacent_cons. now right.
Qed.

(** X19: [merge(ids, pair, idx)] with an [idx] that [ids] does not hold and
    that is none of the two ids of [pair]: putting the pair back for every
    [idx] gives [ids] again, no occurrence of the pair is left, the result
    is shorter than [ids] when the pair occurs and is [ids] when it does
    not. *)
Theorem merge_replaces_pair (ids : list nat) (pair : Pair) (idx : nat)
    (Hfresh : ~ In idx ids) (H1 : idx <> pair.1) (H2 : idx <> pair.2) :
  unmerge pair idx (merge ids pair idx) = ids /\
  ~ adjacent (merge ids pair idx) pair.1 pair.2 /\
  (adjacent ids pair.1 pair.2 -> length (merge ids pair idx) < length ids) /\
  (~ adjacent ids pair.1 pair.2 -> merge ids pair idx = ids).
Proof.
  split; [now apply merge_unmerge|].
  split; [now apply merge_removes|].
  split; [apply merge_shortens|apply merge_absent].
Qed.

Lemma merge_replaces_pair_witness :
  ~ In 256 [7; 7; 7; 8; 7; 7] /\ 256 <> (7, 7).1 /\ 256 <> (7, 7).2 /\
  unmerge (7, 7) 256 (merge [7; 7; 7; 8; 7; 7] (7, 7) 256) = [7; 7; 7; 8; 7; 7] /\
  ~ adjacent (merge [7; 7; 7; 8; 7; 7] (7, 7) 256) 7 7.
Proof.
  assert (Hfresh : ~ In 256 [7; 7; 7; 8; 7; 7]).
  { cbn [In]. intros H. repeat (destruct H as [H|H]; [discriminate H|]). exact H. }
  assert (H1 : 256 <> (7, 7).1) by discriminate.
  assert (H2 : 256 <> (7, 7).2) by discriminate.
  split; [exact Hfresh|]. split; [exact H1|]. split; [exact H2|].
  destruct (merge_replaces_pair [7; 7; 7; 8; 7; 7] (7, 7) 256 Hfresh H1 H2)
    as (Hu & Hr & _).
  split; [exact Hu|exact Hr].
Defined.

Lemma getStats_get (ids : list nat) (pair : Pair) (n : nat) :
  map_get (getStats ids) pair = Some n <-> n = occurrences ids pair /\ 0 < n.
Proof.
  pose proof (getStats_loop_count ids [] pair) as Hc.
  change (getStats_loop ids []) with (getStats ids) in Hc.
  cbn [map_get from_option] in Hc. split.
  - intros Hget. rewrite Hget in Hc. cbn [from_option] in Hc. unfold Datatypes.id in Hc.
    split; [exact Hc|].
    apply (getStats_loop_positive ids [] pair n); [|exact Hget].
    intros k v Hk. discriminate Hk.
  - intros (-> & Hpos). destruct (map_get (getStats ids) pair) as [v|] eqn:Hget.
    + cbn [from_option] in Hc. unfold Datatypes.id in Hc. now rewrite Hc.
    + cbn [from_option] in Hc. lia.
Qed.

Lemma getStats_empty (ids : list nat) : getStats ids = [] <-> length ids <= 1.
Proof.
  split.
  - intros Hempty. destruct ids as [|a [|b rest]]; cbn [length]; try lia.
    exfalso. pose proof (getStats_loop_count (a :: b :: rest) [] (a, b)) as Hc.
    change (getStats_loop (a :: b :: rest) []) with (getStats (a :: b :: rest)) in Hc.
    rewrite Hempty, occurrences_cons2 in Hc. cbn [fst snd map_get from_option] in Hc.
    rewrite !Nat.eqb_refl in Hc. cbn [andb] in Hc. lia.
  - intros Hlen. destruct ids as [|a [|b rest]]; [reflexivity|reflexivity|].
    cbn [length] in Hlen. lia.
Qed.

(** X20: [getStats(ids)] holds a pair exactly when the pair occurs in
    [ids], and its count is the number of places where it occurs; the
    [Map] is empty exactly when [ids] has fewer than two ids. *)
Theorem getStats_counts_occurrences (ids : list nat) (pair : Pair) (n : nat) :
  (map_get (getStats ids) pair = Some n <-> n = occurrences ids pair /\ 0 < n) /\
  (0 < occurrences ids pair <-> adjacent ids pair.1 pair.2) /\
  (getStats ids = [] <-> length ids <= 1).
Proof.
  split; [apply getStats_get|].
  split; [apply occurrences_adjacent|apply getStats_empty].
Qed.

Lemma In_getStats ids k v :
  In (k, v) (getStats ids) -> v = occurrences ids k /\ 0 < v.
Proof.
  intros Hin. apply (getStats_get ids k v).
  apply map_get_NoDup; [|exact Hin].
  apply getStats_loop_NoDup. constructor.
Qed.

(** The entry that [reduce] returns is one of the [Map], and none has a
    larger count. *)
Lemma top_entry_In ids p n :
  top_entry (getStats ids) = Some (p, n) ->
  In (p, n) (getStats ids) /\ forall e, In e (getStats ids) -> e.2 <= n.
Proof.
  unfold top_entry. destruct (getStats ids) as [|e es] eqn:Hstats; [discriminate|].
  intros [= Htop]. destruct (top_fold_spec es e) as (Hin & Hmax).
  cbv zeta in Hin, Hmax. rewrite Htop in Hin, Hmax. auto.
Qed.

Lemma top_entry_adjacent ids p n :
  top_entry (getStats ids) = Some (p, n) -> adjacent ids p.1 p.2.
Proof.
  intros Htop. destruct (top_entry_In _ _ _ Htop) as (Hin & _).
  destruct (In_getStats ids p n Hin) as (Hn & Hpos).
  apply occurrences_adjacent. lia.
Qed.

(** X21: the pair that a pass of the training takes from the counts is one
    that occurs in [ids] and no pair occurs at more places; its count is
    the number of these places. *)
Theorem top_pair_is_most_frequent (ids : list nat) (p : Pair) (n : nat)
    (Htop : top_entry (getStats ids) = Some (p, n)) :
  n = occurrences ids p /\ 0 < n /\ adjacent ids p.1 p.2 /\
  forall q, occurrences ids q <= n.
Proof.
  destruct (top_entry_In _ _ _ Htop) as (Hin & Hmax).
  destruct (In_getStats ids p n Hin) as (Hn & Hpos).
  split; [exact Hn|]. split; [exact Hpos|].
  split; [apply occurrences_adjacent; lia|].
  intros q. destruct (Nat.eq_dec (occurrences ids q) 0) as [->|Hq]; [lia|].
  assert (Hget : map_get (getStats ids) q = Some (occurrences ids q)).
  { apply (getStats_get ids q). split; [reflexivity|lia]. }
  assert (Hinq : In (q, occurrences ids q) (getStats ids)).
  { clear -Hget. induction (getStats ids) as [|[k0 v0] m IH]; [discriminate|].
    cbn [map_get] in Hget. destruct (decide (k0 = q)) as [->|Hne].
    - injection Hget as ->. now left.
    - right. auto. }
  apply (Hmax _ Hinq).
Qed.

Lemma top_pair_is_most_frequent_witness :
  top_entry (getStats [1; 2; 3; 1; 2; 3]) = Some ((2, 3), 2) /\
  2 = occurrences [1; 2; 3; 1; 2; 3] (2, 3) /\
  forall q, occurrences [1; 2; 3; 1; 2; 3] q <= 2.
Proof.
  assert (Htop : top_entry (getStats [1; 2; 3; 1; 2; 3]) = Some ((2, 3), 2))
    by reflexivity.
  split; [exact Htop|].
  destruct (top_pair_is_most_frequent _ _ _ Htop) as (Hn & _ & _ & Hmax).
  split; [exact Hn|exact Hmax].
Defined.

(** *** Training *)

Lemma utf8_unit_bytes c : Forall (fun b => b < 256) (utf8_unit c).
Proof.
  unfold utf8_unit. pose proof (Ascii.nat_ascii_bounded c) as Hc.
  destruct (Nat.ltb_spec (Ascii.nat_of_ascii c) 128).
  - constructor; [cbn beta; lia|constructor].
  - assert (Ascii.nat_of_ascii c / 64 < 4) by (apply Nat.Div0.div_lt_upper_bound; lia).
    pose proof (Nat.mod_upper_bound (Ascii.nat_of_ascii c) 64).
    constructor; [cbn beta; lia|constructor; [cbn beta; lia|constructor]].
Qed.

Lemma textEncode_bytes text : Forall (fun b => b < 256) (textEncode text).
Proof.
  unfold textEncode. induction (String.list_ascii_of_string text) as [|c l IH].
  - constructor.
  - cbn [flat_map]. apply Forall_app. split; [apply utf8_unit_bytes|exact IH].
Qed.

Lemma fold_insert_lookup (l : list nat) (m : gmap nat (list nat)) (b : nat) :
  fold_left (fun m i => <[i := [i]]> m) l m !! b =
    if in_dec Nat.eq_dec b l then Some [b] else m !! b.
Proof.
  revert m. induction l as [|x l IH]; intros m; cbn [fold_left].
  - destruct (in_dec _ _ _) as [[]|]; reflexivity.
  - rewrite IH. destruct (in_dec Nat.eq_dec b l) as [Hin|Hnin];
      destruct (in_dec Nat.eq_dec b (x :: l)) as [Hin'|Hnin']; try reflexivity.
    + exfalso. apply Hnin'. now right.
    + destruct Hin' as [->|]; [apply lookup_insert_eq|contradiction].
    + apply lookup_insert_ne. intros ->. apply Hnin'. now left.
Qed.

Lemma initial_byteVocab_lookup b :
  initial_byteVocab !! b = if decide (b < 256) then Some [b] else None.
Proof.
  unfold initial_byteVocab. rewrite fold_insert_lookup.
  destruct (in_dec Nat.eq_dec b (seq 0 256)) as [Hin|Hnin];
    rewrite in_seq in *.
  - rewrite decide_True by lia. reflexivity.
  - rewrite decide_False by lia. reflexivity.
Qed.

Lemma map_set_fresh (m : PairMap) (k : Pair) (v : nat) :
  ~ In k (map fst m) -> map_set m k v = m ++ [(k, v)].
Proof.
  induction m as [|[k0 v0] m IH]; intros Hk; cbn [map_set]; [reflexivity|].
  cbn [map fst In] in Hk. rewrite decide_False by tauto.
  rewrite IH by tauto. reflexivity.
Qed.

Lemma adjacent_In ids a b : adjacent ids a b -> In a ids /\ In b ids.
Proof.
  intros (k & Hk & Hk'). split; eapply lookup_In; eassumption.
Qed.

Lemma merge_decode (bv : gmap nat (list nat)) ids pair idx :
  bytes_of bv idx = bytes_of bv pair.1 ++ bytes_of bv pair.2 ->
  decode_bytes bv (merge ids pair idx) = decode_bytes bv ids.
Proof.
  intros Hb. unfold decode_bytes.
  induction ids as [|a0|a0 b0 rest Ea Eb IH|a0 b0 rest Hne IH] using (merge_ind pair).
  - reflexivity.
  - reflexivity.
  - rewrite merge_hit by assumption. cbn [flat_map]. rewrite IH, Hb. subst.
    now rewrite <- app_assoc.
  - rewrite merge_miss by assumption. cbn [flat_map] in *. now rewrite IH.
Qed.

Lemma bytes_of_insert_ne (bv : gmap nat (list nat)) idx bytes p :
  p <> idx -> bytes_of (<[idx := bytes]> bv) p = bytes_of bv p.
Proof. intros Hne. unfold bytes_of. now rewrite lookup_insert_ne. Qed.

Lemma bytes_of_insert_eq (bv : gmap nat (list nat)) idx bytes :
  bytes_of (<[idx := bytes]> bv) idx = bytes.
Proof. unfold bytes_of. now rewrite lookup_insert_eq. Qed.

(** One pass of the loop keeps what [bpe_inv] says. *)
Lemma bpe_inv_step text i st topPair n :
  bpe_inv text i st ->
  top_entry (getStats (bpe_ids st)) = Some (topPair, n) ->
  bpe_inv text (S i)
    (mkBPE (merge (bpe_ids st) topPair (256 + i))
       (map_set (bpe_merges st) topPair (256 + i))
       (<[256 + i := bytes_of (bpe_byteVocab st) topPair.1 ++
                       bytes_of (bpe_byteVocab st) topPair.2]> (bpe_byteVocab st))).
Proof.
  intros (Hids & Hbytes & Hkeys & Hent & Hsnd & Hnd & Hfold & Hlen) Htop.
  pose proof (top_entry_adjacent _ _ _ Htop) as Hadj.
  destruct (adjacent_In _ _ _ Hadj) as (Hin1 & Hin2).
  rewrite List.Forall_forall in Hids.
  pose proof (Hids _ Hin1) as Hp1. pose proof (Hids _ Hin2) as Hp2.
  cbn beta in Hp1, Hp2.
  assert (Hnew : ~ In topPair (map fst (bpe_merges st))).
  { intros Hin. apply List.in_map_iff in Hin. destruct Hin as ([k v] & Hk & Hin).
    cbn [fst] in Hk. subst k. destruct (Hent _ Hin) as (_ & _ & _ & _ & Hno).
    now apply Hno. }
  rewrite (map_set_fresh _ _ _ Hnew).
  unfold bpe_inv. cbn [bpe_ids bpe_merges bpe_byteVocab].
  split; [|split; [|split; [|split; [|split; [|split; [|split]]]]]].
  - apply List.Forall_forall. intros x Hx.
    destruct (merge_In _ _ _ _ Hx) as [->|Hin]; [lia|].
    specialize (Hids _ Hin). cbn beta in Hids. lia.
  - intros b Hb. rewrite lookup_insert_ne by lia. now apply Hbytes.
  - intros id. destruct (decide (id = 256 + i)) as [->|Hne].
    + rewrite lookup_insert_eq. split; [lia|eauto].
    + rewrite lookup_insert_ne by congruence. rewrite Hkeys. lia.
  - intros e Hin. apply in_app_or in Hin. destruct Hin as [Hin|[<-|[]]].
    + destruct (Hent _ Hin) as (H1 & H2 & H3 & H4 & H5).
      unfold merge_entry_ok. cbn [bpe_ids bpe_byteVocab].
      rewrite !bytes_of_insert_ne by lia.
      split; [exact H1|]. split; [exact H2|]. split; [lia|]. split; [exact H4|].
      intros Hadj'. apply H5. apply (merge_adjacent _ topPair (256 + i)); [lia|lia|exact Hadj'].
    + unfold merge_entry_ok. cbn [fst snd bpe_ids bpe_byteVocab].
      rewrite bytes_of_insert_eq, !bytes_of_insert_ne by lia.
      split; [lia|]. split; [lia|]. split; [lia|]. split; [reflexivity|].
      apply merge_removes; lia.
  - rewrite List.map_app, Hsnd. cbn [map snd]. now rewrite seq_S.
  - rewrite List.map_app. cbn [map fst]. apply List.NoDup_app; [exact Hnd| |].
    + constructor; [intros []|constructor].
    + intros a Ha [<-|[]]. contradiction.
  - rewrite fold_left_app. cbn [fold_left fst snd]. now rewrite <- Hfold.
  - pose proof (merge_shortens _ _ (256 + i) Hadj). lia.
Qed.

(** The loop from a state that satisfies [bpe_inv]: it ends after some
    [j] passes in a state that satisfies it, with [j] the number of passes
    asked for unless fewer than two ids are left. *)
Lemma trainBPE_loop_inv text n i st :
  bpe_inv text i st ->
  exists j, j <= n /\ bpe_inv text (i + j) (trainBPE_loop n i st) /\
    (j = n \/ length (bpe_ids (trainBPE_loop n i st)) <= 1).
Proof.
  revert i st. induction n as [|n IH]; intros i st Hinv; cbn [trainBPE_loop].
  - exists 0. rewrite Nat.add_0_r. auto.
  - cbv zeta. destruct (top_entry (getStats (bpe_ids st))) as [[topPair c]|] eqn:Htop.
    + destruct (IH _ _ (bpe_inv_step _ _ _ _ _ Hinv Htop)) as (j & Hj & Hinv' & Hend).
      exists (S j). split; [lia|]. split.
      * replace (i + S j) with (S i + j) by lia. exact Hinv'.
      * destruct Hend; [left; lia|now right].
    + exists 0. rewrite Nat.add_0_r. split; [lia|]. split; [exact Hinv|].
      right. apply getStats_empty. unfold top_entry in Htop.
      destruct (getStats (bpe_ids st)); [reflexivity|discriminate].
Qed.

Lemma bpe_inv_init text : bpe_inv text 0 (mkBPE (textEncode text) [] initial_byteVocab).
Proof.
  unfold bpe_inv. cbn [bpe_ids bpe_merges bpe_byteVocab].
  split; [|split; [|split; [|split; [|split; [|split; [|split]]]]]].
  - rewrite Nat.add_0_r. apply textEncode_bytes.
  - intros b Hb. rewrite initial_byteVocab_lookup. now rewrite decide_True.
  - intros id. rewrite initial_byteVocab_lookup, Nat.add_0_r.
    destruct (decide (id < 256)); split; intros H; try eauto; try lia.
    destruct H. discriminate.
  - intros e [].
  - reflexivity.
  - constructor.
  - reflexivity.
  - lia.
Qed.

Lemma trainBPE_inv text vocabSize :
  exists n, n <= vocabSize - 256 /\ bpe_inv text n (trainBPE text vocabSize) /\
    (n = vocabSize - 256 \/ length (bpe_ids (trainBPE text vocabSize)) <= 1).
Proof.
  unfold trainBPE. cbv zeta.
  destruct (trainBPE_loop_inv text (vocabSize - 256) 0 _ (bpe_inv_init text))
    as (j & Hj & Hinv & Hend).
  exists j. auto.
Qed.

(** X22: what [trainBPE(text, vocabSize)] has learned: the merges are
    numbered 256, 257, ... in the order of [merges], at most
    [vocabSize - 256] of them and fewer only when fewer than two ids are
    left; no pair is merged twice; the vocabulary has the ids below 256 plus
    the number of merges; every merge has made the ids shorter; and
    [encodeBPE] of the training text with the learned merges gives the ids
    that the training has ended with. *)
Theorem trainBPE_summary (text : string) (vocabSize : nat) :
  let r := trainBPE text vocabSize in
  exists n,
    n <= vocabSize - 256 /\
    map snd (bpe_merges r) = seq 256 n /\
    List.NoDup (map fst (bpe_merges r)) /\
    (forall id, is_Some (bpe_byteVocab r !! id) <-> id < 256 + n) /\
    encodeBPE text (bpe_merges r) = bpe_ids r /\
    length (bpe_ids r) + n <= length (textEncode text) /\
    (n = vocabSize - 256 \/ length (bpe_ids r) <= 1).
Proof.
  cbv zeta. destruct (trainBPE_inv text vocabSize) as (n & Hn & Hinv & Hend).
  destruct Hinv as (Hids & Hbytes & Hkeys & Hent & Hsnd & Hnd & Hfold & Hlen).
  exists n. unfold encodeBPE. rewrite <- Hfold. auto 10.
Qed.

Lemma decode_bytes_bytes (bv : gmap nat (list nat)) (ids : list nat) :
  (forall b, b < 256 -> bv !! b = Some [b]) ->
  Forall (fun b => b < 256) ids -> decode_bytes bv ids = ids.
Proof.
  intros Hbv Hids. unfold decode_bytes. induction Hids as [|b ids Hb _ IH]; [reflexivity|].
  cbn [flat_map]. unfold bytes_of at 1. rewrite (Hbv _ Hb), IH. reflexivity.
Qed.

Lemma encode_fold_facts (bv : gmap nat (list nat)) (bound : nat)
    (merges : PairMap) (ids : list nat) :
  (forall e, In e merges ->
     e.2 < bound /\ bytes_of bv e.2 = bytes_of bv e.1.1 ++ bytes_of bv e.1.2) ->
  Forall (fun x => x < bound) ids ->
  let out := fold_left (fun ids e => merge ids e.1 e.2) merges ids in
  decode_bytes bv out = decode_bytes bv ids /\
  Forall (fun x => x < bound) out /\ length out <= length ids.
Proof.
  revert ids. induction merges as [|[k v] merges IH]; intros ids Hent Hids;
    cbn [fold_left]; [auto|].
  cbv zeta. cbn [fst snd].
  destruct (Hent (k, v) (or_introl eq_refl)) as (Hv & Hb). cbn [fst snd] in Hv, Hb.
  destruct (IH (merge ids k v)) as (Hd & Hf & Hl).
  - intros e He. apply Hent. now right.
  - apply List.Forall_forall. intros x Hx.
    destruct (merge_In _ _ _ _ Hx) as [->|Hin]; [exact Hv|].
    rewrite List.Forall_forall in Hids. now apply Hids.
  - cbv zeta in Hd, Hf, Hl. split; [|split; [exact Hf|]].
    + rewrite Hd. now apply merge_decode.
    + pose proof (merge_length ids k v). lia.
Qed.

(** X23: with the merges and the vocabulary that [trainBPE] has learned
    from any training text, [encodeBPE] of any text gives ids that stand
    for the UTF-8 bytes of that text; every one of them is an id of the
    vocabulary, and they are no more than the bytes. *)
Theorem encodeBPE_round_trip (train : string) (vocabSize : nat) (text : string) :
  let r := trainBPE train vocabSize in
  let ids := encodeBPE text (bpe_merges r) in
  decode_bytes (bpe_byteVocab r) ids = textEncode text /\
  Forall (fun id => is_Some (bpe_byteVocab r !! id)) ids /\
  length ids <= length (textEncode text).
Proof.
  cbv zeta. destruct (trainBPE_inv train vocabSize) as (n & Hn & Hinv & Hend).
  destruct Hinv as (Hids & Hbytes & Hkeys & Hent & Hsnd & Hnd & Hfold & Hlen).
  destruct (encode_fold_facts (bpe_byteVocab (trainBPE train vocabSize)) (256 + n)
              (bpe_merges (trainBPE train vocabSize)) (textEncode text))
    as (Hd & Hf & Hl).
  - intros e He. destruct (Hent e He) as (_ & _ & H3 & H4 & _). auto.
  - eapply List.Forall_impl; [|apply textEncode_bytes]. cbn beta. intros; lia.
  - cbv zeta in Hd, Hf, Hl. unfold encodeBPE. split; [|split; [|exact Hl]].
    + rewrite Hd. apply decode_bytes_bytes; [exact Hbytes|apply textEncode_bytes].
    + eapply List.Forall_impl; [|exact Hf]. cbn beta. intros id Hid. now apply Hkeys.
Qed.
(* ===================================================================== *)
(** * Properties of the tokenization of [initialize] *)
(* ===================================================================== *)

(** *** Sets and sorting *)

Lemma set_has_In (s : list string) (x : string) : set_has s x = true <-> In x s.
Proof.
  unfold set_has. rewrite existsb_exists. split.
  - intros (y & Hy & He). apply String.eqb_eq in He. now subst.
  - intros Hin. exists x. split; [exact Hin|apply String.eqb_refl].
Qed.

Lemma set_has_false (s : list string) (x : string) :
  set_has s x = false <-> ~ In x s.
Proof.
  rewrite <- set_has_In. destruct (set_has s x); split; congruence.
Qed.

Lemma In_set_add (s : list string) (x y : string) :
  In y (set_add s x) <-> In y s \/ y = x.
Proof.
  unfold set_add. destruct (set_has s x) eqn:Hh.
  - apply set_has_In in Hh. split; [now left|]. intros [H| ->]; assumption.
  - rewrite in_app_iff. cbn [In]. intuition congruence.
Qed.

Lemma NoDup_snoc (l : list string) (x : string) :
  List.NoDup l -> ~ In x l -> List.NoDup (l ++ [x]).
Proof.
  intros Hnd Hx. apply List.NoDup_app; [exact Hnd| |].
  - constructor; [intros []|constructor].
  - intros a Ha [<-|[]]. contradiction.
Qed.

Lemma NoDup_set_add (s : list string) (x : string) :
  List.NoDup s -> List.NoDup (set_add s x).
Proof.
  intros Hnd. unfold set_add. destruct (set_has s x) eqn:Hh; [exact Hnd|].
  apply NoDup_snoc; [exact Hnd|]. now apply set_has_false.
Qed.

Lemma fold_set_add (l s : list string) :
  (forall y, In y (fold_left set_add l s) <-> In y s \/ In y l) /\
  (List.NoDup s -> List.NoDup (fold_left set_add l s)).
Proof.
  revert s. induction l as [|x l IH]; intros s; cbn [fold_left].
  - split; [|auto]. intros y. cbn [In]. tauto.
  - destruct (IH (set_add s x)) as (Hin & Hnd). split.
    + intros y. rewrite Hin, In_set_add. cbn [In]. intuition congruence.
    + intros H. apply Hnd. now apply NoDup_set_add.
Qed.

Lemma In_new_Set (l : list string) (y : string) : In y (new_Set l) <-> In y l.
Proof.
  unfold new_Set. destruct (fold_set_add l []) as (Hin & _).
  rewrite Hin. cbn [In]. tauto.
Qed.

Lemma NoDup_new_Set (l : list string) : List.NoDup (new_Set l).
Proof.
  unfold new_Set. destruct (fold_set_add l []) as (_ & Hnd).
  apply Hnd. constructor.
Qed.

Lemma In_sort_insert before (x : string) (l : list string) (y : string) :
  In y (sort_insert before x l) <-> y = x \/ In y l.
Proof.
  induction l as [|z l IH]; cbn [sort_insert].
  - cbn [In]. intuition congruence.
  - destruct (before x z); cbn [In]; [intuition congruence|].
    rewrite IH. intuition congruence.
Qed.

Lemma NoDup_sort_insert before (x : string) (l : list string) :
  ~ In x l -> List.NoDup l -> List.NoDup (sort_insert before x l).
Proof.
  induction l as [|z l IH]; cbn [sort_insert]; intros Hx Hnd.
  - constructor; [intros []|constructor].
  - destruct (before x z).
    + constructor; assumption.
    + inversion Hnd as [|? ? Hz Hnd']; subst. constructor.
      * rewrite In_sort_insert. intros [->|Hin]; [|contradiction].
        apply Hx. now left.
      * apply IH; [|exact Hnd']. intros Hin. apply Hx. now right.
Qed.

Lemma sort_fold before (l sorted : list string) :
  (forall y, In y (fold_left (fun sorted x => sort_insert before x sorted) l sorted)
     <-> In y sorted \/ In y l) /\
  (List.NoDup sorted -> List.NoDup l -> (forall y, In y sorted -> ~ In y l) ->
   List.NoDup (fold_left (fun sorted x => sort_insert before x sorted) l sorted)).
Proof.
  revert sorted. induction l as [|x l IH]; intros sorted; cbn [fold_left].
  - split; [|auto]. intros y. cbn [In]. tauto.
  - destruct (IH (sort_insert before x sorted)) as (Hin & Hnd). split.
    + intros y. rewrite Hin, In_sort_insert. cbn [In]. intuition congruence.
    + intros Hs Hl Hdis. inversion Hl as [|? ? Hx Hl']; subst. apply Hnd.
      * apply NoDup_sort_insert; [|exact Hs]. intros Hin'.
        apply (Hdis x Hin'). now left.
      * exact Hl'.
      * intros y. rewrite In_sort_insert. intros [->|Hy]; [exact Hx|].
        intros Hy'. apply (Hdis y Hy). now right.
Qed.

Lemma In_sort_with before (l : list string) (y : string) :
  In y (sort_with before l) <-> In y l.
Proof.
  unfold sort_with. destruct (sort_fold before l []) as (Hin & _).
  rewrite Hin. cbn [In]. tauto.
Qed.

Lemma NoDup_sort_with before (l : list string) :
  List.NoDup l -> List.NoDup (sort_with before l).
Proof.
  intros Hl. unfold sort_with. destruct (sort_fold before l []) as (_ & Hnd).
  apply Hnd; [constructor|exact Hl|intros y []].
Qed.

Lemma descending_lengths (l : list string) : descending l -> lengths_descend l.
Proof.
  induction l as [|x l IH]; intros Hd a b u v Hab Ha Hb.
  - discriminate.
  - destruct Hd as (Hx & Hd). destruct a as [|a]; destruct b as [|b]; cbn in Ha, Hb.
    + injection Ha as ->. injection Hb as ->. lia.
    + injection Ha as ->. apply Hx. eapply lookup_In; eassumption.
    + lia.
    + apply (IH Hd a b); [lia|assumption|assumption].
Qed.

Lemma descending_sort_insert localeCompare (x : string) (l : list string) :
  descending l ->
  descending
    (sort_insert (fun a b => (by_length_then_locale localeCompare a b <? 0)%Z) x l).
Proof.
  induction l as [|z l IH]; cbn [sort_insert]; intros Hd.
  - cbn. split; [intros y []|exact I].
  - destruct Hd as (Hz & Hd). unfold by_length_then_locale at 1. cbv zeta.
    destruct (Z.eqb_spec (Z.of_nat (String.length z) - Z.of_nat (String.length x)) 0)
      as [He|He].
    + destruct (_ <? 0)%Z.
      * cbn [descending]. split; [|split; assumption].
        intros y [<-|Hy]; [lia|]. specialize (Hz y Hy). lia.
      * cbn [descending]. split; [|now apply IH].
        intros y. rewrite In_sort_insert. intros [->|Hy]; [lia|auto].
    + destruct (Z.ltb_spec (Z.of_nat (String.length z) - Z.of_nat (String.length x)) 0).
      * cbn [descending]. split; [|split; assumption].
        intros y [<-|Hy]; [lia|]. specialize (Hz y Hy). lia.
      * cbn [descending]. split; [|now apply IH].
        intros y. rewrite In_sort_insert. intros [->|Hy]; [lia|auto].
Qed.

Lemma descending_sort_with localeCompare (l : list string) :
  descending
    (sort_with (fun a b => (by_length_then_locale localeCompare a b <? 0)%Z) l).
Proof.
  unfold sort_with.
  assert (H : forall sorted, descending sorted ->
            descending (fold_left (fun sorted x =>
              sort_insert (fun a b => (by_length_then_locale localeCompare a b <? 0)%Z)
                x sorted) l sorted)).
  { induction l as [|x l IH]; intros sorted Hs; cbn [fold_left]; [exact Hs|].
    apply IH. now apply descending_sort_insert. }
  apply H. exact I.
Qed.

(** *** The token index *)

Lemma index_of_vocab_indexes (vocab : list string) :
  indexes vocab (index_of_vocab vocab).
Proof.
  induction vocab as [|x vocab IH] using rev_ind; intros token Hin; [destruct Hin|].
  rewrite index_of_vocab_snoc. destruct (decide (x = token)) as [->|Hne].
  - exists (length vocab). rewrite lookup_insert_eq. split; [reflexivity|].
    rewrite lookup_app_r by lia. now rewrite Nat.sub_diag.
  - apply in_app_or in Hin. destruct Hin as [Hin|[Heq|[]]]; [|congruence].
    destruct (IH token Hin) as (i & Hi & Hv). exists i.
    rewrite lookup_insert_ne by assumption. split; [exact Hi|].
    rewrite lookup_app_l; [exact Hv|]. eapply lookup_lt_Some; eassumption.
Qed.

(** *** Characters *)

Lemma join_split_chars (text : string) : join (split_chars text) = text.
Proof.
  unfold join, split_chars. induction text as [|c text IH]; [reflexivity|].
  cbn [String.list_ascii_of_string map fold_right]. rewrite IH. reflexivity.
Qed.

Lemma In_split_chars (text t : string) :
  In t (split_chars text) <->
  exists c, t = String c "" /\ In c (String.list_ascii_of_string text).
Proof.
  unfold split_chars. rewrite List.in_map_iff. split.
  - intros (c & <- & Hc). eauto.
  - intros (c & -> & Hc). eauto.
Qed.

Lemma chars_append (a b : string) :
  String.list_ascii_of_string (a +:+ b) =
    String.list_ascii_of_string a ++ String.list_ascii_of_string b.
Proof.
  induction a as [|c a IH]; [reflexivity|].
  change (String c a +:+ b) with (String c (a +:+ b)).
  cbn [String.list_ascii_of_string]. now rewrite IH.
Qed.

Lemma chars_join (l : list string) (c : Ascii.ascii) :
  In c (String.list_ascii_of_string (join l)) <-> covered l c.
Proof.
  unfold covered, join. induction l as [|t l IH]; cbn [fold_right].
  - cbn. split; [intros []|]. intros (t & [] & _).
  - rewrite chars_append, in_app_iff, IH. split.
    + intros [Hc|(t' & Ht' & Hc)]; [exists t|exists t']; cbn [In]; auto.
    + intros (t' & [<-|Ht'] & Hc); [now left|right; eauto].
Qed.

Lemma chars_string_drop (i : nat) (text : string) (c : Ascii.ascii) :
  In c (String.list_ascii_of_string (string_drop i text)) ->
  In c (String.list_ascii_of_string text).
Proof.
  revert text. induction i as [|i IH]; intros text; [auto|].
  destruct text as [|d text]; cbn [string_drop]; [auto|].
  intros Hc. cbn [String.list_ascii_of_string]. right. now apply IH.
Qed.

(** The characters of a token that the text holds are characters of the
    text. *)
Lemma chars_startsWith (text token : string) (i : nat) (c : Ascii.ascii) :
  startsWith text token i = true ->
  In c (String.list_ascii_of_string token) ->
  In c (String.list_ascii_of_string text).
Proof.
  intros Hs Hc. apply (chars_string_drop i).
  rewrite (startsWith_split _ _ _ Hs), chars_append, in_app_iff. now left.
Qed.

(** *** The loop of [encodeCustom], for any property of [encoded] *)

Lemma encodeCustom_loop_keeps (P : list (option nat) -> Prop)
    (text : string) (vocab : list string) (tokenToIndex : gmap string nat) :
  ~ In ""%string vocab ->
  (forall encoded token i, P encoded -> In token vocab ->
     startsWith text token i = true ->
     P (encoded ++ [tokenToIndex !! token])) ->
  forall n i encoded, String.length text - i <= n -> P encoded ->
  exists ids,
    (forall fuel, n < fuel ->
       encodeCustom_loop fuel text vocab tokenToIndex i encoded = Some ids) /\
    P ids.
Proof.
  intros Hne Hstep. induction n as [|n IH]; intros i encoded Hn HP.
  - exists encoded. split; [|exact HP]. intros [|fuel] Hf; [lia|].
    cbn [encodeCustom_loop].
    destruct (Nat.ltb_spec i (String.length text)) as [?|_]; [lia|]. reflexivity.
  - destruct (Nat.ltb_spec i (String.length text)) as [Hi|Hi].
    + destruct (find_token vocab text i) as [token|] eqn:Hfind.
      * destruct (find_token_Some _ _ _ _ Hfind) as (k & Hk & Hm & _).
        assert (Hin : In token vocab) by (eapply lookup_In; eassumption).
        assert (Hlen : 1 <= String.length token).
        { apply nonempty_length. now intros ->. }
        destruct (IH (i + String.length token) (encoded ++ [tokenToIndex !! token])
                    ltac:(lia) (Hstep _ _ _ HP Hin Hm)) as (ids & Hids & HPi).
        exists ids. split; [|exact HPi].
        intros [|fuel] Hf; [lia|]. cbn [encodeCustom_loop].
        destruct (Nat.ltb_spec i (String.length text)) as [_|?]; [|lia].
        rewrite Hfind. apply Hids. lia.
      * destruct (IH (i + 1) encoded ltac:(lia) HP) as (ids & Hids & HPi).
        exists ids. split; [|exact HPi].
        intros [|fuel] Hf; [lia|]. cbn [encodeCustom_loop].
        destruct (Nat.ltb_spec i (String.length text)) as [_|?]; [|lia].
        rewrite Hfind. apply Hids. lia.
    + exists encoded. split; [|exact HP]. intros [|fuel] Hf; [lia|].
      cbn [encodeCustom_loop].
      destruct (Nat.ltb_spec i (String.length text)) as [?|_]; [lia|]. reflexivity.
Qed.

Lemma valid_ids_corpus (vocab : list string) (encoded : list (option nat)) :
  Forall (valid_id vocab) encoded ->
  exists encodedText, ids_of encoded encodedText /\
    valid_corpus (length vocab) encodedText.
Proof.
  unfold ids_of, valid_corpus. induction 1 as [|id encoded (i & -> & Hi) _ IH].
  - exists []. split; [reflexivity|constructor].
  - destruct IH as (encodedText & -> & Hv). exists (i :: encodedText).
    split; [reflexivity|]. constructor; assumption.
Qed.

Lemma length_chars (text : string) :
  length (String.list_ascii_of_string text) = String.length text.
Proof. induction text as [|c text IH]; [reflexivity|]. cbn. now rewrite IH. Qed.

(** *** The character tokenizer *)

Lemma character_vocab_In (text t : string) :
  In t (tk_vocab (character_tokenizer text)) <-> In t (split_chars text).
Proof. cbn [character_tokenizer tk_vocab]. now rewrite In_sort_with, In_new_Set. Qed.

Lemma decode_indexed (vocab : list string) (tokenToIndex : gmap string nat)
    (l : list string) :
  Forall (fun char => exists i, tokenToIndex !! char = Some i /\
                        vocab !! i = Some char) l ->
  map (fun id => or_undefined (token_at vocab id))
    (map (fun char => tokenToIndex !! char) l) = l /\
  Forall (valid_id vocab) (map (fun char => tokenToIndex !! char) l).
Proof.
  induction 1 as [|char l (i & Hi & Hv) _ (IH1 & IH2)]; [split; [reflexivity|constructor]|].
  cbn [map]. split.
  - rewrite IH1, Hi. cbn [token_at mbind option_bind]. rewrite Hv. reflexivity.
  - constructor; [|exact IH2]. exists i. split; [exact Hi|].
    eapply lookup_lt_Some; eassumption.
Qed.

(** X24: the character tokenizer of [initialize].  The vocabulary holds
    the characters of the text, each once; the ids stand for the text,
    one id per character, and every id is an index of the vocabulary. *)
Theorem character_tokenizer_round_trip (textToTrain : string) :
  let tk := character_tokenizer textToTrain in
  List.NoDup (tk_vocab tk) /\
  (forall t, In t (tk_vocab tk) <-> In t (split_chars textToTrain)) /\
  decode_ids (tk_vocab tk) (tk_encoded tk) = textToTrain /\
  exists encodedText,
    ids_of (tk_encoded tk) encodedText /\
    length encodedText = String.length textToTrain /\
    valid_corpus (length (tk_vocab tk)) encodedText.
Proof.
  cbv zeta. split; [|split; [apply character_vocab_In|]].
  { cbn [character_tokenizer tk_vocab]. apply NoDup_sort_with, NoDup_new_Set. }
  pose proof (character_vocab_In textToTrain) as Hin.
  cbn [character_tokenizer tk_vocab tk_encoded] in *.
  set (vocab := sort_with code_unit_before (new_Set (split_chars textToTrain))) in *.
  destruct (decode_indexed vocab (index_of_vocab vocab) (split_chars textToTrain))
    as (Hdec & Hv).
  { apply List.Forall_forall. intros char Hc.
    apply (index_of_vocab_indexes vocab). now apply Hin. }
  split.
  - unfold decode_ids. rewrite Hdec. apply join_split_chars.
  - destruct (valid_ids_corpus _ _ Hv) as (encodedText & Hids & Hvalid).
    exists encodedText. split; [exact Hids|]. split; [|exact Hvalid].
    apply (f_equal (@length _)) in Hids. rewrite !length_map in Hids.
    unfold split_chars in Hids. rewrite length_map, length_chars in Hids. lia.
Qed.

(** *** The custom tokenizer *)

Lemma In_nonempty (trimmed : list string) (t : string) :
  In t (List.filter (fun t => negb (String.eqb t "")) trimmed) <->
  In t trimmed /\ t <> ""%string.
Proof.
  rewrite List.filter_In. destruct (String.eqb_spec t ""); cbn [negb];
    intuition congruence.
Qed.

Lemma covered_nonempty (trimmed : list string) (c : Ascii.ascii) :
  covered (List.filter (fun t => negb (String.eqb t "")) trimmed) c <->
  covered trimmed c.
Proof.
  unfold covered. split.
  - intros (t & Ht & Hc). apply In_nonempty in Ht. exists t. tauto.
  - intros (t & Ht & Hc). exists t. split; [|exact Hc]. apply In_nonempty.
    split; [exact Ht|]. intros ->. destruct Hc.
Qed.

Lemma In_pushed (cov l acc : list string) (t : string) :
  In t (fold_left (fun tokens char =>
          if negb (set_has cov char) then tokens ++ [char] else tokens) l acc) <->
  In t acc \/ (In t l /\ ~ In t cov).
Proof.
  revert acc. induction l as [|x l IH]; intros acc; cbn [fold_left].
  - cbn [In]. tauto.
  - rewrite IH. destruct (set_has cov x) eqn:Hh; cbn [negb].
    + apply set_has_In in Hh. cbn [In]. intuition congruence.
    + apply set_has_false in Hh. rewrite in_app_iff. cbn [In]. intuition congruence.
Qed.

(** The tokens of the custom vocabulary: the given ones that are not
    empty, and the characters of the text that occur in none of them. *)
Lemma custom_vocab_In localeCompare (trimmed : list string) (text t : string) :
  In t (custom_vocab localeCompare trimmed text) <->
  (In t trimmed /\ t <> ""%string) \/
  (exists c, t = String c "" /\ In c (String.list_ascii_of_string text) /\
             ~ covered trimmed c).
Proof.
  unfold custom_vocab. cbv zeta.
  rewrite In_sort_with, In_new_Set, In_pushed, In_nonempty, !In_new_Set, In_split_chars.
  split.
  - intros [H|((c & -> & Hc) & Hcov)]; [now left|]. right. exists c.
    split; [reflexivity|]. split; [exact Hc|].
    intros Hcv. apply Hcov. apply In_split_chars. exists c. split; [reflexivity|].
    apply chars_join. now apply covered_nonempty.
  - intros [H|(c & -> & Hc & Hcov)]; [now left|]. right. split; [eauto|].
    intros Hin. apply In_split_chars in Hin. destruct Hin as (c' & [= <-] & Hc').
    apply Hcov. apply covered_nonempty. now apply chars_join.
Qed.

Lemma custom_vocab_nonempty localeCompare (trimmed : list string) (text : string) :
  ~ In ""%string (custom_vocab localeCompare trimmed text).
Proof.
  rewrite custom_vocab_In. intros [(_ & H)|(c & H & _)]; [congruence|discriminate].
Qed.

Lemma custom_vocab_NoDup localeCompare (trimmed : list string) (text : string) :
  List.NoDup (custom_vocab localeCompare trimmed text).
Proof. unfold custom_vocab. cbv zeta. apply NoDup_sort_with, NoDup_new_Set. Qed.

Lemma custom_vocab_descending localeCompare (trimmed : list string) (text : string) :
  lengths_descend (custom_vocab localeCompare trimmed text).
Proof.
  apply descending_lengths. unfold custom_vocab. cbv zeta.
  apply descending_sort_with.
Qed.

Lemma encodeCustom_valid (text : string) (vocab : list string) :
  ~ In ""%string vocab ->
  exists ids,
    (forall fuel, String.length text < fuel ->
       encodeCustom fuel text vocab (index_of_vocab vocab) = Some ids) /\
    Forall (valid_id vocab) ids /\ length ids <= String.length text.
Proof.
  intros Hne.
  destruct (encodeCustom_loop_keeps (Forall (valid_id vocab)) text vocab
              (index_of_vocab vocab) Hne) with (n := String.length text) (i := 0)
              (encoded := @nil (option nat)) as (ids & Hids & Hv).
  - intros encoded token i Hv Hin _. apply Forall_app. split; [exact Hv|].
    constructor; [|constructor].
    destruct (index_of_vocab_indexes vocab token Hin) as (k & Hk & Hl).
    exists k. split; [exact Hk|]. eapply lookup_lt_Some; eassumption.
  - lia.
  - constructor.
  - exists ids. split; [exact Hids|]. split; [exact Hv|].
    destruct (encodeCustom_loop_ends text vocab (index_of_vocab vocab)
                (String.length text) 0 [] Hne ltac:(lia)) as (out & Hout & Hlen).
    specialize (Hids (S (String.length text)) ltac:(lia)).
    specialize (Hout (S (String.length text)) ltac:(lia)).
    unfold encodeCustom in Hids. rewrite Hids in Hout. injection Hout as ->.
    cbn [app]. lia.
Qed.

(** X25: the custom tokenizer of [initialize], whatever the tokens given
    and the text.  The vocabulary holds no empty token and no token twice,
    longer tokens come first, and its tokens are the given ones that are
    not empty and the characters of the text that occur in no given token.
    [encodeCustom] ends on it within as many passes as the text has
    characters, and every id that it returns is an index of the
    vocabulary. *)
Theorem custom_tokenizer_valid (localeCompare : string -> string -> Z)
    (trimmed : list string) (textToTrain : string) :
  let vocab := custom_vocab localeCompare trimmed textToTrain in
  ~ In ""%string vocab /\ List.NoDup vocab /\ lengths_descend vocab /\
  (forall t, In t vocab <->
     (In t trimmed /\ t <> ""%string) \/
     (exists c, t = String c "" /\
                In c (String.list_ascii_of_string textToTrain) /\
                ~ covered trimmed c)) /\
  exists encodedText,
    (forall fuel, String.length textToTrain < fuel ->
       custom_tokenizer localeCompare fuel trimmed textToTrain =
         Some (mkTokenized vocab (index_of_vocab vocab) (map Some encodedText))) /\
    valid_corpus (length vocab) encodedText /\
    length encodedText <= String.length textToTrain.
Proof.
  cbv zeta.
  split; [apply custom_vocab_nonempty|]. split; [apply custom_vocab_NoDup|].
  split; [apply custom_vocab_descending|]. split; [apply custom_vocab_In|].
  destruct (encodeCustom_valid textToTrain
              (custom_vocab localeCompare trimmed textToTrain)
              (custom_vocab_nonempty _ _ _)) as (ids & Hids & Hv & Hlen).
  destruct (valid_ids_corpus _ _ Hv) as (encodedText & Henc & Hvalid).
  unfold ids_of in Henc. subst ids. exists encodedText. split; [|split].
  - intros fuel Hf. unfold custom_tokenizer. cbv zeta. rewrite (Hids fuel Hf).
    reflexivity.
  - exact Hvalid.
  - now rewrite length_map in Hlen.
Qed.

Lemma covered_dec (tokens : list string) (c : Ascii.ascii) :
  covered tokens c \/ ~ covered tokens c.
Proof.
  unfold covered. induction tokens as [|t tokens IH].
  - right. intros (t & [] & _).
  - destruct (in_dec Ascii.ascii_dec c (String.list_ascii_of_string t)) as [Hc|Hc].
    + left. exists t. split; [now left|exact Hc].
    + destruct IH as [(t' & Ht' & Hc')|Hno].
      * left. exists t'. split; [now right|exact Hc'].
      * right. intros (t' & [<-|Ht'] & Hc'); [contradiction|]. apply Hno. eauto.
Qed.

(** X26: with the custom tokenizer of [initialize] the ids stand for the
    whole text when every character of the text that occurs in a given
    token is itself a given token. *)
Theorem custom_tokenizer_round_trip (localeCompare : string -> string -> Z)
    (trimmed : list string) (textToTrain : string)
    (Hknown : forall c, In c (String.list_ascii_of_string textToTrain) ->
                covered trimmed c -> In (String c "") trimmed) :
  let vocab := custom_vocab localeCompare trimmed textToTrain in
  exists ids,
    (forall fuel, String.length textToTrain < fuel ->
       encodeCustom fuel textToTrain vocab (index_of_vocab vocab) = Some ids) /\
    decode_ids vocab ids = textToTrain.
Proof.
  cbv zeta.
  destruct (encodeCustom_loop_round_trip textToTrain
              (custom_vocab localeCompare trimmed textToTrain)
              (index_of_vocab (custom_vocab localeCompare trimmed textToTrain))
              (String.length textToTrain) 0 [])
    as (ids & Hids & Hdec & _).
  - apply custom_vocab_nonempty.
  - intros c Hc. apply custom_vocab_In.
    destruct (covered_dec trimmed c) as [Hcov|Hcov].
    + left. split; [now apply Hknown|discriminate].
    + right. eauto.
  - apply index_of_vocab_indexes.
  - lia.
  - lia.
  - reflexivity.
  - constructor.
  - exists ids. split; [exact Hids|exact Hdec].
Qed.

Lemma custom_tokenizer_round_trip_witness :
  (forall c, In c (String.list_ascii_of_string "abba") ->
     covered ["ab"; "a"; "b"]%string c -> In (String c "") ["ab"; "a"; "b"]%string) /\
  exists ids,
    (forall fuel, String.length "abba" < fuel ->
       encodeCustom fuel "abba"
         (custom_vocab by_code_units ["ab"; "a"; "b"]%string "abba")
         (index_of_vocab (custom_vocab by_code_units ["ab"; "a"; "b"]%string "abba"))
       = Some ids) /\
    decode_ids (custom_vocab by_code_units ["ab"; "a"; "b"]%string "abba") ids
      = "abba"%string.
Proof.
  assert (Hknown : forall c, In c (String.list_ascii_of_string "abba") ->
            covered ["ab"; "a"; "b"]%string c ->
            In (String c "") ["ab"; "a"; "b"]%string).
  { intros c Hc _. cbn in Hc. cbn [In].
    destruct Hc as [<-|[<-|[<-|[<-|[]]]]]; auto. }
  split; [exact Hknown|].
  exact (custom_tokenizer_round_trip by_code_units ["ab"; "a"; "b"]%string "abba" Hknown).
Defined.

Lemma decode_ids_indexed (vocab : list string) (encoded : list (option nat))
    (token : string) :
  In token vocab ->
  decode_ids vocab (encoded ++ [index_of_vocab vocab !! token]) =
    decode_ids vocab encoded +:+ token.
Proof.
  intros Hin. rewrite decode_ids_snoc.
  destruct (index_of_vocab_indexes vocab token Hin) as (k & Hk & Hl).
  rewrite Hk. cbn [token_at mbind option_bind]. rewrite Hl. reflexivity.
Qed.

(** Every character of the text that the ids stand for is one of a token
    that the text holds somewhere. *)
Lemma encodeCustom_chars (text : string) (vocab : list string) :
  ~ In ""%string vocab ->
  exists ids,
    (forall fuel, String.length text < fuel ->
       encodeCustom fuel text vocab (index_of_vocab vocab) = Some ids) /\
    forall d, In d (String.list_ascii_of_string (decode_ids vocab ids)) ->
      exists token i, In token vocab /\ startsWith text token i = true /\
        In d (String.list_ascii_of_string token).
Proof.
  intros Hne.
  apply (encodeCustom_loop_keeps
           (fun encoded =>
              forall d, In d (String.list_ascii_of_string (decode_ids vocab encoded)) ->
                exists token i, In token vocab /\ startsWith text token i = true /\
                  In d (String.list_ascii_of_string token))
           text vocab (index_of_vocab vocab) Hne) with (n := String.length text).
  - intros encoded token i HP Hin Hs d. rewrite decode_ids_indexed by assumption.
    rewrite chars_append, in_app_iff. intros [Hd|Hd]; [now apply HP|eauto].
  - lia.
  - intros d [].
Qed.

(** X27: the custom tokenizer of [initialize] loses a character of the
    text that occurs in given tokens, but only in tokens that have a
    character which the text does not have: [initialize] adds no token for
    it, [encodeCustom] skips it, and the text that the ids stand for does
    not have it. *)
Theorem custom_tokenizer_loses_character (localeCompare : string -> string -> Z)
    (trimmed : list string) (textToTrain : string) (c : Ascii.ascii)
    (Hc : In c (String.list_ascii_of_string textToTrain))
    (Hlost : only_in_foreign_tokens trimmed textToTrain c) :
  let vocab := custom_vocab localeCompare trimmed textToTrain in
  exists ids,
    (forall fuel, String.length textToTrain < fuel ->
       encodeCustom fuel textToTrain vocab (index_of_vocab vocab) = Some ids) /\
    ~ In c (String.list_ascii_of_string (decode_ids vocab ids)) /\
    decode_ids vocab ids <> textToTrain.
Proof.
  cbv zeta. destruct Hlost as (Hcov & Hforeign).
  destruct (encodeCustom_chars textToTrain
              (custom_vocab localeCompare trimmed textToTrain)
              (custom_vocab_nonempty _ _ _)) as (ids & Hids & Hchars).
  assert (Hno : ~ In c (String.list_ascii_of_string
                          (decode_ids (custom_vocab localeCompare trimmed textToTrain) ids))).
  { intros Hin. destruct (Hchars c Hin) as (token & i & Htok & Hs & Hct).
    apply custom_vocab_In in Htok. destruct Htok as [(Ht & _)|(c' & -> & _ & Hnc)].
    - destruct (Hforeign token Ht Hct) as (d & Hd & Hnd).
      apply Hnd. eapply chars_startsWith; eassumption.
    - cbn in Hct. destruct Hct as [->|[]]. contradiction. }
  exists ids. split; [exact Hids|]. split; [exact Hno|].
  intros Heq. apply Hno. now rewrite Heq.
Qed.

Lemma custom_tokenizer_loses_character_witness :
  In letter_h (String.list_ascii_of_string "the") /\
  only_in_foreign_tokens ["sh"; "t"; "e"]%string "the" letter_h /\
  exists ids,
    (forall fuel, String.length "the" < fuel ->
       encodeCustom fuel "the"
         (custom_vocab by_code_units ["sh"; "t"; "e"]%string "the")
         (index_of_vocab (custom_vocab by_code_units ["sh"; "t"; "e"]%string "the"))
       = Some ids) /\
    decode_ids (custom_vocab by_code_units ["sh"; "t"; "e"]%string "the") ids
      <> "the"%string.
Proof.
  assert (Hc : In letter_h (String.list_ascii_of_string "the")).
  { cbn. right. now left. }
  assert (Hlost : only_in_foreign_tokens ["sh"; "t"; "e"]%string "the" letter_h).
  { split.
    - exists "sh"%string. split; [now left|]. cbn. right. now left.
    - intros t Ht Hh. cbn [In] in Ht. destruct Ht as [<-|[<-|[<-|[]]]].
      + exists letter_s. split; [cbn; now left|].
        cbn. intros [H|[H|[H|[]]]]; discriminate H.
      + cbn in Hh. destruct Hh as [H|[]]. discriminate H.
      + cbn in Hh. destruct Hh as [H|[]]. discriminate H. }
  split; [exact Hc|]. split; [exact Hlost|].
  destruct (custom_tokenizer_loses_character by_code_units
              ["sh"; "t"; "e"]%string "the" letter_h Hc Hlost) as (ids & Hids & _ & Hne).
  exists ids. split; [exact Hids|exact Hne].
Defined.
(* ===================================================================== *)
(** * Properties of the "good word" check *)
(* ===================================================================== *)

(** *** The token lists *)

Lemma ALL_TOKENS_In localeCompare (t : string) :
  In t (ALL_TOKENS localeCompare) <-> In t allTokensSet.
Proof. unfold ALL_TOKENS. apply In_sort_with. Qed.

Lemma ALL_TOKENS_nonempty localeCompare : ~ In ""%string (ALL_TOKENS localeCompare).
Proof.
  rewrite ALL_TOKENS_In. apply set_has_false. vm_compute. reflexivity.
Qed.

Lemma ALL_TOKENS_descend localeCompare : lengths_descend (ALL_TOKENS localeCompare).
Proof. apply descending_lengths. unfold ALL_TOKENS. apply descending_sort_with. Qed.

Lemma CONSONANT_CLUSTERS_nonempty : ~ In ""%string CONSONANT_CLUSTERS.
Proof.
  unfold CONSONANT_CLUSTERS. rewrite In_sort_with. apply set_has_false.
  vm_compute. reflexivity.
Qed.

Lemma forallb_In {A : Type} (f : A -> bool) (l : list A) (x : A) :
  forallb f l = true -> In x l -> f x = true.
Proof. rewrite forallb_forall. auto. Qed.

Lemma allTokensSet_letters (t : string) (c : Ascii.ascii) :
  In t allTokensSet -> In c (String.list_ascii_of_string t) ->
  is_token_letter c = true.
Proof.
  intros Ht Hc.
  assert (H : forallb (fun t => forallb is_token_letter (String.list_ascii_of_string t))
                allTokensSet = true) by (vm_compute; reflexivity).
  eapply forallb_In; [|exact Hc]. eapply (forallb_In _ _ t) in H; [exact H|exact Ht].
Qed.

(** *** [tokenizeWord] *)

Lemma tokenizeWord_loop_spec (allTokens : list string) (word : string) :
  ~ In ""%string allTokens ->
  forall n i tokens, String.length word - i <= n -> i <= String.length word ->
    join tokens +:+ string_drop i word = word ->
    Forall (fun t => In t allTokens) tokens ->
    exists r,
      (forall fuel, n < fuel ->
         tokenizeWord_loop fuel allTokens word i tokens = Some r) /\
      tokenized allTokens word r.
Proof.
  intros Hne. induction n as [|n IH]; intros i tokens Hn Hi Hinv Hall.
  - exists (Some tokens). split.
    + intros [|fuel] Hf; [lia|]. cbn [tokenizeWord_loop].
      destruct (Nat.ltb_spec i (String.length word)) as [?|_]; [lia|]. reflexivity.
    + cbn [tokenized]. split; [|exact Hall].
      rewrite string_drop_all in Hinv by lia. now rewrite append_empty_r in Hinv.
  - destruct (Nat.ltb_spec i (String.length word)) as [Hlt|Hge].
    + destruct (find_token allTokens word i) as [token|] eqn:Hfind.
      * destruct (find_token_Some _ _ _ _ Hfind) as (k & Hk & Hm & _).
        assert (Hin : In token allTokens) by (eapply lookup_In; eassumption).
        assert (Hlen : 1 <= String.length token).
        { apply nonempty_length. now intros ->. }
        assert (Hfit : String.length token <= String.length word - i).
        { rewrite <- length_string_drop. now apply prefix_length. }
        destruct (IH (i + String.length token) (tokens ++ [token])
                    ltac:(lia) ltac:(lia)) as (r & Hr & Hspec).
        { rewrite join_snoc, append_assoc.
          now rewrite <- (startsWith_split word token i Hm). }
        { apply Forall_app. split; [exact Hall|]. constructor; [exact Hin|constructor]. }
        exists r. split; [|exact Hspec].
        intros [|fuel] Hf; [lia|]. cbn [tokenizeWord_loop].
        destruct (Nat.ltb_spec i (String.length word)) as [_|?]; [|lia].
        rewrite Hfind. apply Hr. lia.
      * exists None. split.
        -- intros [|fuel] Hf; [lia|]. cbn [tokenizeWord_loop].
           destruct (Nat.ltb_spec i (String.length word)) as [_|?]; [|lia].
           now rewrite Hfind.
        -- cbn [tokenized]. exists i. split; [exact Hlt|].
           now apply find_token_None.
    + exists (Some tokens). split.
      * intros [|fuel] Hf; [lia|]. cbn [tokenizeWord_loop].
        destruct (Nat.ltb_spec i (String.length word)) as [?|_]; [lia|]. reflexivity.
      * cbn [tokenized]. split; [|exact Hall].
        rewrite string_drop_all in Hinv by lia. now rewrite append_empty_r in Hinv.
Qed.

Lemma tokenizeWord_spec localeCompare (word : string) :
  exists r,
    (forall fuel, String.length word < fuel ->
       tokenizeWord localeCompare fuel word = Some r) /\
    tokenized allTokensSet word r.
Proof.
  pose proof (tokenizeWord_loop_spec (ALL_TOKENS localeCompare) word
                (ALL_TOKENS_nonempty localeCompare) (String.length word) 0 []) as H.
  destruct H as (r & Hr & Hspec).
  - lia.
  - lia.
  - unfold join. cbn [fold_right string_drop]. reflexivity.
  - constructor.
  - exists r. split; [exact Hr|].
    destruct r as [tokens|]; unfold tokenized in *.
    + destruct Hspec as (Hj & Hall). split; [exact Hj|].
      apply List.Forall_forall. intros t Ht.
      rewrite List.Forall_forall in Hall.
      apply (proj1 (ALL_TOKENS_In localeCompare t)). now apply Hall.
    + destruct Hspec as (i & Hi & Hno). exists i. split; [exact Hi|].
      intros t Ht. apply Hno. exact (proj2 (ALL_TOKENS_In localeCompare t) Ht).
Qed.

(** X28: [tokenizeWord] returns on every word, within as many passes of
    its loop as the word has characters.  It returns tokens of
    phonotactics.ts that, joined, are the word; or [null], and then the
    word holds no token of phonotactics.ts at one of its places.  The
    tokens of [ALL_TOKENS] are the ones of [allTokensSet], longer ones
    first and none of them empty, whatever the order of the locale. *)
Theorem tokenizeWord_splits_word (localeCompare : string -> string -> Z)
    (word : string) :
  (exists r,
     (forall fuel, String.length word < fuel ->
        tokenizeWord localeCompare fuel word = Some r) /\
     tokenized allTokensSet word r) /\
  lengths_descend (ALL_TOKENS localeCompare) /\
  ~ In ""%string (ALL_TOKENS localeCompare) /\
  (forall t, In t (ALL_TOKENS localeCompare) <-> In t allTokensSet).
Proof.
  split; [apply tokenizeWord_spec|]. split; [apply ALL_TOKENS_descend|].
  split; [apply ALL_TOKENS_nonempty|]. exact (ALL_TOKENS_In localeCompare).
Qed.

(** *** The consonant clusters *)

Lemma isValidConsonantCluster_loop_ends (cluster : string) :
  forall n i, String.length cluster - i <= n ->
    exists b, forall fuel, n < fuel ->
      isValidConsonantCluster_loop fuel cluster i = Some b.
Proof.
  induction n as [|n IH]; intros i Hn.
  - exists true. intros [|fuel] Hf; [lia|]. cbn [isValidConsonantCluster_loop].
    destruct (Nat.ltb_spec i (String.length cluster)) as [?|_]; [lia|]. reflexivity.
  - destruct (Nat.ltb_spec i (String.length cluster)) as [Hlt|Hge].
    + destruct (find_token CONSONANT_CLUSTERS cluster i) as [token|] eqn:Hfind.
      * assert (Hlen : 1 <= String.length token).
        { apply nonempty_length. intros ->.
          apply CONSONANT_CLUSTERS_nonempty. eapply find_token_in; eassumption. }
        destruct (IH (i + String.length token) ltac:(lia)) as (b & Hb).
        exists b. intros [|fuel] Hf; [lia|]. cbn [isValidConsonantCluster_loop].
        destruct (Nat.ltb_spec i (String.length cluster)) as [_|?]; [|lia].
        rewrite Hfind. apply Hb. lia.
      * exists false. intros [|fuel] Hf; [lia|]. cbn [isValidConsonantCluster_loop].
        destruct (Nat.ltb_spec i (String.length cluster)) as [_|?]; [|lia].
        now rewrite Hfind.
    + exists true. intros [|fuel] Hf; [lia|]. cbn [isValidConsonantCluster_loop].
      destruct (Nat.ltb_spec i (String.length cluster)) as [?|_]; [lia|]. reflexivity.
Qed.

Lemma consonant_runs_ends (bound : nat) (cs : list Ascii.ascii) :
  forall consonantRun,
    String.length consonantRun + length cs <= S bound ->
    exists b, forall fuel, bound < fuel ->
      consonant_runs fuel (map (fun c => String c "") cs) consonantRun = Some b.
Proof.
  induction cs as [|c cs IH]; intros consonantRun Hlen; cbn [map consonant_runs].
  - exists true. reflexivity.
  - cbn [length] in Hlen. destruct (isConsonant (String c "")).
    + apply IH. rewrite length_append. cbn [String.length]. lia.
    + destruct (IH ""%string ltac:(cbn [String.length]; lia)) as (b & Hb).
      destruct (Nat.leb_spec 3 (String.length consonantRun)); [|exists b; exact Hb].
      destruct (isValidConsonantCluster_loop_ends consonantRun
                  (String.length consonantRun) 0 ltac:(lia)) as (v & Hv).
      destruct v.
      * exists b. intros fuel Hf. unfold isValidConsonantCluster.
        rewrite Hv by lia. now apply Hb.
      * exists false. intros fuel Hf. unfold isValidConsonantCluster.
        rewrite Hv by lia. reflexivity.
Qed.

(** *** The state machine *)

Lemma syllable_run_snoc (state : SyllableState) (tokens : list string) (t : string) :
  syllable_run state (tokens ++ [t]) =
    match syllable_run state tokens with
    | Some state' => syllable_step state' t
    | None => None
    end.
Proof.
  revert state. induction tokens as [|x tokens IH]; intros state; cbn [app syllable_run].
  - now destruct (syllable_step state t).
  - destruct (syllable_step state x); [apply IH|reflexivity].
Qed.

Lemma syllable_step_final (state state' : SyllableState) (t : string) :
  syllable_step state t = Some state' ->
  match state' with
  | START => False
  | ONSET => In t ONSETS
  | VOWEL => In t VOWELS
  | CODA => In t CODAS
  | EXTENSION => In t EXTENSIONS
  end.
Proof.
  destruct state; cbn [syllable_step];
    repeat match goal with
    | |- context [set_has ?s t] =>
        let H := fresh "H" in destruct (set_has s t) eqn:H;
        [apply set_has_In in H|]
    end; intros [= <-]; assumption.
Qed.

Lemma syllable_step_first (state' : SyllableState) (t : string) :
  syllable_step START t = Some state' -> In t ONSETS \/ In t VOWELS.
Proof.
  cbn [syllable_step]. destruct (set_has ONSETS t) eqn:Ho.
  - intros _. left. exact (proj1 (set_has_In _ _) Ho).
  - destruct (set_has VOWELS t) eqn:Hv; [|intros Hd; discriminate Hd].
    intros _. right. exact (proj1 (set_has_In _ _) Hv).
Qed.

Lemma syllable_run_ends (tokens : list string) (state : SyllableState) :
  tokens <> [] -> syllable_run START tokens = Some state ->
  (exists first, head tokens = Some first /\ (In first ONSETS \/ In first VOWELS)) /\
  match state with
  | START => False
  | ONSET => In (List.last tokens ""%string) ONSETS
  | VOWEL => In (List.last tokens ""%string) VOWELS
  | CODA => In (List.last tokens ""%string) CODAS
  | EXTENSION => In (List.last tokens ""%string) EXTENSIONS
  end.
Proof.
  intros Hne Hrun. split.
  - destruct tokens as [|first rest]; [congruence|]. exists first.
    split; [reflexivity|]. cbn [syllable_run] in Hrun.
    destruct (syllable_step START first) as [s1|] eqn:Hs; [|discriminate Hrun].
    exact (syllable_step_first _ _ Hs).
  - destruct (exists_last Hne) as (init & last & ->).
    rewrite last_last. rewrite syllable_run_snoc in Hrun.
    destruct (syllable_run START init) as [s'|]; [|discriminate Hrun].
    exact (syllable_step_final _ _ _ Hrun).
Qed.

Lemma word_letters (tokens : list string) :
  Forall (fun t => In t allTokensSet) tokens ->
  Forall (fun c => is_token_letter c = true)
    (String.list_ascii_of_string (join tokens)).
Proof.
  intros Hall. apply List.Forall_forall. intros c Hc.
  apply chars_join in Hc. destruct Hc as (t & Ht & Hct).
  rewrite List.Forall_forall in Hall.
  exact (allTokensSet_letters t c (Hall t Ht) Hct).
Qed.

(** X29: [isGoodWord] returns on every word.  A word that it accepts has
    between 2 and 12 characters, all of them among the twenty letters of
    the tokens of phonotactics.ts, and a vowel among them; it is a sequence
    of these tokens that starts with an onset or a vowel and ends with a
    vowel, a coda or an extension. *)
Theorem isGoodWord_accepts_only (localeCompare : string -> string -> Z)
    (word : string) :
  exists b,
    (forall fuel, String.length word < fuel ->
       isGoodWord localeCompare fuel word = Some b) /\
    (b = true -> good_word_facts word).
Proof.
  destruct (consonant_runs_ends (String.length word)
              (String.list_ascii_of_string (word +:+ "a")) ""%string)
    as (bc & Hbc).
  { rewrite length_chars, length_append. cbn [String.length]. lia. }
  change (map (fun c => String c "") (String.list_ascii_of_string (word +:+ "a")))
    with (split_chars (word +:+ "a")) in Hbc.
  destruct (tokenizeWord_spec localeCompare word) as (r & Hr & Hspec).
  unfold isGoodWord. cbv zeta.
  destruct ((String.length word <? 2) || (12 <? String.length word)) eqn:Hlen.
  { exists false. split; [intros; reflexivity|intros Hd; discriminate Hd]. }
  destruct ((5 <=? String.length word) &&
            existsb (xyxyx word) (seq 0 (String.length word - 4))) eqn:H5.
  { exists false. split; [intros; reflexivity|intros Hd; discriminate Hd]. }
  destruct ((6 <=? String.length word) &&
            existsb (xyzxyz word) (seq 0 (String.length word - 5))) eqn:H6.
  { exists false. split; [intros; reflexivity|intros Hd; discriminate Hd]. }
  destruct (existsb (set_has VOWELS) (split_chars word)) eqn:Hv; cbn [negb].
  2:{ exists false. split; [intros; reflexivity|intros Hd; discriminate Hd]. }
  destruct bc.
  2:{ exists false. split; [|intros Hd; discriminate Hd].
      intros fuel Hf. rewrite (Hbc fuel Hf). reflexivity. }
  destruct r as [tokens|].
  2:{ exists false. split; [|intros Hd; discriminate Hd].
      intros fuel Hf. rewrite (Hbc fuel Hf), (Hr fuel Hf). reflexivity. }
  destruct (Nat.eqb_spec (length tokens) 0) as [Hl|Hl].
  { exists false. split; [|intros Hd; discriminate Hd].
    intros fuel Hf. rewrite (Hbc fuel Hf), (Hr fuel Hf).
    destruct (Nat.eqb_spec (length tokens) 0); [reflexivity|contradiction]. }
  destruct (syllable_run START tokens) as [state|] eqn:Hrun.
  2:{ exists false. split; [|intros Hd; discriminate Hd].
      intros fuel Hf. rewrite (Hbc fuel Hf), (Hr fuel Hf).
      destruct (Nat.eqb_spec (length tokens) 0); [contradiction|].
      rewrite Hrun. reflexivity. }
  exists (match state with VOWEL | CODA | EXTENSION => true | _ => false end).
  split.
  { intros fuel Hf. rewrite (Hbc fuel Hf), (Hr fuel Hf).
    destruct (Nat.eqb_spec (length tokens) 0); [contradiction|].
    rewrite Hrun. reflexivity. }
  intros Hfinal. destruct Hspec as (Hjoin & Hall).
  assert (Hne : tokens <> []) by (intros ->; apply Hl; reflexivity).
  destruct (syllable_run_ends tokens state Hne Hrun) as ((first & Hhead & Hfirst) & Hlast).
  unfold good_word_facts. split; [|split; [|split]].
  - apply orb_false_iff in Hlen. destruct Hlen as (H2 & H12).
    apply Nat.ltb_ge in H2. apply Nat.ltb_ge in H12. lia.
  - rewrite <- Hjoin. now apply word_letters.
  - apply existsb_exists in Hv. destruct Hv as (v & Hin & Hhas).
    exists v. split; [exact (proj1 (set_has_In _ _) Hhas)|exact Hin].
  - exists tokens, first, (List.last tokens ""%string).
    split; [exact Hjoin|]. split; [exact Hall|]. split; [exact Hhead|].
    split; [exact Hfirst|]. split; [reflexivity|].
    destruct state; try discriminate Hfinal; tauto.
Qed.

(** The check on three words: one that it accepts, one that it rejects
    for a repeated pattern and one that it cannot split into tokens. *)
Example isGoodWord_examples :
  map (isGoodWord by_code_units 13) ["splint"; "banana"; "the"]%string =
    [Some true; Some false; Some false].
Proof. vm_compute. reflexivity. Qed.
